(** * zimai-resume: the scoring coercer, the text normalizer and the
      heuristic extractors, embedded in Rocq

    The development follows the JavaScript sources:
    - [services/aiScorer.js]   (class AIScorer: processAIResponse,
      scoreResume, batchScoreResumes),
    - [services/pdfParser.js]  (class PDFParser: extractSkills,
      extractExperience, validatePDF),
    - [utils/sanitizeText.js]  (sanitizeText).

    JavaScript strings are sequences of UTF-16 code units, numbers are
    IEEE doubles of which only the order and the special values matter
    here, and every function that can throw lives in a small completion
    monad. *)

From Stdlib Require Import List Bool Arith NArith ZArith QArith Lia String Ascii.
From Stdlib Require Strings.Byte.
Import ListNotations.

Set Implicit Arguments.
Set Warnings "-register-all".

(* ===================================================================== *)
(** * Part I. The JavaScript fragment the sources rely on                 *)
(* ===================================================================== *)

Module JS.

(** ** Strings *)

(** A string is the list of its UTF-16 code units. *)
Definition jsstring := list N.

(** An ASCII literal of the source, as code units. *)
Definition lit (s : string) : jsstring :=
  List.map N_of_ascii (list_ascii_of_string s).

Definition str_eqb (a b : jsstring) : bool :=
  if list_eq_dec N.eq_dec a b then true else false.

Definition str_mem (a : jsstring) (l : list jsstring) : bool :=
  existsb (str_eqb a) l.

(** WhiteSpace and LineTerminator of the language specification; their
    union is what [\s] and [String.prototype.trim] recognise. *)
Definition isWhiteSpace (c : N) : bool :=
  ((c =? 0x9) || (c =? 0xB) || (c =? 0xC) || (c =? 0x20) || (c =? 0xA0)
   || (c =? 0x1680) || ((0x2000 <=? c) && (c <=? 0x200A))
   || (c =? 0x202F) || (c =? 0x205F) || (c =? 0x3000) || (c =? 0xFEFF))%N.

Definition isLineTerminator (c : N) : bool :=
  ((c =? 0xA) || (c =? 0xD) || (c =? 0x2028) || (c =? 0x2029))%N.

Definition isSpace (c : N) : bool := isWhiteSpace c || isLineTerminator c.

Definition isDigit (c : N) : bool := ((0x30 <=? c) && (c <=? 0x39))%N.

Definition isUpper (c : N) : bool := ((0x41 <=? c) && (c <=? 0x5A))%N.
Definition isLower (c : N) : bool := ((0x61 <=? c) && (c <=? 0x7A))%N.
Definition isAlpha (c : N) : bool := isUpper c || isLower c.

(** [\w]: letters, digits and the underscore. *)
Definition isWordChar (c : N) : bool := isAlpha c || isDigit c || (c =? 0x5F)%N.

Fixpoint dropWhile (p : N -> bool) (s : jsstring) : jsstring :=
  match s with
  | [] => []
  | c :: t => if p c then dropWhile p t else s
  end.

Fixpoint takeWhile (p : N -> bool) (s : jsstring) : jsstring :=
  match s with
  | [] => []
  | c :: t => if p c then c :: takeWhile p t else []
  end.

Definition trimStart (s : jsstring) : jsstring := dropWhile isSpace s.
Definition trimEnd (s : jsstring) : jsstring := rev (dropWhile isSpace (rev s)).

(** [String.prototype.trim]. *)
Definition trim (s : jsstring) : jsstring := trimEnd (trimStart s).

(** ** Numbers *)

(** A Number: NaN, the two infinities, or a finite value.  A finite double
    is a rational, and the program only compares numbers and passes them
    on, so finite values are kept as exact rationals (the sign of zero is
    not represented; of the conversions, [parseInt] rounds to the nearest
    double, see [double_of_Z]). *)
Inductive number : Type :=
| NaN
| Fin (q : Q)
| PosInf
| NegInf.

Definition num_of_Z (z : Z) : number := Fin (inject_Z z).

(** The integer nearest to [a], for [a] from 2^53 on, among those a
    double holds: a significand of 53 bits times a power of two, a tie
    going to the even significand. *)
Definition nearest53 (a : Z) : Z :=
  let k := (Z.log2 a - 52)%Z in
  let n := (a / 2 ^ k)%Z in
  let r2 := (2 * (a mod 2 ^ k))%Z in
  let n' := if (2 ^ k <? r2)%Z || ((r2 =? 2 ^ k)%Z && Z.odd n)
            then (n + 1)%Z else n in
  (n' * 2 ^ k)%Z.

(** The Number for an integer: the integer itself below 2^53, the
    nearest double from there on, an infinity once that reaches 2^1024. *)
Definition double_of_Z (z : Z) : number :=
  let a := Z.abs z in
  if (a <? 2 ^ 53)%Z then num_of_Z z
  else
    let r := nearest53 a in
    if (2 ^ 1024 <=? r)%Z then (if (z <? 0)%Z then NegInf else PosInf)
    else num_of_Z (Z.sgn z * r).

(** [Math.max] and [Math.min] on two numbers (arguments already coerced). *)
Definition Math_max (a b : number) : number :=
  match a, b with
  | NaN, _ => NaN
  | _, NaN => NaN
  | PosInf, _ => PosInf
  | _, PosInf => PosInf
  | NegInf, x => x
  | x, NegInf => x
  | Fin p, Fin q => if Qle_bool p q then Fin q else Fin p
  end.

Definition Math_min (a b : number) : number :=
  match a, b with
  | NaN, _ => NaN
  | _, NaN => NaN
  | NegInf, _ => NegInf
  | _, NegInf => NegInf
  | PosInf, x => x
  | x, PosInf => x
  | Fin p, Fin q => if Qle_bool p q then Fin p else Fin q
  end.

(** ** StringToNumber: the StringNumericLiteral grammar *)

Definition digitValue (base : Z) (c : N) : option Z :=
  let v :=
    if isDigit c then Some (Z.of_N c - 48)%Z
    else if ((0x61 <=? c) && (c <=? 0x66))%N then Some (Z.of_N c - 87)%Z
    else if ((0x41 <=? c) && (c <=? 0x46))%N then Some (Z.of_N c - 55)%Z
    else None in
  match v with
  | Some d => if (d <? base)%Z then Some d else None
  | None => None
  end.

(** Value of a digit string in a base; [None] on an empty string or a
    foreign character. *)
Fixpoint digitsValue (base : Z) (acc : Z) (s : jsstring) : option Z :=
  match s with
  | [] => Some acc
  | c :: t =>
      match digitValue base c with
      | Some d => digitsValue base (acc * base + d)%Z t
      | None => None
      end
  end.

Definition digitsValue1 (base : Z) (s : jsstring) : option Z :=
  match s with
  | [] => None
  | _ => digitsValue base 0 s
  end.

(** Optional sign: the factor and the rest. *)
Definition readSign (s : jsstring) : Z * jsstring :=
  match s with
  | 0x2B%N :: t => (1%Z, t)
  | 0x2D%N :: t => ((-1)%Z, t)
  | _ => (1%Z, s)
  end.

(** ExponentPart, when present: [e] or [E], an optional sign, digits. *)
Definition readExponent (s : jsstring) : option Z :=
  match s with
  | [] => Some 0%Z
  | c :: t =>
      if ((c =? 0x65) || (c =? 0x45))%N then
        let (sg, d) := readSign t in
        match digitsValue1 10 d with
        | Some e => Some (sg * e)%Z
        | None => None
        end
      else None
  end.

(** StrUnsignedDecimalLiteral other than [Infinity]:
    digits [. digits] [exp]  |  . digits [exp]. *)
Definition readUnsignedDecimal (s : jsstring) : option Q :=
  let ip := takeWhile isDigit s in
  let r1 := dropWhile isDigit s in
  let '(fp, r2) :=
    match r1 with
    | 0x2E%N :: t => (takeWhile isDigit t, dropWhile isDigit t)
    | _ => ([], r1)
    end in
  match ip ++ fp with
  | [] => None
  | ds =>
      match digitsValue 10 0 ds, readExponent r2 with
      | Some m, Some e =>
          Some (inject_Z m * Qpower (10 # 1) (e - Z.of_nat (List.length fp)))%Q
      | _, _ => None
      end
  end.

Definition readDecimal (s : jsstring) : number :=
  let (sg, u) := readSign s in
  if str_eqb u (lit "Infinity") then (if (sg <? 0)%Z then NegInf else PosInf)
  else match readUnsignedDecimal u with
       | Some q => Fin (inject_Z sg * q)%Q
       | None => NaN
       end.

(** NonDecimalIntegerLiteral: [0x], [0o], [0b] prefixes, never signed. *)
Definition readNonDecimal (s : jsstring) : option number :=
  match s with
  | 0x30%N :: p :: t =>
      let base :=
        if ((p =? 0x78) || (p =? 0x58))%N then Some 16%Z
        else if ((p =? 0x6F) || (p =? 0x4F))%N then Some 8%Z
        else if ((p =? 0x62) || (p =? 0x42))%N then Some 2%Z
        else None in
      match base with
      | Some b =>
          match digitsValue1 b t with
          | Some v => Some (num_of_Z v)
          | None => Some NaN
          end
      | None => None
      end
  | _ => None
  end.

Definition StringToNumber (s : jsstring) : number :=
  match trim s with
  | [] => num_of_Z 0
  | t => match readNonDecimal t with
         | Some n => n
         | None => readDecimal t
         end
  end.

(** ** Values *)

(** The values a parsed JSON text is made of, and [undefined], which
    reading an absent property yields. *)
Inductive value : Type :=
| VUndefined
| VNull
| VBool (b : bool)
| VNum (n : number)
| VStr (s : jsstring)
| VArr (l : list value)
| VObj (kv : list (jsstring * value)).

(** ** Completions *)

(** Either a normal result or a thrown error (kept as its message). *)
Inductive completion (A : Type) : Type :=
| Normal (a : A)
| Throw (msg : string).

Arguments Normal {A} a.
Arguments Throw {A} msg.

Definition bind {A B} (c : completion A) (k : A -> completion B) : completion B :=
  match c with
  | Normal a => k a
  | Throw m => Throw m
  end.

(** [try { body } catch (error) { handler }]. *)
Definition try_catch {A} (body : completion A) (handler : string -> completion A)
  : completion A :=
  match body with
  | Normal a => Normal a
  | Throw m => handler m
  end.

(** The value of a normal completion. *)
Definition normal {A} (c : completion A) : option A :=
  match c with
  | Normal a => Some a
  | Throw _ => None
  end.

Declare Scope js_scope.
Delimit Scope js_scope with js.
Notation "x <- c ;; k" := (bind c (fun x => k))
  (at level 61, c at next level, right associativity) : js_scope.

Definition TypeError : string := "TypeError"%string.

(** ** Property access and coercions *)

(** Own property of a parsed object; of two entries with one key the
    later one is the property, as [JSON.parse] has it. *)
Fixpoint lookup (k : jsstring) (kv : list (jsstring * value)) : option value :=
  match kv with
  | [] => None
  | (k', v) :: t =>
      match lookup k t with
      | Some w => Some w
      | None => if str_eqb k k' then Some v else None
      end
  end.

Definition has_key (k : jsstring) (kv : list (jsstring * value)) : bool :=
  match lookup k kv with Some _ => true | None => false end.

(** [v.k] for a name [k] that is neither an index nor a member of a
    built-in prototype, [length] apart: reading from [null] or [undefined]
    throws, primitives and arrays have no such property. *)
Definition get (v : value) (k : jsstring) : completion value :=
  match v with
  | VUndefined | VNull => Throw TypeError
  | VObj kv => Normal (match lookup k kv with Some w => w | None => VUndefined end)
  | VArr l =>
      Normal (if str_eqb k (lit "length")
              then VNum (num_of_Z (Z.of_nat (List.length l))) else VUndefined)
  | VStr s =>
      Normal (if str_eqb k (lit "length")
              then VNum (num_of_Z (Z.of_nat (List.length s))) else VUndefined)
  | VBool _ | VNum _ => Normal VUndefined
  end.

(** [v?.k]. *)
Definition get_opt (v : value) (k : jsstring) : completion value :=
  match v with
  | VUndefined | VNull => Normal VUndefined
  | _ => get v k
  end.

(** [v[0]]: the first element of an array, the first code unit of a
    string, the property [0] of an object; reading from [null] or
    [undefined] throws. *)
Definition item0 (v : value) : completion value :=
  match v with
  | VUndefined | VNull => Throw TypeError
  | VArr l => Normal (match l with e :: _ => e | [] => VUndefined end)
  | VStr s => Normal (match s with c :: _ => VStr [c] | [] => VUndefined end)
  | VObj kv => Normal (match lookup (lit "0") kv with Some w => w | None => VUndefined end)
  | VBool _ | VNum _ => Normal VUndefined
  end.

(** ToBoolean. *)
Definition truthy (v : value) : bool :=
  match v with
  | VUndefined | VNull => false
  | VBool b => b
  | VNum NaN => false
  | VNum (Fin q) => negb (Qeq_bool q 0)
  | VNum _ => true
  | VStr s => match s with [] => false | _ => true end
  | VArr _ | VObj _ => true
  end.

(** [a || b]. *)
Definition or_else (a b : value) : value := if truthy a then a else b.

Definition isArray (v : value) : bool :=
  match v with VArr _ => true | _ => false end.

(** Converting a parsed object to a primitive goes through its [toString]
    property; an own property of that name is never callable, and the
    conversion then throws.  [tostring_throws v] tells whether ToString
    of [v] throws: arrays join the strings of their elements. *)
Fixpoint tostring_throws (v : value) : bool :=
  match v with
  | VObj kv => has_key (lit "toString") kv
  | VArr l => existsb tostring_throws l
  | _ => false
  end.

(** The number denoted by the string of a one-element array's element
    (the array's own string): [null] and [undefined] print as the empty
    string, a number prints to a literal that reads back as itself. *)
Fixpoint joined_number (v : value) : number :=
  match v with
  | VUndefined | VNull => num_of_Z 0
  | VBool _ => NaN
  | VNum n => n
  | VStr s => StringToNumber s
  | VObj _ => NaN
  | VArr l =>
      match l with
      | [] => num_of_Z 0
      | [e] => joined_number e
      | _ => NaN
      end
  end.

(** ToNumber. *)
Definition ToNumber (v : value) : completion number :=
  match v with
  | VUndefined => Normal NaN
  | VNull => Normal (num_of_Z 0)
  | VBool b => Normal (num_of_Z (if b then 1 else 0))
  | VNum n => Normal n
  | VStr s => Normal (StringToNumber s)
  | VObj _ | VArr _ =>
      if tostring_throws v then Throw TypeError else Normal (joined_number v)
  end.

End JS.

(* ===================================================================== *)
(** * Part II. services/aiScorer.js                                       *)
(* ===================================================================== *)

(** The identity facts recovered from one document (pdfParser's
    extractBasicInfo builds this object; every field is a string or
    [null]). *)
Module BasicInfo.
Record t : Type := mk {
  candidateName : option JS.jsstring;
  email : option JS.jsstring;
  phone : option JS.jsstring;
  location : option JS.jsstring
}.
End BasicInfo.

Module AIScorer.
Import JS.
Local Open Scope js_scope.

Record Breakdown : Type := mkBreakdown {
  skills : number;
  experience : number;
  education : number;
  relevance : number
}.

(** The object literal that processAIResponse builds.  The fields hold
    what the expressions of the source can evaluate to: [Math.min] gives a
    number, [slice] an array, [x || default] any value. *)
Record ScoringResult : Type := mkScoringResult {
  overallScore : number;
  breakdown : Breakdown;
  strengths : list value;
  weaknesses : list value;
  keywordMatches : list value;
  experienceYears : number;
  summary : value;
  recommendations : list value;
  redFlags : list value;
  fitScore : number;
  candidateName : option jsstring;
  keywordsMatched : value
}.

Definition zero : value := VNum (num_of_Z 0).

(** [Math.min(100, Math.max(0, v))]. *)
Definition clamp_score (v : value) : completion number :=
  n <- ToNumber v ;;
  Normal (Math_min (num_of_Z 100) (Math_max (num_of_Z 0) n)).

(** [Math.max(0, v)]. *)
Definition at_least_zero (v : value) : completion number :=
  n <- ToNumber v ;;
  Normal (Math_max (num_of_Z 0) n).

(** [Array.isArray(v) ? v.slice(0, n) : []]. *)
Definition array_prefix (n : nat) (v : value) : list value :=
  match v with
  | VArr l => firstn n l
  | _ => []
  end.

(** [aiResponse.breakdown?.k || 0], clamped. *)
Definition breakdown_score (aiResponse : value) (k : string) : completion number :=
  b <- get aiResponse (lit "breakdown") ;;
  s <- get_opt b (lit k) ;;
  clamp_score (or_else s zero).

(** The [try] block of processAIResponse, field by field in source
    order. *)
Definition processed (aiResponse : value) (basicInfo : BasicInfo.t)
  : completion ScoringResult :=
  o <- get aiResponse (lit "overallScore") ;;
  overall <- clamp_score (or_else o zero) ;;
  sk <- breakdown_score aiResponse "skills" ;;
  ex <- breakdown_score aiResponse "experience" ;;
  ed <- breakdown_score aiResponse "education" ;;
  re <- breakdown_score aiResponse "relevance" ;;
  st <- get aiResponse (lit "strengths") ;;
  we <- get aiResponse (lit "weaknesses") ;;
  km <- get aiResponse (lit "keywordMatches") ;;
  ey <- get aiResponse (lit "experienceYears") ;;
  years <- at_least_zero (or_else ey zero) ;;
  su <- get aiResponse (lit "summary") ;;
  rc <- get aiResponse (lit "recommendations") ;;
  rf <- get aiResponse (lit "redFlags") ;;
  fs <- get aiResponse (lit "fitScore") ;;
  fo <- (if truthy fs then Normal fs
         else o' <- get aiResponse (lit "overallScore") ;; Normal (or_else o' zero)) ;;
  fit <- clamp_score fo ;;
  km' <- get aiResponse (lit "keywordMatches") ;;
  len <- get_opt km' (lit "length") ;;
  Normal {|
    overallScore := overall;
    breakdown := {| skills := sk; experience := ex; education := ed; relevance := re |};
    strengths := array_prefix 10 st;
    weaknesses := array_prefix 10 we;
    keywordMatches := array_prefix 20 km;
    experienceYears := years;
    summary := or_else su (VStr (lit "Resume analyzed successfully."));
    recommendations := array_prefix 5 rc;
    redFlags := array_prefix 5 rf;
    fitScore := fit;
    candidateName := BasicInfo.candidateName basicInfo;
    keywordsMatched := or_else len zero
  |}.

(** The object literal of the [catch] block. *)
Definition fallback (basicInfo : BasicInfo.t) : ScoringResult :=
  {|
    overallScore := num_of_Z 50;
    breakdown := {| skills := num_of_Z 50; experience := num_of_Z 50;
                    education := num_of_Z 50; relevance := num_of_Z 50 |};
    strengths := [VStr (lit "Resume processed")];
    weaknesses := [VStr (lit "Unable to complete full analysis")];
    keywordMatches := [];
    experienceYears := num_of_Z 0;
    summary := VStr (lit "Basic analysis completed with limited AI processing.");
    recommendations := [VStr (lit "Manual review recommended")];
    redFlags := [];
    fitScore := num_of_Z 50;
    candidateName := BasicInfo.candidateName basicInfo;
    keywordsMatched := zero
  |}.

Definition processAIResponse (aiResponse : value) (basicInfo : BasicInfo.t)
  : completion ScoringResult :=
  try_catch (processed aiResponse basicInfo)
            (fun _ => Normal (fallback basicInfo)).

(** ** scoreResume and batchScoreResumes *)

(** What [openai.chat.completions.create] settles to: a rejection with
    its message, or the value it resolves to. *)
Inductive reply : Type :=
| Rejected (message : string)
| Resolved (chatCompletion : value).

(** [completion.choices[0].message.content]. *)
Definition content_of (chatCompletion : value) : completion value :=
  choices <- get chatCompletion (lit "choices") ;;
  choice <- item0 choices ;;
  message <- get choice (lit "message") ;;
  get message (lit "content").

(** [completion.usage.total_tokens]. *)
Definition total_tokens_of (chatCompletion : value) : completion value :=
  usage <- get chatCompletion (lit "usage") ;;
  get usage (lit "total_tokens").

(** The process as the orchestrator sees it: how many calls the external
    service has received, and the milliseconds spent in pauses. *)
Record world : Type := mkWorld {
  calls : nat;
  paused : N
}.

(** One element of the [resumes] argument of batchScoreResumes. *)
Record resume : Type := mkResume {
  id : jsstring;
  extractedText : jsstring;
  basicInfo : BasicInfo.t
}.

(** What scoreResume returns: [{...scoringResult, tokensUsed}]. *)
Record scored : Type := mkScored {
  scoringResult : ScoringResult;
  tokensUsed : value
}.

(** One entry of the array batchScoreResumes returns:
    [{resumeId, success: true, ...result}] or
    [{resumeId, success: false, error, overallScore: 0, summary: 'Scoring failed'}]. *)
Inductive outcome : Type :=
| Succeeded (resumeId : jsstring) (result : scored)
| Failed (resumeId : jsstring) (error : string).

Definition resumeId (o : outcome) : jsstring :=
  match o with
  | Succeeded i _ => i
  | Failed i _ => i
  end.

Definition success (o : outcome) : bool :=
  match o with
  | Succeeded _ _ => true
  | Failed _ _ => false
  end.

Definition error (o : outcome) : option string :=
  match o with
  | Succeeded _ _ => None
  | Failed _ m => Some m
  end.

Section Orchestrator.

(** The job-requirements record and the prompt text are passed through
    to the external service untouched; no property below looks inside. *)
Variable JobRequirements : Type.
Variable buildScoringPrompt :
  jsstring -> option JobRequirements -> BasicInfo.t -> jsstring.

(** The external text-generation service: the reply to the n-th call of
    the process, given the prompt. *)
Variable create : nat -> jsstring -> reply.

(** [JSON.parse(x)], the conversion of [x] to a string included. *)
Variable JSON_parse : value -> completion value.

Definition scoreResume (resumeText : jsstring) (jobRequirements : option JobRequirements)
    (basicInfo : BasicInfo.t) (w : world) : completion scored * world :=
  let prompt := buildScoringPrompt resumeText jobRequirements basicInfo in
  let w' := {| calls := S (calls w); paused := paused w |} in
  (try_catch
     (match create (calls w) prompt with
      | Rejected m => Throw m
      | Resolved chatCompletion =>
          responseText <- content_of chatCompletion ;;
          aiResponse <- JSON_parse responseText ;;
          scoringResult <- processAIResponse aiResponse basicInfo ;;
          total_tokens <- total_tokens_of chatCompletion ;;
          Normal {| scoringResult := scoringResult; tokensUsed := total_tokens |}
      end)
     (fun m => Throw ("AI scoring failed: " ++ m)%string),
   w').

(** [await new Promise(resolve => setTimeout(resolve, ms))]. *)
Definition pause (ms : N) (w : world) : world :=
  {| calls := calls w; paused := (paused w + ms)%N |}.

(** The [for (const resume of resumes)] loop, [results] being the array
    pushed to. *)
Fixpoint batch_loop (resumes : list resume) (jobRequirements : option JobRequirements)
    (results : list outcome) (w : world) : list outcome * world :=
  match resumes with
  | [] => (results, w)
  | r :: rest =>
      match scoreResume (extractedText r) jobRequirements (basicInfo r) w with
      | (Normal result, w1) =>
          batch_loop rest jobRequirements
                     (results ++ [Succeeded (id r) result]) (pause 1000 w1)
      | (Throw m, w1) =>
          batch_loop rest jobRequirements (results ++ [Failed (id r) m]) w1
      end
  end.

Definition batchScoreResumes (resumes : list resume)
    (jobRequirements : option JobRequirements) (w : world) : list outcome * world :=
  batch_loop resumes jobRequirements [] w.

End Orchestrator.

End AIScorer.

(* ===================================================================== *)
(** * Part III. Regular expressions                                       *)
(* ===================================================================== *)

(** The backtracking matcher of the language specification, for the
    pattern constructs the sources use (no capture is ever read back, so
    groups only bracket).  Quantifiers are greedy. *)
Module Regex.
Import JS.

Inductive regex : Type :=
| Eps                          (* the empty pattern *)
| Cls (p : N -> bool)          (* one code unit of a class *)
| Seq (a b : regex)            (* ab *)
| Alt (a b : regex)            (* a|b *)
| Star (a : regex)             (* a* *)
| Bol                          (* ^ *)
| Eol                          (* $ *)
| WordB.                       (* \b *)

(** Derived forms. *)
Definition Plus (a : regex) : regex := Seq a (Star a).
Definition Opt (a : regex) : regex := Alt a Eps.

Fixpoint Rep (n : nat) (a : regex) : regex :=
  match n with
  | O => Eps
  | S n' => Seq a (Rep n' a)
  end.

(** [a{n,}]. *)
Definition AtLeast (n : nat) (a : regex) : regex := Seq (Rep n a) (Star a).

Definition chr (c : N) : regex := Cls (N.eqb c).

(** Canonicalize of the [i] flag, on the Basic Latin letters: a code unit
    outside ASCII never canonicalizes to an ASCII one. *)
Definition canon (c : N) : N := if isLower c then (c - 32)%N else c.

Definition chr_i (c : N) : regex := Cls (fun x => N.eqb (canon x) (canon c)).

Fixpoint seq_of (f : N -> regex) (s : jsstring) : regex :=
  match s with
  | [] => Eps
  | [c] => f c
  | c :: t => Seq (f c) (seq_of f t)
  end.

(** A literal, and a literal under the [i] flag. *)
Definition str (s : string) : regex := seq_of chr (lit s).
Definition str_i (s : string) : regex := seq_of chr_i (lit s).

Definition any : N -> bool := fun _ => true.
Definition one_of (s : string) : N -> bool := fun c => existsb (N.eqb c) (lit s).
Definition union (p q : N -> bool) : N -> bool := fun c => p c || q c.

Definition line_start (prev : option N) : bool :=
  match prev with
  | None => true
  | Some c => isLineTerminator c
  end.

Definition line_end (s : jsstring) : bool :=
  match s with
  | [] => true
  | c :: _ => isLineTerminator c
  end.

Definition word_before (prev : option N) : bool :=
  match prev with
  | None => false
  | Some c => isWordChar c
  end.

Definition word_after (s : jsstring) : bool :=
  match s with
  | [] => false
  | c :: _ => isWordChar c
  end.

Section Matcher.

(** The [m] flag. *)
Variable multiline : bool.

(** A position is the code unit before it (if any) and the text after
    it; a continuation receives the position a sub-pattern ended at and
    yields the text left after the whole match. *)
Definition cont : Type := option N -> jsstring -> option jsstring.

Fixpoint m (r : regex) (prev : option N) (s : jsstring) (k : cont) {struct r}
  : option jsstring :=
  match r with
  | Eps => k prev s
  | Cls p =>
      match s with
      | c :: t => if p c then k (Some c) t else None
      | [] => None
      end
  | Seq a b => m a prev s (fun p' s' => m b p' s' k)
  | Alt a b =>
      match m a prev s k with
      | Some x => Some x
      | None => m b prev s k
      end
  | Star a =>
      (fix loop (fuel : nat) (prev : option N) (s : jsstring) {struct fuel}
         : option jsstring :=
         match fuel with
         | O => k prev s
         | S f =>
             match m a prev s
                     (fun p' s' =>
                        if (List.length s' <? List.length s)%nat
                        then loop f p' s' else None) with
             | Some x => Some x
             | None => k prev s
             end
         end) (List.length s) prev s
  | Bol =>
      if (if multiline then line_start prev
          else match prev with None => true | Some _ => false end)
      then k prev s else None
  | Eol =>
      if (if multiline then line_end s
          else match s with [] => true | _ => false end)
      then k prev s else None
  | WordB =>
      if xorb (word_before prev) (word_after s) then k prev s else None
  end.

(** A match that starts exactly here: the text left after it. *)
Definition match_here (r : regex) (prev : option N) (s : jsstring) : option jsstring :=
  m r prev s (fun _ s' => Some s').

(** The leftmost match at or after this position: the text skipped, the
    match, the text left. *)
Fixpoint search (r : regex) (prev : option N) (s : jsstring)
  : option (jsstring * jsstring * jsstring) :=
  match match_here r prev s with
  | Some rest => Some ([], firstn (List.length s - List.length rest) s, rest)
  | None =>
      match s with
      | [] => None
      | c :: t =>
          match search r (Some c) t with
          | Some (sk, mt, rest) => Some (c :: sk, mt, rest)
          | None => None
          end
      end
  end.

(** [regex.test(s)] on a fresh regular expression. *)
Definition test (r : regex) (s : jsstring) : bool :=
  match search r None s with
  | Some _ => true
  | None => false
  end.

(** The successive matches under the [g] flag, each with the text
    between it and the match before, and the text after the last match.
    After an empty match the scan resumes one code unit further. *)
Fixpoint scan (fuel : nat) (r : regex) (prev : option N) (s : jsstring)
  : list (jsstring * jsstring) * jsstring :=
  match fuel with
  | O => ([], s)
  | S f =>
      match search r prev s with
      | None => ([], s)
      | Some (sk, mt, rest) =>
          match mt with
          | [] =>
              match rest with
              | [] => ([(sk, [])], [])
              | c :: t =>
                  match scan f r (Some c) t with
                  | ([], tl) => ([(sk, [])], c :: tl)
                  | ((sk', mt') :: ms, tl) => ((sk, []) :: (c :: sk', mt') :: ms, tl)
                  end
              end
          | _ =>
              let (ms, tl) := scan f r (Some (last mt 0%N)) rest in
              ((sk, mt) :: ms, tl)
          end
      end
  end.

Definition scan_all (r : regex) (s : jsstring) : list (jsstring * jsstring) * jsstring :=
  scan (S (List.length s)) r None s.

(** [s.match(r)] for a global [r]: the matched texts ([null] is the empty
    list). *)
Definition match_all (r : regex) (s : jsstring) : list jsstring :=
  List.map snd (fst (scan_all r s)).

(** [s.replace(r, by)] for a global [r] and a replacement text without
    [$]. *)
Definition replace (r : regex) (by_ : jsstring) (s : jsstring) : jsstring :=
  let (ms, tl) := scan_all r s in
  List.concat (List.map (fun x => fst x ++ by_) ms) ++ tl.

End Matcher.

End Regex.

(* ===================================================================== *)
(** * Part IV. utils/sanitizeText.js                                      *)
(* ===================================================================== *)

Module SanitizeText.
Import JS Regex.

(** A pattern written as the sequence of its parts. *)
Fixpoint cat (l : list regex) : regex :=
  match l with
  | [] => Eps
  | [a] => a
  | a :: t => Seq a (cat t)
  end.

Definition ws : regex := Cls isSpace.        (* \s *)
Definition digit : regex := Cls isDigit.     (* \d *)

Definition LF : N := 0xA.
Definition CR : N := 0xD.
Definition FF : N := 0xC.
Definition TAB : N := 0x9.
Definition SP : N := 0x20.
Definition NBSP : N := 0xA0.
Definition BULLET : N := 0x2022.
Definition EN_DASH : N := 0x2013.
Definition EM_DASH : N := 0x2014.
Definition ELLIPSIS : N := 0x2026.
Definition DOT : N := 0x2E.
Definition HYPHEN : N := 0x2D.
Definition UNDERSCORE : N := 0x5F.
Definition DQUOTE : N := 0x22.
Definition SQUOTE : N := 0x27.

(** The patterns of sanitizeText, in source order. *)
Definition re_crlf : regex := cat [chr CR; chr LF].                   (* /\r\n/g *)
Definition re_cr : regex := chr CR.                                   (* /\r/g *)
Definition re_newlines : regex := AtLeast 3 (chr LF).                 (* /\n{3,}/g *)
Definition re_blanks : regex :=                                       (* /[ \t]{2,}/g *)
  AtLeast 2 (Cls (fun c => N.eqb c SP || N.eqb c TAB)).
Definition re_dots : regex := AtLeast 4 (chr DOT).                    (* /\.{4,}/g *)
Definition re_hyphens : regex := AtLeast 3 (chr HYPHEN).              (* /-{3,}/g *)
Definition re_underscores : regex := AtLeast 3 (chr UNDERSCORE).      (* /_{3,}/g *)
Definition re_page : regex :=                           (* /^\s*Page \d+ of \d+\s*$/gm *)
  cat [Bol; Star ws; str "Page "; Plus digit; str " of "; Plus digit; Star ws; Eol].
Definition re_number_line : regex :=                    (* /^\s*\d+\s*$/gm *)
  cat [Bol; Star ws; Plus digit; Star ws; Eol].
Definition re_confidential : regex :=       (* /Confidential and Proprietary[\s\S]*$/gm *)
  cat [str "Confidential and Proprietary"; Star (Cls any); Eol].
Definition re_email_footer : regex :=       (* /This email and any attachments[\s\S]*$/gm *)
  cat [str "This email and any attachments"; Star (Cls any); Eol].
Definition re_blank_lines : regex :=                    (* /\n\s*\n\s*\n/g *)
  cat [chr LF; Star ws; chr LF; Star ws; chr LF].

(** The body of sanitizeText once [text] is a non-empty string; one
    binding per assignment to [cleaned]. *)
Definition clean (text : jsstring) : jsstring :=
  let cleaned := text in
  let cleaned := replace false re_crlf [LF] cleaned in
  let cleaned := replace false re_cr [LF] cleaned in
  let cleaned := replace false re_newlines [LF; LF] cleaned in
  let cleaned := replace false re_blanks [SP] cleaned in
  let cleaned := replace false (chr FF) [] cleaned in
  let cleaned := replace false (chr NBSP) [SP] cleaned in
  let cleaned := replace false (chr BULLET) [BULLET] cleaned in
  let cleaned := replace false (chr EN_DASH) [HYPHEN] cleaned in
  let cleaned := replace false (chr EM_DASH) [HYPHEN; HYPHEN] cleaned in
  let cleaned := replace false (chr DQUOTE) [DQUOTE] cleaned in
  let cleaned := replace false (chr SQUOTE) [SQUOTE] cleaned in
  let cleaned := replace false (chr ELLIPSIS) [DOT; DOT; DOT] cleaned in
  let cleaned := replace false re_dots [DOT; DOT; DOT] cleaned in
  let cleaned := replace false re_hyphens [HYPHEN; HYPHEN] cleaned in
  let cleaned := replace false re_underscores [UNDERSCORE; UNDERSCORE] cleaned in
  let cleaned := replace true re_page [] cleaned in
  let cleaned := replace true re_number_line [] cleaned in
  let cleaned := replace true re_confidential [] cleaned in
  let cleaned := replace true re_email_footer [] cleaned in
  let cleaned := trim cleaned in
  let cleaned := replace false re_blank_lines [LF; LF] cleaned in
  cleaned.

(** [if (!text || typeof text !== 'string') return '';] and the body. *)
Definition sanitizeText (text : value) : completion jsstring :=
  match text with
  | VStr s => if truthy text then Normal (clean s) else Normal []
  | _ => Normal []
  end.

End SanitizeText.

(* ===================================================================== *)
(** * Part V. services/pdfParser.js                                       *)
(* ===================================================================== *)

Module PDFParser.
Import JS Regex.
Local Open Scope js_scope.

Definition cat := SanitizeText.cat.
Definition ws := SanitizeText.ws.
Definition digit := SanitizeText.digit.

(** [new Set(l)] spread back into an array: the first occurrence of every
    element, in order. *)
Fixpoint uniq (seen : list jsstring) (l : list jsstring) : list jsstring :=
  match l with
  | [] => []
  | x :: t => if str_mem x seen then uniq seen t else x :: uniq (x :: seen) t
  end.

Definition isAscii (c : N) : bool := (c <? 0x80)%N.
Definition lowerAscii (c : N) : N := if isUpper c then (c + 32)%N else c.

(** ** extractSkills *)

Definition commonSkills : list jsstring :=
  List.map lit
    [ (* Programming Languages *)
      "javascript"; "python"; "java"; "c++"; "c#"; "php"; "ruby"; "go"; "rust"; "swift";
      "kotlin"; "typescript"; "scala"; "r"; "matlab"; "sql"; "html"; "css";
      (* Frameworks & Libraries *)
      "react"; "angular"; "vue"; "node.js"; "express"; "django"; "flask"; "spring";
      "laravel"; "rails"; "asp.net"; "jquery"; "bootstrap"; "tailwind";
      (* Databases *)
      "mysql"; "postgresql"; "mongodb"; "redis"; "elasticsearch"; "oracle"; "sqlite";
      (* Cloud & DevOps *)
      "aws"; "azure"; "gcp"; "docker"; "kubernetes"; "jenkins"; "git"; "ci/cd";
      (* Tools & Technologies *)
      "linux"; "windows"; "macos"; "nginx"; "apache"; "microservices"; "api";
      "restful"; "graphql"; "websockets"; "tcp/ip";
      (* Soft Skills *)
      "leadership"; "communication"; "teamwork"; "problem solving"; "analytical";
      "project management"; "agile"; "scrum"; "kanban" ]%string.

(** [new RegExp(`\\b${escaped skill}\\b`, 'gi')]: the escaping makes every
    character of the skill a literal. *)
Definition skillRegex (skill : jsstring) : regex :=
  cat [WordB; seq_of chr_i skill; WordB].

(** [/\b[A-Za-z0-9._%+-]+@[A-Za-z0-9.-]+\.[A-Z|a-z]{2,}\b/g]. *)
Definition emailRegex : regex :=
  cat [WordB;
       Plus (Cls (union isAlpha (union isDigit (one_of "._%+-"))));
       chr 0x40;
       Plus (Cls (union isAlpha (union isDigit (one_of ".-"))));
       chr 0x2E;
       AtLeast 2 (Cls (union isAlpha (one_of "|")));
       WordB].

Section Skills.

(** [String.prototype.toLowerCase] on a string with a code unit outside
    ASCII follows the Unicode case tables, which are the runtime's. *)
Variable unicodeLowerCase : jsstring -> jsstring.

Definition toLowerCase (s : jsstring) : jsstring :=
  if forallb isAscii s then List.map lowerAscii s else unicodeLowerCase s.

(** The [for (const skill of commonSkills)] loop. *)
Definition foundSkills (textLower : jsstring) : list jsstring :=
  List.filter (fun skill => test false (skillRegex skill) textLower) commonSkills.

(** The [try] block: a [text] that is no string has no [toLowerCase] to
    call. *)
Definition skills_body (text : value) : completion (list jsstring) :=
  match text with
  | VStr s =>
      let textLower := toLowerCase s in
      let found := foundSkills textLower in
      let emails := match_all false emailRegex s in
      Normal (uniq [] (found ++ emails))
  | _ => Throw TypeError
  end.

Definition extractSkills (text : value) : completion (list jsstring) :=
  try_catch (skills_body text) (fun _ => Normal []).

End Skills.

(** ** extractExperience *)

Record experienceInfo : Type := mkExperienceInfo {
  totalYears : number;
  companies : list jsstring;
  positions : list jsstring
}.

Definition plus_sign : regex := chr 0x2B.

(** The three patterns, all with the flags [gi] (written here with a
    space between their parts):
    [(\d+) \+? \s* years? \s* (?: of \s* )? experience],
    [experience [:\s]* (\d+) \+? \s* years?],
    [(\d+) \+? \s* years? \s* in]. *)
Definition experiencePatterns : list regex :=
  [ cat [Plus digit; Opt plus_sign; Star ws; str_i "year"; Opt (str_i "s"); Star ws;
         Opt (cat [str_i "of"; Star ws]); str_i "experience"];
    cat [str_i "experience"; Star (Cls (union (one_of ":") isSpace));
         Plus digit; Opt plus_sign; Star ws; str_i "year"; Opt (str_i "s")];
    cat [Plus digit; Opt plus_sign; Star ws; str_i "year"; Opt (str_i "s"); Star ws;
         str_i "in"] ].

(** The radix [parseInt] settles on and the text after a [0x] or [0X]
    prefix. *)
Definition radixPrefix (u : jsstring) : Z * jsstring :=
  match u with
  | 0x30%N :: p :: t =>
      if ((p =? 0x78) || (p =? 0x58))%N then (16%Z, t) else (10%Z, u)
  | _ => (10%Z, u)
  end.

(** [parseInt(s)]: leading white space, a sign, a hexadecimal prefix, then
    the longest run of digits, read as an integer and returned as the
    Number for it; NaN when there is no digit.  (Past the twentieth
    significant digit the language lets an implementation read zeros;
    Node reads every digit, and so does this.) *)
Definition parseInt (s : jsstring) : number :=
  let (sg, u) := readSign (trimStart s) in
  let '(base, d) := radixPrefix u in
  let isD := fun c => match digitValue base c with Some _ => true | None => false end in
  match digitsValue1 base (takeWhile isD d) with
  | Some v => double_of_Z (sg * v)
  | None => NaN
  end.

(** [a > b] on numbers. *)
Definition gt (a b : number) : bool :=
  match a, b with
  | NaN, _ => false
  | _, NaN => false
  | PosInf, PosInf => false
  | PosInf, _ => true
  | _, PosInf => false
  | NegInf, _ => false
  | _, NegInf => true
  | Fin p, Fin q => negb (Qle_bool p q)
  end.

(** [match.match(/\d+/)[0]]: indexing [null] throws. *)
Definition first_digits (mt : jsstring) : completion jsstring :=
  match search false (Plus digit) None mt with
  | Some (_, d, _) => Normal d
  | None => Throw TypeError
  end.

(** The inner [for (const match of matches)] loop. *)
Fixpoint years_loop (matches : list jsstring) (maxYears : number) : completion number :=
  match matches with
  | [] => Normal maxYears
  | mt :: rest =>
      d <- first_digits mt ;;
      let years := parseInt d in
      years_loop rest (if gt years maxYears then years else maxYears)
  end.

(** The outer [for (const pattern of experiencePatterns)] loop. *)
Fixpoint patterns_loop (patterns : list regex) (text : jsstring) (maxYears : number)
  : completion number :=
  match patterns with
  | [] => Normal maxYears
  | pattern :: rest =>
      maxYears' <- years_loop (match_all false pattern text) maxYears ;;
      patterns_loop rest text maxYears'
  end.

Definition companySuffix : regex :=
  List.fold_right Alt (str_i "Group")
    (List.map str_i
       ["Inc"; "LLC"; "Corp"; "Ltd"; "Company"; "Co."; "Technologies"; "Tech";
        "Solutions"; "Systems"]%string).

(** [[A-Z][A-Za-z\s&.,-]+(?:Inc|...|Group)] under the [i] flag. *)
Definition companyName : regex :=
  cat [Cls isAlpha; Plus (Cls (union isAlpha (union isSpace (one_of "&.,-"))));
       companySuffix].

Definition companyPatterns : list regex :=
  [ cat [str_i "at"; Plus ws; companyName]; companyName ].

(** [s.replace(r, '')] for a regular expression without the [g] flag. *)
Definition remove_first (r : regex) (s : jsstring) : jsstring :=
  match search false r None s with
  | Some (sk, _, rest) => sk ++ rest
  | None => s
  end.

(** The [forEach] callback: the candidate, when it is kept. *)
Definition company_of (mt : jsstring) : list jsstring :=
  let company := trim (remove_first (cat [Bol; str_i "at"; Plus ws]) mt) in
  if ((3 <? List.length company) && (List.length company <? 100))%nat
  then [company] else [].

Definition company_candidates (text : jsstring) : list jsstring :=
  List.flat_map
    (fun pattern => List.flat_map company_of (match_all false pattern text))
    companyPatterns.

Definition experience_body (text : value) : completion experienceInfo :=
  match text with
  | VStr s =>
      maxYears <- patterns_loop experiencePatterns s (num_of_Z 0) ;;
      Normal {| totalYears := maxYears;
                companies := firstn 10 (uniq [] (company_candidates s));
                positions := [] |}
  | _ => Throw TypeError
  end.

Definition extractExperience (text : value) : completion experienceInfo :=
  try_catch (experience_body text)
            (fun _ => Normal {| totalYears := num_of_Z 0; companies := []; positions := [] |}).

(** ** validatePDF *)

(** [Buffer.prototype.toString()]: UTF-8 decoding, every ill-formed
    sequence giving U+FFFD, a code point beyond the BMP a surrogate
    pair. *)
Definition between (lo hi b : N) : bool := ((lo <=? b) && (b <=? hi))%N.
Definition REPLACEMENT : N := 0xFFFD.
Definition low6 (b : N) : N := N.land b 0x3F.

Fixpoint utf8 (bs : list N) : jsstring :=
  match bs with
  | [] => []
  | b0 :: t0 =>
      if (b0 <? 0x80)%N then b0 :: utf8 t0
      else if between 0xC2 0xDF b0 then
        match t0 with
        | [] => [REPLACEMENT]
        | b1 :: t1 =>
            if between 0x80 0xBF b1
            then (N.shiftl (N.land b0 0x1F) 6 + low6 b1)%N :: utf8 t1
            else REPLACEMENT :: utf8 t0
        end
      else if between 0xE0 0xEF b0 then
        match t0 with
        | [] => [REPLACEMENT]
        | b1 :: t1 =>
            if between (if (b0 =? 0xE0)%N then 0xA0 else 0x80)
                       (if (b0 =? 0xED)%N then 0x9F else 0xBF) b1
            then match t1 with
                 | [] => [REPLACEMENT]
                 | b2 :: t2 =>
                     if between 0x80 0xBF b2
                     then (N.shiftl (N.land b0 0xF) 12 + N.shiftl (low6 b1) 6 + low6 b2)%N
                          :: utf8 t2
                     else REPLACEMENT :: utf8 t1
                 end
            else REPLACEMENT :: utf8 t0
        end
      else if between 0xF0 0xF4 b0 then
        match t0 with
        | [] => [REPLACEMENT]
        | b1 :: t1 =>
            if between (if (b0 =? 0xF0)%N then 0x90 else 0x80)
                       (if (b0 =? 0xF4)%N then 0x8F else 0xBF) b1
            then match t1 with
                 | [] => [REPLACEMENT]
                 | b2 :: t2 =>
                     if between 0x80 0xBF b2
                     then match t2 with
                          | [] => [REPLACEMENT]
                          | b3 :: t3 =>
                              if between 0x80 0xBF b3
                              then
                                let cp := (N.shiftl (N.land b0 0x7) 18
                                           + N.shiftl (low6 b1) 12
                                           + N.shiftl (low6 b2) 6 + low6 b3)%N in
                                let v := (cp - 0x10000)%N in
                                (0xD800 + N.shiftr v 10)%N
                                  :: (0xDC00 + N.land v 0x3FF)%N :: utf8 t3
                              else REPLACEMENT :: utf8 t2
                          end
                     else REPLACEMENT :: utf8 t1
                 end
            else REPLACEMENT :: utf8 t0
        end
      else REPLACEMENT :: utf8 t0
  end.

Definition buffer : Type := list Byte.byte.

Definition toString (b : buffer) : jsstring := utf8 (List.map Byte.to_N b).

(** [{ isValid, error }]. *)
Record validation : Type := mkValidation {
  isValid : bool;
  error : option string
}.

(** A call of the document decode service, [pdf(buffer, { max })]. *)
Inductive call : Type :=
| Parse (b : buffer) (max : N).

Section Validate.

(** The decode service: it resolves, or rejects with an error. *)
Variable pdf : buffer -> N -> completion unit.

(** The [try] block, with the calls made to the decode service. *)
Definition validate_body (b : buffer) : completion validation * list call :=
  let pdfSignature := toString (firstn 4 b) in
  if negb (str_eqb pdfSignature (lit "%PDF")) then
    (Normal {| isValid := false; error := Some "Invalid PDF signature"%string |}, [])
  else if (List.length b <? 1024)%nat then
    (Normal {| isValid := false; error := Some "File too small to be a valid PDF"%string |}, [])
  else
    (_ <- pdf b 1 ;; Normal {| isValid := true; error := None |}, [Parse b 1]).

Definition validatePDF (b : buffer) : completion validation * list call :=
  let (c, calls) := validate_body b in
  (try_catch c
     (fun m => Normal {| isValid := false;
                         error := Some ("PDF validation failed: " ++ m)%string |}),
   calls).

End Validate.

End PDFParser.

(* ===================================================================== *)
(** * Part V-a. Strings and patterns: further built-ins                   *)
(* ===================================================================== *)

Module Strings.
Import JS Regex.

(** [s.split(sep)] for a separator of one code unit: the empty string
    gives one empty piece. *)
Fixpoint split_at (sep : N) (s : jsstring) : list jsstring :=
  match s with
  | [] => [[]]
  | c :: t =>
      if N.eqb c sep then [] :: split_at sep t
      else match split_at sep t with
           | h :: r => (c :: h) :: r
           | [] => [[c]]
           end
  end.

(** [s.split(r)] for a pattern without groups that matches no empty
    text: the texts between the successive matches, and the text after
    the last one. *)
Definition split (ml : bool) (r : regex) (s : jsstring) : list jsstring :=
  let (ms, tl) := scan_all ml r s in
  List.map fst ms ++ [tl].

(** [a.join(sep)]. *)
Fixpoint join (sep : jsstring) (l : list jsstring) : jsstring :=
  match l with
  | [] => []
  | [x] => x
  | x :: t => x ++ sep ++ join sep t
  end.

(** [s.includes(sub)] on the text of an error message. *)
Fixpoint includes (sub s : string) : bool :=
  if String.prefix sub s then true
  else match s with
       | EmptyString => false
       | String _ t => includes sub t
       end.

(** [a{lo,hi}], greedy: [lo] times, then up to [hi - lo] times more. *)
Fixpoint UpTo (n : nat) (a : regex) : regex :=
  match n with
  | O => Eps
  | S n' => Opt (Seq a (UpTo n' a))
  end.

Definition Between (lo hi : nat) (a : regex) : regex := Seq (Rep lo a) (UpTo (hi - lo) a).

End Strings.

(* ===================================================================== *)
(** * Part V-b. services/pdfParser.js: extractText, extractBasicInfo      *)
(* ===================================================================== *)

Module PDFParserInfo.
Import JS Regex Strings SanitizeText.
Local Open Scope js_scope.

(** ** extractText *)

(** What [pdf(buffer, options)] resolves to, as far as the program reads
    it: the text, a string, and three values it passes on. *)
Record pdfData : Type := mkPdfData {
  pdf_text : jsstring;
  pdf_numpages : value;
  pdf_info : value;
  pdf_version : value
}.

Record metadata : Type := mkMetadata {
  pages : value;
  info : value;
  version : value;
  wordCount : nat;
  charCount : nat
}.

Record extractedData : Type := mkExtractedData {
  text : jsstring;
  rawText : jsstring;
  meta : metadata
}.

Section ExtractText.

(** The decode service: it resolves, or rejects with an error. *)
Variable pdf : PDFParser.buffer -> completion pdfData.

(** The [try] block. *)
Definition extract_body (buffer : PDFParser.buffer) : completion extractedData :=
  pdfData <- pdf buffer ;;
  let rawText := pdf_text pdfData in
  if negb (truthy (VStr rawText)) || (List.length (trim rawText) =? 0)%nat then
    Throw "No text content found in PDF"%string
  else
    cleanText <- sanitizeText (VStr rawText) ;;
    Normal {| text := cleanText;
              rawText := rawText;
              meta := {| pages := pdf_numpages pdfData;
                         info := or_else (pdf_info pdfData) (VObj []);
                         version := pdf_version pdfData;
                         wordCount := List.length (split false (Plus ws) cleanText);
                         charCount := List.length cleanText |} |}.

(** The [catch] block: the message of the error that is thrown on. *)
Definition extraction_error (message : string) : string :=
  if includes "Invalid PDF" message then "Invalid PDF file format"
  else if includes "encrypted" message then "PDF is password protected or encrypted"
  else if includes "No text content" message then "PDF contains no readable text content"
  else ("Failed to extract text from PDF: " ++ message)%string.

Definition extractText (buffer : PDFParser.buffer) (filename : jsstring)
  : completion extractedData :=
  try_catch (extract_body buffer) (fun message => Throw (extraction_error message)).

End ExtractText.

(** ** extractBasicInfo *)

(** [/(\+?\d{1,3}[-.\s]?)?\(?\d{3}\)?[-.\s]?\d{3}[-.\s]?\d{4}/g]. *)
Definition separator : regex := Cls (union (one_of "-.") isSpace).

Definition phoneRegex : regex :=
  cat [Opt (cat [Opt PDFParser.plus_sign; Between 1 3 digit; Opt separator]);
       Opt (chr 0x28); Rep 3 digit; Opt (chr 0x29); Opt separator;
       Rep 3 digit; Opt separator; Rep 4 digit].

(** [/([A-Z][a-z]+,?\s*[A-Z]{2})|([A-Z][a-z]+\s*,\s*[A-Z][a-z]+)/g]. *)
Definition locationRegex : regex :=
  Alt (cat [Cls isUpper; Plus (Cls isLower); Opt (chr 0x2C); Star ws; Rep 2 (Cls isUpper)])
      (cat [Cls isUpper; Plus (Cls isLower); Star ws; chr 0x2C; Star ws;
            Cls isUpper; Plus (Cls isLower)]).

(** [/\d{3,}/]. *)
Definition digitRun : regex := AtLeast 3 digit.

(** [/(resume|cv|curriculum|vitae)/i]. *)
Definition resumeWords : regex :=
  Alt (str_i "resume") (Alt (str_i "cv") (Alt (str_i "curriculum") (str_i "vitae"))).

(** [/^[A-Za-z][A-Za-z'.-]*$/]. *)
Definition nameWord : regex :=
  cat [Bol; Cls isAlpha; Star (Cls (union isAlpha (one_of "'.-"))); Eol].

Definition AT : N := 0x40.

(** [text.match(r)] for a global [r], then element 0 when there is
    one. *)
Definition first_match (r : regex) (text : jsstring) : option jsstring :=
  hd_error (match_all false r text).

(** The [words.every(...)] test. *)
Definition isNameLike (words : list jsstring) : bool :=
  forallb (fun word => test false nameWord word && (1 <? List.length word)%nat) words.

(** The two nested [if]s of the loop over the first lines. *)
Definition looks_like_name (trimmedLine : jsstring) : bool :=
  (3 <? List.length trimmedLine)%nat && (List.length trimmedLine <? 50)%nat &&
  negb (existsb (N.eqb AT) trimmedLine) &&
  negb (test false digitRun trimmedLine) &&
  negb (test false resumeWords trimmedLine) &&
  (let words := split false (Plus ws) trimmedLine in
   (2 <=? List.length words)%nat && (List.length words <=? 4)%nat && isNameLike words).

(** The loop, left at the first line that looks like a name. *)
Definition name_of (text : jsstring) : option jsstring :=
  let lines := List.filter (fun line => (0 <? List.length (trim line))%nat)
                           (split_at LF text) in
  let firstFewLines := firstn 5 lines in
  option_map trim (List.find (fun line => looks_like_name (trim line)) firstFewLines).

Definition nothing : BasicInfo.t := BasicInfo.mk None None None None.

(** The [try] block: a [text] that is no string has no [match] to call. *)
Definition info_body (text : value) : completion BasicInfo.t :=
  match text with
  | VStr s =>
      Normal (BasicInfo.mk
                (name_of s)
                (first_match PDFParser.emailRegex s)
                (option_map (fun p => trim (replace false (Plus ws) [SP] p))
                            (first_match phoneRegex s))
                (first_match locationRegex s))
  | _ => Throw TypeError
  end.

Definition extractBasicInfo (text : value) : completion BasicInfo.t :=
  try_catch (info_body text) (fun _ => Normal nothing).

End PDFParserInfo.

(* ===================================================================== *)
(** * Part V-c. utils/sanitizeText.js: the other helpers                  *)
(* ===================================================================== *)

Module TextUtils.
Import JS Regex Strings SanitizeText.
Local Open Scope js_scope.

(** A pattern that tries the alternatives of a non-empty list in order. *)
Fixpoint alts (a : regex) (l : list regex) : regex :=
  match l with
  | [] => a
  | b :: t => Alt a (alts b t)
  end.

(** ** extractKeywords *)

Definition defaultKeywords : list jsstring :=
  List.map lit
    [ "javascript"; "python"; "java"; "react"; "node.js"; "sql"; "html"; "css";
      "git"; "aws"; "docker"; "kubernetes"; "mongodb"; "postgresql"; "redis";
      "typescript"; "angular"; "vue"; "express"; "django"; "flask"; "spring";
      "microservices"; "api"; "rest"; "graphql"; "agile"; "scrum"; "devops" ]%string.

Section Keywords.

(** [String.prototype.toLowerCase] beyond ASCII, as in extractSkills. *)
Variable unicodeLowerCase : jsstring -> jsstring.

(** The upper-case form of a code unit outside ASCII when that form is
    one code unit, the code unit itself otherwise: the runtime's case
    tables again. *)
Variable unicodeUpperUnit : N -> N.

(** Canonicalize of the [i] flag (without the [u] flag): a code unit
    outside ASCII never canonicalizes to an ASCII one. *)
Definition canonicalize (c : N) : N :=
  if PDFParser.isAscii c then canon c
  else
    let cu := unicodeUpperUnit c in
    if PDFParser.isAscii cu then c else cu.

(** [new RegExp(`\\b${escaped}\\b`, 'i')]: the escaping makes every
    code unit of the keyword a literal. *)
Definition literal_i (s : jsstring) : regex :=
  seq_of (fun c => Cls (fun x => N.eqb (canonicalize x) (canonicalize c))) s.

Definition keywordRegex (keywordLower : jsstring) : regex :=
  cat [WordB; literal_i keywordLower; WordB].

(** [commonKeywords.length > 0 ? commonKeywords : defaultKeywords]. *)
Definition keywordsToCheck (commonKeywords : list value) : list value :=
  if (0 <? List.length commonKeywords)%nat then commonKeywords
  else List.map VStr defaultKeywords.

(** The [for (const keyword of keywordsToCheck)] loop, [foundKeywords]
    being the array pushed to: a keyword that is no string has no
    [toLowerCase] to call. *)
Fixpoint keywords_loop (keywords : list value) (textLower : jsstring)
    (foundKeywords : list jsstring) : completion (list jsstring) :=
  match keywords with
  | [] => Normal foundKeywords
  | VStr keyword :: rest =>
      let keywordLower := PDFParser.toLowerCase unicodeLowerCase keyword in
      keywords_loop rest textLower
        (if test false (keywordRegex keywordLower) textLower
         then foundKeywords ++ [keyword] else foundKeywords)
  | _ :: _ => Throw TypeError
  end.

Definition extractKeywords (text : value) (commonKeywords : list value)
  : completion (list jsstring) :=
  match text with
  | VStr s =>
      if truthy text then
        let textLower := PDFParser.toLowerCase unicodeLowerCase s in
        foundKeywords <- keywords_loop (keywordsToCheck commonKeywords) textLower [] ;;
        Normal (PDFParser.uniq [] foundKeywords)
      else Normal []
  | _ => Normal []
  end.

End Keywords.

(** ** extractSections *)

(** [a\s+b] under the [i] flag. *)
Definition phrase (a b : string) : regex := cat [str_i a; Plus ws; str_i b].

(** [certifications?] and the like. *)
Definition plural (a : string) : regex := cat [str_i a; Opt (str_i "s")].

(** The section headers, in the order of the object literal; every
    pattern is [/^(...)/i]. *)
Definition sectionPatterns : list (jsstring * regex) :=
  [ (lit "experience",
     Seq Bol (alts (str_i "experience")
                   [phrase "work" "experience"; str_i "employment";
                    phrase "professional" "experience"; str_i "career"]));
    (lit "education",
     Seq Bol (alts (str_i "education")
                   [str_i "academic"; str_i "qualifications"; str_i "schooling"]));
    (lit "skills",
     Seq Bol (alts (str_i "skills")
                   [phrase "technical" "skills"; str_i "competencies";
                    str_i "technologies"; str_i "expertise"]));
    (lit "projects",
     Seq Bol (alts (str_i "projects") [str_i "portfolio"; phrase "work" "samples"]));
    (lit "certifications",
     Seq Bol (alts (plural "certification") [plural "license"; str_i "credentials"]));
    (lit "summary",
     Seq Bol (alts (str_i "summary")
                   [str_i "profile"; str_i "objective"; str_i "about";
                    str_i "introduction"]));
    (lit "contact",
     Seq Bol (alts (str_i "contact") [phrase "personal" "information"])) ].

(** The inner loop over [Object.entries(sectionPatterns)], left at the
    first pattern that matches. *)
Definition foundSection (trimmedLine : jsstring) : option jsstring :=
  option_map fst (List.find (fun e => test false (snd e) trimmedLine) sectionPatterns).

(** [sections[k] = v] on an object whose keys are no indices: a new key
    goes last, a key already there keeps its place. *)
Fixpoint set_prop (k v : jsstring) (o : list (jsstring * jsstring))
  : list (jsstring * jsstring) :=
  match o with
  | [] => [(k, v)]
  | (k', v') :: t => if str_eqb k k' then (k, v) :: t else (k', v') :: set_prop k v t
  end.

(** [if (currentContent.length > 0) sections[currentSection] = ...]. *)
Definition save (sections : list (jsstring * jsstring)) (currentSection : jsstring)
    (currentContent : list jsstring) : list (jsstring * jsstring) :=
  if (0 <? List.length currentContent)%nat
  then set_prop currentSection (trim (join [LF] currentContent)) sections
  else sections.

(** The [for (const line of lines)] loop, and the saving of the last
    section. *)
Fixpoint sections_loop (lines : list jsstring) (sections : list (jsstring * jsstring))
    (currentSection : jsstring) (currentContent : list jsstring)
  : list (jsstring * jsstring) :=
  match lines with
  | [] => save sections currentSection currentContent
  | line :: rest =>
      let trimmedLine := trim line in
      if (List.length trimmedLine =? 0)%nat then
        sections_loop rest sections currentSection (currentContent ++ [[]])
      else
        match foundSection trimmedLine with
        | Some name =>
            sections_loop rest (save sections currentSection currentContent) name []
        | None =>
            sections_loop rest sections currentSection (currentContent ++ [line])
        end
  end.

(** The object returned, as the list of its entries in order. *)
Definition extractSections (text : value) : list (jsstring * jsstring) :=
  match text with
  | VStr s =>
      if truthy text then sections_loop (split_at LF s) [] (lit "header") []
      else []
  | _ => []
  end.

(** ** normalizeCompanyNames *)

(** [.] without the [s] flag: any code unit but a line terminator. *)
Definition dot : regex := Cls (fun c => negb (isLineTerminator c)).

(** [new RegExp(`\\b${oldSuffix}\\b`, 'gi')] for every entry of
    [suffixMap], in the order of the object literal.  The key is not
    escaped: its full stop is the pattern [.]. *)
Definition suffixMap : list (regex * jsstring) :=
  [ (cat [WordB; str_i "inc"; dot; WordB], lit "Inc");
    (cat [WordB; str_i "llc"; WordB], lit "LLC");
    (cat [WordB; str_i "corp"; dot; WordB], lit "Corp");
    (cat [WordB; str_i "ltd"; dot; WordB], lit "Ltd");
    (cat [WordB; str_i "co"; dot; WordB], lit "Co.");
    (cat [WordB; str_i "company"; WordB], lit "Company");
    (cat [WordB; str_i "corporation"; WordB], lit "Corporation");
    (cat [WordB; str_i "incorporated"; WordB], lit "Inc");
    (cat [WordB; str_i "limited"; WordB], lit "Ltd") ].

Definition normalizeCompanyNames (text : value) : value :=
  match text with
  | VStr s =>
      if truthy text then
        VStr (List.fold_left
                (fun normalized e => replace false (fst e) (snd e) normalized)
                suffixMap s)
      else text
  | _ => text
  end.

(** ** validateTextQuality *)

(** The [stats] object. *)
Module Stats.
Record t : Type := mk {
  length : nat;
  wordCount : nat;
  uniqueWords : nat;
  vocabularyRatio : number;
  specialCharRatio : number;
  avgWordsPerSentence : number
}.
End Stats.

(** What validateTextQuality returns: [{ isValid: false, issues: ['No
    text provided'] }], or the full report. *)
Inductive quality : Type :=
| NoText
| Report (isValid : bool) (issues warnings : list string) (stats : Stats.t).

Definition isValid (q : quality) : bool :=
  match q with
  | NoText => false
  | Report v _ _ _ => v
  end.

Definition issues (q : quality) : list string :=
  match q with
  | NoText => ["No text provided"%string]
  | Report _ i _ _ => i
  end.

(** [a / b] on two array lengths.  The quotient is kept exact; the
    comparisons below then agree with those of the doubles as long as
    the lengths stay under 2^50. *)
Definition ratio (a b : nat) : number :=
  match b with
  | O => match a with O => NaN | S _ => PosInf end
  | S _ => Fin (Z.of_nat a # Pos.of_nat b)
  end.

(** [a < b] on numbers. *)
Definition lt (a b : number) : bool := PDFParser.gt b a.

(** [wordCount[word] = (wordCount[word] || 0) + 1] on an object literal
    makes [word] a key, with one exception: [__proto__] is the accessor
    inherited from [Object.prototype], which reads as an object (so the
    value to store is a string) and whose setter ignores a value that is
    no object.  ([constructor], inherited as well, is a plain property
    and becomes an own key like any word.) *)
Definition becomes_key (word : jsstring) : bool :=
  negb (str_eqb word (lit "__proto__")).

(** The negated class of the special-character test: word
    characters, white space, [.,!?;:()-], the apostrophe and the double
    quote (code unit 0x22) are the ordinary ones. *)
Definition special (c : N) : bool :=
  negb (isWordChar c || isSpace c || one_of ".,!?;:()-'" c || N.eqb c 0x22).

Section Quality.

Variable unicodeLowerCase : jsstring -> jsstring.

Definition validateTextQuality (text : value) : quality :=
  match text with
  | VStr s =>
      if truthy text then
        let issues :=
          if (List.length s <? 100)%nat
          then ["Text too short (less than 100 characters)"%string] else [] in
        let words := split false (Plus ws) (PDFParser.toLowerCase unicodeLowerCase s) in
        let wordCount :=
          PDFParser.uniq []
            (List.filter (fun word => (3 <? List.length word)%nat && becomes_key word)
                         words) in
        let totalWords := List.length words in
        let uniqueWords := List.length wordCount in
        let vocabularyRatio := ratio uniqueWords totalWords in
        let warnings1 :=
          if lt vocabularyRatio (Fin (3 # 10))
          then ["High repetition detected - possible OCR issues"%string] else [] in
        let specialChars := match_all false (Cls special) s in
        let specialCharRatio := ratio (List.length specialChars) (List.length s) in
        let warnings2 :=
          if PDFParser.gt specialCharRatio (Fin (1 # 10))
          then ["High number of special characters - possible extraction issues"%string]
          else [] in
        let sentences :=
          List.filter (fun s => (0 <? List.length (trim s))%nat)
                      (split false (Plus (Cls (one_of ".!?"))) s) in
        let avgWordsPerSentence := ratio totalWords (List.length sentences) in
        let warnings3 :=
          if lt avgWordsPerSentence (num_of_Z 3)
          then ["Very short sentences - possible formatting issues"%string]
          else if PDFParser.gt avgWordsPerSentence (num_of_Z 50)
               then ["Very long sentences - possible missing punctuation"%string]
               else [] in
        Report (match issues with [] => true | _ => false end)
               issues
               (warnings1 ++ warnings2 ++ warnings3)
               (Stats.mk (List.length s) totalWords uniqueWords
                         vocabularyRatio specialCharRatio avgWordsPerSentence)
      else NoText
  | _ => NoText
  end.

End Quality.

End TextUtils.

(* ===================================================================== *)
(** * Part VI. The vocabulary of the properties                           *)
(* ===================================================================== *)

Module Props.
Import JS Regex AIScorer.

(** ** Matching, declaratively *)

(** The texts a pattern can consume, assertions consuming nothing. *)
Inductive derives : regex -> jsstring -> Prop :=
| d_eps : derives Eps []
| d_cls : forall p c, p c = true -> derives (Cls p) [c]
| d_seq : forall a b u v, derives a u -> derives b v -> derives (Seq a b) (u ++ v)
| d_alt_l : forall a b u, derives a u -> derives (Alt a b) u
| d_alt_r : forall a b u, derives b u -> derives (Alt a b) u
| d_star_nil : forall a, derives (Star a) []
| d_star_cons : forall a u v, derives a u -> derives (Star a) v -> derives (Star a) (u ++ v)
| d_bol : derives Bol []
| d_eol : derives Eol []
| d_wordb : derives WordB [].

(** The code unit before the position reached after consuming [w]. *)
Definition last_of (prev : option N) (w : jsstring) : option N :=
  match rev w with
  | [] => prev
  | c :: _ => Some c
  end.

(** What a scan returns is a cutting of the text: the skipped parts and
    the matches, in order, then the tail. *)
Definition pieces (ms : list (jsstring * jsstring)) (tl : jsstring) : jsstring :=
  List.concat (List.map (fun x => fst x ++ snd x) ms) ++ tl.

(** A greedy star over a class, as a recursion on the text: take the
    code units of the class as far as they go, then give them back one by
    one until the continuation succeeds. *)
Fixpoint star_cls (p : N -> bool) (k : cont) (prev : option N) (s : jsstring)
  : option jsstring :=
  match s with
  | c :: t =>
      if p c then
        match star_cls p k (Some c) t with
        | Some x => Some x
        | None => k prev s
        end
      else k prev s
  | [] => k prev []
  end.

(** ** Experience years *)

Definition notDigit (c : N) : bool := negb (isDigit c).

(** The integer a match carries: the value of its first run of digits
    (0 when it has none). *)
Definition leading_number (mt : jsstring) : Z :=
  match digitsValue 10 0 (takeWhile isDigit (dropWhile notDigit mt)) with
  | Some v => v
  | None => 0%Z
  end.

(** Every match of the three experience patterns over a text, pattern by
    pattern. *)
Definition experience_matches (text : jsstring) : list jsstring :=
  List.flat_map (fun pattern => match_all false pattern text) PDFParser.experiencePatterns.

(** What the loop reads from a match: [parseInt] of its first run of
    digits. *)
Definition years_of (mt : jsstring) : number := double_of_Z (leading_number mt).

(** [if (years > maxYears) maxYears = years]. *)
Definition keep_max (maxYears years : number) : number :=
  if PDFParser.gt years maxYears then years else maxYears.

(** ** Batch scoring *)

Definition outcome_of (r : resume) (c : completion scored) : outcome :=
  match c with
  | Normal result => Succeeded (id r) result
  | Throw msg => Failed (id r) msg
  end.

Section Attempts.

Variable JobRequirements : Type.
Variable buildScoringPrompt :
  jsstring -> option JobRequirements -> BasicInfo.t -> jsstring.
Variable create : nat -> jsstring -> reply.
Variable JSON_parse : value -> completion value.

(** Scoring document [r] when the external service has already received
    [n] calls. *)
Definition attempt (jobRequirements : option JobRequirements) (n : nat) (r : resume)
  : completion scored :=
  fst (scoreResume buildScoringPrompt create JSON_parse
         (extractedText r) jobRequirements (basicInfo r) {| calls := n; paused := 0 |}).

(** The outcomes of scoring the documents one after the other, the first
    as call number [n]. *)
Fixpoint attempts (jobRequirements : option JobRequirements) (n : nat)
    (resumes : list resume) : list outcome :=
  match resumes with
  | [] => []
  | r :: rest =>
      outcome_of r (attempt jobRequirements n r) :: attempts jobRequirements (S n) rest
  end.

End Attempts.

(** ** Document validation *)

(** The four bytes of the signature, [%PDF]. *)
Definition pdf_magic : PDFParser.buffer :=
  [Byte.x25; Byte.x50; Byte.x44; Byte.x46].

(** ** Scoring results *)

Definition in_range (lo hi : Z) (n : number) : Prop :=
  exists q, n = Fin q /\ (inject_Z lo <= q)%Q /\ (q <= inject_Z hi)%Q.

Definition at_least (lo : Z) (n : number) : Prop :=
  n = PosInf \/ exists q, n = Fin q /\ (inject_Z lo <= q)%Q.

Definition nonempty_string (v : value) : Prop :=
  exists s, v = VStr s /\ s <> [].

(** The declared invariants of a ScoringResult. *)
Record well_formed (r : ScoringResult) : Prop := mk_well_formed {
  wf_overall : in_range 0 100 (overallScore r);
  wf_fit : in_range 0 100 (fitScore r);
  wf_skills : in_range 0 100 (skills (breakdown r));
  wf_experience : in_range 0 100 (experience (breakdown r));
  wf_education : in_range 0 100 (education (breakdown r));
  wf_relevance : in_range 0 100 (relevance (breakdown r));
  wf_years : at_least 0 (experienceYears r);
  wf_strengths : (List.length (strengths r) <= 10)%nat;
  wf_weaknesses : (List.length (weaknesses r) <= 10)%nat;
  wf_keywords : (List.length (keywordMatches r) <= 20)%nat;
  wf_recommendations : (List.length (recommendations r) <= 5)%nat;
  wf_redFlags : (List.length (redFlags r) <= 5)%nat;
  wf_summary : nonempty_string (summary r)
}.

(** A score as the clamp leaves it: in range, or not a number at all. *)
Definition clamped_or_nan (n : number) : Prop := n = NaN \/ in_range 0 100 n.

(** The result of the [try] block on an input none of whose fields can be
    read: every default of the object literal. *)
Definition defaults (basicInfo : BasicInfo.t) : ScoringResult :=
  {|
    overallScore := num_of_Z 0;
    breakdown := {| skills := num_of_Z 0; experience := num_of_Z 0;
                    education := num_of_Z 0; relevance := num_of_Z 0 |};
    strengths := [];
    weaknesses := [];
    keywordMatches := [];
    experienceYears := num_of_Z 0;
    summary := VStr (lit "Resume analyzed successfully.");
    recommendations := [];
    redFlags := [];
    fitScore := num_of_Z 0;
    candidateName := BasicInfo.candidateName basicInfo;
    keywordsMatched := zero
  |}.

(** A raw input that is neither an object nor [null]/[undefined]. *)
Definition is_primitive_or_array (v : value) : bool :=
  match v with
  | VBool _ | VNum _ | VStr _ | VArr _ => true
  | _ => false
  end.

(** The own property [k] of a parsed object, [undefined] when absent. *)
Definition field (k : string) (kv : list (jsstring * value)) : value :=
  match lookup (lit k) kv with
  | Some v => v
  | None => VUndefined
  end.

(** A completion as the service sends it, cut down to what the program
    reads of it. *)
Definition chat (content total_tokens : value) : value :=
  VObj [(lit "choices", VArr [VObj [(lit "message", VObj [(lit "content", content)])]]);
        (lit "usage", VObj [(lit "total_tokens", total_tokens)])].

(** Sample inputs. *)
Definition jane : BasicInfo.t :=
  BasicInfo.mk (Some (lit "Jane Doe")) (Some (lit "jane@example.com")) None None.

Definition raw_nonnumeric : value :=
  VObj [(lit "overallScore", VStr (lit "high")); (lit "summary", VNum (num_of_Z 7))].

Definition raw_many_keywords : value :=
  VObj [(lit "keywordMatches", VArr (List.repeat (VStr (lit "sql")) 25))].

Definition raw_zero_fit : value :=
  VObj [(lit "overallScore", VNum (num_of_Z 80)); (lit "fitScore", VNum (num_of_Z 0))].

Definition raw_good : value :=
  VObj [(lit "overallScore", VNum (num_of_Z 85));
        (lit "breakdown", VObj [(lit "skills", VNum (num_of_Z 80))]);
        (lit "keywordMatches", VArr [VStr (lit "React")]);
        (lit "summary", VStr (lit "Strong candidate"));
        (lit "fitScore", VNum (num_of_Z 120));
        (lit "candidateName", VStr (lit "Mallory"))].

(** ** Positions of a text, for sanitizeText *)

Import SanitizeText.

(** What [^] and [$] ask of a position. *)
Definition bol_ok (ml : bool) (prev : option N) : bool :=
  if ml then line_start prev else match prev with None => true | Some _ => false end.
Definition eol_ok (ml : bool) (s : jsstring) : bool :=
  if ml then line_end s else match s with [] => true | _ => false end.

(** [steps ml r prev s prev' s']: the pattern [r] can match from the
    position [(prev, s)] to the position [(prev', s')], whatever comes
    next.  Unlike [derives], this reads the code unit before the position,
    so it covers the anchors. *)
Inductive steps (ml : bool) : regex -> option N -> jsstring -> option N -> jsstring -> Prop :=
| st_eps : forall prev s, steps ml Eps prev s prev s
| st_cls : forall p c prev t, p c = true -> steps ml (Cls p) prev (c :: t) (Some c) t
| st_seq : forall a b p0 s0 p1 s1 p2 s2,
    steps ml a p0 s0 p1 s1 -> steps ml b p1 s1 p2 s2 -> steps ml (Seq a b) p0 s0 p2 s2
| st_alt_l : forall a b p0 s0 p1 s1, steps ml a p0 s0 p1 s1 -> steps ml (Alt a b) p0 s0 p1 s1
| st_alt_r : forall a b p0 s0 p1 s1, steps ml b p0 s0 p1 s1 -> steps ml (Alt a b) p0 s0 p1 s1
| st_star_nil : forall a prev s, steps ml (Star a) prev s prev s
| st_star_cons : forall a p0 s0 p1 s1 p2 s2,
    steps ml a p0 s0 p1 s1 -> (List.length s1 < List.length s0)%nat ->
    steps ml (Star a) p1 s1 p2 s2 -> steps ml (Star a) p0 s0 p2 s2
| st_bol : forall prev s, bol_ok ml prev = true -> steps ml Bol prev s prev s
| st_eol : forall prev s, eol_ok ml s = true -> steps ml Eol prev s prev s
| st_wordb : forall prev s,
    xorb (word_before prev) (word_after s) = true -> steps ml WordB prev s prev s.

(** A predicate on positions: the code unit before and the text after. *)
Definition at_pos : Type := option N -> jsstring -> bool.

(** A match of [r] starts at this position. *)
Definition matchable (ml : bool) (r : regex) : at_pos :=
  fun prev t => match match_here ml r prev t with Some _ => true | None => false end.

(** [P] holds at no position of [s] (the end included). *)
Fixpoint free (P : at_pos) (prev : option N) (s : jsstring) : bool :=
  negb (P prev s) &&
  match s with
  | [] => true
  | c :: t => free P (Some c) t
  end.

(** [P] holds at no position inside [a], the text going on with [z]. *)
Fixpoint skipped (P : at_pos) (prev : option N) (a z : jsstring) : bool :=
  match a with
  | [] => true
  | c :: t => negb (P prev (a ++ z)) && skipped P (Some c) t z
  end.

(** The text rebuilt from a scan with [by_] in place of every match. *)
Definition out (by_ : jsstring) (ms : list (jsstring * jsstring)) (tl : jsstring) : jsstring :=
  List.concat (List.map (fun x => fst x ++ by_) ms) ++ tl.

(** A scan whose matches are all non-empty. *)
Inductive scanned (ml : bool) (r : regex)
  : option N -> jsstring -> list (jsstring * jsstring) -> jsstring -> Prop :=
| sc_end : forall prev s,
    search ml r prev s = None -> scanned ml r prev s [] s
| sc_match : forall prev sk w rest ms tl,
    w <> [] ->
    search ml r prev (sk ++ w ++ rest) = Some (sk, w, rest) ->
    scanned ml r (last_of (last_of prev sk) w) rest ms tl ->
    scanned ml r prev (sk ++ w ++ rest) ((sk, w) :: ms) tl.

(** A scan seen through a position predicate [P]: [P] holds at no skipped
    position and nowhere in the tail. *)
Inductive cutting (ml : bool) (r : regex) (P : at_pos)
  : option N -> jsstring -> list (jsstring * jsstring) -> jsstring -> Prop :=
| cut_end : forall prev s,
    free P prev s = true -> cutting ml r P prev s [] s
| cut_piece : forall prev sk w rest ms tl,
    w <> [] ->
    match_here ml r (last_of prev sk) (w ++ rest) = Some rest ->
    skipped P prev sk (w ++ rest) = true ->
    cutting ml r P (last_of (last_of prev sk) w) rest ms tl ->
    cutting ml r P prev (sk ++ w ++ rest) ((sk, w) :: ms) tl.

(** At least [k] code units of the class [p] start here. *)
Definition run_at (k : nat) (p : N -> bool) : at_pos :=
  fun _ t => (k <=? List.length (takeWhile p t))%nat.

(** A predicate that reads no further than the end of the line, and
    fails on an empty line. *)
Record line_local (P : at_pos) : Prop := mk_line_local {
  ll_cut : forall prev a c z z',
      isLineTerminator c = true -> P prev (a ++ c :: z) = P prev (a ++ c :: z');
  ll_blank : forall prev c z, isLineTerminator c = true -> P prev (c :: z) = false;
  ll_end : forall prev, P prev [] = false
}.

Definition isLF (c : N) : bool := N.eqb LF c.

(** The number of line feeds of a text. *)
Definition count_LF (l : jsstring) : nat := List.length (List.filter isLF l).

(** A line feed starts here, and the white space after it holds two
    more. *)
Definition blank_at : at_pos :=
  fun _ t =>
    match t with
    | c :: t1 => isLF c && (2 <=? count_LF (takeWhile isSpace t1))%nat
    | [] => false
    end.

(** Neither end of the text is white space. *)
Definition edges_ok (s : jsstring) : bool :=
  match s with
  | [] => true
  | c :: _ => negb (isSpace c) && negb (isSpace (last s 0%N))
  end.

(** A code unit that ends no line. *)
Definition notLT (c : N) : bool := negb (isLineTerminator c).

(** [u] is a prefix of [t]. *)
Fixpoint starts (u t : jsstring) : bool :=
  match u, t with
  | [], _ => true
  | c :: u', x :: t' => N.eqb c x && starts u' t'
  | _ :: _, [] => false
  end.

Definition starts_at (u : jsstring) : at_pos := fun _ t => starts u t.

(** The line that starts here, white space trimmed, is a [core]. *)
Definition line_at (core : jsstring -> bool) : at_pos :=
  fun prev t => line_start prev && core (trim (takeWhile notLT t)).

(** [\d+]. *)
Definition digits_core (w : jsstring) : bool :=
  match w with
  | [] => false
  | _ => forallb isDigit w
  end.

(** [t] without its prefix [u]. *)
Fixpoint strip_prefix (u t : jsstring) : option jsstring :=
  match u, t with
  | [], _ => Some t
  | c :: u', x :: t' => if N.eqb c x then strip_prefix u' t' else None
  | _ :: _, [] => None
  end.

(** [Page \d+ of \d+]. *)
Definition page_core (w : jsstring) : bool :=
  match strip_prefix (lit "Page ") w with
  | Some r1 =>
      digits_core (takeWhile isDigit r1) &&
      match strip_prefix (lit " of ") (dropWhile isDigit r1) with
      | Some r2 => digits_core r2
      | None => false
      end
  | None => false
  end.

(** ** The assignments of sanitizeText *)

(** The first seventeen assignments of sanitizeText, in order: all of
    them but the two footer removals, the trim and the blank-line
    collapse. *)
Definition edits : list (jsstring -> jsstring) :=
  [ replace false re_crlf [LF];
    replace false re_cr [LF];
    replace false re_newlines [LF; LF];
    replace false re_blanks [SP];
    replace false (chr FF) [];
    replace false (chr NBSP) [SP];
    replace false (chr BULLET) [BULLET];
    replace false (chr EN_DASH) [HYPHEN];
    replace false (chr EM_DASH) [HYPHEN; HYPHEN];
    replace false (chr DQUOTE) [DQUOTE];
    replace false (chr SQUOTE) [SQUOTE];
    replace false (chr ELLIPSIS) [DOT; DOT; DOT];
    replace false re_dots [DOT; DOT; DOT];
    replace false re_hyphens [HYPHEN; HYPHEN];
    replace false re_underscores [UNDERSCORE; UNDERSCORE];
    replace true re_page [];
    replace true re_number_line [] ].

(** The assignments of [l], one after the other. *)
Definition run_edits (l : list (jsstring -> jsstring)) (s : jsstring) : jsstring :=
  fold_left (fun s f => f s) l s.

(** The value of [cleaned] when the footer removals are reached. *)
Definition before_footers (text : jsstring) : jsstring := run_edits edits text.

(** The last two assignments. *)
Definition finish (s : jsstring) : jsstring :=
  replace false re_blank_lines [LF; LF] (trim s).

(** The code unit [c] does not occur in [s]. *)
Definition lacks (c : N) (s : jsstring) : bool :=
  forallb (fun x => negb (N.eqb c x)) s.

(** [[ \t]]. *)
Definition blank : N -> bool := fun c => N.eqb c SP || N.eqb c TAB.

(** The two footer markers. *)
Definition confidential : jsstring := lit "Confidential and Proprietary".
Definition email_footer : jsstring := lit "This email and any attachments".

(** A text no step of sanitizeText has anything to do on. *)
Record tidy (y : jsstring) : Prop := mk_tidy {
  t_cr : lacks CR y = true;
  t_ff : lacks FF y = true;
  t_nbsp : lacks NBSP y = true;
  t_en : lacks EN_DASH y = true;
  t_em : lacks EM_DASH y = true;
  t_ellipsis : lacks ELLIPSIS y = true;
  t_blanks : free (run_at 2 blank) None y = true;
  t_dots : free (run_at 4 (N.eqb DOT)) None y = true;
  t_hyphens : free (run_at 3 (N.eqb HYPHEN)) None y = true;
  t_underscores : free (run_at 3 (N.eqb UNDERSCORE)) None y = true;
  t_page : free (line_at page_core) None y = true;
  t_number : free (line_at digits_core) None y = true;
  t_confidential : free (starts_at confidential) None y = true;
  t_email : free (starts_at email_footer) None y = true;
  t_edges : edges_ok y = true;
  t_blank_lines : free blank_at None y = true
}.

(** No form feed, no non-breaking space, and no run of [k] of the class
    [p]. *)
Definition clear_run (k : nat) (p : N -> bool) (s : jsstring) : Prop :=
  lacks FF s = true /\ lacks NBSP s = true /\ free (run_at k p) None s = true.

(** The assignment [f] keeps the property [Inv] of [cleaned]. *)
Definition keeps (Inv : jsstring -> Prop) (f : jsstring -> jsstring) : Prop :=
  forall s, Inv s -> Inv (f s).

(** Inputs on which sanitizeText is not idempotent: [a \f b], the
    control characters [\x01\t\f\t\x01], [a \xA0b], and a number before
    each footer marker. *)
Definition with_form_feed : jsstring := [97; 32; 12; 32; 98]%N.
Definition control_only : jsstring := [1; 9; 12; 9; 1]%N.
Definition with_nbsp : jsstring := [97; 32; 160; 98]%N.
Definition with_footer : jsstring := lit "12 Confidential and Proprietary".
Definition with_email_footer : jsstring := lit "12 This email and any attachments".

(** [Page 1 of 2\r\n  Jane\t\tDoe—CV.....\n\n\n\n42\n____ end \n]. *)
Definition sample_text : jsstring :=
  [80; 97; 103; 101; 32; 49; 32; 111; 102; 32; 50; 13; 10; 32; 32; 74; 97; 110; 101;
   9; 9; 68; 111; 101; 8212; 67; 86; 46; 46; 46; 46; 46; 10; 10; 10; 10; 52; 50; 10;
   95; 95; 95; 95; 32; 101; 110; 100; 32; 10]%N.

End Props.

(* ===================================================================== *)
(** * Part VI-b. The vocabulary of the further properties                 *)
(* ===================================================================== *)

Module Notions.
Import JS Regex SanitizeText Strings PDFParserInfo TextUtils.

(** [c] is a contiguous piece of [t]. *)
Definition is_piece (c t : jsstring) : Prop := exists a b, t = a ++ c ++ b.

(** The number of decimal digits of a text. *)
Definition count_digits (w : jsstring) : nat := List.length (List.filter isDigit w).

(** What a candidate name is made of: letters, the apostrophe, the dot,
    the hyphen and white space. *)
Definition name_char (c : N) : bool := isAlpha c || one_of "'.-" c || isSpace c.

(** What a normalized phone number is made of. *)
Definition phone_char (c : N) : bool := isDigit c || one_of "+()-. " c.

(** What a match of the phone pattern is made of, before white space is
    normalized. *)
Definition raw_phone_char (c : N) : bool := isDigit c || one_of "+()-." c || isSpace c.

(** A text of such code units with [lo] to [hi] digits. *)
Definition phone_part (lo hi : nat) (w : jsstring) : Prop :=
  (lo <= count_digits w <= hi)%nat /\ forallb raw_phone_char w = true.

(** The three classes of the e-mail pattern. *)
Definition local_char : N -> bool := union isAlpha (union isDigit (one_of "._%+-")).
Definition domain_char : N -> bool := union isAlpha (union isDigit (one_of ".-")).
Definition tld_char : N -> bool := union isAlpha (one_of "|").

(** The keyword is found in the text, as extractKeywords looks for it:
    both lower-cased, the keyword between two word boundaries. *)
Definition occurs (unicodeLowerCase : jsstring -> jsstring) (unicodeUpperUnit : N -> N)
    (text keyword : jsstring) : bool :=
  test false
       (keywordRegex unicodeUpperUnit (PDFParser.toLowerCase unicodeLowerCase keyword))
       (PDFParser.toLowerCase unicodeLowerCase text).

(** The keys an object returned by extractSections can have. *)
Definition section_names : list jsstring :=
  lit "header" :: List.map fst sectionPatterns.

(** What the loop of extractSections keeps: distinct keys among the
    eight names, trimmed values. *)
Definition sections_ok (o : list (jsstring * jsstring)) : Prop :=
  NoDup (List.map fst o) /\
  (forall e, In e o -> In (fst e) section_names /\ trim (snd e) = snd e).

(** normalizeCompanyNames turns the stem followed by [c] into [by_]. *)
Definition normalized_to (stem : string) (c : N) (by_ : string) : bool :=
  match normalizeCompanyNames (VStr (lit stem ++ [c])) with
  | VStr r => str_eqb r (lit by_)
  | _ => false
  end.

(** ** Experience years *)

(** An occurrence of a pattern in a text: a piece of the text, between
    [a] and [b], that the pattern derives. *)
Definition occurrence (pattern : regex) (text a w b : jsstring) : Prop :=
  text = a ++ w ++ b /\ Props.derives pattern w.

(** A pattern without assertions whose stars range over classes. *)
Fixpoint plain (r : regex) : bool :=
  match r with
  | Eps | Cls _ => true
  | Seq a b | Alt a b => plain a && plain b
  | Star (Cls _) => true
  | Star _ => false
  | Bol | Eol | WordB => false
  end.

(** Every class of the pattern lies in [q]. *)
Fixpoint within (q : N -> bool) (r : regex) : Prop :=
  match r with
  | Cls p => forall c, p c = true -> q c = true
  | Seq a b | Alt a b => within q a /\ within q b
  | Star a => within q a
  | Eps | Bol | Eol | WordB => True
  end.

(** The least number of code units a match of the pattern holds. *)
Fixpoint min_len (r : regex) : nat :=
  match r with
  | Cls _ => 1
  | Seq a b => min_len a + min_len b
  | Alt a b => Nat.min (min_len a) (min_len b)
  | Eps | Star _ | Bol | Eol | WordB => 0
  end.

(** A code unit that is no letter x, in either case. *)
Definition notX (c : N) : bool := negb (N.eqb (canon c) 0x58).

(** A digit stands before the position. *)
Definition after_digit (prev : option N) : bool :=
  match prev with
  | Some c => isDigit c
  | None => false
  end.

(** A match of [r] starts here, and not inside a run of digits. *)
Definition run_start (r : regex) : Props.at_pos :=
  fun prev t => negb (after_digit prev) && Props.matchable false r prev t.

(** The example of the specification, and a numeral no double holds. *)
Definition years_example : jsstring :=
  lit "5+ years of experience in backend systems, 3 years in DevOps".
Definition long_numeral : jsstring := lit "9007199254740993 years of experience".

(** Sample inputs. *)
Definition sample_resume : jsstring :=
  lit "RESUME" ++ [LF] ++ lit "  Mary-Jane O'Neil Jr.  " ++ [LF]
  ++ lit "mj.oneil@mail.example.org | +1 555.123" ++ [9%N] ++ lit "4567" ++ [LF]
  ++ lit "Lives in Paris , France".

End Notions.

(* ===================================================================== *)
(** * Part VII. Proofs                                                    *)
(* ===================================================================== *)

Import JS Regex AIScorer Props.
Local Open Scope js_scope.
Unset Implicit Arguments.

(** ** Completions *)

Lemma bind_normal_inv {A B} (c : completion A) (k : A -> completion B) (b : B) :
  bind c k = Normal b -> exists a, c = Normal a /\ k a = Normal b.
Proof.
  destruct c as [a|msg]; simpl; intros H.
  - exists a. split; [reflexivity|exact H].
  - discriminate H.
Qed.

Ltac invert_binds :=
  repeat match goal with
         | H : bind _ _ = Normal _ |- _ =>
             let a := fresh "a" in
             let Ha := fresh "Ha" in
             apply bind_normal_inv in H; destruct H as [a [Ha H]]
         | H : Normal _ = Normal _ |- _ => injection H as H
         end.

Lemma processAIResponse_total (raw : value) (bi : BasicInfo.t) :
  exists r, processAIResponse raw bi = Normal r.
Proof.
  unfold processAIResponse, try_catch.
  destruct (processed raw bi) as [r|msg]; eauto.
Qed.

Lemma processAIResponse_cases (raw : value) (bi : BasicInfo.t) (r : ScoringResult) :
  processAIResponse raw bi = Normal r ->
  processed raw bi = Normal r \/ r = fallback bi.
Proof.
  unfold processAIResponse, try_catch.
  destruct (processed raw bi) as [r'|msg]; intros H; injection H as H; subst; auto.
Qed.

(** ** The clamp *)

Lemma Math_max_zero (n : number) :
  Math_max (num_of_Z 0) n = NaN \/ at_least 0 (Math_max (num_of_Z 0) n).
Proof.
  destruct n as [|q| |]; simpl; auto.
  - right. destruct (Qle_bool (inject_Z 0) q) eqn:E.
    + right. exists q. split; [reflexivity|]. apply Qle_bool_iff. exact E.
    + right. exists (inject_Z 0). split; [reflexivity|]. apply Qle_refl.
  - right. left. reflexivity.
  - right. right. exists (inject_Z 0). split; [reflexivity|]. apply Qle_refl.
Qed.

Lemma Qle_bool_false (p q : Q) : Qle_bool p q = false -> (q <= p)%Q.
Proof.
  intros E. destruct (Qlt_le_dec q p) as [H|H].
  - apply Qlt_le_weak. exact H.
  - apply Qle_bool_iff in H. congruence.
Qed.

Lemma clamp_in_range (n : number) :
  clamped_or_nan (Math_min (num_of_Z 100) (Math_max (num_of_Z 0) n)).
Proof.
  unfold clamped_or_nan, in_range.
  assert (H0 : (inject_Z 0 <= inject_Z 100)%Q) by (unfold Qle; simpl; lia).
  destruct n as [|q| |]; simpl.
  - left. reflexivity.
  - right. destruct (Qle_bool (inject_Z 0) q) eqn:E; simpl.
    + apply Qle_bool_iff in E.
      destruct (Qle_bool (inject_Z 100) q) eqn:E'.
      * exists (inject_Z 100). repeat split; [exact H0 | apply Qle_refl].
      * exists q. repeat split; [exact E | apply Qle_bool_false; exact E'].
    + exists (inject_Z 0). repeat split; [apply Qle_refl | exact H0].
  - right. exists (inject_Z 100). repeat split; [exact H0 | apply Qle_refl].
  - right. exists (inject_Z 0). repeat split; [apply Qle_refl | exact H0].
Qed.

Lemma clamp_score_range (v : value) (n : number) :
  clamp_score v = Normal n -> clamped_or_nan n.
Proof.
  unfold clamp_score. intros H. invert_binds. subst n. apply clamp_in_range.
Qed.

Lemma breakdown_score_range (raw : value) (k : string) (n : number) :
  breakdown_score raw k = Normal n -> clamped_or_nan n.
Proof.
  unfold breakdown_score. intros H. invert_binds. eapply clamp_score_range; eauto.
Qed.

Lemma array_prefix_length (n : nat) (v : value) :
  (List.length (array_prefix n v) <= n)%nat.
Proof.
  destruct v; simpl; try lia. apply firstn_le_length.
Qed.

(** Whatever the raw response, the result of the [try] block has every
    list within its cap and every score either in [0,100] or NaN. *)
Lemma processed_shape (raw : value) (bi : BasicInfo.t) (r : ScoringResult) :
  processed raw bi = Normal r ->
  clamped_or_nan (overallScore r) /\ clamped_or_nan (fitScore r) /\
  clamped_or_nan (skills (breakdown r)) /\ clamped_or_nan (experience (breakdown r)) /\
  clamped_or_nan (education (breakdown r)) /\ clamped_or_nan (relevance (breakdown r)) /\
  (List.length (strengths r) <= 10)%nat /\ (List.length (weaknesses r) <= 10)%nat /\
  (List.length (keywordMatches r) <= 20)%nat /\
  (List.length (recommendations r) <= 5)%nat /\ (List.length (redFlags r) <= 5)%nat.
Proof.
  unfold processed. intros H. invert_binds. subst r. simpl.
  repeat split;
    eauto using clamp_score_range, breakdown_score_range, array_prefix_length.
Qed.

Lemma processed_candidateName (raw : value) (bi : BasicInfo.t) (r : ScoringResult) :
  processed raw bi = Normal r -> candidateName r = BasicInfo.candidateName bi.
Proof.
  unfold processed. intros H. invert_binds. subst r. reflexivity.
Qed.

(** ** The Response Coercer: claims *)

(** C1 (the code departs from the claim).  On the raw response
    [{"overallScore": "high", "summary": 7}] the Coercer takes the normal
    path and returns a result whose overallScore and fitScore are NaN and
    whose summary is the number 7: the declared invariants of a
    ScoringResult do not hold of it. *)
Theorem processAIResponse_nonnumeric_escapes_clamp :
  option_map overallScore (normal (processAIResponse raw_nonnumeric jane)) = Some NaN /\
  option_map fitScore (normal (processAIResponse raw_nonnumeric jane)) = Some NaN /\
  option_map summary (normal (processAIResponse raw_nonnumeric jane))
    = Some (VNum (num_of_Z 7)) /\
  (forall r, processAIResponse raw_nonnumeric jane = Normal r -> ~ well_formed r).
Proof.
  repeat split; try reflexivity.
  intros r H [Hov _ _ _ _ _ _ _ _ _ _ _ _].
  vm_compute in H. injection H as H. subst r.
  destruct Hov as [q [Hq _]]. simpl in Hq. discriminate Hq.
Qed.

(** C2 (the code departs from the claim).  On a raw response whose
    keywordMatches has 25 entries, the output list is cut to 20 entries
    while keywordsMatched is 25, the length of the raw list. *)
Theorem keywordsMatched_counts_raw_list :
  option_map (fun r => List.length (keywordMatches r))
             (normal (processAIResponse raw_many_keywords jane)) = Some 20%nat /\
  option_map keywordsMatched (normal (processAIResponse raw_many_keywords jane))
    = Some (VNum (num_of_Z 25)).
Proof.
  split; reflexivity.
Qed.

(** C6.  For every basicInfo and every two raw responses, the Coercer
    returns a result for each, and both results carry the candidateName of
    basicInfo: nothing in the raw response reaches that field. *)
Theorem candidateName_from_basicInfo :
  forall (bi : BasicInfo.t) (raw1 raw2 : value),
  exists r1 r2,
    processAIResponse raw1 bi = Normal r1 /\
    processAIResponse raw2 bi = Normal r2 /\
    candidateName r1 = BasicInfo.candidateName bi /\
    candidateName r2 = BasicInfo.candidateName bi.
Proof.
  intros bi raw1 raw2.
  destruct (processAIResponse_total raw1 bi) as [r1 H1].
  destruct (processAIResponse_total raw2 bi) as [r2 H2].
  exists r1, r2. repeat split; trivial.
  - destruct (processAIResponse_cases _ _ _ H1) as [H|H].
    + eapply processed_candidateName; eauto.
    + subst r1. reflexivity.
  - destruct (processAIResponse_cases _ _ _ H2) as [H|H].
    + eapply processed_candidateName; eauto.
    + subst r2. reflexivity.
Qed.

Lemma get_field (k : string) (kv : list (jsstring * value)) :
  get (VObj kv) (lit k) = Normal (field k kv).
Proof. reflexivity. Qed.

(** C3, as stated, fails: the raw input ["garbage"] (a string) makes no
    property read throw, so the [try] block completes and returns the
    all-defaults result, with overallScore 0 and not 50. *)
Lemma string_input_is_not_fallback :
  processAIResponse (VStr (lit "garbage")) jane = Normal (defaults jane) /\
  option_map overallScore (normal (processAIResponse (VStr (lit "garbage")) jane))
    = Some (num_of_Z 0) /\
  processAIResponse (VStr (lit "garbage")) jane <> Normal (fallback jane).
Proof.
  repeat split. intros H. vm_compute in H. discriminate H.
Qed.

(** C3, amended.  The Coercer never raises.  On [null] (and [undefined]),
    where reading a property throws, it returns exactly the fallback
    result: overallScore, fitScore and the four breakdown fields 50,
    keywordsMatched 0, empty keywordMatches and redFlags, the fixed
    texts.  On any other input that is not an object (a string, a number,
    a boolean, an array) no read throws and it returns the all-defaults
    result instead: every score 0, empty lists, keywordsMatched 0 and the
    summary "Resume analyzed successfully.". *)
Theorem coercer_on_non_objects :
  forall (raw : value) (bi : BasicInfo.t),
    (exists r, processAIResponse raw bi = Normal r) /\
    (raw = VNull \/ raw = VUndefined ->
     processAIResponse raw bi = Normal (fallback bi)) /\
    (is_primitive_or_array raw = true ->
     processAIResponse raw bi = Normal (defaults bi)).
Proof.
  intros raw bi. split; [apply processAIResponse_total|]. split.
  - intros [H|H]; subst raw; reflexivity.
  - destruct raw; simpl; intros H; try discriminate H; reflexivity.
Qed.

Lemma coercer_on_non_objects_witness :
  processAIResponse VNull jane = Normal (fallback jane) /\
  processAIResponse (VNum (num_of_Z 42)) jane = Normal (defaults jane).
Proof.
  split.
  - apply (proj1 (proj2 (coercer_on_non_objects VNull jane))). left. reflexivity.
  - apply (proj2 (proj2 (coercer_on_non_objects (VNum (num_of_Z 42)) jane))). reflexivity.
Defined.

Lemma processed_fitScore (kv : list (jsstring * value)) (bi : BasicInfo.t)
    (r : ScoringResult) :
  processed (VObj kv) bi = Normal r ->
  clamp_score (if truthy (field "fitScore" kv) then field "fitScore" kv
               else or_else (field "overallScore" kv) zero) = Normal (fitScore r).
Proof.
  intros H. unfold processed in H.
  repeat rewrite get_field in H. simpl bind in H.
  invert_binds. subst r. simpl fitScore.
  match goal with
  | Hc : clamp_score ?x = Normal ?y, Hx : _ = Normal ?x |- _ = Normal ?y =>
      rewrite <- Hc; f_equal;
      destruct (truthy (field "fitScore" kv)); injection Hx as Hx; congruence
  end.
Qed.

(** C8 (the code departs from the claim).  In the raw response
    [{"overallScore": 80, "fitScore": 0}] the field fitScore is present
    with the value 0, and the output fitScore is 80, the clamp of
    overallScore, not 0, the clamp of the present value: the fallback is
    written with [||], which takes a present 0 for an absent field. *)
Theorem zero_fitScore_is_replaced :
  field "fitScore" [(lit "overallScore", VNum (num_of_Z 80));
                    (lit "fitScore", VNum (num_of_Z 0))] = VNum (num_of_Z 0) /\
  option_map fitScore (normal (processAIResponse raw_zero_fit jane)) = Some (num_of_Z 80) /\
  clamp_score (VNum (num_of_Z 0)) = Normal (num_of_Z 0) /\
  num_of_Z 80 <> num_of_Z 0.
Proof.
  repeat split. intros H. discriminate H.
Qed.

(** How far the defect reaches.  When the [try] block completes on an
    object, the output fitScore is the clamp of the raw fitScore if that
    value is truthy, and otherwise (fitScore absent, but also [null], 0,
    NaN, [false] or the empty string) the clamp of [overallScore || 0];
    a raw fitScore that is a number other than 0 is clamped itself, into
    [0,100]. *)
Lemma fitScore_falls_back_when_falsy :
  forall (kv : list (jsstring * value)) (bi : BasicInfo.t) (r : ScoringResult),
    processed (VObj kv) bi = Normal r ->
    (truthy (field "fitScore" kv) = true ->
     clamp_score (field "fitScore" kv) = Normal (fitScore r)) /\
    (truthy (field "fitScore" kv) = false ->
     clamp_score (or_else (field "overallScore" kv) zero) = Normal (fitScore r)) /\
    (forall q, field "fitScore" kv = VNum (Fin q) -> ~ (q == 0)%Q ->
       fitScore r = Math_min (num_of_Z 100) (Math_max (num_of_Z 0) (Fin q)) /\
       in_range 0 100 (fitScore r)).
Proof.
  intros kv bi r H.
  pose proof (processed_fitScore _ _ _ H) as C.
  split; [|split].
  - intros E. rewrite E in C. exact C.
  - intros E. rewrite E in C. exact C.
  - intros q Hq Hnz.
    assert (E : truthy (field "fitScore" kv) = true).
    { rewrite Hq. simpl. destruct (Qeq_bool q 0) eqn:Eq; [|reflexivity].
      apply Qeq_bool_iff in Eq. contradiction. }
    rewrite E, Hq in C.
    unfold clamp_score in C. simpl in C. injection C as C.
    split; [symmetry; exact C|].
    destruct (clamp_in_range (Fin q)) as [N|R].
    + exfalso. simpl in N.
      destruct (Qle_bool (inject_Z 0) q); simpl in N;
        [destruct (Qle_bool (inject_Z 100) q)|]; discriminate N.
    + rewrite <- C. exact R.
Qed.

Lemma fitScore_falls_back_when_falsy_at_120 :
  clamp_score (VNum (num_of_Z 120)) = Normal (num_of_Z 100) /\
  in_range 0 100 (num_of_Z 100).
Proof.
  assert (P : processed raw_good jane =
              Normal (match normal (processed raw_good jane) with
                      | Some r => r
                      | None => fallback jane
                      end)) by reflexivity.
  pose proof (fitScore_falls_back_when_falsy _ _ _ P) as [T [_ Q]].
  split.
  - apply T. reflexivity.
  - apply (Q (inject_Z 120)); [reflexivity | intros E; discriminate E].
Qed.

(** ** The matcher is sound for the declarative reading *)

Lemma last_of_app (prev : option N) (u v : jsstring) :
  last_of prev (u ++ v) = last_of (last_of prev u) v.
Proof.
  unfold last_of. rewrite rev_app_distr.
  destruct (rev v) as [|c t]; simpl; reflexivity.
Qed.

Section MatcherSound.

Variable ml : bool.

Lemma m_sound (r : regex) :
  forall prev s k res,
    m ml r prev s k = Some res ->
    exists w s', s = w ++ s' /\ derives r w /\ k (last_of prev w) s' = Some res.
Proof.
  induction r as [|p|a IHa b IHb|a IHa b IHb|a IHa| | |]; intros prev s k res H; simpl in H.
  - exists [], s. repeat split; [constructor|exact H].
  - destruct s as [|c t]; [discriminate H|].
    destruct (p c) eqn:E; [|discriminate H].
    exists [c], t. repeat split; [constructor; exact E|exact H].
  - apply IHa in H. destruct H as [u [s1 [E1 [D1 H]]]].
    apply IHb in H. destruct H as [v [s2 [E2 [D2 H]]]].
    exists (u ++ v), s2. subst. rewrite app_assoc. repeat split.
    + constructor; assumption.
    + rewrite last_of_app. exact H.
  - destruct (m ml a prev s k) eqn:E.
    + injection H as H. subst. apply IHa in E.
      destruct E as [w [s' [E1 [D E]]]]. exists w, s'. repeat split; trivial.
      apply d_alt_l. exact D.
    + apply IHb in H. destruct H as [w [s' [E1 [D H]]]]. exists w, s'.
      repeat split; trivial. apply d_alt_r. exact D.
  - revert H. generalize (List.length s) at 1. intros fuel. revert prev s.
    induction fuel as [|f IHf]; intros prev s H.
    + exists [], s. repeat split; [constructor|exact H].
    + match type of H with
      | match ?c with _ => _ end = _ => destruct c eqn:E
      end.
      * injection H as H. subst. apply IHa in E.
        destruct E as [u [s1 [E1 [D1 E]]]].
        destruct (List.length s1 <? List.length s)%nat; [|discriminate E].
        apply IHf in E. destruct E as [v [s2 [E2 [D2 E]]]].
        exists (u ++ v), s2. subst. rewrite app_assoc. repeat split.
        -- constructor; assumption.
        -- rewrite last_of_app. exact E.
      * exists [], s. repeat split; [constructor|exact H].
  - destruct (if ml then line_start prev else _); [|discriminate H].
    exists [], s. repeat split; [constructor|exact H].
  - destruct (if ml then line_end s else _); [|discriminate H].
    exists [], s. repeat split; [constructor|exact H].
  - destruct (xorb _ _); [|discriminate H].
    exists [], s. repeat split; [constructor|exact H].
Qed.

Lemma match_here_sound (r : regex) (prev : option N) (s rest : jsstring) :
  match_here ml r prev s = Some rest ->
  exists w, s = w ++ rest /\ derives r w.
Proof.
  unfold match_here. intros H. apply m_sound in H.
  destruct H as [w [s' [E [D H]]]]. injection H as H. subst. eauto.
Qed.

Lemma firstn_app_exact (w rest : jsstring) :
  firstn (List.length (w ++ rest) - List.length rest) (w ++ rest) = w.
Proof.
  rewrite length_app. replace (List.length w + List.length rest - List.length rest)%nat
    with (List.length w) by lia.
  rewrite firstn_app, Nat.sub_diag, firstn_all. simpl. apply app_nil_r.
Qed.

Lemma match_here_cut (r : regex) (prev : option N) (s rest : jsstring) :
  match_here ml r prev s = Some rest ->
  s = firstn (List.length s - List.length rest) s ++ rest /\
  derives r (firstn (List.length s - List.length rest) s).
Proof.
  intros H. apply match_here_sound in H. destruct H as [w [E D]]. subst s.
  rewrite firstn_app_exact. auto.
Qed.

Lemma search_eq (r : regex) (prev : option N) (s : jsstring) :
  search ml r prev s =
  match match_here ml r prev s with
  | Some rest => Some ([], firstn (List.length s - List.length rest) s, rest)
  | None =>
      match s with
      | [] => None
      | c :: t =>
          match search ml r (Some c) t with
          | Some (sk, mt, rest) => Some (c :: sk, mt, rest)
          | None => None
          end
      end
  end.
Proof. destruct s; reflexivity. Qed.

Lemma search_sound (r : regex) :
  forall s prev sk mt rest,
    search ml r prev s = Some (sk, mt, rest) ->
    s = sk ++ mt ++ rest /\ derives r mt.
Proof.
  induction s as [|c t IH]; intros prev sk mt rest H; rewrite search_eq in H.
  - destruct (match_here ml r prev []) eqn:E; [|discriminate H].
    injection H as H1 H2 H3. subst.
    apply match_here_cut in E. exact E.
  - destruct (match_here ml r prev (c :: t)) eqn:E.
    + injection H as H1 H2 H3. subst.
      apply match_here_cut in E. exact E.
    + destruct (search ml r (Some c) t) as [[[sk' mt'] rest']|] eqn:E'; [|discriminate H].
      injection H as H1 H2 H3. subst.
      apply IH in E'. destruct E' as [E' D]. subst t. simpl. auto.
Qed.

Lemma scan_sound (r : regex) :
  forall fuel prev s ms tl,
    scan ml fuel r prev s = (ms, tl) ->
    s = pieces ms tl /\ Forall (fun x => derives r (snd x)) ms.
Proof.
  unfold pieces.
  induction fuel as [|f IH]; intros prev s ms tl H; simpl in H.
  - injection H as H1 H2. subst. simpl. auto.
  - destruct (search ml r prev s) as [[[sk mt] rest]|] eqn:E.
    + apply search_sound in E. destruct E as [E D]. subst s.
      destruct mt as [|c0 mt0].
      * destruct rest as [|c t].
        -- injection H as H1 H2. subst. simpl. rewrite !app_nil_r. auto.
        -- destruct (scan ml f r (Some c) t) as [ms' tl'] eqn:E'.
           apply IH in E'. destruct E' as [E' F]. subst t.
           destruct ms' as [|[sk' mt'] ms''].
           ++ injection H as H1 H2. subst. simpl. rewrite !app_nil_r. auto.
           ++ injection H as H1 H2. subst. simpl. split.
              ** rewrite ?app_nil_r. repeat (rewrite <- ?app_assoc; simpl).
                 reflexivity.
              ** inversion F as [|x l Fx Fl]; subst.
                 constructor; [exact D|]. constructor; [exact Fx|exact Fl].
      * destruct (scan ml f r (Some (last (c0 :: mt0) 0%N)) rest) as [ms' tl'] eqn:E'.
        apply IH in E'. destruct E' as [E' F]. subst rest.
        injection H as H1 H2. subst. simpl. split.
        -- rewrite <- !app_assoc. reflexivity.
        -- constructor; [exact D|exact F].
    + injection H as H1 H2. subst. simpl. auto.
Qed.

Lemma match_all_sound (r : regex) (s mt : jsstring) :
  In mt (match_all ml r s) ->
  derives r mt /\ exists a b, s = a ++ mt ++ b.
Proof.
  unfold match_all, scan_all.
  destruct (scan ml (S (List.length s)) r None s) as [ms tl] eqn:E.
  apply scan_sound in E. destruct E as [E F]. simpl fst. intros H.
  apply in_map_iff in H. destruct H as [[sk x] [Hx Hin]]. simpl in Hx. subst x.
  split.
  - rewrite Forall_forall in F. apply (F _ Hin).
  - apply in_split in Hin. destruct Hin as [l1 [l2 Hin]]. subst ms.
    unfold pieces in E. rewrite map_app, concat_app in E. simpl in E.
    exists (List.concat (List.map (fun x => fst x ++ snd x) l1) ++ sk),
           (List.concat (List.map (fun x => fst x ++ snd x) l2) ++ tl).
    rewrite E. rewrite <- !app_assoc. reflexivity.
Qed.

End MatcherSound.

(** ** Symbolic evaluation of the matcher *)

Lemma star_cls_eq (ml : bool) (p : N -> bool) (k : cont) :
  forall s prev, m ml (Star (Cls p)) prev s k = star_cls p k prev s.
Proof.
  intros s prev. simpl.
  assert (L : (List.length s <= List.length s)%nat) by lia.
  revert L. generalize (List.length s) at 2 3. intros fuel. revert s prev.
  induction fuel as [|f IH]; intros s prev L.
  - destruct s; [reflexivity|simpl in L; lia].
  - destruct s as [|c t]; [reflexivity|].
    simpl. destruct (p c); [|reflexivity].
    replace (List.length t <? S (List.length t))%nat with true
      by (symmetry; apply Nat.ltb_lt; lia).
    rewrite IH by (simpl in L; lia). reflexivity.
Qed.

Lemma star_cls_total (p : N -> bool) :
  forall s prev, star_cls p (fun _ s' => Some s') prev s = Some (dropWhile p s).
Proof.
  induction s as [|c t IH]; intros prev; simpl; [reflexivity|].
  destruct (p c); [|reflexivity]. rewrite IH. reflexivity.
Qed.

Lemma takeWhile_dropWhile (p : N -> bool) (s : jsstring) :
  takeWhile p s ++ dropWhile p s = s.
Proof.
  induction s as [|c t IH]; simpl; [reflexivity|].
  destruct (p c); simpl; [rewrite IH|]; reflexivity.
Qed.

Lemma firstn_dropWhile (p : N -> bool) (s : jsstring) :
  firstn (List.length s - List.length (dropWhile p s)) s = takeWhile p s.
Proof.
  rewrite <- (takeWhile_dropWhile p s) at 1 3. apply firstn_app_exact.
Qed.

(** ** extractExperience *)

Import PDFParser.

Lemma match_here_plus_digit (prev : option N) (s : jsstring) :
  match_here false (Plus digit) prev s =
  match s with
  | c :: t => if isDigit c then Some (dropWhile isDigit t) else None
  | [] => None
  end.
Proof.
  unfold match_here, Plus, digit, SanitizeText.digit.
  destruct s as [|c t]; [reflexivity|].
  change (m false (Seq (Cls isDigit) (Star (Cls isDigit))) prev (c :: t)
            (fun _ s' => Some s'))
    with (if isDigit c
          then m false (Star (Cls isDigit)) (Some c) t (fun _ s' => Some s')
          else None).
  destruct (isDigit c); [|reflexivity].
  rewrite star_cls_eq. apply star_cls_total.
Qed.

(** The first run of digits is what [/\d+/] finds. *)
Lemma search_plus_digit :
  forall s prev,
    search false (Plus digit) prev s =
    match dropWhile notDigit s with
    | [] => None
    | d => Some (takeWhile notDigit s, takeWhile isDigit d, dropWhile isDigit d)
    end.
Proof.
  induction s as [|c t IH]; intros prev; rewrite search_eq, match_here_plus_digit.
  - reflexivity.
  - unfold notDigit at 1 2. simpl dropWhile. simpl takeWhile.
    destruct (isDigit c) eqn:E; simpl negb; cbv iota.
    + f_equal. f_equal. f_equal.
      change (List.length (c :: t) - List.length (dropWhile isDigit t))%nat
        with (List.length (c :: t) - List.length (dropWhile isDigit (c :: t)))%nat
        || idtac.
      assert (D : dropWhile isDigit (c :: t) = dropWhile isDigit t)
        by (simpl; rewrite E; reflexivity).
      rewrite <- D. rewrite firstn_dropWhile. simpl. rewrite E. reflexivity.
      rewrite E. reflexivity.
    + rewrite IH. fold notDigit.
      destruct (dropWhile notDigit t); reflexivity.
Qed.

Lemma first_digits_eq (mt : jsstring) :
  (exists c, In c mt /\ isDigit c = true) ->
  first_digits mt = Normal (takeWhile isDigit (dropWhile notDigit mt)) /\
  exists c t, takeWhile isDigit (dropWhile notDigit mt) = c :: t /\
              forallb isDigit (c :: t) = true.
Proof.
  intros [c [Hin Hc]]. unfold first_digits. rewrite search_plus_digit.
  assert (N : exists c' t', dropWhile notDigit mt = c' :: t' /\ isDigit c' = true).
  { clear -Hin Hc. induction mt as [|x t IH]; [contradiction|].
    simpl. unfold notDigit at 1. destruct (isDigit x) eqn:E; simpl.
    - eauto.
    - destruct Hin as [Hx|Hin]; [subst; congruence|]. apply IH. exact Hin. }
  destruct N as [c' [t' [E Hc']]]. rewrite E. split; [reflexivity|].
  simpl. rewrite Hc'. exists c', (takeWhile isDigit t'). split; [reflexivity|].
  simpl. rewrite Hc'. simpl.
  clear. induction t' as [|x t IH]; simpl; [reflexivity|].
  destruct (isDigit x) eqn:E; simpl; [rewrite E; exact IH|reflexivity].
Qed.

Lemma digitValue_digit (c : N) :
  isDigit c = true -> exists d, digitValue 10 c = Some d /\ (0 <= d < 10)%Z.
Proof.
  intros H. unfold digitValue. rewrite H.
  unfold isDigit in H. apply andb_true_iff in H. destruct H as [H1 H2].
  apply N.leb_le in H1, H2.
  assert (B : (Z.of_N c - 48 <? 10)%Z = true) by (apply Z.ltb_lt; lia).
  rewrite B. eexists. split; [reflexivity|lia].
Qed.

Lemma digitsValue_digits :
  forall d acc, forallb isDigit d = true -> (0 <= acc)%Z ->
    exists v, digitsValue 10 acc d = Some v /\ (0 <= v)%Z.
Proof.
  induction d as [|c t IH]; intros acc H A; simpl.
  - eauto.
  - simpl in H. apply andb_true_iff in H. destruct H as [Hc Ht].
    destruct (digitValue_digit c Hc) as [x [E B]]. rewrite E.
    apply IH; [exact Ht|lia].
Qed.

Lemma takeWhile_all (p : N -> bool) (s : jsstring) :
  forallb p s = true -> takeWhile p s = s.
Proof.
  induction s as [|c t IH]; simpl; [reflexivity|].
  intros H. apply andb_true_iff in H. destruct H as [Hc Ht].
  rewrite Hc, IH; trivial.
Qed.

(** [parseInt] of a non-empty string of digits is the Number for its
    decimal value. *)
Lemma parseInt_digits (c : N) (t : jsstring) :
  forallb isDigit (c :: t) = true ->
  exists v, digitsValue 10 0 (c :: t) = Some v /\ (0 <= v)%Z /\
            parseInt (c :: t) = double_of_Z v.
Proof.
  intros H.
  destruct (digitsValue_digits (c :: t) 0%Z H (Z.le_refl 0)) as [v [E V]].
  exists v. split; [exact E|]. split; [exact V|].
  assert (Hc : isDigit c = true) by (simpl in H; apply andb_true_iff in H; tauto).
  assert (R : (0x30 <= c <= 0x39)%N).
  { unfold isDigit in Hc. apply andb_true_iff in Hc. destruct Hc as [H1 H2].
    apply N.leb_le in H1, H2. lia. }
  unfold parseInt.
  assert (T : trimStart (c :: t) = c :: t).
  { unfold trimStart. simpl.
    replace (isSpace c) with false; [reflexivity|].
    unfold isSpace, isWhiteSpace, isLineTerminator.
    repeat match goal with
           | |- context [(c =? ?n)%N] =>
               replace (c =? n)%N with false by (symmetry; apply N.eqb_neq; lia)
           end.
    replace (0x2000 <=? c)%N with false by (symmetry; apply N.leb_gt; lia).
    reflexivity. }
  rewrite T.
  assert (S : readSign (c :: t) = (1%Z, c :: t)).
  { unfold readSign.
    destruct c as [|pc]; [lia|].
    do 6 (destruct pc as [pc|pc|]; try reflexivity; try lia). }
  rewrite S.
  assert (B : forall (A : Type) (x y : A) (p : N) (u : jsstring),
             isDigit p = true ->
             (if ((p =? 0x78) || (p =? 0x58))%N then x else y) = y).
  { intros A x y p u Hp. unfold isDigit in Hp. apply andb_true_iff in Hp.
    destruct Hp as [H1 H2]. apply N.leb_le in H1, H2.
    replace (p =? 0x78)%N with false by (symmetry; apply N.eqb_neq; lia).
    replace (p =? 0x58)%N with false by (symmetry; apply N.eqb_neq; lia).
    reflexivity. }
  assert (P : radixPrefix (c :: t) = (10%Z, c :: t)).
  { unfold radixPrefix. destruct t as [|p t0].
    - destruct c as [|pc]; [reflexivity|].
      do 6 (destruct pc as [pc|pc|]; try reflexivity).
    - assert (Hp : isDigit p = true).
      { simpl in H. apply andb_true_iff in H. destruct H as [_ H].
        apply andb_true_iff in H. tauto. }
      destruct c as [|pc]; [reflexivity|].
      do 6 (destruct pc as [pc|pc|]; try reflexivity);
        apply (B _ _ _ p t0 Hp). }
  rewrite P.
  assert (W : takeWhile (fun c0 => match digitValue 10 c0 with
                                    | Some _ => true
                                    | None => false
                                    end) (c :: t) = c :: t).
  { apply takeWhile_all. clear -H. revert H. generalize (c :: t). intros l.
    induction l as [|x l IH]; simpl; [reflexivity|].
    intros H. apply andb_true_iff in H. destruct H as [Hx Hl].
    destruct (digitValue_digit x Hx) as [d [E _]]. rewrite E. simpl. auto. }
  rewrite W. unfold digitsValue1. rewrite E.
  rewrite Z.mul_1_l. reflexivity.
Qed.

Lemma derives_seq_inv (a b : regex) (w : jsstring) :
  derives (Seq a b) w -> exists u v, w = u ++ v /\ derives a u /\ derives b v.
Proof. intros H. inversion H; subst. eauto. Qed.

Lemma derives_cls_inv (p : N -> bool) (w : jsstring) :
  derives (Cls p) w -> exists c, w = [c] /\ p c = true.
Proof. intros H. inversion H; subst. eauto. Qed.

Lemma derives_plus_digit (w : jsstring) :
  derives (Plus digit) w -> exists c, In c w /\ isDigit c = true.
Proof.
  intros H. apply derives_seq_inv in H. destruct H as [u [v [E [Du _]]]].
  apply derives_cls_inv in Du. destruct Du as [c [Ec Hc]]. subst.
  exists c. split; [left; reflexivity|exact Hc].
Qed.

(** Every match of an experience pattern holds a digit. *)
Lemma experience_match_has_digit (pattern : regex) (mt : jsstring) :
  In pattern experiencePatterns -> derives pattern mt ->
  exists c, In c mt /\ isDigit c = true.
Proof.
  unfold experiencePatterns, cat. cbn [SanitizeText.cat].
  intros [E|[E|[E|[]]]] H; subst pattern.
  - apply derives_seq_inv in H. destruct H as [u [v [E [Du _]]]].
    apply derives_plus_digit in Du. destruct Du as [c [Hin Hc]].
    exists c. subst. split; [apply in_or_app; left; exact Hin|exact Hc].
  - apply derives_seq_inv in H. destruct H as [u [v [E [_ Dv]]]].
    apply derives_seq_inv in Dv. destruct Dv as [u1 [v1 [E1 [_ Dv1]]]].
    apply derives_seq_inv in Dv1. destruct Dv1 as [u2 [v2 [E2 [Du2 _]]]].
    apply derives_plus_digit in Du2. destruct Du2 as [c [Hin Hc]].
    exists c. subst. split; [|exact Hc].
    apply in_or_app; right. apply in_or_app; right. apply in_or_app; left. exact Hin.
  - apply derives_seq_inv in H. destruct H as [u [v [E [Du _]]]].
    apply derives_plus_digit in Du. destruct Du as [c [Hin Hc]].
    exists c. subst. split; [apply in_or_app; left; exact Hin|exact Hc].
Qed.

Lemma gt_of_Z (y x : Z) : gt (num_of_Z y) (num_of_Z x) = (x <? y)%Z.
Proof.
  unfold gt, num_of_Z, Qle_bool, inject_Z. simpl.
  rewrite !Z.mul_1_r. rewrite Z.ltb_antisym. reflexivity.
Qed.

(** The inner loop keeps the greatest number read so far. *)
Lemma years_loop_max :
  forall matches acc,
    (forall mt, In mt matches -> exists c, In c mt /\ isDigit c = true) ->
    years_loop matches acc
    = Normal (List.fold_left keep_max (List.map years_of matches) acc).
Proof.
  induction matches as [|mt rest IH]; intros acc H; [reflexivity|].
  cbn [years_loop List.map List.fold_left].
  destruct (first_digits_eq mt (H mt (or_introl eq_refl))) as [F [c [t [E A]]]].
  rewrite F. cbn [bind]. rewrite E.
  destruct (parseInt_digits c t A) as [v [V [Pos P]]].
  rewrite P.
  assert (L : years_of mt = double_of_Z v)
    by (unfold years_of, leading_number; rewrite E, V; reflexivity).
  rewrite L. apply IH. intros mt' Hin. apply H. right. exact Hin.
Qed.

Lemma patterns_loop_max (text : jsstring) :
  forall patterns acc,
    (forall p, In p patterns -> In p experiencePatterns) ->
    patterns_loop patterns text acc
    = Normal (List.fold_left keep_max
                (List.map years_of
                   (List.flat_map (fun p => match_all false p text) patterns)) acc).
Proof.
  induction patterns as [|p rest IH]; intros acc H; [reflexivity|].
  cbn [patterns_loop List.flat_map]. rewrite years_loop_max.
  - cbn [bind]. rewrite IH by (intros q Hq; apply H; right; exact Hq).
    rewrite map_app, fold_left_app. reflexivity.
  - intros mt Hin. apply match_all_sound in Hin. destruct Hin as [D _].
    apply (experience_match_has_digit p mt); [apply H; left; reflexivity|exact D].
Qed.

Lemma leading_number_nonneg (mt : jsstring) : (0 <= leading_number mt)%Z.
Proof.
  unfold leading_number.
  destruct (digitsValue 10 0 (takeWhile isDigit (dropWhile notDigit mt))) as [v|] eqn:E;
    [|lia].
  assert (A : forallb isDigit (takeWhile isDigit (dropWhile notDigit mt)) = true).
  { generalize (dropWhile notDigit mt). intros l.
    induction l as [|x l IH]; simpl; [reflexivity|].
    destruct (isDigit x) eqn:X; simpl; [rewrite X; exact IH|reflexivity]. }
  destruct (digitsValue_digits _ 0%Z A (Z.le_refl 0)) as [v' [E' P]].
  congruence.
Qed.

(** ** extractSkills *)

Lemma str_eqb_eq (a b : jsstring) : str_eqb a b = true <-> a = b.
Proof.
  unfold str_eqb. destruct (list_eq_dec N.eq_dec a b); split; congruence.
Qed.

Lemma str_mem_In (a : jsstring) (l : list jsstring) : str_mem a l = true <-> In a l.
Proof.
  unfold str_mem. rewrite existsb_exists. split.
  - intros [x [Hin E]]. apply str_eqb_eq in E. subst. exact Hin.
  - intros H. exists a. split; [exact H|apply str_eqb_eq; reflexivity].
Qed.

Lemma uniq_In :
  forall l seen e, In e (uniq seen l) <-> In e l /\ ~ In e seen.
Proof.
  induction l as [|x t IH]; intros seen e; simpl.
  - tauto.
  - destruct (str_mem x seen) eqn:M.
    + apply str_mem_In in M. rewrite IH. split.
      * tauto.
      * intros [[E|H] N]; [subst; contradiction|tauto].
    + assert (N : ~ In x seen) by (rewrite <- str_mem_In; congruence).
      simpl. rewrite IH. simpl. split.
      * intros [E|[H N']]; [subst; tauto|tauto].
      * intros [[E|H] N'].
        -- left. exact E.
        -- destruct (list_eq_dec N.eq_dec x e) as [E|D]; [left; exact E|].
           right. split; [exact H|]. intros [E|S]; [contradiction|contradiction].
Qed.

Lemma uniq_NoDup :
  forall l seen, NoDup (uniq seen l).
Proof.
  induction l as [|x t IH]; intros seen; simpl.
  - constructor.
  - destruct (str_mem x seen) eqn:M; [apply IH|].
    constructor; [|apply IH].
    rewrite uniq_In. simpl. tauto.
Qed.

(** C10.  For every input, extractSkills returns (it never raises) and
    the list has no duplicates.  On a string, every entry is either a
    term of the vocabulary, spelled as in the vocabulary, or an e-mail
    address matched in the text, kept as the very code units of the text;
    the vocabulary terms returned are those whose pattern is found in
    the lowercased text, so they do not depend on the casing of the
    input ("JavaScript" and "JAVASCRIPT" both give "javascript"). *)
Theorem extractSkills_entries :
  forall unicodeLowerCase : jsstring -> jsstring,
    (forall text : value,
       exists l, extractSkills unicodeLowerCase text = Normal l /\ NoDup l) /\
    (forall (s : jsstring) (l : list jsstring),
       extractSkills unicodeLowerCase (VStr s) = Normal l ->
       forall e,
         In e l <->
         (In e commonSkills /\
          test false (skillRegex e) (toLowerCase unicodeLowerCase s) = true) \/
         In e (match_all false emailRegex s)) /\
    (forall (s e : jsstring),
       In e (match_all false emailRegex s) -> exists a b, s = a ++ e ++ b) /\
    (forall s s' : jsstring,
       forallb isAscii s = true -> forallb isAscii s' = true ->
       List.map lowerAscii s = List.map lowerAscii s' ->
       foundSkills (toLowerCase unicodeLowerCase s)
       = foundSkills (toLowerCase unicodeLowerCase s')) /\
    extractSkills unicodeLowerCase (VStr (lit "JavaScript")) = Normal [lit "javascript"] /\
    extractSkills unicodeLowerCase (VStr (lit "JAVASCRIPT")) = Normal [lit "javascript"] /\
    extractSkills unicodeLowerCase
      (VStr (lit "Python, SQL. Mail: Jane.Doe@Example.com"))
    = Normal [lit "python"; lit "sql"; lit "Jane.Doe@Example.com"].
Proof.
  intros u. split; [|split; [|split; [|split; [|split; [|split]]]]].
  - intros text. unfold extractSkills, skills_body, try_catch.
    destruct text; try (exists []; split; [reflexivity|constructor]).
    eexists. split; [reflexivity|]. apply uniq_NoDup.
  - intros s l H e. unfold extractSkills, skills_body, try_catch in H.
    injection H as H. subst l. rewrite uniq_In, in_app_iff.
    unfold foundSkills. rewrite filter_In. simpl. tauto.
  - intros s e H. apply match_all_sound in H. tauto.
  - intros s s' A A' E. unfold toLowerCase. rewrite A, A', E. reflexivity.
  - vm_compute. reflexivity.
  - vm_compute. reflexivity.
  - vm_compute. reflexivity.
Qed.

Lemma extractSkills_entries_witness :
  In (lit "sql") [lit "python"; lit "sql"; lit "Jane.Doe@Example.com"] <->
  (In (lit "sql") commonSkills /\
   test false (skillRegex (lit "sql"))
        (toLowerCase (fun s => s) (lit "Python, SQL. Mail: Jane.Doe@Example.com")) = true) \/
  In (lit "sql") (match_all false emailRegex (lit "Python, SQL. Mail: Jane.Doe@Example.com")).
Proof.
  pose proof (extractSkills_entries (fun s => s)) as [_ [H [_ [_ [_ [_ E]]]]]].
  exact (H _ _ E (lit "sql")).
Defined.

(** ** validatePDF *)

Lemma bounded_forall (P : N -> bool) (n : nat) :
  forallb P (List.map N.of_nat (seq 0 n)) = true ->
  forall b, (b < N.of_nat n)%N -> P b = true.
Proof.
  intros H b Hb. rewrite forallb_forall in H. apply H.
  apply in_map_iff. exists (N.to_nat b). split; [apply N2Nat.id|].
  apply in_seq. lia.
Qed.

Lemma two_byte_not_ascii (b0 b1 : N) :
  between 0xC2 0xDF b0 = true ->
  isAscii (N.shiftl (N.land b0 0x1F) 6 + low6 b1) = false.
Proof.
  intros H.
  assert (L : (b0 < N.of_nat 256)%N).
  { unfold between in H. apply andb_true_iff in H. destruct H as [_ H].
    apply N.leb_le in H. lia. }
  assert (G : (between 0xC2 0xDF b0 && (N.shiftl (N.land b0 0x1F) 6 <? 0x80)%N) = false).
  { pose proof (bounded_forall
                  (fun b => negb (between 0xC2 0xDF b && (N.shiftl (N.land b 0x1F) 6 <? 0x80)%N))
                  256 eq_refl b0 L) as Q.
    apply negb_true_iff in Q. exact Q. }
  rewrite H in G. simpl in G. apply N.ltb_ge in G.
  unfold isAscii. apply N.ltb_ge. lia.
Qed.

Lemma three_byte_not_ascii (b0 b1 b2 : N) :
  between 0xE0 0xEF b0 = true ->
  between (if (b0 =? 0xE0)%N then 0xA0 else 0x80)
          (if (b0 =? 0xED)%N then 0x9F else 0xBF) b1 = true ->
  isAscii (N.shiftl (N.land b0 0xF) 12 + N.shiftl (low6 b1) 6 + low6 b2) = false.
Proof.
  intros H0 H1.
  assert (L0 : (b0 < N.of_nat 256)%N).
  { unfold between in H0. apply andb_true_iff in H0. destruct H0 as [_ H0].
    apply N.leb_le in H0. lia. }
  assert (L1 : (b1 < N.of_nat 256)%N).
  { unfold between in H1. apply andb_true_iff in H1. destruct H1 as [_ H1].
    apply N.leb_le in H1. destruct (b0 =? 0xED)%N; lia. }
  pose (Q := fun x y =>
         negb (between 0xE0 0xEF x
               && between (if (x =? 0xE0)%N then 0xA0 else 0x80)
                          (if (x =? 0xED)%N then 0x9F else 0xBF) y
               && (N.shiftl (N.land x 0xF) 12 + N.shiftl (low6 y) 6 <? 0x80)%N)).
  assert (A : forall x, (x < N.of_nat 256)%N ->
                        (fun x => forallb (Q x) (List.map N.of_nat (seq 0 256))) x = true).
  { apply bounded_forall. vm_compute. reflexivity. }
  pose proof (bounded_forall (Q b0) 256 (A b0 L0) b1 L1) as G.
  unfold Q in G. rewrite H0, H1 in G. simpl in G.
  apply negb_true_iff in G. apply N.ltb_ge in G.
  unfold isAscii. apply N.ltb_ge. lia.
Qed.

(** A decoded text made of ASCII code units is the byte sequence
    itself. *)
Lemma utf8_ascii :
  forall bs, forallb isAscii (utf8 bs) = true -> utf8 bs = bs.
Proof.
  induction bs as [|b0 t0 IH]; [reflexivity|].
  intros H. cbn [utf8] in H |- *.
  destruct (b0 <? 0x80)%N eqn:A.
  - cbn [forallb] in H. apply andb_true_iff in H. destruct H as [_ H].
    rewrite (IH H). reflexivity.
  - exfalso.
    assert (R : isAscii REPLACEMENT = false) by reflexivity.
    destruct (between 0xC2 0xDF b0) eqn:B2.
    { destruct t0 as [|b1 t1].
      - cbn [forallb] in H. rewrite R in H. discriminate H.
      - destruct (between 0x80 0xBF b1); cbn [forallb] in H.
        + rewrite (two_byte_not_ascii b0 b1 B2) in H. discriminate H.
        + rewrite R in H. discriminate H. }
    destruct (between 0xE0 0xEF b0) eqn:B3.
    { destruct t0 as [|b1 t1].
      - cbn [forallb] in H. rewrite R in H. discriminate H.
      - destruct (between _ _ b1) eqn:C1.
        + destruct t1 as [|b2 t2].
          * cbn [forallb] in H. rewrite R in H. discriminate H.
          * destruct (between 0x80 0xBF b2); cbn [forallb] in H.
            -- rewrite (three_byte_not_ascii b0 b1 b2 B3 C1) in H. discriminate H.
            -- rewrite R in H. discriminate H.
        + cbn [forallb] in H. rewrite R in H. discriminate H. }
    destruct (between 0xF0 0xF4 b0) eqn:B4.
    { destruct t0 as [|b1 t1].
      - cbn [forallb] in H. rewrite R in H. discriminate H.
      - destruct (between _ _ b1) eqn:C1.
        + destruct t1 as [|b2 t2].
          * cbn [forallb] in H. rewrite R in H. discriminate H.
          * destruct (between 0x80 0xBF b2).
            -- destruct t2 as [|b3 t3].
               ++ cbn [forallb] in H. rewrite R in H. discriminate H.
               ++ destruct (between 0x80 0xBF b3); cbn [forallb] in H.
                  ** apply andb_true_iff in H. destruct H as [H _].
                     unfold isAscii in H. apply N.ltb_lt in H. lia.
                  ** rewrite R in H. discriminate H.
            -- cbn [forallb] in H. rewrite R in H. discriminate H.
        + cbn [forallb] in H. rewrite R in H. discriminate H. }
    cbn [forallb] in H. rewrite R in H. discriminate H.
Qed.

Lemma map_to_N_inj (l l' : list Byte.byte) :
  List.map Byte.to_N l = List.map Byte.to_N l' -> l = l'.
Proof.
  revert l'. induction l as [|x t IH]; intros [|y t'] H; simpl in H;
    try discriminate H; [reflexivity|].
  injection H as Hx Ht. f_equal; [|apply IH; exact Ht].
  assert (E : Byte.of_N (Byte.to_N x) = Byte.of_N (Byte.to_N y)) by (rewrite Hx; reflexivity).
  rewrite !Byte.of_to_N in E. injection E as E. exact E.
Qed.

(** Only the four bytes [%PDF] decode to the text "%PDF". *)
Lemma signature_iff (l : buffer) :
  str_eqb (toString l) (lit "%PDF") = true <-> l = pdf_magic.
Proof.
  rewrite str_eqb_eq. unfold toString. split.
  - intros H.
    assert (A : forallb isAscii (utf8 (List.map Byte.to_N l)) = true)
      by (rewrite H; reflexivity).
    apply utf8_ascii in A. rewrite A in H.
    apply map_to_N_inj. rewrite H. reflexivity.
  - intros H. subst l. reflexivity.
Qed.

(** C9.  validatePDF tests the signature first: a buffer whose first
    four bytes are not [%PDF] is rejected with 'Invalid PDF signature'
    whatever its length, and a buffer that starts with [%PDF] and has
    fewer than 1024 bytes is rejected with 'File too small to be a valid
    PDF'; in both cases the decode service is not called. *)
Theorem validatePDF_signature_then_size :
  forall (pdf : buffer -> N -> completion unit) (b : buffer),
    (firstn 4 b <> pdf_magic ->
     validatePDF pdf b
     = (Normal {| isValid := false; error := Some "Invalid PDF signature"%string |}, [])) /\
    (firstn 4 b = pdf_magic -> (List.length b < 1024)%nat ->
     validatePDF pdf b
     = (Normal {| isValid := false;
                  error := Some "File too small to be a valid PDF"%string |}, [])).
Proof.
  intros pdf b. unfold validatePDF, validate_body. split.
  - intros H.
    destruct (str_eqb (toString (firstn 4 b)) (lit "%PDF")) eqn:E.
    + apply signature_iff in E. contradiction.
    + reflexivity.
  - intros H L.
    replace (str_eqb (toString (firstn 4 b)) (lit "%PDF")) with true
      by (symmetry; apply signature_iff; exact H).
    replace (List.length b <? 1024)%nat with true
      by (symmetry; apply Nat.ltb_lt; exact L).
    reflexivity.
Qed.

Lemma validatePDF_signature_then_size_witness :
  validatePDF (fun _ _ => Normal tt) (List.repeat Byte.x41 2000)
  = (Normal {| isValid := false; error := Some "Invalid PDF signature"%string |}, []) /\
  validatePDF (fun _ _ => Normal tt) (pdf_magic ++ [Byte.x2d; Byte.x31])
  = (Normal {| isValid := false;
               error := Some "File too small to be a valid PDF"%string |}, []).
Proof.
  split.
  - apply (proj1 (validatePDF_signature_then_size (fun _ _ => Normal tt)
                    (List.repeat Byte.x41 2000))).
    vm_compute. intros H. discriminate H.
  - apply (proj2 (validatePDF_signature_then_size (fun _ _ => Normal tt)
                    (pdf_magic ++ [Byte.x2d; Byte.x31]))).
    + reflexivity.
    + simpl. lia.
Defined.

(** ** batchScoreResumes *)

Section Batch.

Variable JobRequirements : Type.
Variable buildScoringPrompt :
  jsstring -> option JobRequirements -> BasicInfo.t -> jsstring.
Variable create : nat -> jsstring -> reply.
Variable JSON_parse : value -> completion value.

Local Abbreviation scoreResume_ := (scoreResume buildScoringPrompt create JSON_parse).
Local Abbreviation batch_loop_ := (batch_loop buildScoringPrompt create JSON_parse).
Local Abbreviation attempt_ := (attempt buildScoringPrompt create JSON_parse).
Local Abbreviation attempts_ := (attempts buildScoringPrompt create JSON_parse).

Lemma scoreResume_step (text : jsstring) (jr : option JobRequirements)
    (bi : BasicInfo.t) (w : world) :
  scoreResume_ text jr bi w
  = (fst (scoreResume_ text jr bi {| calls := calls w; paused := 0 |}),
     {| calls := S (calls w); paused := paused w |}).
Proof. reflexivity. Qed.


Lemma batch_loop_spec (jr : option JobRequirements) :
  forall resumes results w,
    fst (batch_loop_ resumes jr results w) = results ++ attempts_ jr (calls w) resumes /\
    calls (snd (batch_loop_ resumes jr results w)) = (calls w + List.length resumes)%nat.
Proof.
  induction resumes as [|r rest IH]; intros results w.
  - simpl. rewrite app_nil_r. split; [reflexivity|lia].
  - cbn [batch_loop attempts]. rewrite scoreResume_step.
    fold (attempt_ jr (calls w) r).
    destruct (attempt_ jr (calls w) r) as [result|msg];
      match goal with
      | |- context [batch_loop_ rest jr ?acc ?w1] =>
          destruct (IH acc w1) as [E1 E2]; rewrite E1, E2
      end; simpl; rewrite <- app_assoc; simpl; split; (reflexivity || lia).
Qed.





End Batch.


(* ===================================================================== *)
(** * Part VIII. Proofs: sanitizeText                                     *)
(* ===================================================================== *)

(** The result of sanitizeText is a text on which none of its patterns
    finds a match and which [trim] leaves alone, as long as the form
    feed, the non-breaking space and the footers stay out of the way.
    Each pattern is given a predicate on positions that says where its
    matches start; the proofs follow such predicates through every
    assignment. *)

Import SanitizeText.

(** ** The matcher and the steps of a match *)

Section StepsMeta.
Variable ml : bool.

Lemma m_steps (r : regex) :
  forall prev s k res,
    m ml r prev s k = Some res ->
    exists p' s', steps ml r prev s p' s' /\ k p' s' = Some res.
Proof.
  induction r as [|p|a IHa b IHb|a IHa b IHb|a IHa| | |]; intros prev s k res H; simpl in H.
  - exists prev, s. split; [constructor|exact H].
  - destruct s as [|c t]; [discriminate H|].
    destruct (p c) eqn:E; [|discriminate H].
    exists (Some c), t. split; [constructor; exact E|exact H].
  - apply IHa in H. destruct H as [p1 [s1 [S1 H]]].
    apply IHb in H. destruct H as [p2 [s2 [S2 H]]].
    exists p2, s2. split; [econstructor; eauto|exact H].
  - destruct (m ml a prev s k) eqn:E.
    + injection H as H. subst. apply IHa in E.
      destruct E as [p1 [s1 [S1 E]]]. exists p1, s1. split; [apply st_alt_l; exact S1|exact E].
    + apply IHb in H. destruct H as [p1 [s1 [S1 H]]]. exists p1, s1.
      split; [apply st_alt_r; exact S1|exact H].
  - revert H. generalize (List.length s) at 1. intros fuel. revert prev s.
    induction fuel as [|f IHf]; intros prev s H.
    + exists prev, s. split; [constructor|exact H].
    + match type of H with
      | match ?c with _ => _ end = _ => destruct c eqn:E
      end.
      * injection H as H. subst. apply IHa in E.
        destruct E as [p1 [s1 [S1 E]]].
        destruct (List.length s1 <? List.length s)%nat eqn:L; [|discriminate E].
        apply Nat.ltb_lt in L.
        apply IHf in E. destruct E as [p2 [s2 [S2 E]]].
        exists p2, s2. split; [eapply st_star_cons; eauto|exact E].
      * exists prev, s. split; [constructor|exact H].
  - destruct (if ml then line_start prev else _) eqn:E; [|discriminate H].
    exists prev, s. split; [constructor; exact E|exact H].
  - destruct (if ml then line_end s else _) eqn:E; [|discriminate H].
    exists prev, s. split; [constructor; exact E|exact H].
  - destruct (xorb _ _) eqn:E; [|discriminate H].
    exists prev, s. split; [constructor; exact E|exact H].
Qed.

Lemma steps_length (r : regex) prev s p' s' :
  steps ml r prev s p' s' -> (List.length s' <= List.length s)%nat.
Proof.
  induction 1; simpl; lia.
Qed.

Lemma m_none (r : regex) :
  forall prev s k,
    m ml r prev s k = None ->
    forall p' s', steps ml r prev s p' s' -> k p' s' = None.
Proof.
  induction r as [|p|a IHa b IHb|a IHa b IHb|a IHa| | |]; intros prev s k H p' s' S; simpl in H.
  - inversion S; subst. exact H.
  - inversion S as [|? ? ? ? Hp| | | | | | | |]; subst. rewrite Hp in H. exact H.
  - inversion S; subst.
    eapply IHb; [|eassumption]. eapply (IHa _ _ _ H); eassumption.
  - destruct (m ml a prev s k) eqn:E; [discriminate H|].
    inversion S; subst; [eapply IHa|eapply IHb]; eassumption.
  - revert H.
    assert (L : (List.length s <= List.length s)%nat) by lia. revert L.
    generalize (List.length s) at 2 3. intros fuel. revert prev s S.
    induction fuel as [|f IHf]; intros prev s S L H.
    + inversion S; subst; [exact H|]. lia.
    + match type of H with
      | match ?c with _ => _ end = _ => destruct c eqn:E
      end; [discriminate H|].
      inversion S; subst; [exact H|].
      match goal with
      | Ha : steps ml a prev s ?p1 ?s1, Hl : (_ < _)%nat,
        Hs : steps ml (Star a) ?p1 ?s1 p' s' |- _ =>
          pose proof (IHa _ _ _ E _ _ Ha) as Q; simpl in Q;
          replace (List.length s1 <? List.length s)%nat with true in Q
            by (symmetry; apply Nat.ltb_lt; exact Hl);
          eapply IHf; [exact Hs| lia | exact Q]
      end.
  - inversion S as [| | | | | | |? ? Hb| |]; subst. unfold bol_ok in Hb. rewrite Hb in H. exact H.
  - inversion S as [| | | | | | | |? ? Hb|]; subst. unfold eol_ok in Hb. rewrite Hb in H. exact H.
  - inversion S as [| | | | | | | | |? ? Hb]; subst. rewrite Hb in H. exact H.
Qed.

Lemma match_here_steps r prev s rest :
  match_here ml r prev s = Some rest -> exists p', steps ml r prev s p' rest.
Proof.
  unfold match_here. intros H. apply m_steps in H.
  destruct H as [p' [s' [S E]]]. injection E as E. subst. eauto.
Qed.

Lemma match_here_none r prev s :
  match_here ml r prev s = None -> forall p' s', ~ steps ml r prev s p' s'.
Proof.
  unfold match_here. intros H p' s' S.
  pose proof (m_none r _ _ _ H _ _ S) as Q. discriminate Q.
Qed.

Lemma steps_match_here r prev s p' s' :
  steps ml r prev s p' s' -> exists rest, match_here ml r prev s = Some rest.
Proof.
  intros S. destruct (match_here ml r prev s) eqn:E; [eauto|].
  exfalso. eapply match_here_none; eauto.
Qed.

End StepsMeta.

(** ** Scans *)

Lemma last_of_nil prev : last_of prev [] = prev.
Proof. reflexivity. Qed.

Lemma last_of_cons prev c t : last_of prev (c :: t) = last_of (Some c) t.
Proof.
  change (c :: t) with ([c] ++ t). rewrite last_of_app. reflexivity.
Qed.

Lemma last_of_last prev c w : last_of prev (c :: w) = Some (last (c :: w) 0%N).
Proof.
  revert prev c. induction w as [|x w IH]; intros prev c.
  - reflexivity.
  - rewrite last_of_cons. rewrite IH. reflexivity.
Qed.

Lemma free_app P : forall a prev z,
  free P prev (a ++ z) = skipped P prev a z && free P (last_of prev a) z.
Proof.
  induction a as [|c t IH]; intros prev z.
  - reflexivity.
  - rewrite last_of_cons. simpl. rewrite IH. rewrite andb_assoc. reflexivity.
Qed.

Lemma free_head P prev s : free P prev s = true -> P prev s = false.
Proof.
  destruct s; simpl; intros H; apply andb_true_iff in H; destruct H as [H _];
    apply negb_true_iff in H; exact H.
Qed.

Section Scan.
Variable ml : bool.
Variable r : regex.

Lemma search_none_free : forall s prev,
  search ml r prev s = None <-> free (matchable ml r) prev s = true.
Proof.
  induction s as [|c t IH]; intros prev; rewrite search_eq; unfold matchable at 1; simpl.
  - destruct (match_here ml r prev []); simpl; split; congruence.
  - destruct (match_here ml r prev (c :: t)); simpl; [split; congruence|].
    rewrite <- IH. destruct (search ml r (Some c) t) as [[[? ?] ?]|]; split; congruence.
Qed.

Lemma search_some_spec : forall s prev sk w rest,
  search ml r prev s = Some (sk, w, rest) ->
  s = sk ++ w ++ rest /\
  match_here ml r (last_of prev sk) (w ++ rest) = Some rest /\
  skipped (matchable ml r) prev sk (w ++ rest) = true.
Proof.
  induction s as [|c t IH]; intros prev sk w rest H; rewrite search_eq in H.
  - destruct (match_here ml r prev []) as [rest0|] eqn:E; [|discriminate H].
    apply match_here_cut in E as C. destruct C as [C _].
    assert (W : w = firstn (List.length (@nil N) - List.length rest0) [])
      by (injection H as H1 H2 H3; symmetry; exact H2).
    rewrite <- W in C.
    assert (R : rest0 = rest) by (injection H as H1 H2 H3; exact H3).
    assert (K : sk = []) by (injection H as H1 H2 H3; symmetry; exact H1).
    subst rest0 sk. rewrite app_nil_l, last_of_nil. rewrite <- C. auto.
  - destruct (match_here ml r prev (c :: t)) as [rest0|] eqn:E.
    + apply match_here_cut in E as C. destruct C as [C _].
      assert (W : w = firstn (List.length (c :: t) - List.length rest0) (c :: t))
        by (injection H as H1 H2 H3; symmetry; exact H2).
      rewrite <- W in C.
      assert (R : rest0 = rest) by (injection H as H1 H2 H3; exact H3).
      assert (K : sk = []) by (injection H as H1 H2 H3; symmetry; exact H1).
      subst rest0 sk. rewrite app_nil_l, last_of_nil. rewrite <- C. auto.
    + destruct (search ml r (Some c) t) as [[[sk' w'] rest']|] eqn:E'; [|discriminate H].
      injection H as H1 H2 H3. subst.
      apply IH in E'. destruct E' as [E1 [E2 E3]].
      rewrite last_of_cons. split; [simpl; f_equal; exact E1|]. split; [exact E2|].
      simpl. rewrite <- E1. unfold matchable at 1. rewrite E. simpl. exact E3.
Qed.

Hypothesis never_empty : forall prev s, match_here ml r prev s <> Some s.

Lemma search_nonempty s prev sk w rest :
  search ml r prev s = Some (sk, w, rest) -> w <> [].
Proof.
  intros H. apply search_some_spec in H. destruct H as [_ [H _]].
  intros E. subst w. simpl in H. apply never_empty in H. exact H.
Qed.

Lemma scan_scanned : forall fuel prev s,
  (List.length s < fuel)%nat ->
  scanned ml r prev s (fst (scan ml fuel r prev s)) (snd (scan ml fuel r prev s)).
Proof.
  induction fuel as [|f IH]; intros prev s L; [lia|].
  simpl. destruct (search ml r prev s) as [[[sk w] rest]|] eqn:E.
  - pose proof (search_nonempty _ _ _ _ _ E) as NE.
    pose proof (search_some_spec _ _ _ _ _ E) as [S _].
    destruct w as [|c0 w0]; [contradiction|].
    assert (L' : (List.length rest < f)%nat).
    { subst s. rewrite !length_app in L. simpl in L. lia. }
    specialize (IH (Some (last (c0 :: w0) 0%N)) rest L').
    destruct (scan ml f r (Some (last (c0 :: w0) 0%N)) rest) as [ms tl].
    cbn [fst snd] in *.
    rewrite S at 1.
    apply (@sc_match ml r prev sk (c0 :: w0) rest ms tl NE); [rewrite <- S; exact E|].
    rewrite last_of_last. exact IH.
  - simpl. constructor. exact E.
Qed.

Lemma replace_scanned by_ s :
  exists ms tl, scanned ml r None s ms tl /\ replace ml r by_ s = out by_ ms tl.
Proof.
  unfold replace, scan_all.
  pose proof (scan_scanned (S (List.length s)) None s (Nat.lt_succ_diag_r _)) as H.
  destruct (scan ml (S (List.length s)) r None s) as [ms tl]. simpl in H.
  exists ms, tl. split; [exact H|reflexivity].
Qed.

End Scan.

Lemma replace_no_match ml r by_ s :
  search ml r None s = None -> replace ml r by_ s = s.
Proof.
  intros H. unfold replace, scan_all. simpl. rewrite H. reflexivity.
Qed.

(** ** Position predicates through a replacement *)

Lemma free_mono (P Q : at_pos) :
  (forall prev t, P prev t = true -> Q prev t = true) ->
  forall s prev, free Q prev s = true -> free P prev s = true.
Proof.
  intros I. induction s as [|c t IH]; intros prev H; simpl in *;
    apply andb_true_iff in H; destruct H as [H1 H2]; apply andb_true_iff; split.
  - apply negb_true_iff. apply negb_true_iff in H1.
    destruct (P prev []) eqn:E; [rewrite (I _ _ E) in H1; discriminate H1|reflexivity].
  - reflexivity.
  - apply negb_true_iff. apply negb_true_iff in H1.
    destruct (P prev (c :: t)) eqn:E; [rewrite (I _ _ E) in H1; discriminate H1|reflexivity].
  - apply IH. exact H2.
Qed.

Lemma skipped_mono (P Q : at_pos) :
  (forall prev t, P prev t = true -> Q prev t = true) ->
  forall a prev z, skipped Q prev a z = true -> skipped P prev a z = true.
Proof.
  intros I. induction a as [|c t IH]; intros prev z H; simpl in *; [reflexivity|].
  apply andb_true_iff in H; destruct H as [H1 H2]; apply andb_true_iff; split.
  - apply negb_true_iff. apply negb_true_iff in H1.
    destruct (P prev (c :: t ++ z)) eqn:E; [rewrite (I _ _ E) in H1; discriminate H1|reflexivity].
  - apply IH. exact H2.
Qed.

Lemma free_ctx (P : at_pos) prev prev' s :
  free P prev' s = true -> P prev s = false -> free P prev s = true.
Proof.
  intros H E. destruct s; simpl in *; rewrite E; simpl;
    apply andb_true_iff in H; tauto.
Qed.

Lemma out_cons by_ sk w ms tl :
  out by_ ((sk, w) :: ms) tl = sk ++ by_ ++ out by_ ms tl.
Proof. unfold out. simpl. rewrite <- !app_assoc. reflexivity. Qed.

Lemma out_nil by_ tl : out by_ [] tl = tl.
Proof. reflexivity. Qed.

Section Cutting.
Variable ml : bool.
Variable r : regex.
Variable P : at_pos.

Lemma cutting_of_free : forall prev s ms tl,
  scanned ml r prev s ms tl -> free P prev s = true -> cutting ml r P prev s ms tl.
Proof.
  induction 1 as [prev s E|prev sk w rest ms tl NE E Sc IH]; intros F.
  - constructor. exact F.
  - apply search_some_spec in E. destruct E as [_ [E _]].
    rewrite free_app in F. apply andb_true_iff in F. destruct F as [F1 F2].
    rewrite free_app in F2. apply andb_true_iff in F2. destruct F2 as [_ F2].
    constructor; auto.
Qed.

Lemma cutting_of_scan :
  (forall prev t, P prev t = true -> matchable ml r prev t = true) ->
  forall prev s ms tl,
    scanned ml r prev s ms tl -> cutting ml r P prev s ms tl.
Proof.
  intros I. induction 1 as [prev s E|prev sk w rest ms tl NE E Sc IH].
  - constructor. apply (free_mono P (matchable ml r) I). apply search_none_free. exact E.
  - apply search_some_spec in E. destruct E as [_ [E K]].
    constructor; auto. apply (skipped_mono P (matchable ml r) I). exact K.
Qed.

Lemma cutting_pieces : forall prev s ms tl,
  cutting ml r P prev s ms tl -> s = pieces ms tl.
Proof.
  induction 1 as [prev s F|prev sk w rest ms tl NE E K C IH]; unfold pieces in *; simpl.
  - reflexivity.
  - rewrite <- !app_assoc. rewrite <- IH. reflexivity.
Qed.

End Cutting.

(** ** Runs *)

Lemma takeWhile_app_stop p : forall a c z,
  p c = false -> takeWhile p (a ++ c :: z) = takeWhile p a.
Proof.
  induction a as [|x a IH]; intros c z H; simpl.
  - rewrite H. reflexivity.
  - destruct (p x); [rewrite IH by exact H|]; reflexivity.
Qed.

Lemma takeWhile_app_le p : forall a z,
  (List.length (takeWhile p a) <= List.length (takeWhile p (a ++ z)))%nat.
Proof.
  induction a as [|x a IH]; intros z; simpl; [lia|].
  destruct (p x); simpl; [specialize (IH z)|]; lia.
Qed.

Lemma run_at_ctx k p prev prev' t : run_at k p prev t = run_at k p prev' t.
Proof. reflexivity. Qed.

Lemma free_run_ctx k p prev prev' s :
  free (run_at k p) prev s = free (run_at k p) prev' s.
Proof. destruct s; reflexivity. Qed.

(** Replacing matches (of any pattern) by a non-empty text that has no
    code unit of the class creates no run. *)
Lemma run_replace ml r k p by_ :
  (1 <= k)%nat -> by_ <> [] -> forallb (fun c => negb (p c)) by_ = true ->
  forall prev s ms tl,
    cutting ml r (run_at k p) prev s ms tl ->
    free (run_at k p) prev (out by_ ms tl) = true.
Proof.
  intros K NE NP. induction 1 as [prev s F|prev sk w rest ms tl NW E S C IH].
  - exact F.
  - rewrite out_cons.
    rewrite free_app. apply andb_true_iff. split.
    + clear -S NE NP. revert prev S. induction sk as [|c t IHt]; intros prev S; [reflexivity|].
      simpl in S |- *. apply andb_true_iff in S. destruct S as [S1 S2].
      apply andb_true_iff. split; [|apply IHt; exact S2].
      apply negb_true_iff. apply negb_true_iff in S1.
      unfold run_at in *. apply Nat.leb_gt. apply Nat.leb_gt in S1.
      destruct by_ as [|b by']; [contradiction|].
      simpl in NP. apply andb_true_iff in NP. destruct NP as [NP _].
      apply negb_true_iff in NP.
      change (c :: t ++ (b :: by') ++ out (b :: by') ms tl)
        with ((c :: t) ++ b :: (by' ++ out (b :: by') ms tl)).
      rewrite takeWhile_app_stop by exact NP.
      pose proof (takeWhile_app_le p (c :: t) (w ++ rest)) as L. simpl in L, S1 |- *. lia.
    + rewrite free_app. apply andb_true_iff. split.
      * clear -K NP. generalize (last_of prev sk). generalize (out by_ ms tl).
        induction by_ as [|b by' IHb]; intros z ctx; [reflexivity|].
        simpl in NP. apply andb_true_iff in NP. destruct NP as [NB NP].
        apply negb_true_iff in NB.
        simpl. apply andb_true_iff. split; [|apply IHb; exact NP].
        unfold run_at. simpl. rewrite NB. simpl.
        apply negb_true_iff. apply Nat.leb_gt. lia.
      * rewrite (free_run_ctx k p _ (last_of (last_of prev sk) w)). exact IH.
Qed.

(** ** Line-local predicates *)

Lemma skipped_line (P : at_pos) (LL : line_local P) :
  forall a prev c z z',
    isLineTerminator c = true ->
    skipped P prev (a ++ [c]) z = skipped P prev (a ++ [c]) z'.
Proof.
  induction a as [|x a IH]; intros prev c z z' Hc; simpl.
  - rewrite (ll_blank LL prev c z Hc), (ll_blank LL prev c z' Hc). reflexivity.
  - rewrite (IH (Some x) c z z' Hc). f_equal. f_equal.
    rewrite <- !app_assoc. simpl.
    change (x :: a ++ c :: z) with ((x :: a) ++ c :: z).
    change (x :: a ++ c :: z') with ((x :: a) ++ c :: z').
    apply (ll_cut LL). exact Hc.
Qed.

Lemma skipped_line_head (P : at_pos) (LL : line_local P) :
  forall a prev c z z',
    isLineTerminator c = true ->
    skipped P prev a (c :: z) = skipped P prev a (c :: z').
Proof.
  induction a as [|x a IH]; intros prev c z z' Hc; simpl; [reflexivity|].
  rewrite (IH (Some x) c z z' Hc). f_equal. f_equal.
  change (x :: a ++ c :: z) with ((x :: a) ++ c :: z).
  change (x :: a ++ c :: z') with ((x :: a) ++ c :: z').
  apply (ll_cut LL). exact Hc.
Qed.

Lemma line_start_last prev a :
  a <> [] -> line_start (last_of prev a) = true ->
  exists a' c, a = a' ++ [c] /\ isLineTerminator c = true.
Proof.
  intros NE H. destruct (exists_last NE) as [a' [c E]]. subst a.
  exists a', c. split; [reflexivity|].
  rewrite last_of_app in H. exact H.
Qed.

Lemma line_local_at_line_end (P : at_pos) (LL : line_local P) prev z :
  line_end z = true -> P prev z = false.
Proof.
  destruct z as [|c z]; simpl; intros H; [apply (ll_end LL)|apply (ll_blank LL); exact H].
Qed.

(** Removing matches that sit between a line start and a line end keeps
    a line-local predicate out. *)
Lemma line_remove ml r (P : at_pos) (LL : line_local P) :
  (forall prev w rest,
     match_here ml r prev (w ++ rest) = Some rest -> w <> [] ->
     line_start prev = true /\ line_end rest = true) ->
  forall prev s ms tl,
    cutting ml r P prev s ms tl ->
    free P prev (out [] ms tl) = true /\
    (line_end s = true -> line_end (out [] ms tl) = true).
Proof.
  intros B. induction 1 as [prev s F|prev sk w rest ms tl NW E S C IH].
  - auto.
  - rewrite out_cons. rewrite app_nil_l.
    destruct (B _ _ _ E NW) as [Ls Le].
    destruct IH as [IH1 IH2]. specialize (IH2 Le).
    split.
    + rewrite free_app. apply andb_true_iff. split.
      * destruct sk as [|x sk']; [reflexivity|].
        destruct (line_start_last prev (x :: sk')) as [a' [c [Ea Hc]]];
          [discriminate|exact Ls|].
        rewrite Ea in S |- *.
        rewrite (skipped_line P LL a' prev c _ (w ++ rest) Hc). exact S.
      * eapply free_ctx; [exact IH1|].
        apply line_local_at_line_end; assumption.
    + intros H. destruct sk as [|x sk']; simpl in *; [exact IH2|exact H].
Qed.

(** Replacing matches that begin and end with a line terminator by a
    text of line terminators that begins and ends alike keeps a
    line-local predicate out. *)
Lemma line_replace ml r (P : at_pos) (LL : line_local P) (c : N) (by_' : jsstring) :
  isLineTerminator c = true -> forallb isLineTerminator by_' = true ->
  (forall prev w rest,
     match_here ml r prev (w ++ rest) = Some rest -> w <> [] ->
     (exists w', w = c :: w') /\ last_of prev w = last_of prev (c :: by_')) ->
  forall prev s ms tl,
    cutting ml r P prev s ms tl ->
    free P prev (out (c :: by_') ms tl) = true.
Proof.
  intros Hc Hby B. induction 1 as [prev s F|prev sk w rest ms tl NW E S C IH].
  - exact F.
  - rewrite out_cons.
    destruct (B _ _ _ E NW) as [[w' Ew] El]. subst w.
    rewrite free_app. apply andb_true_iff. split.
    + change ((c :: by_') ++ out (c :: by_') ms tl)
        with (c :: (by_' ++ out (c :: by_') ms tl)).
      rewrite (skipped_line_head P LL sk prev c _ (w' ++ rest) Hc). exact S.
    + rewrite free_app. apply andb_true_iff. split.
      * clear -LL Hc Hby.
        assert (A : forallb isLineTerminator (c :: by_') = true)
          by (simpl; rewrite Hc, Hby; reflexivity).
        generalize (last_of prev sk). generalize (out (c :: by_') ms tl).
        revert A. generalize (c :: by_'). intros l.
        induction l as [|b l IHl]; intros A z ctx; [reflexivity|].
        simpl in A. apply andb_true_iff in A. destruct A as [A1 A2].
        simpl. rewrite (ll_blank LL ctx b _ A1). simpl. apply IHl. exact A2.
      * rewrite <- El. exact IH.
Qed.

(** ** Steps of the basic patterns *)

Lemma steps_suffix ml r prev s p' s' :
  steps ml r prev s p' s' -> exists w, s = w ++ s' /\ p' = last_of prev w.
Proof.
  induction 1.
  - exists []. auto.
  - exists [c]. auto.
  - destruct IHsteps1 as [u [E1 L1]], IHsteps2 as [v [E2 L2]]. subst.
    exists (u ++ v). rewrite <- app_assoc, last_of_app. auto.
  - assumption.
  - assumption.
  - exists []. auto.
  - destruct IHsteps1 as [u [E1 L1]], IHsteps2 as [v [E2 L2]]. subst.
    exists (u ++ v). rewrite <- app_assoc, last_of_app. auto.
  - exists []. auto.
  - exists []. auto.
  - exists []. auto.
Qed.

Lemma steps_seq_inv ml a b p0 s0 p2 s2 :
  steps ml (Seq a b) p0 s0 p2 s2 ->
  exists p1 s1, steps ml a p0 s0 p1 s1 /\ steps ml b p1 s1 p2 s2.
Proof. intros H. inversion H; subst. eauto. Qed.

Lemma steps_cls_inv ml p prev s p' s' :
  steps ml (Cls p) prev s p' s' -> exists c, s = c :: s' /\ p c = true /\ p' = Some c.
Proof. intros H. inversion H; subst. eauto. Qed.

Lemma steps_star_cls_inv ml p :
  forall prev s p' s',
    steps ml (Star (Cls p)) prev s p' s' ->
    exists u, s = u ++ s' /\ forallb p u = true /\ p' = last_of prev u.
Proof.
  intros prev s p' s' H.
  remember (Star (Cls p)) as r eqn:R.
  induction H; try discriminate R.
  - exists []. auto.
  - injection R as R. subst a.
    apply steps_cls_inv in H. destruct H as [c [E [Hc Hp]]]. subst.
    destruct (IHsteps2 eq_refl) as [u [E2 [F L]]]. subst.
    exists (c :: u). rewrite last_of_cons. simpl. rewrite Hc. auto.
Qed.

Lemma steps_star_cls ml p :
  forall u prev z,
    forallb p u = true -> steps ml (Star (Cls p)) prev (u ++ z) (last_of prev u) z.
Proof.
  induction u as [|c u IH]; intros prev z F.
  - constructor.
  - simpl in F. apply andb_true_iff in F. destruct F as [Hc F].
    rewrite last_of_cons.
    apply (@st_star_cons ml (Cls p) prev ((c :: u) ++ z) (Some c) (u ++ z)).
    + constructor. exact Hc.
    + simpl. lia.
    + apply IH. exact F.
Qed.

Lemma steps_plus_cls ml p c u prev z :
  p c = true -> forallb p u = true ->
  steps ml (Plus (Cls p)) prev (c :: u ++ z) (last_of prev (c :: u)) z.
Proof.
  intros Hc F. unfold Plus. rewrite last_of_cons.
  apply (@st_seq ml (Cls p) (Star (Cls p)) prev (c :: u ++ z) (Some c) (u ++ z)).
  - constructor. exact Hc.
  - apply steps_star_cls. exact F.
Qed.

Lemma steps_plus_cls_inv ml p prev s p' s' :
  steps ml (Plus (Cls p)) prev s p' s' ->
  exists c u, s = c :: u ++ s' /\ p c = true /\ forallb p u = true /\
              p' = last_of prev (c :: u).
Proof.
  unfold Plus. intros H. apply steps_seq_inv in H. destruct H as [p1 [s1 [H1 H2]]].
  apply steps_cls_inv in H1. destruct H1 as [c [E [Hc Hp]]]. subst.
  apply steps_star_cls_inv in H2. destruct H2 as [u [E [F L]]]. subst.
  exists c, u. rewrite last_of_cons. auto.
Qed.

(** A literal. *)
Lemma steps_seq_of ml (f : N -> N -> bool) :
  forall u prev z,
    u <> [] -> (forall c, In c u -> f c c = true) ->
    steps ml (seq_of (fun c => Cls (f c)) u) prev (u ++ z) (last_of prev u) z.
Proof.
  induction u as [|c u IH]; intros prev z NE F; [contradiction|].
  destruct u as [|c' u'].
  - simpl. constructor. apply F. left. reflexivity.
  - rewrite last_of_cons.
    change (seq_of (fun c0 => Cls (f c0)) (c :: c' :: u'))
      with (Seq (Cls (f c)) (seq_of (fun c0 => Cls (f c0)) (c' :: u'))).
    apply (@st_seq ml _ _ prev ((c :: c' :: u') ++ z) (Some c) ((c' :: u') ++ z)).
    + constructor. apply F. left. reflexivity.
    + apply IH; [discriminate|]. intros x Hx. apply F. right. exact Hx.
Qed.

Lemma steps_seq_of_inv ml (f : N -> N -> bool) :
  (forall c x, f c x = true -> x = c) ->
  forall u prev s p' s',
    u <> [] ->
    steps ml (seq_of (fun c => Cls (f c)) u) prev s p' s' ->
    s = u ++ s' /\ p' = last_of prev u.
Proof.
  intros I. induction u as [|c u IH]; intros prev s p' s' NE H; [contradiction|].
  destruct u as [|c' u'].
  - simpl in H. apply steps_cls_inv in H. destruct H as [x [E [Hx Hp]]].
    apply I in Hx. subst. split; reflexivity.
  - change (seq_of (fun c0 => Cls (f c0)) (c :: c' :: u'))
      with (Seq (Cls (f c)) (seq_of (fun c0 => Cls (f c0)) (c' :: u'))) in H.
    apply steps_seq_inv in H. destruct H as [p1 [s1 [H1 H2]]].
    apply steps_cls_inv in H1. destruct H1 as [x [E [Hx Hp]]].
    apply I in Hx. subst.
    apply IH in H2; [|discriminate]. destruct H2 as [E L]. subst.
    rewrite (last_of_cons prev c). split; reflexivity.
Qed.

Lemma chr_eq c x : N.eqb c x = true -> x = c.
Proof. intros H. apply N.eqb_eq in H. auto. Qed.

Lemma steps_str ml (u : jsstring) prev z :
  u <> [] -> steps ml (seq_of chr u) prev (u ++ z) (last_of prev u) z.
Proof.
  intros NE. apply (steps_seq_of ml N.eqb u prev z NE).
  intros c _. apply N.eqb_refl.
Qed.

Lemma steps_str_inv ml (u : jsstring) prev s p' s' :
  u <> [] -> steps ml (seq_of chr u) prev s p' s' -> s = u ++ s' /\ p' = last_of prev u.
Proof.
  intros NE. apply (steps_seq_of_inv ml N.eqb chr_eq u prev s p' s' NE).
Qed.

(** ** Patterns that consume nothing never match *)

Lemma never_empty_of_steps ml r :
  (forall prev s p', ~ steps ml r prev s p' s) ->
  forall prev s, match_here ml r prev s <> Some s.
Proof.
  intros N prev s H. apply match_here_steps in H. destruct H as [p' H].
  apply N in H. exact H.
Qed.

Lemma app_self_nil (w s : jsstring) : s = w ++ s -> w = [].
Proof.
  intros H. assert (L : List.length s = List.length (w ++ s)) by (rewrite <- H; reflexivity).
  rewrite length_app in L. destruct w; [reflexivity|simpl in L; lia].
Qed.

(** ** Runs: [p{k,}] *)

Lemma m_rep_cls ml p : forall k prev t K,
  m ml (Rep k (Cls p)) prev t K =
  if (k <=? List.length (takeWhile p (firstn k t)))%nat
  then K (last_of prev (firstn k t)) (skipn k t) else None.
Proof.
  induction k as [|k IH]; intros prev t K.
  - reflexivity.
  - change (Rep (S k) (Cls p)) with (Seq (Cls p) (Rep k (Cls p))).
    change (m ml (Seq (Cls p) (Rep k (Cls p))) prev t K)
      with (m ml (Cls p) prev t (fun p' s' => m ml (Rep k (Cls p)) p' s' K)).
    destruct t as [|c t]; [reflexivity|].
    change (m ml (Cls p) prev (c :: t) (fun p' s' => m ml (Rep k (Cls p)) p' s' K))
      with (if p c then m ml (Rep k (Cls p)) (Some c) t K else None).
    simpl firstn. simpl skipn. simpl takeWhile.
    destruct (p c); [|reflexivity].
    rewrite IH. rewrite last_of_cons. reflexivity.
Qed.

Lemma takeWhile_firstn_ge p : forall k t,
  (k <=? List.length (takeWhile p (firstn k t)))%nat = (k <=? List.length (takeWhile p t))%nat.
Proof.
  induction k as [|k IH]; intros t; [reflexivity|].
  destruct t as [|c t]; [reflexivity|].
  simpl. destruct (p c); [|reflexivity]. simpl. apply IH.
Qed.

Lemma dropWhile_skipn p : forall k t,
  (k <= List.length (takeWhile p t))%nat -> dropWhile p (skipn k t) = dropWhile p t.
Proof.
  induction k as [|k IH]; intros t L; [reflexivity|].
  destruct t as [|c t]; [reflexivity|].
  simpl in *. destruct (p c); [|simpl in L; lia].
  apply IH. simpl in L. lia.
Qed.

(** What [p{k,}] matches at a position: the whole run, when it has at
    least [k] code units. *)
Lemma match_here_run ml k p prev t :
  match_here ml (AtLeast k (Cls p)) prev t =
  if (k <=? List.length (takeWhile p t))%nat then Some (dropWhile p t) else None.
Proof.
  unfold match_here, AtLeast.
  change (m ml (Seq (Rep k (Cls p)) (Star (Cls p))) prev t (fun _ s' => Some s'))
    with (m ml (Rep k (Cls p)) prev t
            (fun p' s' => m ml (Star (Cls p)) p' s' (fun _ s' => Some s'))).
  rewrite m_rep_cls, takeWhile_firstn_ge.
  destruct (k <=? List.length (takeWhile p t))%nat eqn:E; [|reflexivity].
  rewrite star_cls_eq, star_cls_total. apply Nat.leb_le in E.
  rewrite dropWhile_skipn by exact E. reflexivity.
Qed.

Lemma matchable_run ml k p prev t :
  matchable ml (AtLeast k (Cls p)) prev t = run_at k p prev t.
Proof.
  unfold matchable, run_at. rewrite match_here_run.
  destruct (k <=? List.length (takeWhile p t))%nat; reflexivity.
Qed.

Lemma run_never_empty ml k p :
  (1 <= k)%nat -> forall prev s, match_here ml (AtLeast k (Cls p)) prev s <> Some s.
Proof.
  intros K prev s H. rewrite match_here_run in H.
  destruct (k <=? List.length (takeWhile p s))%nat eqn:E; [|discriminate H].
  apply Nat.leb_le in E. injection H as H.
  pose proof (takeWhile_dropWhile p s) as T. rewrite H in T.
  symmetry in T. apply app_self_nil in T. rewrite T in E. simpl in E. lia.
Qed.

Lemma run_match_shape ml k p prev w rest :
  match_here ml (AtLeast k (Cls p)) prev (w ++ rest) = Some rest ->
  w = takeWhile p (w ++ rest) /\ (k <= List.length w)%nat /\ forallb p w = true /\
  takeWhile p rest = [].
Proof.
  intros H. rewrite match_here_run in H.
  destruct (k <=? List.length (takeWhile p (w ++ rest)))%nat eqn:E; [|discriminate H].
  apply Nat.leb_le in E. injection H as H.
  pose proof (takeWhile_dropWhile p (w ++ rest)) as T. rewrite H in T.
  apply app_inv_tail in T.
  assert (F : forall l, forallb p (takeWhile p l) = true).
  { induction l as [|x l IHl]; simpl; [reflexivity|].
    destruct (p x) eqn:X; simpl; [rewrite X; exact IHl|reflexivity]. }
  assert (D : forall l, takeWhile p (dropWhile p l) = []).
  { induction l as [|x l IHl]; simpl; [reflexivity|].
    destruct (p x) eqn:X; [exact IHl|simpl; rewrite X; reflexivity]. }
  split; [symmetry; exact T|]. split; [rewrite <- T; exact E|].
  split; [rewrite <- T; apply F|]. rewrite <- H. apply D.
Qed.

(** ** Collapsing runs *)

Lemma takeWhile_app p : forall a z,
  takeWhile p (a ++ z) = if forallb p a then a ++ takeWhile p z else takeWhile p a.
Proof.
  induction a as [|x a IH]; intros z; simpl; [reflexivity|].
  destruct (p x); simpl; [|reflexivity].
  rewrite IH. destruct (forallb p a); reflexivity.
Qed.

Lemma takeWhile_length_le p (l : jsstring) :
  (List.length (takeWhile p l) <= List.length l)%nat.
Proof.
  induction l as [|x l IH]; simpl; [lia|]. destruct (p x); simpl; lia.
Qed.

Lemma skipped_short k p : forall by_ z ctx,
  (List.length by_ < k)%nat -> takeWhile p z = [] ->
  skipped (run_at k p) ctx by_ z = true.
Proof.
  induction by_ as [|b by' IHb]; intros z ctx B Z; [reflexivity|].
  simpl. apply andb_true_iff. split; [|apply IHb; [simpl in B; lia|exact Z]].
  apply negb_true_iff. unfold run_at. apply Nat.leb_gt.
  change (b :: by' ++ z) with ((b :: by') ++ z).
  rewrite takeWhile_app.
  destruct (forallb p (b :: by')).
  - rewrite length_app, Z. simpl in *. lia.
  - pose proof (takeWhile_length_le p (b :: by')). lia.
Qed.

Lemma run_collapse_cut ml k p by_ :
  (1 <= k)%nat -> (List.length by_ < k)%nat ->
  forall prev s ms tl,
    cutting ml (AtLeast k (Cls p)) (run_at k p) prev s ms tl ->
    free (run_at k p) prev (out by_ ms tl) = true /\
    (takeWhile p s = [] -> takeWhile p (out by_ ms tl) = []).
Proof.
  intros K B. induction 1 as [prev s F|prev sk w rest ms tl NW E S C IH].
  - auto.
  - rewrite out_cons.
    destruct (run_match_shape _ _ _ _ _ _ E) as [_ [Lw [Fw Tr]]].
    destruct IH as [IH1 IH2]. specialize (IH2 Tr).
    split.
    + rewrite free_app. apply andb_true_iff. split.
      * clear -S Lw Fw B IH2. revert prev S.
        induction sk as [|c t IHt]; intros prev S; [reflexivity|].
        simpl in S |- *. apply andb_true_iff in S. destruct S as [S1 S2].
        apply andb_true_iff. split; [|apply IHt; exact S2].
        apply negb_true_iff. apply negb_true_iff in S1.
        unfold run_at in *. apply Nat.leb_gt. apply Nat.leb_gt in S1.
        change (c :: t ++ w ++ rest) with ((c :: t) ++ w ++ rest) in S1.
        change (c :: t ++ by_ ++ out by_ ms tl) with ((c :: t) ++ by_ ++ out by_ ms tl).
        rewrite takeWhile_app in S1 |- *.
        destruct (forallb p (c :: t)); [|exact S1].
        exfalso. rewrite length_app in S1.
        rewrite (takeWhile_app p w rest), Fw, length_app in S1. lia.
      * rewrite free_app. apply andb_true_iff. split.
        -- apply skipped_short; assumption.
        -- rewrite (free_run_ctx k p _ (last_of (last_of prev sk) w)). exact IH1.
    + intros T. destruct sk as [|c t].
      * exfalso. simpl in T. rewrite takeWhile_app, Fw in T.
        destruct w; [contradiction|discriminate T].
      * simpl in T |- *. destruct (p c); [discriminate T|reflexivity].
Qed.

(** After [s.replace(/p{k,}/g, by)] with [by] shorter than [k], no run of
    [k] is left. *)
Lemma run_collapse ml k p by_ s :
  (1 <= k)%nat -> (List.length by_ < k)%nat ->
  free (run_at k p) None (replace ml (AtLeast k (Cls p)) by_ s) = true.
Proof.
  intros K B.
  destruct (replace_scanned ml (AtLeast k (Cls p)) (run_never_empty ml k p K) by_ s)
    as [ms [tl [Sc E]]].
  rewrite E. eapply run_collapse_cut; [exact K|exact B|].
  apply cutting_of_scan; [|exact Sc].
  intros prev t H. rewrite matchable_run. exact H.
Qed.

(** ** Single code units *)

Lemma match_here_cls ml p prev t :
  match_here ml (Cls p) prev t =
  match t with
  | c :: t' => if p c then Some t' else None
  | [] => None
  end.
Proof. reflexivity. Qed.

Lemma matchable_cls ml p prev t : matchable ml (Cls p) prev t = run_at 1 p prev t.
Proof.
  unfold matchable, run_at. rewrite match_here_cls.
  destruct t as [|c t]; [reflexivity|]. simpl. destruct (p c); reflexivity.
Qed.

Lemma cls_never_empty ml p prev s : match_here ml (Cls p) prev s <> Some s.
Proof.
  rewrite match_here_cls. destruct s as [|c t]; [discriminate|].
  destruct (p c); [|discriminate]. intros H. injection H as H.
  assert (L : List.length t = List.length (c :: t)) by (rewrite <- H; reflexivity).
  simpl in L. lia.
Qed.

Lemma free_run1 p : forall s prev,
  free (run_at 1 p) prev s = forallb (fun c => negb (p c)) s.
Proof.
  induction s as [|c t IH]; intros prev; [reflexivity|].
  simpl. rewrite IH. unfold run_at. simpl.
  destruct (p c); reflexivity.
Qed.

(** After [s.replace(/c/g, by)], with [by] non-empty and free of the code
    units of the class, none is left. *)
Lemma cls_replace_free ml p by_ s :
  by_ <> [] -> forallb (fun c => negb (p c)) by_ = true ->
  forallb (fun c => negb (p c)) (replace ml (Cls p) by_ s) = true.
Proof.
  intros NE NP.
  destruct (replace_scanned ml (Cls p) (cls_never_empty ml p) by_ s) as [ms [tl [Sc E]]].
  rewrite E. rewrite <- (free_run1 p _ None).
  apply (run_replace ml (Cls p) 1 p by_ (le_n 1) NE NP None s ms tl).
  apply cutting_of_scan; [|exact Sc].
  intros prev t H. rewrite matchable_cls. exact H.
Qed.

(** Replacing a code unit by itself changes nothing. *)
Lemma out_same ml r : forall prev s ms tl,
  scanned ml r prev s ms tl ->
  forall by_, Forall (fun x => snd x = by_) ms -> out by_ ms tl = s.
Proof.
  induction 1 as [prev s E|prev sk w rest ms tl NW E Sc IH]; intros by_ F.
  - reflexivity.
  - rewrite out_cons. inversion F as [|x l Fx Fl]; subst. simpl in *. subst.
    rewrite (IH _ Fl). reflexivity.
Qed.

Lemma scanned_cls_matches ml p : forall prev s ms tl,
  scanned ml (Cls p) prev s ms tl ->
  Forall (fun x => exists c, snd x = [c] /\ p c = true) ms.
Proof.
  induction 1 as [prev s E|prev sk w rest ms tl NW E Sc IH]; constructor; [|exact IH].
  apply search_some_spec in E. destruct E as [_ [E _]].
  rewrite match_here_cls in E. destruct w as [|c w]; [contradiction|].
  simpl in E. destruct (p c) eqn:Pc; [|discriminate E].
  injection E as E. symmetry in E. apply app_self_nil in E. subst. simpl. eauto.
Qed.

Lemma replace_chr_same ml c s : replace ml (chr c) [c] s = s.
Proof.
  destruct (replace_scanned ml (chr c) (cls_never_empty ml (N.eqb c)) [c] s)
    as [ms [tl [Sc E]]].
  rewrite E. apply (out_same ml (chr c) None s ms tl Sc).
  pose proof (scanned_cls_matches ml (N.eqb c) None s ms tl Sc) as F.
  eapply Forall_impl; [|exact F].
  intros [sk w] [x [Ew Hx]]. simpl in *. apply N.eqb_eq in Hx. subst. reflexivity.
Qed.

(** ** Code units are only moved or replaced *)

Lemma replace_forall ml r (Q : N -> bool) by_ s :
  forallb Q s = true -> forallb Q by_ = true -> forallb Q (replace ml r by_ s) = true.
Proof.
  intros Hs Hb. unfold replace, scan_all.
  destruct (scan ml (S (List.length s)) r None s) as [ms tl] eqn:E.
  apply scan_sound in E. destruct E as [E _]. subst s. unfold pieces in Hs.
  revert Hs. induction ms as [|[sk w] ms IH]; simpl; intros Hs; [exact Hs|].
  rewrite <- !app_assoc in *. rewrite !forallb_app in *.
  apply andb_true_iff in Hs. destruct Hs as [H1 Hs].
  apply andb_true_iff in Hs. destruct Hs as [_ Hs].
  rewrite H1, Hb. simpl. apply IH. exact Hs.
Qed.

Lemma dropWhile_forall (Q p : N -> bool) (s : jsstring) :
  forallb Q s = true -> forallb Q (dropWhile p s) = true.
Proof.
  induction s as [|c t IH]; simpl; [reflexivity|].
  intros H. apply andb_true_iff in H. destruct H as [H1 H2].
  destruct (p c); [apply IH; exact H2|]. simpl. rewrite H1, H2. reflexivity.
Qed.

Lemma rev_forall (Q : N -> bool) (s : jsstring) :
  forallb Q (rev s) = forallb Q s.
Proof.
  induction s as [|c t IH]; simpl; [reflexivity|].
  rewrite forallb_app, IH. simpl. rewrite andb_true_r. apply andb_comm.
Qed.

Lemma trim_forall (Q : N -> bool) (s : jsstring) :
  forallb Q s = true -> forallb Q (trim s) = true.
Proof.
  intros H. unfold trim, trimEnd, trimStart.
  rewrite rev_forall. apply dropWhile_forall. rewrite rev_forall.
  apply dropWhile_forall. exact H.
Qed.

Lemma search_cls_none ml p s :
  forallb (fun c => negb (p c)) s = true -> search ml (Cls p) None s = None.
Proof.
  intros H. apply search_none_free.
  apply (free_mono (matchable ml (Cls p)) (run_at 1 p)).
  - intros prev t M. rewrite matchable_cls in M. exact M.
  - rewrite free_run1. exact H.
Qed.

(** ** Greedy stars *)

Lemma star_cls_none p k prev s :
  star_cls p k prev s = None ->
  forall u v, s = u ++ v -> forallb p u = true -> k (last_of prev u) v = None.
Proof.
  intros H u v E F. rewrite <- (star_cls_eq false) in H.
  apply (m_none false (Star (Cls p)) prev s k H (last_of prev u) v).
  subst s. apply steps_star_cls. exact F.
Qed.

Lemma star_cls_greedy p k : forall s prev res,
  star_cls p k prev s = Some res ->
  exists u v, s = u ++ v /\ forallb p u = true /\ k (last_of prev u) v = Some res /\
    forall u' v', s = u' ++ v' -> forallb p u' = true ->
                  (List.length u < List.length u')%nat -> k (last_of prev u') v' = None.
Proof.
  induction s as [|c t IH]; intros prev res H; simpl in H.
  - exists [], []. repeat split; trivial.
    intros u' v' E F L. destruct u'; [simpl in L; lia|discriminate E].
  - destruct (p c) eqn:Pc.
    + destruct (star_cls p k (Some c) t) as [x|] eqn:E.
      * injection H as H. subst x.
        destruct (IH _ _ E) as [u [v [Et [F [K M]]]]].
        exists (c :: u), v. rewrite last_of_cons. subst t. simpl. rewrite Pc.
        repeat split; trivial.
        intros u' v' E' F' L. destruct u' as [|c' u']; [simpl in L; lia|].
        simpl in E'. injection E' as Ec E'. subst c'.
        simpl in F'. apply andb_true_iff in F'. destruct F' as [_ F'].
        rewrite last_of_cons. apply M; trivial. simpl in L. lia.
      * exists [], (c :: t). repeat split; trivial.
        intros u' v' E' F' L. destruct u' as [|c' u']; [simpl in L; lia|].
        simpl in E'. injection E' as Ec E'. subst c'.
        simpl in F'. apply andb_true_iff in F'. destruct F' as [_ F'].
        rewrite last_of_cons. eapply star_cls_none; eauto.
    + exists [], (c :: t). repeat split; trivial.
      intros u' v' E' F' L. destruct u' as [|c' u']; [simpl in L; lia|].
      simpl in E'. injection E' as Ec E'. subst c'.
      simpl in F'. rewrite Pc in F'. discriminate F'.
Qed.

(** ** Blank lines: [\n\s*\n\s*\n] *)

Lemma isLF_space c : isLF c = true -> isSpace c = true.
Proof.
  unfold isLF, LF. intros H. apply N.eqb_eq in H. subst c. reflexivity.
Qed.

Lemma isLF_eq c : isLF c = true -> c = LF.
Proof. unfold isLF. intros H. apply N.eqb_eq in H. auto. Qed.

Lemma blank_steps_inv ml prev s p' s' :
  steps ml re_blank_lines prev s p' s' ->
  exists u v, s = LF :: u ++ LF :: v ++ LF :: s' /\
              forallb isSpace u = true /\ forallb isSpace v = true.
Proof.
  unfold re_blank_lines, cat, ws, chr. intros H.
  apply steps_seq_inv in H. destruct H as [p1 [s1 [H1 H]]].
  apply steps_seq_inv in H. destruct H as [p2 [s2 [H2 H]]].
  apply steps_seq_inv in H. destruct H as [p3 [s3 [H3 H]]].
  apply steps_seq_inv in H. destruct H as [p4 [s4 [H4 H5]]].
  apply steps_cls_inv in H1. destruct H1 as [c1 [E1 [C1 _]]].
  apply steps_star_cls_inv in H2. destruct H2 as [u [E2 [F2 _]]].
  apply steps_cls_inv in H3. destruct H3 as [c3 [E3 [C3 _]]].
  apply steps_star_cls_inv in H4. destruct H4 as [v [E4 [F4 _]]].
  apply steps_cls_inv in H5. destruct H5 as [c5 [E5 [C5 _]]].
  apply isLF_eq in C1, C3, C5. subst.
  exists u, v. auto.
Qed.

Lemma blank_steps ml prev u v z :
  forallb isSpace u = true -> forallb isSpace v = true ->
  exists p', steps ml re_blank_lines prev (LF :: u ++ LF :: v ++ LF :: z) p' z.
Proof.
  intros Fu Fv. unfold re_blank_lines, cat, ws, chr. eexists.
  eapply st_seq; [constructor; apply N.eqb_refl|].
  eapply st_seq; [apply steps_star_cls; exact Fu|].
  eapply st_seq; [constructor; apply N.eqb_refl|].
  eapply st_seq; [apply steps_star_cls; exact Fv|].
  constructor. apply N.eqb_refl.
Qed.

Lemma count_LF_app a b : count_LF (a ++ b) = (count_LF a + count_LF b)%nat.
Proof. unfold count_LF. rewrite filter_app, length_app. reflexivity. Qed.

Lemma count_LF_split : forall l,
  (1 <= count_LF l)%nat -> exists u x, l = u ++ LF :: x /\ count_LF u = 0%nat.
Proof.
  induction l as [|c l IH]; intros H; [unfold count_LF in H; simpl in H; lia|].
  destruct (isLF c) eqn:E.
  - exists [], l. apply isLF_eq in E. subst. auto.
  - assert (H' : (1 <= count_LF l)%nat).
    { unfold count_LF in *. simpl in H. rewrite E in H. exact H. }
    destruct (IH H') as [u [x [El Cu]]]. exists (c :: u), x. subst l.
    split; [reflexivity|]. unfold count_LF in *. simpl. rewrite E. exact Cu.
Qed.

Lemma forallb_takeWhile p (l : jsstring) : forallb p (takeWhile p l) = true.
Proof.
  induction l as [|x l IHl]; simpl; [reflexivity|].
  destruct (p x) eqn:X; simpl; [rewrite X; exact IHl|reflexivity].
Qed.

Lemma count_LF_LF : count_LF [LF] = 1%nat.
Proof. reflexivity. Qed.

Lemma matchable_blank ml prev t :
  matchable ml re_blank_lines prev t = blank_at prev t.
Proof.
  unfold matchable. destruct (match_here ml re_blank_lines prev t) as [rest|] eqn:E.
  - apply match_here_steps in E. destruct E as [p' E].
    apply blank_steps_inv in E. destruct E as [u [v [E [Fu Fv]]]]. subst t.
    unfold blank_at. replace (isLF LF) with true by reflexivity.
    rewrite andb_true_l. symmetry. apply Nat.leb_le.
    replace (u ++ LF :: v ++ LF :: rest) with ((u ++ LF :: v ++ [LF]) ++ rest)
      by (rewrite <- !app_assoc; simpl; rewrite <- app_assoc; reflexivity).
    rewrite takeWhile_app.
    assert (F : forallb isSpace (u ++ LF :: v ++ [LF]) = true).
    { rewrite forallb_app. simpl. rewrite forallb_app. simpl. rewrite Fu, Fv. reflexivity. }
    rewrite F. rewrite !count_LF_app.
    change (LF :: v ++ [LF]) with ([LF] ++ v ++ [LF]). rewrite !count_LF_app, count_LF_LF. lia.
  - symmetry. destruct (blank_at prev t) eqn:B; [|reflexivity]. exfalso.
    unfold blank_at in B. destruct t as [|c t1]; [discriminate B|].
    apply andb_true_iff in B. destruct B as [Bc B]. apply isLF_eq in Bc. subst c.
    apply Nat.leb_le in B.
    destruct (count_LF_split (takeWhile isSpace t1)) as [u [x [E1 Cu]]]; [lia|].
    assert (Cx : (1 <= count_LF x)%nat).
    { rewrite E1 in B. change (LF :: x) with ([LF] ++ x) in B.
      rewrite !count_LF_app, count_LF_LF in B. lia. }
    destruct (count_LF_split x Cx) as [v [y [E2 _]]]. subst x.
    pose proof (forallb_takeWhile isSpace t1) as F. rewrite E1 in F.
    rewrite forallb_app in F. apply andb_true_iff in F. destruct F as [Fu F].
    change (LF :: v ++ LF :: y) with ([LF] ++ v ++ LF :: y) in F.
    rewrite !forallb_app in F.
    apply andb_true_iff in F. destruct F as [_ F].
    apply andb_true_iff in F. destruct F as [Fv _].
    pose proof (takeWhile_dropWhile isSpace t1) as T. rewrite E1 in T.
    rewrite <- !app_assoc in T. simpl in T. rewrite <- app_assoc in T. simpl in T.
    destruct (blank_steps ml prev u v (y ++ dropWhile isSpace t1) Fu Fv) as [p' S].
    rewrite T in S. eapply match_here_none; eauto.
Qed.

Lemma blank_match_shape ml prev w rest :
  match_here ml re_blank_lines prev (w ++ rest) = Some rest ->
  (exists w', w = LF :: w' ++ [LF]) /\ forallb isSpace w = true /\
  (3 <= count_LF w)%nat.
Proof.
  intros H. apply match_here_steps in H. destruct H as [p' H].
  apply blank_steps_inv in H. destruct H as [u [v [E [Fu Fv]]]].
  replace (LF :: u ++ LF :: v ++ LF :: rest) with ((LF :: u ++ LF :: v ++ [LF]) ++ rest) in E
    by (simpl; rewrite <- !app_assoc; simpl; rewrite <- app_assoc; reflexivity).
  apply app_inv_tail in E. subst w. split; [|split].
  - exists (u ++ LF :: v). rewrite <- app_assoc. reflexivity.
  - simpl. rewrite forallb_app. simpl. rewrite forallb_app. simpl. rewrite Fu, Fv. reflexivity.
  - change (LF :: u ++ LF :: v ++ [LF]) with ([LF] ++ u ++ [LF] ++ v ++ [LF]).
    rewrite !count_LF_app, count_LF_LF. lia.
Qed.

(** The match reaches the last line feed of the white space. *)
Lemma blank_match_extent ml prev t rest :
  match_here ml re_blank_lines prev t = Some rest ->
  count_LF (takeWhile isSpace rest) = 0%nat.
Proof.
  unfold match_here, re_blank_lines, cat, ws, chr. intros H.
  change (m ml (Seq (Cls (N.eqb LF)) (Seq (Star (Cls isSpace))
             (Seq (Cls (N.eqb LF)) (Seq (Star (Cls isSpace)) (Cls (N.eqb LF))))))
            prev t (fun _ s' => Some s'))
    with (m ml (Cls (N.eqb LF)) prev t
            (fun p1 s1 => m ml (Star (Cls isSpace)) p1 s1
               (fun p2 s2 => m ml (Cls (N.eqb LF)) p2 s2
                  (fun p3 s3 => m ml (Star (Cls isSpace)) p3 s3
                     (fun p4 s4 => m ml (Cls (N.eqb LF)) p4 s4 (fun _ s' => Some s')))))) in H.
  apply m_steps in H. destruct H as [p1 [s1 [_ H]]].
  apply m_steps in H. destruct H as [p2 [s2 [_ H]]].
  apply m_steps in H. destruct H as [p3 [s3 [_ H]]].
  rewrite star_cls_eq in H.
  apply star_cls_greedy in H. destruct H as [u [v [E [Fu [K M]]]]].
  cbn [m] in K. destruct v as [|c v]; [discriminate K|].
  destruct (N.eqb LF c) eqn:Ec; [|discriminate K]. injection K as K. subst v.
  destruct (count_LF (takeWhile isSpace rest)) eqn:Cn; [reflexivity|]. exfalso.
  destruct (count_LF_split (takeWhile isSpace rest)) as [h [x [Eh _]]]; [lia|].
  pose proof (forallb_takeWhile isSpace rest) as F. rewrite Eh in F.
  rewrite forallb_app in F. apply andb_true_iff in F. destruct F as [Fh _].
  pose proof (takeWhile_dropWhile isSpace rest) as T. rewrite Eh in T.
  rewrite <- app_assoc in T. simpl in T.
  specialize (M (u ++ c :: h) (LF :: x ++ dropWhile isSpace rest)).
  assert (Q : m ml (Cls (N.eqb LF)) (last_of p3 (u ++ c :: h))
                (LF :: x ++ dropWhile isSpace rest) (fun _ s' => Some s') = None).
  { apply M.
    - rewrite E. rewrite <- T at 1. rewrite <- app_assoc. reflexivity.
    - rewrite forallb_app. simpl. rewrite Fu, Fh.
      replace (isSpace c) with true; [reflexivity|].
      symmetry. apply isLF_space. exact Ec.
    - rewrite length_app. simpl. lia. }
  cbn [m] in Q. rewrite N.eqb_refl in Q. discriminate Q.
Qed.

Lemma blank_never_empty ml prev s : match_here ml re_blank_lines prev s <> Some s.
Proof.
  intros H. apply match_here_steps in H. destruct H as [p' H].
  apply blank_steps_inv in H. destruct H as [u [v [E _]]].
  assert (L : List.length s = List.length (LF :: u ++ LF :: v ++ LF :: s))
    by (rewrite <- E; reflexivity).
  simpl in L. rewrite !length_app in L. simpl in L. rewrite !length_app in L. simpl in L. lia.
Qed.

Lemma free_blank_ctx prev prev' s : free blank_at prev s = free blank_at prev' s.
Proof. destruct s; reflexivity. Qed.

Lemma blank_collapse_cut ml :
  forall prev s ms tl,
    cutting ml re_blank_lines blank_at prev s ms tl ->
    free blank_at prev (out [LF; LF] ms tl) = true /\
    (count_LF (takeWhile isSpace s) = 0%nat ->
     count_LF (takeWhile isSpace (out [LF; LF] ms tl)) = 0%nat).
Proof.
  induction 1 as [prev s F|prev sk w rest ms tl NW E S C IH].
  - auto.
  - rewrite out_cons.
    destruct (blank_match_shape _ _ _ _ E) as [[w' Ew] [Fw Cw]].
    pose proof (blank_match_extent _ _ _ _ E) as X.
    destruct IH as [IH1 IH2]. specialize (IH2 X).
    set (o := out [LF; LF] ms tl) in *.
    split.
    + rewrite free_app. apply andb_true_iff. split.
      * clear -S Fw Cw. revert prev S.
        induction sk as [|c t IHt]; intros prev S; [reflexivity|].
        cbn [skipped] in S |- *. apply andb_true_iff in S. destruct S as [S1 S2].
        apply andb_true_iff. split; [|apply IHt; exact S2].
        apply negb_true_iff. apply negb_true_iff in S1.
        unfold blank_at in S1 |- *. cbn [app] in S1 |- *.
        destruct (isLF c); [|reflexivity]. rewrite andb_true_l in S1 |- *.
        apply Nat.leb_gt. apply Nat.leb_gt in S1.
        rewrite takeWhile_app in S1 |- *.
        destruct (forallb isSpace t); [|exact S1].
        exfalso. rewrite (takeWhile_app isSpace w rest), Fw in S1.
        rewrite !count_LF_app in S1. lia.
      * rewrite free_app. apply andb_true_iff. split.
        -- cbn [skipped app]. unfold blank_at.
           replace (isLF LF) with true by reflexivity. rewrite !andb_true_l.
           cbn [takeWhile]. replace (isSpace LF) with true by reflexivity.
           change (LF :: takeWhile isSpace o) with ([LF] ++ takeWhile isSpace o).
           rewrite count_LF_app, count_LF_LF, IH2. reflexivity.
        -- rewrite (free_blank_ctx _ (last_of (last_of prev sk) w)). exact IH1.
    + intros T. rewrite takeWhile_app in T |- *.
      destruct (forallb isSpace sk); [|exact T].
      exfalso. rewrite (takeWhile_app isSpace w rest), Fw in T.
      rewrite !count_LF_app in T. lia.
Qed.

(** After [s.replace(/\n\s*\n\s*\n/g, '\n\n')] the pattern is found
    nowhere. *)
Lemma blank_collapse ml s :
  free blank_at None (replace ml re_blank_lines [LF; LF] s) = true.
Proof.
  destruct (replace_scanned ml re_blank_lines (blank_never_empty ml) [LF; LF] s)
    as [ms [tl [Sc E]]].
  rewrite E. eapply blank_collapse_cut.
  apply cutting_of_scan; [|exact Sc].
  intros prev t H. rewrite matchable_blank. exact H.
Qed.

(** ** [trim] *)

Lemma dropWhile_app_all p : forall (a l : jsstring),
  forallb p a = true -> dropWhile p (a ++ l) = dropWhile p l.
Proof.
  induction a as [|x a IH]; intros l H; simpl in *; [reflexivity|].
  apply andb_true_iff in H. destruct H as [Hx Ha]. rewrite Hx. apply IH. exact Ha.
Qed.

Lemma dropWhile_app_stop p : forall (l b : jsstring),
  forallb p l = false -> dropWhile p (l ++ b) = dropWhile p l ++ b.
Proof.
  induction l as [|x l IH]; intros b H; simpl in *; [discriminate H|].
  destruct (p x); [apply IH; exact H|reflexivity].
Qed.

Lemma dropWhile_all p (l : jsstring) : forallb p l = true -> dropWhile p l = [].
Proof.
  intros H. rewrite <- (app_nil_r l) at 1. rewrite dropWhile_app_all by exact H. reflexivity.
Qed.

Lemma trim_ws_l (a l : jsstring) : forallb isSpace a = true -> trim (a ++ l) = trim l.
Proof.
  intros H. unfold trim, trimStart. rewrite dropWhile_app_all by exact H. reflexivity.
Qed.

Lemma trimEnd_ws_r (x b : jsstring) : forallb isSpace b = true -> trimEnd (x ++ b) = trimEnd x.
Proof.
  intros H. unfold trimEnd. rewrite rev_app_distr.
  rewrite dropWhile_app_all by (rewrite rev_forall; exact H). reflexivity.
Qed.

Lemma trim_ws_r (l b : jsstring) : forallb isSpace b = true -> trim (l ++ b) = trim l.
Proof.
  intros H. unfold trim, trimStart.
  destruct (forallb isSpace l) eqn:E.
  - rewrite dropWhile_app_all by exact E.
    rewrite (dropWhile_all _ _ H), (dropWhile_all _ _ E). reflexivity.
  - rewrite dropWhile_app_stop by exact E. apply trimEnd_ws_r. exact H.
Qed.

Lemma trim_decompose (s : jsstring) :
  exists a b, s = a ++ trim s ++ b /\ forallb isSpace a = true /\ forallb isSpace b = true.
Proof.
  exists (takeWhile isSpace s), (rev (takeWhile isSpace (rev (trimStart s)))).
  split; [|split].
  - unfold trim, trimEnd. rewrite <- rev_app_distr, takeWhile_dropWhile, rev_involutive.
    unfold trimStart. symmetry. apply takeWhile_dropWhile.
  - apply forallb_takeWhile.
  - rewrite rev_forall. apply forallb_takeWhile.
Qed.

Lemma dropWhile_head p (l : jsstring) :
  match dropWhile p l with
  | [] => True
  | c :: _ => p c = false
  end.
Proof.
  induction l as [|x l IH]; simpl; [exact I|].
  destruct (p x) eqn:E; [exact IH|exact E].
Qed.

Lemma last_rev (c : N) (l : jsstring) : last (rev (c :: l)) 0%N = c.
Proof. simpl. apply last_last. Qed.

Lemma edges_ok_fixed (s : jsstring) : edges_ok s = true -> trim s = s.
Proof.
  destruct s as [|c t]; [reflexivity|].
  unfold edges_ok. intros H. apply andb_true_iff in H. destruct H as [H1 H2].
  apply negb_true_iff in H1, H2.
  unfold trim, trimStart, trimEnd. simpl dropWhile at 2. rewrite H1.
  destruct (rev (c :: t)) as [|x r] eqn:E.
  - apply (f_equal (@List.length N)) in E. rewrite length_rev in E. discriminate E.
  - assert (X : x = last (c :: t) 0%N).
    { rewrite <- (rev_involutive (c :: t)), E. symmetry. apply last_rev. }
    simpl. rewrite X, H2. rewrite <- X, <- E. apply rev_involutive.
Qed.

Lemma trim_edges (s : jsstring) : edges_ok (trim s) = true.
Proof.
  destruct (trim s) as [|c t] eqn:E; [reflexivity|].
  unfold edges_ok. apply andb_true_iff. split; apply negb_true_iff.
  - destruct (trim_decompose s) as [a [b [D [Fa Fb]]]].
    unfold trim in E. unfold trimEnd in E.
    pose proof (dropWhile_head isSpace s) as Hh. fold (trimStart s) in Hh.
    assert (S1 : trimStart s = (c :: t) ++ rev (takeWhile isSpace (rev (trimStart s)))).
    { rewrite <- E. rewrite <- rev_app_distr, takeWhile_dropWhile, rev_involutive. reflexivity. }
    rewrite S1 in Hh. exact Hh.
  - unfold trim, trimEnd in E.
    pose proof (dropWhile_head isSpace (rev (trimStart s))) as Hh.
    destruct (dropWhile isSpace (rev (trimStart s))) as [|x r] eqn:D.
    + discriminate E.
    + rewrite <- E. rewrite last_rev. exact Hh.
Qed.

Lemma trim_idem (s : jsstring) : trim (trim s) = trim s.
Proof. apply edges_ok_fixed. apply trim_edges. Qed.

(** ** Dropping white space at both ends keeps a predicate out *)

Lemma free_drop_suffix (P : at_pos) (b : jsstring) :
  (forall prev t, P prev t = true -> P prev (t ++ b) = true) ->
  forall mid prev, free P prev (mid ++ b) = true -> free P prev mid = true.
Proof.
  intros Ext. induction mid as [|c mid IH]; intros prev H.
  - simpl. rewrite andb_true_r. apply negb_true_iff.
    apply free_head in H. simpl in H.
    destruct (P prev []) eqn:E; [|reflexivity].
    apply Ext in E. simpl in E. congruence.
  - simpl in H |- *. apply andb_true_iff in H. destruct H as [H1 H2].
    apply andb_true_iff. split; [|apply IH; exact H2].
    apply negb_true_iff. apply negb_true_iff in H1.
    destruct (P prev (c :: mid)) eqn:E; [|reflexivity].
    apply Ext in E. simpl in E. congruence.
Qed.

(** ** Lines *)

Lemma split_last_LT : forall u : jsstring,
  exists u1 u2, u = u1 ++ u2 /\ forallb notLT u2 = true /\
                forall prev, line_start prev = true -> line_start (last_of prev u1) = true.
Proof.
  induction u as [|c u IH].
  - exists [], []. split; [reflexivity|]. split; [reflexivity|]. intros prev H. exact H.
  - destruct IH as [u1 [u2 [E [F L]]]]. subst u.
    destruct u1 as [|x u1'].
    + destruct (isLineTerminator c) eqn:Ec.
      * exists [c], u2. split; [reflexivity|]. split; [exact F|]. intros prev _. exact Ec.
      * exists [], (c :: u2). split; [reflexivity|]. split.
        -- simpl. unfold notLT at 1. rewrite Ec. exact F.
        -- intros prev H. exact H.
    + exists (c :: x :: u1'), u2. split; [reflexivity|]. split; [exact F|].
      intros prev _. rewrite !last_of_cons.
      specialize (L None eq_refl). rewrite last_of_cons in L. exact L.
Qed.

Lemma forallb_takeWhile_sub (p q : N -> bool) (l : jsstring) :
  forallb q l = true -> forallb q (takeWhile p l) = true.
Proof.
  induction l as [|x l IH]; simpl; [reflexivity|].
  intros H. apply andb_true_iff in H. destruct H as [Hx Hl].
  destruct (p x); simpl; [rewrite Hx; apply IH; exact Hl|reflexivity].
Qed.

Lemma takeWhile_line_end (s : jsstring) : line_end s = true -> takeWhile notLT s = [].
Proof.
  destruct s as [|c s]; simpl; [reflexivity|]. intros H. unfold notLT. rewrite H. reflexivity.
Qed.

Lemma dropWhile_line_end (s : jsstring) : line_end (dropWhile notLT s) = true.
Proof.
  pose proof (dropWhile_head notLT s) as H.
  destruct (dropWhile notLT s) as [|c t]; [reflexivity|].
  simpl. unfold notLT in H. apply negb_false_iff in H. exact H.
Qed.

Section LinePattern.

Variable R : regex.
Variable core : jsstring -> bool.

Hypothesis core_shape :
  forall w, core w = true -> edges_ok w = true /\ w <> [] /\ forallb notLT w = true.

Hypothesis R_steps :
  forall prev s p' s',
    steps true R prev s p' s' ->
    line_start prev = true /\ line_end s' = true /\
    exists u w v, s = u ++ w ++ v ++ s' /\
                  forallb isSpace u = true /\ core w = true /\ forallb isSpace v = true.

Hypothesis R_complete :
  forall prev u w v z,
    line_start prev = true -> forallb isSpace u = true -> core w = true ->
    forallb isSpace v = true -> line_end z = true ->
    exists p', steps true R prev (u ++ w ++ v ++ z) p' z.

Lemma core_nil : core [] = false.
Proof.
  destruct (core []) eqn:E; [|reflexivity].
  apply core_shape in E. destruct E as [_ [E _]]. contradiction.
Qed.

Lemma line_at_matchable prev t :
  line_at core prev t = true -> matchable true R prev t = true.
Proof.
  unfold line_at. intros H. apply andb_true_iff in H. destruct H as [Hs Hc].
  destruct (trim_decompose (takeWhile notLT t)) as [a [b [D [Fa Fb]]]].
  destruct (R_complete prev a _ b (dropWhile notLT t) Hs Fa Hc Fb (dropWhile_line_end t))
    as [p' S].
  rewrite !app_assoc in S. rewrite <- (app_assoc a) in S. rewrite <- D in S.
  rewrite takeWhile_dropWhile in S.
  apply steps_match_here in S. destruct S as [rest S].
  unfold matchable. rewrite S. reflexivity.
Qed.

Lemma trim_core u w v :
  forallb isSpace u = true -> forallb isSpace v = true -> core w = true ->
  trim (u ++ w ++ v) = w.
Proof.
  intros Fu Fv Cw. rewrite trim_ws_l by exact Fu. rewrite trim_ws_r by exact Fv.
  apply edges_ok_fixed. apply core_shape. exact Cw.
Qed.

Lemma steps_line_later prev t p' s' :
  steps true R prev t p' s' ->
  exists a b, t = a ++ b /\ line_at core (last_of prev a) b = true.
Proof.
  intros S. apply R_steps in S. destruct S as [Hs [He [u [w [v [E [Fu [Cw Fv]]]]]]]].
  destruct (split_last_LT u) as [u1 [u2 [Eu [F2 L]]]]. subst u.
  exists u1, (u2 ++ w ++ v ++ s'). split; [rewrite E, <- app_assoc; reflexivity|].
  unfold line_at. rewrite (L prev Hs). simpl.
  destruct (core_shape w Cw) as [_ [_ Nw]].
  rewrite forallb_app in Fu. apply andb_true_iff in Fu. destruct Fu as [_ Fu2].
  rewrite takeWhile_app, F2. rewrite takeWhile_app, Nw.
  rewrite trim_core; trivial.
  rewrite takeWhile_app. destruct (forallb notLT v).
  - rewrite (takeWhile_line_end s' He), app_nil_r. exact Fv.
  - apply forallb_takeWhile_sub. exact Fv.
Qed.

Lemma free_line_matchable : forall s prev,
  free (line_at core) prev s = true -> free (matchable true R) prev s = true.
Proof.
  assert (K : forall s prev, free (line_at core) prev s = true ->
                             matchable true R prev s = false).
  { intros s prev F. unfold matchable.
    destruct (match_here true R prev s) as [rest|] eqn:E; [|reflexivity]. exfalso.
    apply match_here_steps in E. destruct E as [p' E].
    apply steps_line_later in E. destruct E as [a [b [E L]]]. subst s.
    rewrite free_app in F. apply andb_true_iff in F. destruct F as [_ F].
    apply free_head in F. congruence. }
  induction s as [|c s IH]; intros prev F.
  - simpl. rewrite (K _ _ F). reflexivity.
  - simpl. rewrite (K _ _ F). simpl. apply IH.
    simpl in F. apply andb_true_iff in F. tauto.
Qed.

Lemma line_search_none s :
  free (line_at core) None s = true -> search true R None s = None.
Proof.
  intros F. apply search_none_free. apply free_line_matchable. exact F.
Qed.

Lemma line_bounded prev w rest :
  match_here true R prev (w ++ rest) = Some rest -> w <> [] ->
  line_start prev = true /\ line_end rest = true.
Proof.
  intros H _. apply match_here_steps in H. destruct H as [p' H].
  apply R_steps in H. tauto.
Qed.

Lemma line_never_empty prev s : match_here true R prev s <> Some s.
Proof.
  intros H. apply match_here_steps in H. destruct H as [p' H].
  apply R_steps in H. destruct H as [_ [_ [u [w [v [E [_ [Cw _]]]]]]]].
  apply core_shape in Cw. destruct Cw as [_ [Nw _]].
  apply (f_equal (@List.length N)) in E. rewrite !length_app in E.
  destruct w; [contradiction|simpl in E; lia].
Qed.

Lemma line_at_local : line_local (line_at core).
Proof.
  constructor.
  - intros prev a c z z' Hc. unfold line_at.
    rewrite !takeWhile_app_stop by (unfold notLT; rewrite Hc; reflexivity). reflexivity.
  - intros prev c z Hc. unfold line_at. simpl. unfold notLT. rewrite Hc. simpl.
    change (trim []) with (@nil N). rewrite core_nil. apply andb_false_r.
  - intros prev. unfold line_at. simpl. change (trim []) with (@nil N).
    rewrite core_nil. apply andb_false_r.
Qed.

Lemma line_at_ext (b : jsstring) :
  forallb isSpace b = true ->
  forall prev t, line_at core prev t = true -> line_at core prev (t ++ b) = true.
Proof.
  intros Fb prev t H. unfold line_at in *.
  apply andb_true_iff in H. destruct H as [Hs Hc]. rewrite Hs. simpl.
  rewrite takeWhile_app. destruct (forallb notLT t) eqn:E; [|exact Hc].
  rewrite trim_ws_r by (apply forallb_takeWhile_sub; exact Fb).
  rewrite takeWhile_all in Hc by exact E. exact Hc.
Qed.

Lemma line_at_after_ws (a mid : jsstring) :
  forallb isSpace a = true ->
  free (line_at core) None (a ++ mid) = true -> line_at core None mid = false.
Proof.
  intros Fa F. destruct (line_at core None mid) eqn:E; [|reflexivity]. exfalso.
  unfold line_at in E. simpl in E.
  destruct (split_last_LT a) as [a1 [a2 [Ea [F2 L]]]]. subst a.
  rewrite <- app_assoc in F. rewrite free_app in F.
  apply andb_true_iff in F. destruct F as [_ F]. apply free_head in F.
  unfold line_at in F. rewrite (L None eq_refl) in F. simpl in F.
  rewrite forallb_app in Fa. apply andb_true_iff in Fa. destruct Fa as [_ Fa2].
  rewrite takeWhile_app, F2 in F. rewrite trim_ws_l in F by exact Fa2. congruence.
Qed.

(** [trim] brings no such line. *)
Lemma trim_free_line s :
  free (line_at core) None s = true -> free (line_at core) None (trim s) = true.
Proof.
  intros F. destruct (trim_decompose s) as [a [b [D [Fa Fb]]]].
  rewrite D in F.
  pose proof (line_at_after_ws a (trim s ++ b) Fa F) as H0.
  rewrite free_app in F. apply andb_true_iff in F. destruct F as [_ F].
  apply (free_drop_suffix (line_at core) b (line_at_ext b Fb)).
  eapply free_ctx; [exact F|exact H0].
Qed.

(** Removing every match leaves no such line. *)
Lemma line_removed s :
  free (line_at core) None (replace true R [] s) = true.
Proof.
  destruct (replace_scanned true R line_never_empty [] s) as [ms [tl [Sc E]]].
  rewrite E.
  apply (line_remove true R (line_at core) line_at_local line_bounded None s ms tl).
  apply cutting_of_scan; [|exact Sc].
  intros prev t H. apply line_at_matchable. exact H.
Qed.

(** Removing the matches of this pattern keeps any line-local predicate
    out. *)
Lemma line_removal_keeps (P : at_pos) (LL : line_local P) s :
  free P None s = true -> free P None (replace true R [] s) = true.
Proof.
  intros F.
  destruct (replace_scanned true R line_never_empty [] s) as [ms [tl [Sc E]]].
  rewrite E.
  apply (line_remove true R P LL line_bounded None s ms tl).
  apply cutting_of_free; assumption.
Qed.

End LinePattern.

(** ** Anchors *)

Lemma steps_bol_inv ml prev s p' s' :
  steps ml Bol prev s p' s' -> bol_ok ml prev = true /\ p' = prev /\ s' = s.
Proof. intros H. inversion H; subst. auto. Qed.

Lemma steps_eol_inv ml prev s p' s' :
  steps ml Eol prev s p' s' -> eol_ok ml s = true /\ p' = prev /\ s' = s.
Proof. intros H. inversion H; subst. auto. Qed.

(** ** Digits *)

Lemma digit_not_space c : isDigit c = true -> isSpace c = false.
Proof.
  unfold isDigit. intros H. apply andb_true_iff in H. destruct H as [H1 H2].
  apply N.leb_le in H1, H2.
  unfold isSpace, isWhiteSpace, isLineTerminator.
  repeat match goal with
         | |- context [(c =? ?n)%N] =>
             replace (c =? n)%N with false by (symmetry; apply N.eqb_neq; lia)
         end.
  replace (0x2000 <=? c)%N with false by (symmetry; apply N.leb_gt; lia).
  reflexivity.
Qed.

Lemma space_of_LT c : isLineTerminator c = true -> isSpace c = true.
Proof. unfold isSpace. intros H. rewrite H. apply orb_true_r. Qed.

Lemma digit_notLT c : isDigit c = true -> notLT c = true.
Proof.
  intros H. apply digit_not_space in H. unfold notLT.
  destruct (isLineTerminator c) eqn:E; [|reflexivity].
  apply space_of_LT in E. congruence.
Qed.

Lemma forallb_last (p : N -> bool) (w : jsstring) d :
  w <> [] -> forallb p w = true -> p (last w d) = true.
Proof.
  intros NE F. destruct (exists_last NE) as [w' [c E]]. subst w.
  rewrite last_last. rewrite forallb_app in F. simpl in F.
  apply andb_true_iff in F. destruct F as [_ F]. apply andb_true_iff in F. tauto.
Qed.

Lemma forallb_imp (p q : N -> bool) (w : jsstring) :
  (forall c, p c = true -> q c = true) -> forallb p w = true -> forallb q w = true.
Proof.
  intros I. induction w as [|c w IH]; simpl; [reflexivity|].
  intros H. apply andb_true_iff in H. destruct H as [H1 H2].
  rewrite (I _ H1), (IH H2). reflexivity.
Qed.

Lemma digits_core_iff w : digits_core w = true <-> w <> [] /\ forallb isDigit w = true.
Proof.
  unfold digits_core. destruct w as [|c w].
  - split; [discriminate|]. intros [H _]. contradiction.
  - split; [intros H; split; [discriminate|exact H]|tauto].
Qed.

Lemma digits_core_shape w :
  digits_core w = true -> edges_ok w = true /\ w <> [] /\ forallb notLT w = true.
Proof.
  intros H. apply digits_core_iff in H. destruct H as [NE F].
  split; [|split; [exact NE|apply (forallb_imp isDigit); [exact digit_notLT|exact F]]].
  destruct w as [|c w]; [contradiction|].
  unfold edges_ok. apply andb_true_iff. split; apply negb_true_iff; apply digit_not_space.
  - simpl in F. apply andb_true_iff in F. tauto.
  - apply forallb_last; [discriminate|exact F].
Qed.

Lemma plus_digit_core ml prev s p' s' :
  steps ml (Plus digit) prev s p' s' ->
  exists d, s = d ++ s' /\ digits_core d = true /\ p' = last_of prev d.
Proof.
  intros H. apply steps_plus_cls_inv in H. destruct H as [c [u [E [Hc [Fu L]]]]].
  exists (c :: u). split; [exact E|]. split; [|exact L].
  apply digits_core_iff. split; [discriminate|]. simpl. rewrite Hc, Fu. reflexivity.
Qed.

Lemma core_plus_digit ml prev d z :
  digits_core d = true -> steps ml (Plus digit) prev (d ++ z) (last_of prev d) z.
Proof.
  intros H. apply digits_core_iff in H. destruct H as [NE F].
  destruct d as [|c u]; [contradiction|].
  simpl in F. apply andb_true_iff in F. destruct F as [Hc Fu].
  apply steps_plus_cls; assumption.
Qed.

(** ** Standalone numbers: [^\s*\d+\s*$] with the [m] flag *)

Lemma number_line_steps prev s p' s' :
  steps true re_number_line prev s p' s' ->
  line_start prev = true /\ line_end s' = true /\
  exists u w v, s = u ++ w ++ v ++ s' /\
                forallb isSpace u = true /\ digits_core w = true /\
                forallb isSpace v = true.
Proof.
  unfold re_number_line, cat, ws. intros H.
  apply steps_seq_inv in H. destruct H as [p1 [s1 [H1 H]]].
  apply steps_seq_inv in H. destruct H as [p2 [s2 [H2 H]]].
  apply steps_seq_inv in H. destruct H as [p3 [s3 [H3 H]]].
  apply steps_seq_inv in H. destruct H as [p4 [s4 [H4 H5]]].
  apply steps_bol_inv in H1. destruct H1 as [B [? ?]]. subst.
  apply steps_star_cls_inv in H2. destruct H2 as [u [E2 [Fu ?]]]. subst.
  apply plus_digit_core in H3. destruct H3 as [d [E3 [Cd ?]]]. subst.
  apply steps_star_cls_inv in H4. destruct H4 as [v [E4 [Fv ?]]]. subst.
  apply steps_eol_inv in H5. destruct H5 as [Eo [? ?]]. subst.
  split; [exact B|]. split; [exact Eo|].
  exists u, d, v. auto.
Qed.

Lemma number_line_complete prev u w v z :
  line_start prev = true -> forallb isSpace u = true -> digits_core w = true ->
  forallb isSpace v = true -> line_end z = true ->
  exists p', steps true re_number_line prev (u ++ w ++ v ++ z) p' z.
Proof.
  intros Hs Fu Cw Fv He. unfold re_number_line, cat, ws. eexists.
  eapply st_seq; [constructor; exact Hs|].
  eapply st_seq; [apply steps_star_cls; exact Fu|].
  eapply st_seq; [apply core_plus_digit; exact Cw|].
  eapply st_seq; [apply steps_star_cls; exact Fv|].
  constructor. exact He.
Qed.

(** ** Page markers: [^\s*Page \d+ of \d+\s*$] with the [m] flag *)

Lemma strip_prefix_some : forall u t r, strip_prefix u t = Some r -> t = u ++ r.
Proof.
  induction u as [|c u IH]; intros t r H; simpl in H.
  - injection H as H. subst. reflexivity.
  - destruct t as [|x t]; [discriminate H|].
    destruct (N.eqb c x) eqn:E; [|discriminate H].
    apply N.eqb_eq in E. subst x. simpl. f_equal. apply IH. exact H.
Qed.

Lemma strip_prefix_app : forall u r, strip_prefix u (u ++ r) = Some r.
Proof.
  induction u as [|c u IH]; intros r; simpl; [reflexivity|].
  rewrite N.eqb_refl. apply IH.
Qed.

Lemma page_core_iff w :
  page_core w = true <->
  exists d1 d2, w = lit "Page " ++ d1 ++ lit " of " ++ d2 /\
                digits_core d1 = true /\ digits_core d2 = true.
Proof.
  unfold page_core. split.
  - intros H. destruct (strip_prefix (lit "Page ") w) as [r1|] eqn:E1; [|discriminate H].
    apply andb_true_iff in H. destruct H as [H1 H].
    destruct (strip_prefix (lit " of ") (dropWhile isDigit r1)) as [r2|] eqn:E2;
      [|discriminate H].
    apply strip_prefix_some in E1, E2.
    exists (takeWhile isDigit r1), r2. split; [|auto].
    rewrite E1. f_equal. rewrite <- E2. symmetry. apply takeWhile_dropWhile.
  - intros [d1 [d2 [E [C1 C2]]]]. subst w.
    rewrite strip_prefix_app.
    apply digits_core_iff in C1 as C1'. destruct C1' as [_ F1].
    assert (T : takeWhile isDigit (d1 ++ lit " of " ++ d2) = d1).
    { rewrite takeWhile_app, F1. simpl. apply app_nil_r. }
    assert (D : dropWhile isDigit (d1 ++ lit " of " ++ d2) = lit " of " ++ d2).
    { rewrite dropWhile_app_all by exact F1. reflexivity. }
    rewrite T, D, C1, strip_prefix_app. exact C2.
Qed.

Lemma last_app_r (a b : jsstring) d : b <> [] -> last (a ++ b) d = last b d.
Proof.
  intros NE. destruct (exists_last NE) as [b' [c E]]. subst b.
  rewrite app_assoc, !last_last. reflexivity.
Qed.

Lemma edges_ok_intro (s : jsstring) :
  isSpace (hd 0%N s) = false -> isSpace (last s 0%N) = false -> edges_ok s = true.
Proof.
  intros H L. destruct s as [|c r]; [reflexivity|].
  unfold edges_ok. simpl in H. rewrite H, L. reflexivity.
Qed.

Lemma page_core_shape w :
  page_core w = true -> edges_ok w = true /\ w <> [] /\ forallb notLT w = true.
Proof.
  intros H. apply page_core_iff in H. destruct H as [d1 [d2 [E [C1 C2]]]]. subst w.
  apply digits_core_iff in C1, C2. destruct C1 as [N1 F1], C2 as [N2 F2].
  split; [|split].
  - assert (L : forall d, last (lit "Page " ++ d1 ++ lit " of " ++ d2) d = last d2 d).
    { intros d. rewrite !app_assoc. apply last_app_r. exact N2. }
    apply edges_ok_intro; [reflexivity|].
    rewrite L. apply digit_not_space. apply forallb_last; assumption.
  - discriminate.
  - rewrite !forallb_app.
    rewrite (forallb_imp isDigit notLT d1 digit_notLT F1).
    rewrite (forallb_imp isDigit notLT d2 digit_notLT F2). reflexivity.
Qed.

Lemma lit_page_nonempty : lit "Page " <> [].
Proof. discriminate. Qed.

Lemma lit_of_nonempty : lit " of " <> [].
Proof. discriminate. Qed.

Lemma page_steps prev s p' s' :
  steps true re_page prev s p' s' ->
  line_start prev = true /\ line_end s' = true /\
  exists u w v, s = u ++ w ++ v ++ s' /\
                forallb isSpace u = true /\ page_core w = true /\
                forallb isSpace v = true.
Proof.
  unfold re_page, cat, ws, str. intros H.
  apply steps_seq_inv in H. destruct H as [p1 [s1 [H1 H]]].
  apply steps_seq_inv in H. destruct H as [p2 [s2 [H2 H]]].
  apply steps_seq_inv in H. destruct H as [p3 [s3 [H3 H]]].
  apply steps_seq_inv in H. destruct H as [p4 [s4 [H4 H]]].
  apply steps_seq_inv in H. destruct H as [p5 [s5 [H5 H]]].
  apply steps_seq_inv in H. destruct H as [p6 [s6 [H6 H]]].
  apply steps_seq_inv in H. destruct H as [p7 [s7 [H7 H8]]].
  apply steps_bol_inv in H1. destruct H1 as [B [? ?]]. subst.
  apply steps_star_cls_inv in H2. destruct H2 as [u [E2 [Fu ?]]]. subst.
  apply steps_str_inv in H3; [|exact lit_page_nonempty]. destruct H3 as [E3 ?]. subst.
  apply plus_digit_core in H4. destruct H4 as [d1 [E4 [C1 ?]]]. subst.
  apply steps_str_inv in H5; [|exact lit_of_nonempty]. destruct H5 as [E5 ?]. subst.
  apply plus_digit_core in H6. destruct H6 as [d2 [E6 [C2 ?]]]. subst.
  apply steps_star_cls_inv in H7. destruct H7 as [v [E7 [Fv ?]]]. subst.
  apply steps_eol_inv in H8. destruct H8 as [Eo [? ?]]. subst.
  split; [exact B|]. split; [exact Eo|].
  exists u, (lit "Page " ++ d1 ++ lit " of " ++ d2), v.
  split; [rewrite <- !app_assoc; reflexivity|].
  split; [exact Fu|]. split; [|exact Fv].
  apply page_core_iff. exists d1, d2. auto.
Qed.

Lemma page_complete prev u w v z :
  line_start prev = true -> forallb isSpace u = true -> page_core w = true ->
  forallb isSpace v = true -> line_end z = true ->
  exists p', steps true re_page prev (u ++ w ++ v ++ z) p' z.
Proof.
  intros Hs Fu Cw Fv He. apply page_core_iff in Cw.
  destruct Cw as [d1 [d2 [E [C1 C2]]]]. subst w.
  unfold re_page, cat, ws, str. eexists.
  rewrite <- !app_assoc.
  eapply st_seq; [constructor; exact Hs|].
  eapply st_seq; [apply steps_star_cls; exact Fu|].
  eapply st_seq; [apply steps_str; exact lit_page_nonempty|].
  eapply st_seq; [apply core_plus_digit; exact C1|].
  eapply st_seq; [apply steps_str; exact lit_of_nonempty|].
  eapply st_seq; [apply core_plus_digit; exact C2|].
  eapply st_seq; [apply steps_star_cls; exact Fv|].
  constructor. exact He.
Qed.

(** ** Runs of a class that holds no line terminator *)

Lemma run_local k p :
  (1 <= k)%nat -> (forall c, isLineTerminator c = true -> p c = false) ->
  line_local (run_at k p).
Proof.
  intros K NL. constructor.
  - intros prev a c z z' Hc. unfold run_at. rewrite !takeWhile_app.
    cbn [takeWhile]. rewrite (NL c Hc). reflexivity.
  - intros prev c z Hc. unfold run_at. cbn [takeWhile]. rewrite (NL c Hc).
    apply Nat.leb_gt. simpl. lia.
  - intros prev. unfold run_at. apply Nat.leb_gt. simpl. lia.
Qed.

Lemma run_ext k p b prev t :
  run_at k p prev t = true -> run_at k p prev (t ++ b) = true.
Proof.
  unfold run_at. intros H. apply Nat.leb_le in H. apply Nat.leb_le.
  pose proof (takeWhile_app_le p t b). lia.
Qed.

(** ** Markers *)

Lemma starts_app : forall u r, starts u (u ++ r) = true.
Proof.
  induction u as [|c u IH]; intros r; simpl; [reflexivity|].
  rewrite N.eqb_refl. apply IH.
Qed.

Lemma starts_inv : forall u t, starts u t = true -> exists r, t = u ++ r.
Proof.
  induction u as [|c u IH]; intros t H.
  - exists t. reflexivity.
  - destruct t as [|x t]; [discriminate H|]. simpl in H.
    apply andb_true_iff in H. destruct H as [E H]. apply N.eqb_eq in E. subst x.
    destruct (IH _ H) as [r Hr]. exists r. simpl. f_equal. exact Hr.
Qed.

Lemma starts_ext : forall u t b, starts u t = true -> starts u (t ++ b) = true.
Proof.
  intros u t b H. destruct (starts_inv _ _ H) as [r E]. subst t.
  rewrite <- app_assoc. apply starts_app.
Qed.

Lemma starts_local u :
  u <> [] -> forallb notLT u = true -> line_local (starts_at u).
Proof.
  intros NE F. constructor.
  - intros prev a c z z' Hc. unfold starts_at. clear NE.
    revert a. induction u as [|x u IH]; intros a; [reflexivity|].
    simpl in F. apply andb_true_iff in F. destruct F as [Fx Fu].
    destruct a as [|y a]; simpl.
    + assert (E : N.eqb x c = false).
      { apply N.eqb_neq. intros ->. unfold notLT in Fx. rewrite Hc in Fx. discriminate. }
      rewrite E. reflexivity.
    + rewrite (IH Fu). reflexivity.
  - intros prev c z Hc. unfold starts_at. destruct u as [|x u]; [contradiction|].
    simpl in F. apply andb_true_iff in F. destruct F as [Fx _]. simpl.
    assert (E : N.eqb x c = false).
    { apply N.eqb_neq. intros ->. unfold notLT in Fx. rewrite Hc in Fx. discriminate. }
    rewrite E. reflexivity.
  - intros prev. unfold starts_at. destruct u; [contradiction|reflexivity].
Qed.

(** [marker[\s\S]*$]: the marker matches wherever it stands, and the match
    runs to the end of the text. *)
Lemma matchable_marker u prev t :
  u <> [] ->
  matchable true (Seq (seq_of chr u) (Seq (Star (Cls any)) Eol)) prev t = starts_at u prev t.
Proof.
  intros NE. unfold starts_at, matchable.
  destruct (match_here true (Seq (seq_of chr u) (Seq (Star (Cls any)) Eol)) prev t)
    as [rest|] eqn:E.
  - apply match_here_steps in E. destruct E as [p' S].
    apply steps_seq_inv in S. destruct S as [p1 [s1 [S1 _]]].
    apply steps_str_inv in S1; [|exact NE]. destruct S1 as [E1 _]. subst t.
    symmetry. apply starts_app.
  - destruct (starts u t) eqn:S; [|reflexivity]. exfalso.
    destruct (starts_inv _ _ S) as [r Hr]. subst t.
    apply (match_here_none _ _ _ _ E (last_of (last_of prev u) r) []).
    eapply (@st_seq true); [apply steps_str; exact NE|].
    eapply (@st_seq true).
    + rewrite <- (app_nil_r r) at 1. apply steps_star_cls.
      apply forallb_forall. intros x _. reflexivity.
    + constructor. reflexivity.
Qed.

Lemma marker_search_none (mk : string) (s : jsstring) :
  lit mk <> [] ->
  (search true (cat [str mk; Star (Cls any); Eol]) None s = None <->
   free (starts_at (lit mk)) None s = true).
Proof.
  intros NE. rewrite search_none_free.
  change (cat [str mk; Star (Cls any); Eol])
    with (Seq (seq_of chr (lit mk)) (Seq (Star (Cls any)) Eol)).
  assert (X : forall s prev,
             free (matchable true (Seq (seq_of chr (lit mk)) (Seq (Star (Cls any)) Eol))) prev s
             = free (starts_at (lit mk)) prev s).
  { clear s. induction s as [|c s IH]; intros prev; cbn [free];
      rewrite matchable_marker by exact NE; [reflexivity|]. rewrite IH. reflexivity. }
  rewrite X. tauto.
Qed.

(** ** Trimming *)

Lemma trim_free_insensitive (P : at_pos) (s : jsstring) :
  (forall prev prev' t, P prev t = P prev' t) ->
  (forall b prev t, P prev t = true -> P prev (t ++ b) = true) ->
  free P None s = true -> free P None (trim s) = true.
Proof.
  intros I X H. destruct (trim_decompose s) as [a [b [E [_ _]]]].
  rewrite E in H. rewrite free_app in H. apply andb_true_iff in H. destruct H as [_ H].
  apply (free_drop_suffix P b (X b)).
  apply (free_ctx P None (last_of None a)); [exact H|].
  rewrite (I None (last_of None a)). apply free_head. exact H.
Qed.

Lemma trim_free_run k p s :
  free (run_at k p) None s = true -> free (run_at k p) None (trim s) = true.
Proof.
  apply trim_free_insensitive.
  - intros. apply run_at_ctx.
  - intros. apply run_ext. assumption.
Qed.

Lemma trim_free_starts u s :
  free (starts_at u) None s = true -> free (starts_at u) None (trim s) = true.
Proof.
  apply trim_free_insensitive.
  - reflexivity.
  - intros. unfold starts_at. apply starts_ext. assumption.
Qed.

(** ** Replacements that keep a predicate away *)

Lemma run_kept ml r k p by_ s :
  (forall prev s, match_here ml r prev s <> Some s) ->
  (1 <= k)%nat -> by_ <> [] -> forallb (fun c => negb (p c)) by_ = true ->
  free (run_at k p) None s = true ->
  free (run_at k p) None (replace ml r by_ s) = true.
Proof.
  intros NE K B F H.
  destruct (replace_scanned ml r NE by_ s) as [ms [tl [Sc E]]]. rewrite E.
  apply (run_replace ml r k p by_ K B F None s ms tl).
  apply cutting_of_free; assumption.
Qed.

Lemma blank_replace_keeps (P : at_pos) s :
  line_local P -> free P None s = true ->
  free P None (replace false re_blank_lines [LF; LF] s) = true.
Proof.
  intros LL H.
  destruct (replace_scanned false re_blank_lines (blank_never_empty false) [LF; LF] s)
    as [ms [tl [Sc E]]]. rewrite E.
  refine (line_replace false re_blank_lines P LL LF [LF] eq_refl eq_refl _ None s ms tl _).
  - intros prev w rest M _. apply blank_match_shape in M.
    destruct M as [[w' Ew] _]. subst w. split; [eexists; reflexivity|].
    unfold last_of. change (LF :: w' ++ [LF]) with ((LF :: w') ++ [LF]).
    rewrite rev_app_distr. reflexivity.
  - apply cutting_of_free; assumption.
Qed.

Lemma identity_replace_keeps (P : at_pos) ml r by_ s :
  search ml r None s = None -> free P None s = true ->
  free P None (replace ml r by_ s) = true.
Proof. intros N H. rewrite replace_no_match by exact N. exact H. Qed.

(** ** No run of three line feeds where no blank-line match starts *)

Lemma newline_run_blank prev t :
  run_at 3 (N.eqb LF) prev t = true -> blank_at prev t = true.
Proof.
  unfold run_at, blank_at. intros H. apply Nat.leb_le in H.
  destruct t as [|a t]; [simpl in H; lia|].
  cbn [takeWhile] in H. destruct (N.eqb LF a) eqn:Ea; [|simpl in H; lia].
  destruct t as [|b t]; [simpl in H; lia|].
  cbn [takeWhile] in H. destruct (N.eqb LF b) eqn:Eb; [|simpl in H; lia].
  destruct t as [|c t]; [simpl in H; lia|].
  cbn [takeWhile] in H. destruct (N.eqb LF c) eqn:Ec; [|simpl in H; lia].
  apply N.eqb_eq in Ea, Eb, Ec. subst a b c.
  reflexivity.
Qed.

Lemma newline_runs_free s :
  free blank_at None s = true -> search false re_newlines None s = None.
Proof.
  intros H. apply search_none_free.
  apply (free_mono _ blank_at); [|exact H].
  intros prev t M. unfold re_newlines, chr in M. rewrite matchable_run in M.
  apply newline_run_blank. exact M.
Qed.

Lemma run_search_none ml k p s :
  free (run_at k p) None s = true -> search ml (AtLeast k (Cls p)) None s = None.
Proof.
  intros H. apply search_none_free.
  apply (free_mono _ (run_at k p)); [|exact H].
  intros prev t M. rewrite matchable_run in M. exact M.
Qed.

Lemma crlf_search_none s :
  forallb (fun c => negb (N.eqb CR c)) s = true -> search false re_crlf None s = None.
Proof.
  intros H. apply search_none_free. rewrite <- (free_run1 (N.eqb CR) s None) in H.
  apply (free_mono _ (run_at 1 (N.eqb CR))); [|exact H].
  intros prev t M. unfold matchable in M.
  destruct (match_here false re_crlf prev t) as [rest|] eqn:E; [|discriminate M].
  apply match_here_steps in E. destruct E as [p' S].
  unfold re_crlf, cat in S. apply steps_seq_inv in S. destruct S as [p1 [s1 [S1 _]]].
  unfold chr in S1. apply steps_cls_inv in S1.
  destruct S1 as [c [Et [Hc _]]]. subst t.
  unfold run_at. cbn [takeWhile]. rewrite Hc. reflexivity.
Qed.

(** ** The two ends of the text through the last step *)

Lemma blank_out_last ml P by_ prev s ms tl :
  cutting ml re_blank_lines P prev s ms tl ->
  s <> [] -> isSpace (last s 0%N) = false ->
  out by_ ms tl <> [] /\ last (out by_ ms tl) 0%N = last s 0%N.
Proof.
  induction 1 as [prev s _|prev sk w rest ms tl NE M Sk Cut IH]; intros NS L.
  - rewrite out_nil. auto.
  - apply blank_match_shape in M. destruct M as [_ [Fw _]].
    assert (NR : rest <> []).
    { intros ->. rewrite app_nil_r in L. rewrite last_app_r in L by exact NE.
      rewrite (forallb_last isSpace w 0%N NE Fw) in L. discriminate. }
    assert (E : last (sk ++ w ++ rest) 0%N = last rest 0%N).
    { rewrite app_assoc. apply last_app_r. exact NR. }
    rewrite E in L |- *. destruct (IH NR L) as [NO LO].
    rewrite out_cons. split.
    + intros X. apply app_eq_nil in X. destruct X as [_ X].
      apply app_eq_nil in X. destruct X as [_ X]. contradiction.
    + rewrite app_assoc. rewrite last_app_r by exact NO. exact LO.
Qed.

Lemma blank_out_head ml P by_ prev s ms tl :
  cutting ml re_blank_lines P prev s ms tl ->
  isSpace (hd 0%N s) = false -> hd 0%N (out by_ ms tl) = hd 0%N s.
Proof.
  intros C H. destruct C as [prev s _|prev sk w rest ms tl NE M Sk Cut].
  - rewrite out_nil. reflexivity.
  - rewrite out_cons. destruct sk as [|c sk]; [|reflexivity].
    exfalso. apply blank_match_shape in M. destruct M as [[w' E] _]. subst w.
    simpl in H. discriminate H.
Qed.

Lemma edges_ok_inv (s : jsstring) :
  edges_ok s = true -> s <> [] ->
  isSpace (hd 0%N s) = false /\ isSpace (last s 0%N) = false.
Proof.
  intros H NE. destruct s as [|c r]; [contradiction|].
  unfold edges_ok in H. apply andb_true_iff in H. destruct H as [H1 H2].
  apply negb_true_iff in H1, H2. auto.
Qed.

Lemma blank_replace_edges s :
  edges_ok s = true -> edges_ok (replace false re_blank_lines [LF; LF] s) = true.
Proof.
  intros H. destruct (list_eq_dec N.eq_dec s []) as [->|NS]; [reflexivity|].
  destruct (replace_scanned false re_blank_lines (blank_never_empty false) [LF; LF] s)
    as [ms [tl [Sc E]]]. rewrite E.
  assert (C : cutting false re_blank_lines blank_at None s ms tl).
  { apply cutting_of_scan; [|exact Sc]. intros prev t X. rewrite matchable_blank. exact X. }
  destruct (edges_ok_inv s H NS) as [Hh Hl].
  destruct (blank_out_last false blank_at [LF; LF] None s ms tl C NS Hl) as [_ L].
  pose proof (blank_out_head false blank_at [LF; LF] None s ms tl C Hh) as Hd.
  apply edges_ok_intro; [rewrite Hd; exact Hh|rewrite L; exact Hl].
Qed.

(** ** The edits before the footers *)

Lemma clean_before_footers x :
  clean x = finish (replace true re_email_footer []
                      (replace true re_confidential [] (before_footers x))).
Proof.
  unfold clean, finish, before_footers, run_edits, edits. cbn [fold_left]. reflexivity.
Qed.

Lemma keeps_run_edits (Inv : jsstring -> Prop) l :
  Forall (keeps Inv) l -> keeps Inv (run_edits l).
Proof.
  induction 1 as [|f l Hf _ IH]; intros s Hs; [exact Hs|].
  apply IH. apply Hf. exact Hs.
Qed.

Lemma before_footers_split n x :
  before_footers x = run_edits (skipn n edits) (run_edits (firstn n edits) x).
Proof.
  unfold before_footers, run_edits. rewrite <- fold_left_app, firstn_skipn. reflexivity.
Qed.

(** ** Code units *)

Lemma lacks_notin c s : ~ In c s -> lacks c s = true.
Proof.
  intros H. apply forallb_forall. intros x Hx. apply negb_true_iff.
  apply N.eqb_neq. intros ->. contradiction.
Qed.

Lemma lacks_replace c ml r by_ s :
  lacks c by_ = true -> lacks c s = true -> lacks c (replace ml r by_ s) = true.
Proof. intros B H. apply replace_forall; assumption. Qed.

Lemma lacks_trim c s : lacks c s = true -> lacks c (trim s) = true.
Proof. apply trim_forall. Qed.

Lemma lacks_replaced c ml by_ s :
  by_ <> [] -> lacks c by_ = true -> lacks c (replace ml (chr c) by_ s) = true.
Proof. intros NE B. apply cls_replace_free; assumption. Qed.

Lemma lacks_search_none c ml s : lacks c s = true -> search ml (chr c) None s = None.
Proof. apply search_cls_none. Qed.

Lemma lacks_finish c s :
  lacks c [LF; LF] = true -> lacks c s = true -> lacks c (finish s) = true.
Proof. intros B H. apply lacks_replace; [exact B|]. apply lacks_trim. exact H. Qed.

Lemma lacks_incl c (a b : jsstring) : incl a b -> lacks c b = true -> lacks c a = true.
Proof.
  intros I H. apply forallb_forall. intros x Hx.
  apply (proj1 (forallb_forall _ b) H). apply I. exact Hx.
Qed.

Lemma Forall_skipn (A : Type) (P : A -> Prop) n : forall l, Forall P l -> Forall P (skipn n l).
Proof.
  induction n as [|n IH]; intros l H; [exact H|].
  destruct l as [|a l]; [constructor|]. simpl. apply IH. inversion H; assumption.
Qed.

(** No edit writes a code unit other than these eight. *)
Lemma lacks_kept c :
  lacks c [LF; SP; BULLET; HYPHEN; DQUOTE; SQUOTE; DOT; UNDERSCORE] = true ->
  Forall (keeps (fun s => lacks c s = true)) edits.
Proof.
  intros H. unfold edits. repeat apply Forall_cons; try apply Forall_nil.
  all: intros s Hs; apply lacks_replace; [|exact Hs].
  all: refine (lacks_incl c _ _ _ H); intros x Hx; simpl in Hx |- *; tauto.
Qed.

Lemma lacks_before_footers c x :
  lacks c [LF; SP; BULLET; HYPHEN; DQUOTE; SQUOTE; DOT; UNDERSCORE] = true ->
  lacks c x = true -> lacks c (before_footers x) = true.
Proof.
  intros B H. apply (keeps_run_edits (fun s => lacks c s = true) edits (lacks_kept c B)).
  exact H.
Qed.

(** Once an edit has cleared [c], it stays away. *)
Lemma lacks_after n c x :
  lacks c [LF; SP; BULLET; HYPHEN; DQUOTE; SQUOTE; DOT; UNDERSCORE] = true ->
  lacks c (run_edits (firstn n edits) x) = true ->
  lacks c (before_footers x) = true.
Proof.
  intros B H. rewrite (before_footers_split n).
  apply (keeps_run_edits (fun s => lacks c s = true)); [|exact H].
  apply Forall_skipn. apply lacks_kept. exact B.
Qed.

Lemma Forall_firstn (A : Type) (P : A -> Prop) n : forall l, Forall P l -> Forall P (firstn n l).
Proof.
  induction n as [|n IH]; intros l H; [constructor|].
  destruct l as [|a l]; [constructor|]. simpl. inversion H; subst.
  constructor; [assumption|]. apply IH. assumption.
Qed.

Lemma lacks_prefix n c x :
  lacks c [LF; SP; BULLET; HYPHEN; DQUOTE; SQUOTE; DOT; UNDERSCORE] = true ->
  lacks c x = true -> lacks c (run_edits (firstn n edits) x) = true.
Proof.
  intros B H. apply (keeps_run_edits (fun s => lacks c s = true)); [|exact H].
  apply Forall_firstn. apply lacks_kept. exact B.
Qed.

(** ** Runs *)

Ltac keep_run LL :=
  first
    [ rewrite replace_chr_same; assumption
    | rewrite replace_no_match by (apply lacks_search_none; assumption); assumption
    | apply run_kept;
      [ first [ apply cls_never_empty | apply run_never_empty; lia ]
      | lia | discriminate | reflexivity | assumption ]
    | apply (line_removal_keeps re_page page_core page_core_shape page_steps _ LL);
      assumption
    | apply (line_removal_keeps re_number_line digits_core digits_core_shape
               number_line_steps _ LL); assumption ].

Ltac keep_clear_run LL :=
  let s := fresh "s" in
  let Hff := fresh "Hff" in
  let Hnb := fresh "Hnb" in
  let Hrun := fresh "Hrun" in
  intros s [Hff [Hnb Hrun]];
  split; [apply lacks_replace; [reflexivity|assumption]|];
  split; [apply lacks_replace; [reflexivity|assumption]|];
  keep_run LL.

Ltac each_edit := unfold edits; cbn [skipn]; repeat apply Forall_cons; try apply Forall_nil.

Lemma blank_not_LT c : isLineTerminator c = true -> blank c = false.
Proof.
  unfold isLineTerminator, blank. intros H.
  destruct (N.eqb c SP) eqn:E1; [apply N.eqb_eq in E1; subst c; discriminate H|].
  destruct (N.eqb c TAB) eqn:E2; [apply N.eqb_eq in E2; subst c; discriminate H|].
  reflexivity.
Qed.

Lemma chr_not_LT x :
  isLineTerminator x = false -> forall c, isLineTerminator c = true -> N.eqb x c = false.
Proof. intros Hx c Hc. apply N.eqb_neq. intros ->. congruence. Qed.

Lemma blanks_local : line_local (run_at 2 blank).
Proof. apply run_local; [lia|exact blank_not_LT]. Qed.

Lemma dots_local : line_local (run_at 4 (N.eqb DOT)).
Proof. apply run_local; [lia|]. apply chr_not_LT. reflexivity. Qed.

Lemma hyphens_local : line_local (run_at 3 (N.eqb HYPHEN)).
Proof. apply run_local; [lia|]. apply chr_not_LT. reflexivity. Qed.

Lemma underscores_local : line_local (run_at 3 (N.eqb UNDERSCORE)).
Proof. apply run_local; [lia|]. apply chr_not_LT. reflexivity. Qed.

Lemma blanks_kept : Forall (keeps (clear_run 2 blank)) (skipn 4 edits).
Proof. each_edit; keep_clear_run blanks_local. Qed.

Lemma dots_kept : Forall (keeps (clear_run 4 (N.eqb DOT))) (skipn 13 edits).
Proof. each_edit; keep_clear_run dots_local. Qed.

Lemma hyphens_kept : Forall (keeps (clear_run 3 (N.eqb HYPHEN))) (skipn 14 edits).
Proof. each_edit; keep_clear_run hyphens_local. Qed.

Lemma underscores_kept : Forall (keeps (clear_run 3 (N.eqb UNDERSCORE))) (skipn 15 edits).
Proof. each_edit; keep_clear_run underscores_local. Qed.

Lemma run_edits_next : forall l n f x,
  nth_error l n = Some f ->
  run_edits (firstn (S n) l) x = f (run_edits (firstn n l) x).
Proof.
  induction l as [|g l IH]; intros n f x H.
  - destruct n; discriminate H.
  - destruct n as [|n].
    + injection H as H. subst g. destruct l; reflexivity.
    + apply (IH n f (g x)). exact H.
Qed.

Lemma blanks_before_footers x :
  lacks FF x = true -> lacks NBSP x = true -> clear_run 2 blank (before_footers x).
Proof.
  intros Hff Hnb. rewrite (before_footers_split 4).
  apply (keeps_run_edits _ _ blanks_kept).
  split; [apply lacks_prefix; [reflexivity|exact Hff]|].
  split; [apply lacks_prefix; [reflexivity|exact Hnb]|].
  rewrite (run_edits_next edits 3 (replace false re_blanks [SP])) by reflexivity.
  apply (run_collapse false 2 blank [SP]); simpl; lia.
Qed.

Lemma dots_before_footers x :
  lacks FF x = true -> lacks NBSP x = true -> clear_run 4 (N.eqb DOT) (before_footers x).
Proof.
  intros Hff Hnb. rewrite (before_footers_split 13).
  apply (keeps_run_edits _ _ dots_kept).
  split; [apply lacks_prefix; [reflexivity|exact Hff]|].
  split; [apply lacks_prefix; [reflexivity|exact Hnb]|].
  rewrite (run_edits_next edits 12 (replace false re_dots [DOT; DOT; DOT])) by reflexivity.
  apply (run_collapse false 4 (N.eqb DOT) [DOT; DOT; DOT]); simpl; lia.
Qed.

Lemma hyphens_before_footers x :
  lacks FF x = true -> lacks NBSP x = true -> clear_run 3 (N.eqb HYPHEN) (before_footers x).
Proof.
  intros Hff Hnb. rewrite (before_footers_split 14).
  apply (keeps_run_edits _ _ hyphens_kept).
  split; [apply lacks_prefix; [reflexivity|exact Hff]|].
  split; [apply lacks_prefix; [reflexivity|exact Hnb]|].
  rewrite (run_edits_next edits 13 (replace false re_hyphens [HYPHEN; HYPHEN])) by reflexivity.
  apply (run_collapse false 3 (N.eqb HYPHEN) [HYPHEN; HYPHEN]); simpl; lia.
Qed.

Lemma underscores_before_footers x :
  lacks FF x = true -> lacks NBSP x = true ->
  clear_run 3 (N.eqb UNDERSCORE) (before_footers x).
Proof.
  intros Hff Hnb. rewrite (before_footers_split 15).
  apply (keeps_run_edits _ _ underscores_kept).
  split; [apply lacks_prefix; [reflexivity|exact Hff]|].
  split; [apply lacks_prefix; [reflexivity|exact Hnb]|].
  rewrite (run_edits_next edits 14 (replace false re_underscores [UNDERSCORE; UNDERSCORE]))
    by reflexivity.
  apply (run_collapse false 3 (N.eqb UNDERSCORE) [UNDERSCORE; UNDERSCORE]); simpl; lia.
Qed.

(** ** Code units an edit replaces *)

Lemma cleared_before_footers n c by_ x :
  nth_error edits n = Some (replace false (chr c) by_) ->
  by_ <> [] -> lacks c by_ = true ->
  lacks c [LF; SP; BULLET; HYPHEN; DQUOTE; SQUOTE; DOT; UNDERSCORE] = true ->
  lacks c (before_footers x) = true.
Proof.
  intros E NE B A. apply (lacks_after (S n)); [exact A|].
  rewrite (run_edits_next edits n _ x E). apply lacks_replaced; assumption.
Qed.

(** ** Page markers and standalone numbers *)

Lemma page_before_footers x : free (line_at page_core) None (before_footers x) = true.
Proof.
  rewrite (before_footers_split 16).
  apply (keeps_run_edits (fun s => free (line_at page_core) None s = true)).
  - each_edit. intros s Hs.
    apply (line_removal_keeps re_number_line digits_core digits_core_shape
             number_line_steps _ (line_at_local page_core page_core_shape)).
    exact Hs.
  - rewrite (run_edits_next edits 15 (replace true re_page [])) by reflexivity.
    apply (line_removed re_page page_core page_core_shape page_steps page_complete).
Qed.

Lemma number_before_footers x : free (line_at digits_core) None (before_footers x) = true.
Proof.
  change (before_footers x) with (run_edits (firstn 17 edits) x).
  rewrite (run_edits_next edits 16 (replace true re_number_line [])) by reflexivity.
  apply (line_removed re_number_line digits_core digits_core_shape
           number_line_steps number_line_complete).
Qed.

(** ** Footers *)

Lemma test_false ml r s : test ml r s = false <-> search ml r None s = None.
Proof.
  unfold test. destruct (search ml r None s); split; intros H; congruence.
Qed.

Lemma confidential_none s :
  search true re_confidential None s = None <->
  free (starts_at confidential) None s = true.
Proof. apply (marker_search_none "Confidential and Proprietary"). discriminate. Qed.

Lemma email_footer_none s :
  search true re_email_footer None s = None <->
  free (starts_at email_footer) None s = true.
Proof. apply (marker_search_none "This email and any attachments"). discriminate. Qed.

Lemma confidential_local : line_local (starts_at confidential).
Proof. apply starts_local; [discriminate|reflexivity]. Qed.

Lemma email_footer_local : line_local (starts_at email_footer).
Proof. apply starts_local; [discriminate|reflexivity]. Qed.

(** ** The trim and the blank-line collapse *)

Lemma finish_keeps (P : at_pos) :
  line_local P ->
  (forall s, free P None s = true -> free P None (trim s) = true) ->
  forall s, free P None s = true -> free P None (finish s) = true.
Proof.
  intros LL T s H. unfold finish. apply blank_replace_keeps; [exact LL|].
  apply T. exact H.
Qed.

Lemma finish_edges s : edges_ok (finish s) = true.
Proof. unfold finish. apply blank_replace_edges. apply trim_edges. Qed.

Lemma finish_blank_lines s : free blank_at None (finish s) = true.
Proof. unfold finish. apply blank_collapse. Qed.

(** ** What sanitizeText returns *)

Lemma clean_tidy x :
  lacks FF x = true -> lacks NBSP x = true ->
  test true re_confidential (before_footers x) = false ->
  test true re_email_footer (before_footers x) = false ->
  tidy (clean x).
Proof.
  intros Hff Hnb Kc Ke. apply test_false in Kc, Ke.
  rewrite clean_before_footers.
  rewrite (replace_no_match true re_confidential [] _ Kc).
  rewrite (replace_no_match true re_email_footer [] _ Ke).
  destruct (blanks_before_footers x Hff Hnb) as [Bff [Bnb Bb]].
  destruct (dots_before_footers x Hff Hnb) as [_ [_ Bd]].
  destruct (hyphens_before_footers x Hff Hnb) as [_ [_ Bh]].
  destruct (underscores_before_footers x Hff Hnb) as [_ [_ Bu]].
  constructor.
  - apply lacks_finish; [reflexivity|].
    apply (cleared_before_footers 1 CR [LF]); (reflexivity || discriminate).
  - apply lacks_finish; [reflexivity|exact Bff].
  - apply lacks_finish; [reflexivity|exact Bnb].
  - apply lacks_finish; [reflexivity|].
    apply (cleared_before_footers 7 EN_DASH [HYPHEN]); (reflexivity || discriminate).
  - apply lacks_finish; [reflexivity|].
    apply (cleared_before_footers 8 EM_DASH [HYPHEN; HYPHEN]); (reflexivity || discriminate).
  - apply lacks_finish; [reflexivity|].
    apply (cleared_before_footers 11 ELLIPSIS [DOT; DOT; DOT]); (reflexivity || discriminate).
  - apply (finish_keeps _ blanks_local); [apply trim_free_run|exact Bb].
  - apply (finish_keeps _ dots_local); [apply trim_free_run|exact Bd].
  - apply (finish_keeps _ hyphens_local); [apply trim_free_run|exact Bh].
  - apply (finish_keeps _ underscores_local); [apply trim_free_run|exact Bu].
  - apply (finish_keeps _ (line_at_local page_core page_core_shape));
      [apply trim_free_line|apply page_before_footers].
  - apply (finish_keeps _ (line_at_local digits_core digits_core_shape));
      [apply trim_free_line|apply number_before_footers].
  - apply (finish_keeps _ confidential_local); [apply trim_free_starts|].
    apply confidential_none. exact Kc.
  - apply (finish_keeps _ email_footer_local); [apply trim_free_starts|].
    apply email_footer_none. exact Ke.
  - apply finish_edges.
  - apply finish_blank_lines.
Qed.

Lemma tidy_before_footers y : tidy y -> before_footers y = y.
Proof.
  intros T. unfold before_footers, run_edits, edits. cbn [fold_left].
  rewrite (replace_no_match false re_crlf [LF] y (crlf_search_none y (t_cr T))).
  rewrite (replace_no_match false re_cr [LF] y (lacks_search_none CR false y (t_cr T))).
  rewrite (replace_no_match false re_newlines [LF; LF] y
             (newline_runs_free y (t_blank_lines T))).
  rewrite (replace_no_match false re_blanks [SP] y
             (run_search_none false 2 blank y (t_blanks T))).
  rewrite (replace_no_match false (chr FF) [] y (lacks_search_none FF false y (t_ff T))).
  rewrite (replace_no_match false (chr NBSP) [SP] y
             (lacks_search_none NBSP false y (t_nbsp T))).
  rewrite (replace_chr_same false BULLET y).
  rewrite (replace_no_match false (chr EN_DASH) [HYPHEN] y
             (lacks_search_none EN_DASH false y (t_en T))).
  rewrite (replace_no_match false (chr EM_DASH) [HYPHEN; HYPHEN] y
             (lacks_search_none EM_DASH false y (t_em T))).
  rewrite (replace_chr_same false DQUOTE y).
  rewrite (replace_chr_same false SQUOTE y).
  rewrite (replace_no_match false (chr ELLIPSIS) [DOT; DOT; DOT] y
             (lacks_search_none ELLIPSIS false y (t_ellipsis T))).
  rewrite (replace_no_match false re_dots [DOT; DOT; DOT] y
             (run_search_none false 4 (N.eqb DOT) y (t_dots T))).
  rewrite (replace_no_match false re_hyphens [HYPHEN; HYPHEN] y
             (run_search_none false 3 (N.eqb HYPHEN) y (t_hyphens T))).
  rewrite (replace_no_match false re_underscores [UNDERSCORE; UNDERSCORE] y
             (run_search_none false 3 (N.eqb UNDERSCORE) y (t_underscores T))).
  rewrite (replace_no_match true re_page [] y
             (line_search_none re_page page_core page_core_shape page_steps y (t_page T))).
  rewrite (replace_no_match true re_number_line [] y
             (line_search_none re_number_line digits_core digits_core_shape
                number_line_steps y (t_number T))).
  reflexivity.
Qed.

Lemma tidy_fixed y : tidy y -> clean y = y.
Proof.
  intros T. rewrite clean_before_footers, (tidy_before_footers y T).
  rewrite (replace_no_match true re_confidential [] y
             (proj2 (confidential_none y) (t_confidential T))).
  rewrite (replace_no_match true re_email_footer [] y
             (proj2 (email_footer_none y) (t_email T))).
  unfold finish. rewrite (edges_ok_fixed y (t_edges T)).
  apply replace_no_match. apply search_none_free.
  rewrite <- (t_blank_lines T). clear T.
  generalize (@None N). induction y as [|c y IH]; intros prev; cbn [free];
    rewrite matchable_blank; [reflexivity|]. rewrite IH. reflexivity.
Qed.

(** C4, as stated, fails.  The form feed is removed (fifth assignment)
    after the runs of blanks are collapsed (fourth), and the non-breaking
    space becomes a space (sixth) after it too: [a \f b] gives [a  b], on
    which a second call gives [a b]; the control characters
    [\x01\t\f\t\x01] give [\x01\t\t\x01], then [\x01 \x01].  A footer
    marker is cut after the standalone numbers are removed:
    [12 Confidential and Proprietary] gives [12], then the empty string. *)
Lemma sanitizeText_is_not_idempotent :
  sanitizeText (VStr with_form_feed) = Normal (lit "a  b") /\
  sanitizeText (VStr (lit "a  b")) = Normal (lit "a b") /\
  sanitizeText (VStr control_only) = Normal [1; 9; 9; 1]%N /\
  sanitizeText (VStr [1; 9; 9; 1]%N) = Normal [1; 32; 1]%N /\
  sanitizeText (VStr with_nbsp) = Normal (lit "a  b") /\
  sanitizeText (VStr with_footer) = Normal (lit "12") /\
  sanitizeText (VStr with_email_footer) = Normal (lit "12") /\
  sanitizeText (VStr (lit "12")) = Normal [] /\
  lit "a  b" <> lit "a b" /\ [1; 9; 9; 1]%N <> [1; 32; 1]%N /\ lit "12" <> [].
Proof. repeat split; try (vm_compute; reflexivity); discriminate. Qed.

(* ===================================================================== *)
(** * Part IX. Proofs: the rest of the parser and of the text helpers     *)
(* ===================================================================== *)

Import JS Regex AIScorer Props PDFParser SanitizeText Strings PDFParserInfo TextUtils Notions.
Local Open Scope js_scope.

(** ** sanitizeText: what the result never holds *)

Lemma skipped_run1 p : forall sk prev z,
  skipped (run_at 1 p) prev sk z = true -> forallb (fun c => negb (p c)) sk = true.
Proof.
  induction sk as [|c sk IH]; intros prev z H; [reflexivity|].
  cbn [skipped] in H. apply andb_true_iff in H. destruct H as [H1 H2].
  cbn [forallb]. rewrite (IH _ _ H2), andb_true_r.
  unfold run_at in H1. cbn [app takeWhile] in H1.
  destruct (p c); [discriminate H1|reflexivity].
Qed.

(** After [s.replace(/c/g, '')] no code unit of the class is left. *)
Lemma cls_removed ml p s :
  forallb (fun c => negb (p c)) (replace ml (Cls p) [] s) = true.
Proof.
  destruct (replace_scanned ml (Cls p) (cls_never_empty ml p) [] s) as [ms [tl [Sc E]]].
  rewrite E.
  assert (C : cutting ml (Cls p) (run_at 1 p) None s ms tl).
  { apply cutting_of_scan; [|exact Sc]. intros prev t H. rewrite matchable_cls. exact H. }
  clear Sc E. induction C as [prev s F|prev sk w rest ms tl NW M S C IH].
  - rewrite out_nil. rewrite <- (free_run1 p s prev). exact F.
  - rewrite out_cons. rewrite !forallb_app. rewrite (skipped_run1 p _ _ _ S), IH.
    reflexivity.
Qed.

Lemma lacks_in c s : lacks c s = true -> ~ In c s.
Proof.
  intros H I. apply (proj1 (forallb_forall _ s) H) in I.
  rewrite N.eqb_refl in I. discriminate I.
Qed.

Lemma lacks_clean c x :
  lacks c [LF; LF] = true -> lacks c (before_footers x) = true -> lacks c (clean x) = true.
Proof.
  intros B H. rewrite clean_before_footers. apply lacks_finish; [exact B|].
  apply lacks_replace; [reflexivity|]. apply lacks_replace; [reflexivity|]. exact H.
Qed.

Lemma form_feed_before_footers x : lacks FF (before_footers x) = true.
Proof.
  apply (lacks_after 5); [reflexivity|].
  rewrite (run_edits_next edits 4 (replace false (chr FF) [])) by reflexivity.
  apply cls_removed.
Qed.

(** X1.  On every input sanitizeText returns a text that holds no
    carriage return, no form feed, no non-breaking space, no en dash, no
    em dash and no ellipsis character: each is deleted or replaced, and no
    later assignment brings one back. *)
Theorem sanitizeText_strips :
  forall v : value,
    exists y, sanitizeText v = Normal y /\
              forall c, In c [CR; FF; NBSP; EN_DASH; EM_DASH; ELLIPSIS] -> ~ In c y.
Proof.
  intros v.
  assert (E : sanitizeText v = Normal [] \/ exists x, sanitizeText v = Normal (clean x)).
  { destruct v; try (left; reflexivity). destruct s; [left; reflexivity|].
    right. eexists. reflexivity. }
  destruct E as [E|[x E]]; rewrite E.
  - exists []. split; [reflexivity|]. intros c _ I. exact I.
  - exists (clean x). split; [reflexivity|]. intros c Hc. apply lacks_in.
    cbn [In] in Hc.
    destruct Hc as [<-|[<-|[<-|[<-|[<-|[<-|[]]]]]]]; (apply lacks_clean; [reflexivity|]).
    + apply (cleared_before_footers 1 CR [LF]); (reflexivity || discriminate).
    + apply form_feed_before_footers.
    + apply (cleared_before_footers 5 NBSP [SP]); (reflexivity || discriminate).
    + apply (cleared_before_footers 7 EN_DASH [HYPHEN]); (reflexivity || discriminate).
    + apply (cleared_before_footers 8 EM_DASH [HYPHEN; HYPHEN]); (reflexivity || discriminate).
    + apply (cleared_before_footers 11 ELLIPSIS [DOT; DOT; DOT]); (reflexivity || discriminate).
Qed.

(** ** sanitizeText: the ends and the blank lines of the result *)

Lemma sanitizeText_cases (v : value) :
  sanitizeText v = Normal [] \/ exists z, sanitizeText v = Normal (finish z).
Proof.
  destruct v; try (left; reflexivity). destruct s as [|c s]; [left; reflexivity|].
  right. eexists. unfold sanitizeText. cbn [truthy]. rewrite clean_before_footers.
  reflexivity.
Qed.

(** X2.  On every input the text sanitizeText returns is
    trimmed: trimming it again changes nothing, and when it is not empty
    neither its first nor its last code unit is white space, although the
    final replacement runs after the call of trim. *)
Theorem sanitizeText_trimmed :
  forall v : value,
    exists y, sanitizeText v = Normal y /\ trim y = y /\
              (forall c t, y = c :: t -> isSpace c = false /\ isSpace (last y 0%N) = false).
Proof.
  intros v. destruct (sanitizeText_cases v) as [E|[z E]]; rewrite E.
  - exists []. split; [reflexivity|]. split; [reflexivity|]. intros c t H. discriminate H.
  - exists (finish z). split; [reflexivity|].
    pose proof (finish_edges z) as Ed. split; [apply edges_ok_fixed; exact Ed|].
    intros c t H.
    assert (NE : finish z <> []) by (rewrite H; discriminate).
    destruct (edges_ok_inv (finish z) Ed NE) as [Hh Hl].
    rewrite H in Hh. split; [exact Hh|exact Hl].
Qed.

Lemma blank_free_matchable ml : forall s prev,
  free (matchable ml re_blank_lines) prev s = free blank_at prev s.
Proof.
  induction s as [|c s IH]; intros prev; cbn [free]; rewrite matchable_blank;
    [reflexivity|]. rewrite IH. reflexivity.
Qed.

(** X3.  On every input the text sanitizeText returns
    holds no match of the final pattern, a line feed, white space, a line
    feed, white space and a line feed: no two lines in a row, each between
    two line feeds of the result, are empty or white space only. *)
Theorem sanitizeText_no_blank_lines_in_a_row :
  forall v : value,
    exists y, sanitizeText v = Normal y /\
              test false re_blank_lines y = false /\
              forall a u w b,
                forallb isSpace u = true -> forallb isSpace w = true ->
                y <> a ++ [LF] ++ u ++ [LF] ++ w ++ [LF] ++ b.
Proof.
  intros v.
  assert (E : exists y, sanitizeText v = Normal y /\ free blank_at None y = true).
  { destruct (sanitizeText_cases v) as [E|[z E]]; rewrite E.
    - exists []. split; reflexivity.
    - exists (finish z). split; [reflexivity|apply finish_blank_lines]. }
  destruct E as [y [E F]]. exists y. split; [exact E|]. split.
  - apply test_false. apply search_none_free. rewrite blank_free_matchable. exact F.
  - intros a u w b Hu Hw Ey. rewrite Ey in F. rewrite free_app in F.
    apply andb_true_iff in F. destruct F as [_ F]. apply free_head in F.
    rewrite <- (matchable_blank false) in F. unfold matchable in F.
    destruct (blank_steps false (last_of None a) u w b Hu Hw) as [p' S].
    apply steps_match_here in S. destruct S as [rest S].
    cbn [app] in F. rewrite S in F. discriminate F.
Qed.

(** ** sanitizeText on white space *)

Lemma space_lacks c s :
  isSpace c = false -> forallb isSpace s = true -> lacks c s = true.
Proof.
  intros Hc H. apply forallb_forall. intros x Hx.
  apply (proj1 (forallb_forall _ s) H) in Hx. apply negb_true_iff. apply N.eqb_neq.
  intros ->. congruence.
Qed.

Lemma free_run_of_lacks k c s :
  (1 <= k)%nat -> lacks c s = true -> free (run_at k (N.eqb c)) None s = true.
Proof.
  intros K H. apply (free_mono _ (run_at 1 (N.eqb c))).
  - intros prev t R. unfold run_at in *. apply Nat.leb_le in R. apply Nat.leb_le. lia.
  - rewrite free_run1. exact H.
Qed.

Lemma space_kept : Forall (keeps (fun s => forallb isSpace s = true)) edits.
Proof.
  unfold edits. repeat apply Forall_cons; try apply Forall_nil.
  all: intros s Hs;
    first
      [ apply replace_forall; [exact Hs|reflexivity]
      | rewrite replace_chr_same; exact Hs
      | rewrite replace_no_match
          by (apply lacks_search_none; apply space_lacks; [reflexivity|exact Hs]);
        exact Hs
      | rewrite replace_no_match
          by (apply run_search_none; apply free_run_of_lacks;
              [lia|apply space_lacks; [reflexivity|exact Hs]]);
        exact Hs ].
Qed.

(** X4.  A text made of white space only (blanks, tabs, line
    breaks, form feeds, non-breaking spaces and the like) is sanitized to
    the empty string. *)
Theorem sanitizeText_white_space_only :
  forall x : jsstring,
    forallb isSpace x = true -> sanitizeText (VStr x) = Normal [].
Proof.
  intros x H. destruct x as [|c x]; [reflexivity|].
  unfold sanitizeText. cbn [truthy]. f_equal. rewrite clean_before_footers.
  assert (B : forallb isSpace (before_footers (c :: x)) = true)
    by exact (keeps_run_edits _ edits space_kept (c :: x) H).
  assert (S : forallb isSpace
                (replace true re_email_footer []
                   (replace true re_confidential [] (before_footers (c :: x)))) = true).
  { apply replace_forall; [|reflexivity]. apply replace_forall; [exact B|reflexivity]. }
  unfold finish. 
  assert (T : forall s, forallb isSpace s = true -> trim s = []).
  { intros s Hs. unfold trim, trimEnd, trimStart. rewrite (dropWhile_all isSpace s Hs).
    reflexivity. }
  rewrite (T _ S). reflexivity.
Qed.

Lemma sanitizeText_white_space_only_witness :
  sanitizeText (VStr [32; 9; 10; 12; 160; 13; 8232; 32]%N) = Normal [].
Proof.
  apply (sanitizeText_white_space_only [32; 9; 10; 12; 160; 13; 8232; 32]%N).
  reflexivity.
Defined.

(** ** validatePDF: the verdict *)

(** X5.  validatePDF never raises.  The buffer is declared valid
    exactly when it starts with the four signature bytes, is at least
    1024 bytes long and the trial parse of its first page succeeds; a
    valid verdict carries no error text and an invalid one does; when the
    trial parse fails its message is passed on behind a fixed prefix; and
    the parser is called, once and on one page, exactly when the two
    cheap tests pass. *)
Theorem validatePDF_verdict :
  forall (pdf : buffer -> N -> completion unit) (b : buffer),
    exists v calls,
      validatePDF pdf b = (Normal v, calls) /\
      (PDFParser.isValid v = true <->
       firstn 4 b = pdf_magic /\ (1024 <= List.length b)%nat /\ pdf b 1%N = Normal tt) /\
      (PDFParser.isValid v = true <-> PDFParser.error v = None) /\
      (forall msg, firstn 4 b = pdf_magic -> (1024 <= List.length b)%nat ->
                   pdf b 1%N = Throw msg ->
                   PDFParser.error v = Some ("PDF validation failed: " ++ msg)%string) /\
      (calls = [Parse b 1%N] <-> firstn 4 b = pdf_magic /\ (1024 <= List.length b)%nat) /\
      (calls = [] <-> ~ (firstn 4 b = pdf_magic /\ (1024 <= List.length b)%nat)).
Proof.
  intros pdf b. unfold validatePDF, validate_body.
  destruct (str_eqb (toString (firstn 4 b)) (lit "%PDF")) eqn:Sg; cbn [negb].
  - apply signature_iff in Sg.
    destruct (List.length b <? 1024)%nat eqn:Ln.
    + apply Nat.ltb_lt in Ln. eexists. eexists. split; [reflexivity|].
      cbn [PDFParser.isValid PDFParser.error].
      split; [split; [discriminate|intros [_ [H _]]; lia]|].
      split; [split; discriminate|].
      split; [intros msg _ H _; lia|].
      split; [split; [discriminate|intros [_ H]; lia]|].
      split; [intros _ [_ H]; lia|reflexivity].
    + apply Nat.ltb_ge in Ln.
      destruct (pdf b 1%N) as [[]|msg] eqn:P; cbn [bind try_catch];
        (eexists; eexists; split; [reflexivity|]); cbn [PDFParser.isValid PDFParser.error].
      * split; [split; [intros _; auto|reflexivity]|].
        split; [split; reflexivity|].
        split; [intros msg _ _ H; discriminate H|].
        split; [split; [intros _; auto|reflexivity]|].
        split; [discriminate|]. intros H. exfalso. apply H. auto.
      * split; [split; [discriminate|intros [_ [_ H]]; discriminate H]|].
        split; [split; discriminate|].
        split; [intros m _ _ H; injection H as H; subst m; reflexivity|].
        split; [split; [intros _; auto|reflexivity]|].
        split; [discriminate|]. intros H. exfalso. apply H. auto.
  - assert (N : firstn 4 b <> pdf_magic).
    { intros H. apply signature_iff in H. congruence. }
    eexists. eexists. split; [reflexivity|]. cbn [PDFParser.isValid PDFParser.error].
    split; [split; [discriminate|intros [H _]; contradiction]|].
    split; [split; discriminate|].
    split; [intros msg H; contradiction|].
    split; [split; [discriminate|intros [H _]; contradiction]|].
    split; [intros _ [H _]; contradiction|reflexivity].
Qed.

(** ** extractExperience: the companies *)

Lemma last_of_none : forall sk, last_of None sk = None -> sk = [].
Proof.
  intros sk H. destruct sk as [|c sk]; [reflexivity|].
  rewrite last_of_last in H. discriminate H.
Qed.

(** [s.replace(/^.../, '')], without the [m] flag, removes a prefix. *)
Lemma remove_first_anchored r s :
  exists w, s = w ++ remove_first (Seq Bol r) s.
Proof.
  unfold remove_first.
  destruct (search false (Seq Bol r) None s) as [[[sk w] rest]|] eqn:E.
  - apply search_some_spec in E. destruct E as [Es [M _]].
    apply match_here_steps in M. destruct M as [p' S].
    apply steps_seq_inv in S. destruct S as [p1 [s1 [S1 _]]].
    inversion S1 as [| | | | | | |? ? B| |]; subst.
    cbn [bol_ok] in B. destruct (last_of None sk) eqn:L; [discriminate B|].
    apply last_of_none in L. subst sk. exists w. reflexivity.
  - exists []. reflexivity.
Qed.

Lemma company_of_spec mt c :
  In c (company_of mt) ->
  (3 < List.length c < 100)%nat /\ trim c = c /\ exists a b, mt = a ++ c ++ b.
Proof.
  unfold company_of. intros H.
  set (rest := remove_first (PDFParser.cat [Bol; str_i "at"; Plus PDFParser.ws]) mt) in *.
  destruct ((3 <? List.length (trim rest)) && (List.length (trim rest) <? 100))%nat eqn:L;
    [|contradiction].
  destruct H as [H|[]]. subst c.
  apply andb_true_iff in L. destruct L as [L1 L2].
  apply Nat.ltb_lt in L1, L2. split; [lia|]. split; [apply trim_idem|].
  destruct (remove_first_anchored (Seq (str_i "at") (Plus PDFParser.ws)) mt) as [w Hw].
  change (remove_first (Seq Bol (Seq (str_i "at") (Plus PDFParser.ws))) mt) with rest in Hw.
  destruct (trim_decompose rest) as [a [b [E _]]].
  exists (w ++ a), b. rewrite Hw at 1. rewrite E at 1. rewrite <- !app_assoc. reflexivity.
Qed.

Lemma In_firstn (A : Type) (x : A) : forall n l, In x (firstn n l) -> In x l.
Proof.
  induction n as [|n IH]; intros l H; [contradiction|].
  destruct l as [|a l]; [contradiction|]. destruct H as [H|H]; [left; exact H|].
  right. apply IH. exact H.
Qed.

Lemma NoDup_firstn_of (A : Type) : forall n (l : list A), NoDup l -> NoDup (firstn n l).
Proof.
  induction n as [|n IH]; intros l H; [constructor|].
  destruct l as [|a l]; [constructor|]. inversion H; subst. simpl. constructor.
  - intros I. apply In_firstn in I. contradiction.
  - apply IH. assumption.
Qed.

(** X6.  extractExperience never raises.  It reports at
    most ten companies, no company twice, and no position at all; every
    company is a trimmed piece of the text, longer than 3 and shorter
    than 100 code units; on an input that is not a string the result is
    the empty report. *)
Theorem extractExperience_companies :
  forall v : value,
    exists info,
      extractExperience v = Normal info /\
      (List.length (companies info) <= 10)%nat /\
      NoDup (companies info) /\
      positions info = [] /\
      (forall c, In c (companies info) ->
                 (3 < List.length c < 100)%nat /\ trim c = c /\
                 exists text a b, v = VStr text /\ text = a ++ c ++ b) /\
      ((forall s, v <> VStr s) ->
       info = {| totalYears := num_of_Z 0; companies := []; positions := [] |}).
Proof.
  intros v.
  destruct v as [| |b|n|text|l|kv];
    try (eexists; split; [reflexivity|]; cbn;
         repeat split; try lia; try constructor; intros; contradiction).
  unfold extractExperience, experience_body.
  rewrite (patterns_loop_max text experiencePatterns (num_of_Z 0)) by auto.
  cbn [bind try_catch]. eexists. split; [reflexivity|]. cbn [companies positions].
  split; [apply firstn_le_length|]. split; [apply NoDup_firstn_of; apply uniq_NoDup|].
  split; [reflexivity|]. split.
  - intros c H. apply In_firstn in H. apply uniq_In in H. destruct H as [H _].
    unfold company_candidates in H. apply in_flat_map in H. destruct H as [p [_ H]].
    apply in_flat_map in H. destruct H as [mt [Hm H]].
    apply match_all_sound in Hm. destruct Hm as [_ [a [b Et]]].
    apply company_of_spec in H. destruct H as [L [T [a' [b' Em]]]].
    split; [exact L|]. split; [exact T|].
    exists text, (a ++ a'), (b' ++ b). split; [reflexivity|].
    rewrite Et, Em. rewrite <- !app_assoc. reflexivity.
  - intros H. exfalso. apply (H text). reflexivity.
Qed.

(** ** processAIResponse: what holds of every result *)

(** X7.  Whatever the parsed response is, processAIResponse
    returns a result whose five scores and fitScore are each either NaN or
    within 0 and 100, whose experienceYears is NaN or not negative, whose
    summary is truthy, and whose lists are cut to 10, 10, 20, 5 and 5
    entries. *)
Theorem processAIResponse_result_shape :
  forall (raw : value) (bi : BasicInfo.t),
    exists r,
      processAIResponse raw bi = Normal r /\
      clamped_or_nan (overallScore r) /\ clamped_or_nan (fitScore r) /\
      clamped_or_nan (skills (breakdown r)) /\ clamped_or_nan (experience (breakdown r)) /\
      clamped_or_nan (education (breakdown r)) /\ clamped_or_nan (relevance (breakdown r)) /\
      (experienceYears r = NaN \/ at_least 0 (experienceYears r)) /\
      truthy (summary r) = true /\
      (List.length (strengths r) <= 10)%nat /\ (List.length (weaknesses r) <= 10)%nat /\
      (List.length (keywordMatches r) <= 20)%nat /\
      (List.length (recommendations r) <= 5)%nat /\ (List.length (redFlags r) <= 5)%nat.
Proof.
  intros raw bi. destruct (processAIResponse_total raw bi) as [r H].
  exists r. split; [exact H|].
  destruct (processAIResponse_cases raw bi r H) as [P| ->].
  - pose proof (processed_shape raw bi r P) as S.
    assert (Y : experienceYears r = NaN \/ at_least 0 (experienceYears r)).
    { unfold processed in P. invert_binds. subst r. cbn [experienceYears].
      match goal with
      | X : at_least_zero _ = Normal ?y |- _ =>
          unfold at_least_zero in X; invert_binds; subst y
      end.
      apply Math_max_zero. }
    assert (T : truthy (summary r) = true).
    { unfold processed in P. invert_binds. subst r. cbn [summary]. unfold or_else.
      match goal with |- truthy (if truthy ?v then _ else _) = true =>
        destruct (truthy v) eqn:E; [exact E|reflexivity] end. }
    tauto.
  - assert (F : clamped_or_nan (num_of_Z 50)).
    { right. exists (inject_Z 50). split; [reflexivity|]. split; unfold Qle; simpl; lia. }
    cbn. repeat split; try exact F; try lia.
    right. right. exists (inject_Z 0). split; [reflexivity|]. apply Qle_refl.
Qed.

(** ** scoreResume and the pauses of batchScoreResumes *)

Section Scoring.

Variable JobRequirements : Type.
Variable buildScoringPrompt :
  jsstring -> option JobRequirements -> BasicInfo.t -> jsstring.
Variable create : nat -> jsstring -> reply.
Variable JSON_parse : value -> completion value.

(** X8.  scoreResume calls the completion service exactly once and
    never pauses.  It returns exactly when the service resolves,
    choices[0].message.content can be read from the completion,
    JSON.parse accepts that content and usage.total_tokens can be read:
    the result is then the processed response with that token count.
    It raises exactly when one of these steps fails (the service rejects,
    there is nothing to read the content from, the content does not
    parse, or there is no usage to read the token count from) with the
    message of the first failure behind the prefix AI scoring failed.  In
    particular a completion without usage makes it raise although its
    content parses. *)
Theorem scoreResume_outcomes :
  forall (text : jsstring) (jr : option JobRequirements) (bi : BasicInfo.t) (w : world),
    let run := scoreResume buildScoringPrompt create JSON_parse text jr bi w in
    let prompt := buildScoringPrompt text jr bi in
    snd run = {| calls := S (calls w); paused := paused w |} /\
    (forall result,
        fst run = Normal result <->
        exists chat content v,
          create (calls w) prompt = Resolved chat /\
          content_of chat = Normal content /\
          JSON_parse content = Normal v /\
          processAIResponse v bi = Normal (scoringResult result) /\
          total_tokens_of chat = Normal (tokensUsed result)) /\
    (forall msg,
        fst run = Throw msg <->
        exists inner,
          msg = ("AI scoring failed: " ++ inner)%string /\
          (create (calls w) prompt = Rejected inner \/
           exists chat,
             create (calls w) prompt = Resolved chat /\
             (content_of chat = Throw inner \/
              (exists content,
                  content_of chat = Normal content /\ JSON_parse content = Throw inner) \/
              (exists content v,
                  content_of chat = Normal content /\ JSON_parse content = Normal v /\
                  total_tokens_of chat = Throw inner)))) /\
    (forall kv content v,
        create (calls w) prompt = Resolved (VObj kv) ->
        content_of (VObj kv) = Normal content -> JSON_parse content = Normal v ->
        lookup (lit "usage") kv = None ->
        fst run = Throw ("AI scoring failed: " ++ TypeError)%string).
Proof.
  intros text jr bi w run prompt. subst run prompt. unfold scoreResume. cbn [fst snd].
  split; [reflexivity|].
  destruct (create (calls w) (buildScoringPrompt text jr bi)) as [m|chat] eqn:C.
  - cbn [try_catch]. split; [|split].
    + intros result. split; [intros H; discriminate H|].
      intros [chat [content [v [H _]]]]. discriminate H.
    + intros msg. split.
      * intros H. injection H as H. exists m. split; [auto|]. left. reflexivity.
      * intros [inner [E [H|[chat [H _]]]]]; [|discriminate H].
        injection H as H. subst. reflexivity.
    + intros kv content v H. discriminate H.
  - destruct (content_of chat) as [content|m1] eqn:K; cbn [bind try_catch].
    2:{ split; [|split].
        - intros result. split; [intros H; discriminate H|].
          intros [chat' [content [v [H [K' _]]]]]. injection H as H. subst chat'.
          rewrite K in K'. discriminate K'.
        - intros msg. split.
          + intros H. injection H as H. exists m1. split; [auto|].
            right. exists chat. split; [reflexivity|]. left. exact K.
          + intros [inner [E [H|[chat' [H R]]]]]; [discriminate H|].
            injection H as H. subst chat'. rewrite K in R.
            destruct R as [R|[[content [R _]]|[content [v [R _]]]]]; try discriminate R.
            injection R as R. subst. reflexivity.
        - intros kv content v H K'. injection H as H. subst chat.
          rewrite K in K'. discriminate K'. }
    destruct (JSON_parse content) as [v|m2] eqn:P; cbn [bind try_catch].
    2:{ split; [|split].
        - intros result. split; [intros H; discriminate H|].
          intros [chat' [content' [v [H [K' [P' _]]]]]]. injection H as H. subst chat'.
          rewrite K in K'. injection K' as K'. subst content'.
          rewrite P in P'. discriminate P'.
        - intros msg. split.
          + intros H. injection H as H. exists m2. split; [auto|].
            right. exists chat. split; [reflexivity|]. right. left.
            exists content. auto.
          + intros [inner [E [H|[chat' [H R]]]]]; [discriminate H|].
            injection H as H. subst chat'. rewrite K in R.
            destruct R as [R|[[content' [R P']]|[content' [v [R [P' _]]]]]];
              try discriminate R; injection R as R; subst content';
              rewrite P in P'; [|discriminate P'].
            injection P' as P'. subst. reflexivity.
        - intros kv content' v H K' P'. injection H as H. subst chat.
          rewrite K in K'. injection K' as K'. subst content'.
          rewrite P in P'. discriminate P'. }
    destruct (processAIResponse_total v bi) as [r R]. rewrite R. cbn [bind].
    destruct (total_tokens_of chat) as [tokens|m3] eqn:T; cbn [bind try_catch].
    + split; [|split].
      * intros result. split.
        -- intros H. injection H as H. subst result. exists chat, content, v.
           cbn [scoringResult tokensUsed]. auto.
        -- intros [chat' [content' [v' [H [K' [P' [R' T']]]]]]].
           injection H as H. subst chat'.
           rewrite K in K'. injection K' as K'. subst content'.
           rewrite P in P'. injection P' as P'. subst v'.
           rewrite R in R'. injection R' as R'. rewrite T in T'. injection T' as T'.
           destruct result as [sr tu]. cbn [scoringResult tokensUsed] in R', T'.
           subst. reflexivity.
      * intros msg. split; [intros H; discriminate H|].
        intros [inner [E [H|[chat' [H X]]]]]; [discriminate H|].
        injection H as H. subst chat'. rewrite K in X.
        destruct X as [X|[[content' [X P']]|[content' [v' [X [P' T']]]]]];
          try discriminate X; injection X as X; subst content';
          rewrite P in P'; [discriminate P'|].
        rewrite T in T'. discriminate T'.
      * intros kv content' v' H K' P' U. injection H as H. subst chat.
        unfold total_tokens_of in T. cbn [get] in T. rewrite U in T.
        cbn [bind get] in T. discriminate T.
    + split; [|split].
      * intros result. split; [intros H; discriminate H|].
        intros [chat' [content' [v' [H [_ [_ [_ T']]]]]]]. injection H as H. subst chat'.
        rewrite T in T'. discriminate T'.
      * intros msg. split.
        -- intros H. injection H as H. exists m3. split; [auto|].
           right. exists chat. split; [reflexivity|]. right. right.
           exists content, v. auto.
        -- intros [inner [E [H|[chat' [H X]]]]]; [discriminate H|].
           injection H as H. subst chat'. rewrite K in X.
           destruct X as [X|[[content' [X P']]|[content' [v' [X [P' T']]]]]];
             try discriminate X; injection X as X; subst content';
             rewrite P in P'; [discriminate P'|].
           rewrite T in T'. injection T' as T'. subst. reflexivity.
      * intros kv content' v' H K' P' U. injection H as H. subst chat.
        unfold total_tokens_of in T. cbn [get] in T. rewrite U in T.
        cbn [bind get] in T. injection T as T. subst m3. reflexivity.
Qed.

Lemma batch_loop_paused (jr : option JobRequirements) :
  forall resumes results w,
    paused (snd (batch_loop buildScoringPrompt create JSON_parse resumes jr results w))
    = (paused w
       + 1000 * N.of_nat
                  (List.length
                     (List.filter success
                        (attempts buildScoringPrompt create JSON_parse jr (calls w) resumes))))%N.
Proof.
  induction resumes as [|r rest IH]; intros results w.
  - cbn. lia.
  - cbn [batch_loop attempts].
    rewrite (scoreResume_step _ buildScoringPrompt create JSON_parse).
    fold (attempt buildScoringPrompt create JSON_parse jr (calls w) r).
    destruct (attempt buildScoringPrompt create JSON_parse jr (calls w) r) as [result|msg];
      rewrite IH; cbn [outcome_of filter success List.length calls paused pause]; lia.
Qed.

(** X9.  batchScoreResumes waits one second
    after each resume that was scored and not after one that failed: the
    time paused grows by 1000 ms times the number of successful
    outcomes. *)
Theorem batchScoreResumes_pauses_after_successes :
  forall (resumes : list resume) (jr : option JobRequirements) (w : world)
         (results : list outcome) (w' : world),
    batchScoreResumes buildScoringPrompt create JSON_parse resumes jr w = (results, w') ->
    paused w'
    = (paused w + 1000 * N.of_nat (List.length (List.filter success results)))%N.
Proof.
  intros resumes jr w results w' H. unfold batchScoreResumes in H.
  pose proof (batch_loop_paused jr resumes [] w) as P.
  destruct (batch_loop_spec _ buildScoringPrompt create JSON_parse jr resumes [] w)
    as [R _].
  rewrite H in P, R. cbn [fst snd] in P, R. cbn [app] in R. subst results. exact P.
Qed.

End Scoring.

Lemma batchScoreResumes_pauses_after_successes_witness :
  let docs := [ {| id := lit "a"; extractedText := lit "first"; basicInfo := jane |};
                {| id := lit "b"; extractedText := lit "second"; basicInfo := jane |};
                {| id := lit "c"; extractedText := lit "third"; basicInfo := jane |} ] in
  let service := fun (n : nat) (_ : jsstring) =>
                   if (n =? 1)%nat then Rejected "timeout"%string
                   else Resolved (chat (VStr (lit "{}")) (VNum (num_of_Z 10))) in
  let run := batchScoreResumes (fun t (_ : option unit) _ => t) service
               (fun _ => Normal (VObj [])) docs None {| calls := 0; paused := 0 |} in
  paused (snd run) = 2000%N.
Proof.
  intros docs service run.
  rewrite (batchScoreResumes_pauses_after_successes unit
             (fun t _ _ => t) service (fun _ => Normal (VObj []))
             docs None {| calls := 0; paused := 0 |} (fst run) (snd run)
             (surjective_pairing run)).
  reflexivity.
Defined.

(** ** Derivations of the derived forms *)

Lemma derives_eps_inv w : derives Eps w -> w = [].
Proof. intros H. inversion H. reflexivity. Qed.

Lemma derives_alt_inv a b w : derives (Alt a b) w -> derives a w \/ derives b w.
Proof. intros H. inversion H; subst; auto. Qed.

Lemma derives_opt_inv a w : derives (Opt a) w -> w = [] \/ derives a w.
Proof.
  intros H. apply derives_alt_inv in H. destruct H as [H|H]; [right; exact H|left].
  apply derives_eps_inv. exact H.
Qed.

Lemma derives_star_cls_inv p w : derives (Star (Cls p)) w -> forallb p w = true.
Proof.
  intros H. remember (Star (Cls p)) as r eqn:E.
  induction H as [| | | | | |a u v Hu _ Hv IH| | |]; try discriminate E; [reflexivity|].
  injection E as E. subst a. apply derives_cls_inv in Hu. destruct Hu as [c [-> Hc]].
  cbn [app forallb]. rewrite Hc. apply IH. reflexivity.
Qed.

Lemma derives_plus_cls_inv p w :
  derives (Plus (Cls p)) w -> w <> [] /\ forallb p w = true.
Proof.
  intros H. apply derives_seq_inv in H. destruct H as [u [v [-> [Hu Hv]]]].
  apply derives_cls_inv in Hu. destruct Hu as [c [-> Hc]].
  apply derives_star_cls_inv in Hv. split; [discriminate|].
  cbn [app forallb]. rewrite Hc. exact Hv.
Qed.

Lemma derives_rep_cls_inv p : forall n w,
  derives (Rep n (Cls p)) w -> List.length w = n /\ forallb p w = true.
Proof.
  induction n as [|n IH]; intros w H; cbn [Rep] in H.
  - apply derives_eps_inv in H. subst w. split; reflexivity.
  - apply derives_seq_inv in H. destruct H as [u [v [-> [Hu Hv]]]].
    apply derives_cls_inv in Hu. destruct Hu as [c [-> Hc]].
    destruct (IH v Hv) as [L F]. cbn [app List.length forallb]. rewrite Hc, L, F.
    split; reflexivity.
Qed.

Lemma derives_upto_cls_inv p : forall n w,
  derives (UpTo n (Cls p)) w -> (List.length w <= n)%nat /\ forallb p w = true.
Proof.
  induction n as [|n IH]; intros w H; cbn [UpTo] in H.
  - apply derives_eps_inv in H. subst w. split; [apply le_n|reflexivity].
  - apply derives_opt_inv in H. destruct H as [->|H]; [split; [apply Nat.le_0_l|reflexivity]|].
    apply derives_seq_inv in H. destruct H as [u [v [-> [Hu Hv]]]].
    apply derives_cls_inv in Hu. destruct Hu as [c [-> Hc]].
    destruct (IH v Hv) as [L F]. cbn [app List.length forallb]. rewrite Hc, F.
    split; [lia|reflexivity].
Qed.

Lemma derives_atleast_cls_inv p n w :
  derives (AtLeast n (Cls p)) w -> (n <= List.length w)%nat /\ forallb p w = true.
Proof.
  intros H. apply derives_seq_inv in H. destruct H as [u [v [-> [Hu Hv]]]].
  apply derives_rep_cls_inv in Hu. destruct Hu as [L F].
  apply derives_star_cls_inv in Hv. rewrite length_app, forallb_app, F, Hv.
  split; [lia|reflexivity].
Qed.

Lemma derives_wordb_inv w : derives WordB w -> w = [].
Proof. intros H. inversion H. reflexivity. Qed.

(** ** Pieces of a text *)

Lemma piece_trans (c m t : jsstring) :
  (exists a b, m = a ++ c ++ b) -> (exists a b, t = a ++ m ++ b) ->
  exists a b, t = a ++ c ++ b.
Proof.
  intros [a [b ->]] [a' [b' ->]]. exists (a' ++ a), (b ++ b').
  rewrite <- !app_assoc. reflexivity.
Qed.

Lemma split_at_head sep : forall s,
  exists h r b, split_at sep s = h :: r /\ s = h ++ b.
Proof.
  induction s as [|c s IH].
  - exists [], [], []. split; reflexivity.
  - cbn [split_at]. destruct (N.eqb c sep).
    + exists [], (split_at sep s), (c :: s). split; reflexivity.
    + destruct IH as [h [r [b [-> ->]]]]. exists (c :: h), r, b. split; reflexivity.
Qed.

Lemma split_at_piece sep : forall s line,
  In line (split_at sep s) -> exists a b, s = a ++ line ++ b.
Proof.
  induction s as [|c s IH]; intros line H.
  - destruct H as [<-|[]]. exists [], []. reflexivity.
  - cbn [split_at] in H. destruct (N.eqb c sep) eqn:E.
    + destruct H as [<-|H].
      * exists [], (c :: s). reflexivity.
      * destruct (IH _ H) as [a [b ->]]. exists (c :: a), b. reflexivity.
    + destruct (split_at_head sep s) as [h [r [b [S Es]]]]. rewrite S in H, IH.
      destruct H as [<-|H].
      * exists [], b. rewrite Es. reflexivity.
      * destruct (IH line (or_intror H)) as [a [b' ->]]. exists (c :: a), b'. reflexivity.
Qed.

Lemma trim_piece s : exists a b, s = a ++ trim s ++ b.
Proof. destruct (trim_decompose s) as [a [b [E _]]]. exists a, b. exact E. Qed.

Lemma hd_error_In (A : Type) (l : list A) x : hd_error l = Some x -> In x l.
Proof. destruct l; [discriminate|]. intros H. injection H as ->. left. reflexivity. Qed.

(** ** Words and the white space between them *)

Lemma split_chars ml r s c :
  In c s ->
  (exists w, In w (split ml r s) /\ In c w) \/
  (exists mt, In mt (match_all ml r s) /\ In c mt).
Proof.
  unfold split, match_all, scan_all.
  destruct (scan ml (S (List.length s)) r None s) as [ms tl] eqn:E.
  apply scan_sound in E. destruct E as [E _]. intros H. rewrite E in H. clear E.
  unfold pieces in H. apply in_app_iff in H. destruct H as [H|H].
  - apply in_concat in H. destruct H as [x [Hx Hc]]. apply in_map_iff in Hx.
    destruct Hx as [[sk mt] [<- Hin]]. cbn [fst snd] in Hc. apply in_app_iff in Hc.
    destruct Hc as [Hc|Hc].
    + left. exists sk. split; [|exact Hc]. apply in_app_iff. left.
      apply in_map_iff. exists (sk, mt). auto.
    + right. exists mt. split; [|exact Hc]. cbn [fst].
      apply in_map_iff. exists (sk, mt). auto.
  - left. exists tl. split; [|exact H]. apply in_app_iff. right. left. reflexivity.
Qed.

(** [/^[A-Za-z][A-Za-z'.-]*$/.test(word)]. *)
Lemma nameWord_chars word :
  test false nameWord word = true ->
  forall c, In c word -> isAlpha c = true \/ one_of "'.-" c = true.
Proof.
  unfold test. destruct (search false nameWord None word) as [[[sk mt] rest]|] eqn:E;
    [|discriminate]. intros _.
  apply search_some_spec in E. destruct E as [Ew [M _]].
  apply match_here_steps in M. destruct M as [p' S].
  unfold nameWord, cat in S.
  apply steps_seq_inv in S. destruct S as [p1 [s1 [S1 S]]].
  apply steps_seq_inv in S. destruct S as [p2 [s2 [S2 S]]].
  apply steps_seq_inv in S. destruct S as [p3 [s3 [S3 S4]]].
  apply steps_bol_inv in S1. destruct S1 as [B [E1 E1']]. subst p1 s1.
  apply steps_cls_inv in S2. destruct S2 as [c0 [E2 [H0 E2']]]. subst p2.
  apply steps_star_cls_inv in S3. destruct S3 as [u [E3 [Fu E3']]]. subst p3 s2.
  apply steps_eol_inv in S4. destruct S4 as [Eo [_ E4]]. subst s3.
  cbn [bol_ok] in B. destruct (last_of None sk) eqn:L; [discriminate B|].
  apply last_of_none in L. subst sk.
  cbn [eol_ok] in Eo. destruct rest; [|discriminate Eo].
  rewrite !app_nil_r in E2. cbn [app] in Ew. rewrite app_nil_r in Ew. subst word mt.
  intros c [<-|Hc]; [left; exact H0|].
  apply (proj1 (forallb_forall _ u) Fu) in Hc.
  unfold union in Hc. apply orb_true_iff in Hc. exact Hc.
Qed.

(** ** extractBasicInfo: the candidate name *)

Lemma extractBasicInfo_cases (v : value) :
  (exists s, v = VStr s /\ extractBasicInfo v = info_body v) \/
  ((forall s, v <> VStr s) /\ extractBasicInfo v = Normal nothing).
Proof.
  destruct v; try (right; split; [intros s' H; discriminate H|reflexivity]).
  left. exists s. split; reflexivity.
Qed.

Lemma looks_like_name_spec (t : jsstring) :
  looks_like_name t = true ->
  (3 < List.length t < 50)%nat /\ forallb name_char t = true /\
  (2 <= List.length (split false (Plus ws) t) <= 4)%nat.
Proof.
  unfold looks_like_name. intros H.
  apply andb_true_iff in H. destruct H as [H W]. cbv zeta in W.
  apply andb_true_iff in W. destruct W as [W C].
  apply andb_true_iff in W. destruct W as [W1 W2].
  apply Nat.leb_le in W1, W2.
  apply andb_true_iff in H. destruct H as [H _].
  apply andb_true_iff in H. destruct H as [H _].
  apply andb_true_iff in H. destruct H as [H _].
  apply andb_true_iff in H. destruct H as [L1 L2].
  apply Nat.ltb_lt in L1, L2.
  split; [lia|]. split; [|lia].
  apply forallb_forall. intros c Hc. unfold name_char.
  destruct (split_chars false (Plus ws) t c Hc) as [[w [Hw Hcw]]|[mt [Hm Hcm]]].
  - unfold isNameLike in C. apply (proj1 (forallb_forall _ _) C) in Hw.
    apply andb_true_iff in Hw. destruct Hw as [Hw _].
    destruct (nameWord_chars w Hw c Hcw) as [A|A]; rewrite A;
      [reflexivity|rewrite orb_true_r; reflexivity].
  - apply match_all_sound in Hm. destruct Hm as [D _].
    apply derives_plus_cls_inv in D. destruct D as [_ F].
    apply (proj1 (forallb_forall _ _) F) in Hcm. rewrite Hcm. apply orb_true_r.
Qed.

Lemma name_of_spec (text name : jsstring) :
  name_of text = Some name ->
  (3 < List.length name < 50)%nat /\ trim name = name /\
  forallb name_char name = true /\
  (2 <= List.length (split false (Plus ws) name) <= 4)%nat /\
  is_piece name text.
Proof.
  unfold name_of. intros H.
  destruct (find _ _) as [line|] eqn:F; [|discriminate H].
  injection H as <-. apply find_some in F. destruct F as [I L].
  apply In_firstn in I. apply filter_In in I. destruct I as [I _].
  destruct (looks_like_name_spec _ L) as [Len [Ch W]].
  split; [exact Len|]. split; [apply trim_idem|]. split; [exact Ch|]. split; [exact W|].
  apply (piece_trans (trim line) line text); [apply trim_piece|].
  apply (split_at_piece LF). exact I.
Qed.

(** X10.  extractBasicInfo never raises, and on an input
    that is not a string every field is null.  A candidate name, when one
    is reported, is a trimmed piece of the text, longer than 3 and shorter
    than 50 code units, made only of letters, apostrophes, dots, hyphens
    and white space, and consists of two to four words. *)
Theorem extractBasicInfo_candidateName :
  forall v : value,
    exists info,
      extractBasicInfo v = Normal info /\
      ((forall s, v <> VStr s) -> info = nothing) /\
      forall name,
        BasicInfo.candidateName info = Some name ->
        (3 < List.length name < 50)%nat /\ trim name = name /\
        forallb name_char name = true /\
        (2 <= List.length (split false (Plus ws) name) <= 4)%nat /\
        exists text, v = VStr text /\ is_piece name text.
Proof.
  intros v. destruct (extractBasicInfo_cases v) as [[s [-> E]]|[N E]]; rewrite E.
  - eexists. split; [reflexivity|]. split; [intros H; exfalso; apply (H s); reflexivity|].
    cbn [BasicInfo.candidateName]. intros name H.
    destruct (name_of_spec s name H) as [A [B [C [D P]]]].
    repeat (split; [assumption|]). exists s. split; [reflexivity|exact P].
  - exists nothing. split; [reflexivity|]. split; [reflexivity|].
    intros name H. discriminate H.
Qed.

Lemma extractBasicInfo_candidateName_witness :
  exists info,
    extractBasicInfo (VStr sample_resume) = Normal info /\
    BasicInfo.candidateName info = Some (lit "Mary-Jane O'Neil Jr.") /\
    forallb name_char (lit "Mary-Jane O'Neil Jr.") = true /\
    is_piece (lit "Mary-Jane O'Neil Jr.") sample_resume.
Proof.
  destruct (extractBasicInfo_candidateName (VStr sample_resume)) as [info [E [_ H]]].
  exists info. split; [exact E|].
  assert (C : BasicInfo.candidateName info = Some (lit "Mary-Jane O'Neil Jr.")).
  { vm_compute in E. injection E as <-. reflexivity. }
  split; [exact C|].
  destruct (H _ C) as [_ [_ [Ch [_ [text [Et P]]]]]].
  split; [exact Ch|]. injection Et as <-. exact P.
Defined.

(** ** extractBasicInfo: the e-mail address *)

Lemma match_all_nil ml r s : match_all ml r s = [] <-> search ml r None s = None.
Proof.
  unfold match_all, scan_all. cbn [scan].
  destruct (search ml r None s) as [[[sk mt] rest]|]; [|split; reflexivity].
  split; [|discriminate]. intros H. exfalso.
  destruct mt as [|c mt].
  - destruct rest as [|x rest]; [discriminate H|].
    destruct (scan ml (List.length s) r (Some x) rest) as [[|[sk' mt'] ms] tl];
      discriminate H.
  - destruct (scan ml (List.length s) r (Some (last (c :: mt) 0%N)) rest) as [ms tl].
    discriminate H.
Qed.

Lemma first_match_none r s : first_match r s = None <-> test false r s = false.
Proof.
  unfold first_match. rewrite test_false, <- match_all_nil.
  destruct (match_all false r s); split; intros H; (reflexivity || discriminate H).
Qed.

Lemma first_match_some r s e :
  first_match r s = Some e -> derives r e /\ is_piece e s.
Proof.
  unfold first_match. intros H. apply hd_error_In in H.
  apply match_all_sound in H. exact H.
Qed.

Lemma one_of_In (l : string) (c : N) : one_of l c = true -> In c (lit l).
Proof.
  unfold one_of. intros H. apply existsb_exists in H. destruct H as [x [I E]].
  apply N.eqb_eq in E. subst x. exact I.
Qed.

(** Letters, digits and the punctuation of the patterns are ASCII, and
    none of them is white space. *)
Lemma alpha_ascii c : isAlpha c = true -> (65 <= c <= 122)%N.
Proof.
  unfold isAlpha, isUpper, isLower. intros H.
  apply orb_true_iff in H. destruct H as [H|H]; apply andb_true_iff in H;
    destruct H as [H1 H2]; apply N.leb_le in H1, H2; lia.
Qed.

Lemma digit_ascii c : isDigit c = true -> (48 <= c <= 57)%N.
Proof.
  unfold isDigit. intros H. apply andb_true_iff in H.
  destruct H as [H1 H2]; apply N.leb_le in H1, H2; lia.
Qed.

Lemma space_not_printable c : isSpace c = true -> (c <= 32)%N \/ (160 <= c)%N.
Proof.
  unfold isSpace, isWhiteSpace, isLineTerminator. intros H.
  repeat match type of H with
         | (_ || _) = true => apply orb_true_iff in H; destruct H as [H|H]
         | (_ && _) = true => apply andb_true_iff in H; destruct H as [H _]
         | (_ =? _)%N = true => apply N.eqb_eq in H; subst c
         | (_ <=? _)%N = true => apply N.leb_le in H
         end; lia.
Qed.

Lemma printable_not_space (p : N -> bool) :
  (forall c, p c = true -> (33 <= c <= 126)%N) ->
  forall w, forallb p w = true -> forallb (fun c => negb (isSpace c)) w = true.
Proof.
  intros P w H. apply forallb_forall. intros c Hc.
  apply (proj1 (forallb_forall _ _) H) in Hc. apply P in Hc.
  destruct (isSpace c) eqn:S; [|reflexivity].
  apply space_not_printable in S. lia.
Qed.

Lemma one_of_printable (l : string) :
  forallb (fun x => (33 <=? x)%N && (x <=? 126)%N) (lit l) = true ->
  forall c, one_of l c = true -> (33 <= c <= 126)%N.
Proof.
  intros H c Hc. apply one_of_In in Hc. apply (proj1 (forallb_forall _ _) H) in Hc.
  apply andb_true_iff in Hc. destruct Hc as [H1 H2]. apply N.leb_le in H1, H2. lia.
Qed.

Lemma local_char_printable c : local_char c = true -> (33 <= c <= 126)%N.
Proof.
  unfold local_char, union. intros H.
  apply orb_true_iff in H. destruct H as [H|H]; [apply alpha_ascii in H; lia|].
  apply orb_true_iff in H. destruct H as [H|H]; [apply digit_ascii in H; lia|].
  apply (one_of_printable "._%+-"); [reflexivity|exact H].
Qed.

Lemma domain_char_printable c : domain_char c = true -> (33 <= c <= 126)%N.
Proof.
  unfold domain_char, union. intros H.
  apply orb_true_iff in H. destruct H as [H|H]; [apply alpha_ascii in H; lia|].
  apply orb_true_iff in H. destruct H as [H|H]; [apply digit_ascii in H; lia|].
  apply (one_of_printable ".-"); [reflexivity|exact H].
Qed.

Lemma tld_char_printable c : tld_char c = true -> (33 <= c <= 126)%N.
Proof.
  unfold tld_char, union. intros H.
  apply orb_true_iff in H. destruct H as [H|H]; [apply alpha_ascii in H; lia|].
  apply (one_of_printable "|"); [reflexivity|exact H].
Qed.

Lemma count_occ_absent (p : N -> bool) (x : N) :
  p x = false -> forall w, forallb p w = true -> count_occ N.eq_dec w x = 0%nat.
Proof.
  intros Px w H. apply count_occ_not_In. intros I.
  apply (proj1 (forallb_forall _ _) H) in I. congruence.
Qed.

Lemma email_shape e :
  derives emailRegex e ->
  exists local domain tld,
    e = local ++ [AT] ++ domain ++ [DOT] ++ tld /\
    local <> [] /\ domain <> [] /\ (2 <= List.length tld)%nat /\
    forallb local_char local = true /\ forallb domain_char domain = true /\
    forallb tld_char tld = true.
Proof.
  unfold emailRegex, PDFParser.cat, cat. intros D.
  apply derives_seq_inv in D. destruct D as [w0 [r0 [-> [D0 D]]]].
  apply derives_seq_inv in D. destruct D as [w1 [r1 [-> [D1 D]]]].
  apply derives_seq_inv in D. destruct D as [w2 [r2 [-> [D2 D]]]].
  apply derives_seq_inv in D. destruct D as [w3 [r3 [-> [D3 D]]]].
  apply derives_seq_inv in D. destruct D as [w4 [r4 [-> [D4 D]]]].
  apply derives_seq_inv in D. destruct D as [w5 [r5 [-> [D5 D6]]]].
  apply derives_wordb_inv in D0, D6. subst w0 r5.
  apply derives_plus_cls_inv in D1, D3. destruct D1 as [N1 F1], D3 as [N3 F3].
  apply derives_cls_inv in D2, D4. destruct D2 as [a [-> Ha]], D4 as [d [-> Hd]].
  apply N.eqb_eq in Ha, Hd. subst a d.
  apply derives_atleast_cls_inv in D5. destruct D5 as [L5 F5].
  exists w1, w3, w5. rewrite app_nil_r. cbn [app].
  repeat (split; [first [reflexivity|assumption]|]). exact F5.
Qed.

(** X11.  The e-mail field is null exactly when the e-mail
    pattern finds nothing in the text.  An address that is reported is a
    piece of the text with exactly one at sign and no white space: a
    non-empty local part, the at sign, a non-empty domain, a dot and a
    top-level part of at least two code units, each drawn from the class
    the pattern gives it (the top-level class admits the vertical bar). *)
Theorem extractBasicInfo_email :
  forall (text : jsstring) (info : BasicInfo.t),
    extractBasicInfo (VStr text) = Normal info ->
    (BasicInfo.email info = None <-> test false emailRegex text = false) /\
    forall e,
      BasicInfo.email info = Some e ->
      is_piece e text /\
      count_occ N.eq_dec e AT = 1%nat /\
      forallb (fun c => negb (isSpace c)) e = true /\
      exists local domain tld,
        e = local ++ [AT] ++ domain ++ [DOT] ++ tld /\
        local <> [] /\ domain <> [] /\ (2 <= List.length tld)%nat /\
        forallb local_char local = true /\ forallb domain_char domain = true /\
        forallb tld_char tld = true.
Proof.
  intros text info H. unfold extractBasicInfo, info_body in H. cbn [try_catch] in H.
  injection H as <-. cbn [BasicInfo.email]. split; [apply first_match_none|].
  intros e H. apply first_match_some in H. destruct H as [D P].
  split; [exact P|].
  destruct (email_shape e D) as [l [d [t [E [Nl [Nd [Lt [Fl [Fd Ft]]]]]]]]].
  split; [|split; [|exists l, d, t; repeat (split; [assumption|]); exact Ft]].
  - rewrite E. rewrite !count_occ_app.
    rewrite (count_occ_absent local_char AT eq_refl l Fl).
    rewrite (count_occ_absent domain_char AT eq_refl d Fd).
    rewrite (count_occ_absent tld_char AT eq_refl t Ft). reflexivity.
  - rewrite E. rewrite !forallb_app.
    rewrite (printable_not_space local_char local_char_printable l Fl).
    rewrite (printable_not_space domain_char domain_char_printable d Fd).
    rewrite (printable_not_space tld_char tld_char_printable t Ft). reflexivity.
Qed.

Lemma extractBasicInfo_email_witness :
  let info := BasicInfo.mk (Some (lit "Mary-Jane O'Neil Jr."))
                (Some (lit "mj.oneil@mail.example.org"))
                (Some (lit "+1 555.123 4567")) (Some (lit "Paris , France")) in
  extractBasicInfo (VStr sample_resume) = Normal info /\
  is_piece (lit "mj.oneil@mail.example.org") sample_resume /\
  count_occ N.eq_dec (lit "mj.oneil@mail.example.org") AT = 1%nat.
Proof.
  intros info.
  assert (E : extractBasicInfo (VStr sample_resume) = Normal info)
    by (vm_compute; reflexivity).
  split; [exact E|].
  destruct (proj2 (extractBasicInfo_email sample_resume info E)
              (lit "mj.oneil@mail.example.org") eq_refl) as [P [C _]].
  split; [exact P|exact C].
Defined.

(** ** Runs of a class replaced by one code unit *)

Lemma matchable_plus_cls ml p prev t :
  matchable ml (Plus (Cls p)) prev t = run_at 1 p prev t.
Proof.
  unfold matchable, run_at.
  destruct (match_here ml (Plus (Cls p)) prev t) as [rest|] eqn:E.
  - apply match_here_steps in E. destruct E as [p' S].
    apply steps_plus_cls_inv in S. destruct S as [c [u [-> [Hc _]]]].
    cbn [takeWhile]. rewrite Hc. reflexivity.
  - destruct t as [|c t]; [reflexivity|]. cbn [takeWhile].
    destruct (p c) eqn:Hc; [|reflexivity]. exfalso.
    apply (match_here_none _ _ _ _ E (last_of prev [c]) t).
    apply (steps_plus_cls ml p c [] prev t Hc eq_refl).
Qed.

Lemma plus_cls_never_empty ml p prev s : match_here ml (Plus (Cls p)) prev s <> Some s.
Proof.
  apply never_empty_of_steps. clear prev s. intros prev s p' S.
  apply steps_plus_cls_inv in S. destruct S as [c [u [E _]]].
  assert (L : List.length s = List.length (c :: u ++ s)) by (rewrite <- E; reflexivity).
  cbn [List.length] in L. rewrite length_app in L. lia.
Qed.

Lemma plus_cls_match ml p prev w rest :
  match_here ml (Plus (Cls p)) prev (w ++ rest) = Some rest -> forallb p w = true.
Proof.
  intros M. apply match_here_steps in M. destruct M as [p' S].
  apply steps_plus_cls_inv in S. destruct S as [c [u [E [Hc [Hu _]]]]].
  change (c :: u ++ rest) with ((c :: u) ++ rest) in E. apply app_inv_tail in E.
  subst w. cbn [forallb]. rewrite Hc. exact Hu.
Qed.

(** After [s.replace(/\s+/g, ' ')] the text keeps its code units other
    than white space, in order, and holds no other white space than the
    space. *)
Lemma spaces_normalized (q : N -> bool) (s : jsstring) :
  (forall c, isSpace c = true -> q c = false) ->
  let r := replace false (Plus (Cls isSpace)) [SP] s in
  List.filter q r = List.filter q s /\
  forall c, In c r -> c = SP \/ (In c s /\ isSpace c = false).
Proof.
  intros Q r. subst r.
  destruct (replace_scanned false (Plus (Cls isSpace))
              (plus_cls_never_empty false isSpace) [SP] s) as [ms [tl [Sc E]]].
  rewrite E.
  assert (C : cutting false (Plus (Cls isSpace)) (run_at 1 isSpace) None s ms tl).
  { apply cutting_of_scan; [|exact Sc]. intros prev t H. rewrite matchable_plus_cls. exact H. }
  clear Sc E. induction C as [prev s F|prev sk w rest ms tl NW M S C [IH1 IH2]].
  - rewrite out_nil. split; [reflexivity|]. intros c Hc. right. split; [exact Hc|].
    rewrite free_run1 in F. apply (proj1 (forallb_forall _ _) F) in Hc.
    apply negb_true_iff. exact Hc.
  - rewrite out_cons. apply plus_cls_match in M. apply skipped_run1 in S. split.
    + rewrite !filter_app, IH1. f_equal. f_equal.
      cbn [filter]. rewrite (Q SP eq_refl).
      clear -M Q. induction w as [|x w IHw]; [reflexivity|].
      cbn [forallb] in M. apply andb_true_iff in M. destruct M as [Mx Mw].
      cbn [filter]. rewrite (Q x Mx). apply IHw. exact Mw.
    + intros c Hc. apply in_app_iff in Hc. destruct Hc as [Hc|Hc].
      * right. split; [apply in_app_iff; left; exact Hc|].
        apply (proj1 (forallb_forall _ _) S) in Hc. apply negb_true_iff. exact Hc.
      * apply in_app_iff in Hc. destruct Hc as [[<-|[]]|Hc]; [left; reflexivity|].
        destruct (IH2 c Hc) as [H|[H1 H2]]; [left; exact H|right].
        split; [|exact H2]. apply in_app_iff. right. apply in_app_iff. right. exact H1.
Qed.

Lemma trim_filter (q : N -> bool) (s : jsstring) :
  (forall c, isSpace c = true -> q c = false) ->
  List.filter q (trim s) = List.filter q s.
Proof.
  intros Q. destruct (trim_decompose s) as [a [b [E [Fa Fb]]]].
  assert (Z : forall l, forallb isSpace l = true -> List.filter q l = []).
  { induction l as [|x l IH]; [reflexivity|]. cbn [forallb filter]. intros H.
    apply andb_true_iff in H. destruct H as [Hx Hl]. rewrite (Q x Hx). apply IH. exact Hl. }
  rewrite E at 2. rewrite !filter_app, (Z a Fa), (Z b Fb), app_nil_r. reflexivity.
Qed.

Lemma trim_In c s : In c (trim s) -> In c s.
Proof.
  intros H. destruct (trim_decompose s) as [a [b [E _]]]. rewrite E.
  apply in_app_iff. right. apply in_app_iff. left. exact H.
Qed.

(** ** extractBasicInfo: the phone number *)

Lemma phone_part_app lo hi lo' hi' u v :
  phone_part lo hi u -> phone_part lo' hi' v -> phone_part (lo + lo') (hi + hi') (u ++ v).
Proof.
  unfold phone_part, count_digits. intros [C F] [C' F'].
  rewrite filter_app, length_app, forallb_app, F, F'. split; [lia|reflexivity].
Qed.

Lemma phone_part_nil : phone_part 0 0 [].
Proof. split; [cbn; lia|reflexivity]. Qed.

Lemma phone_part_weaken lo hi lo' hi' w :
  (lo' <= lo)%nat -> (hi <= hi')%nat -> phone_part lo hi w -> phone_part lo' hi' w.
Proof. unfold phone_part. intros A B [C F]. split; [lia|exact F]. Qed.

Lemma phone_part_digits w :
  forallb isDigit w = true -> phone_part (List.length w) (List.length w) w.
Proof.
  intros F. unfold phone_part, count_digits.
  assert (E : List.filter isDigit w = w).
  { induction w as [|c w IH]; [reflexivity|]. cbn [forallb] in F.
    apply andb_true_iff in F. destruct F as [Fc Fw]. cbn [filter]. rewrite Fc, (IH Fw).
    reflexivity. }
  rewrite E. split; [lia|]. apply forallb_forall. intros c Hc.
  apply (proj1 (forallb_forall _ _) F) in Hc. unfold raw_phone_char. rewrite Hc. reflexivity.
Qed.

Lemma phone_part_punct p w :
  (forall c, p c = true -> isDigit c = false /\ raw_phone_char c = true) ->
  derives (Opt (Cls p)) w -> phone_part 0 0 w.
Proof.
  intros P D. apply derives_opt_inv in D. destruct D as [->|D]; [apply phone_part_nil|].
  apply derives_cls_inv in D. destruct D as [c [-> Hc]]. destruct (P c Hc) as [Nd R].
  unfold phone_part, count_digits. cbn [filter forallb]. rewrite Nd, R.
  split; [cbn; lia|reflexivity].
Qed.

Lemma chr_punct (x : N) :
  isDigit x = false -> raw_phone_char x = true ->
  forall c, N.eqb x c = true -> isDigit c = false /\ raw_phone_char c = true.
Proof. intros D R c E. apply N.eqb_eq in E. subst c. auto. Qed.

Lemma separator_punct c :
  union (one_of "-.") isSpace c = true -> isDigit c = false /\ raw_phone_char c = true.
Proof.
  unfold union. intros H. apply orb_true_iff in H. destruct H as [H|H].
  - apply one_of_In in H. cbn in H. destruct H as [<-|[<-|[]]]; split; reflexivity.
  - split.
    + destruct (isDigit c) eqn:D; [|reflexivity]. apply digit_not_space in D. congruence.
    + unfold raw_phone_char. rewrite H. apply orb_true_r.
Qed.

Lemma phone_shape m : derives phoneRegex m -> phone_part 10 13 m.
Proof.
  unfold phoneRegex, cat, separator, plus_sign, chr,
    digit, digit.
  intros D.
  apply derives_seq_inv in D. destruct D as [g [r0 [-> [Dg D]]]].
  apply derives_seq_inv in D. destruct D as [w1 [r1 [-> [D1 D]]]].
  apply derives_seq_inv in D. destruct D as [w2 [r2 [-> [D2 D]]]].
  apply derives_seq_inv in D. destruct D as [w3 [r3 [-> [D3 D]]]].
  apply derives_seq_inv in D. destruct D as [w4 [r4 [-> [D4 D]]]].
  apply derives_seq_inv in D. destruct D as [w5 [r5 [-> [D5 D]]]].
  apply derives_seq_inv in D. destruct D as [w6 [w7 [-> [D6 D7]]]].
  assert (G : phone_part 0 3 g).
  { apply derives_opt_inv in Dg. destruct Dg as [->|Dg];
      [apply (phone_part_weaken 0 0); [lia|lia|apply phone_part_nil]|].
    apply derives_seq_inv in Dg. destruct Dg as [a [b [-> [Da Db]]]].
    apply derives_seq_inv in Db. destruct Db as [b1 [b2 [-> [Db1 Db2]]]].
    apply (phone_part_punct _ a (chr_punct 0x2B eq_refl eq_refl)) in Da.
    apply (phone_part_punct _ b2 separator_punct) in Db2.
    unfold Between in Db1. apply derives_seq_inv in Db1.
    destruct Db1 as [d1 [d2 [-> [Dd1 Dd2]]]].
    apply derives_rep_cls_inv in Dd1. destruct Dd1 as [L1 F1].
    apply derives_upto_cls_inv in Dd2. destruct Dd2 as [L2 F2]. cbn in L2.
    assert (Fd : forallb isDigit (d1 ++ d2) = true) by (rewrite forallb_app, F1, F2; reflexivity).
    apply phone_part_digits in Fd. rewrite length_app in Fd.
    apply (phone_part_weaken (0 + (List.length d1 + List.length d2 + 0))
                             (0 + (List.length d1 + List.length d2 + 0))); [lia|lia|].
    apply phone_part_app; [exact Da|]. apply phone_part_app; [exact Fd|exact Db2]. }
  apply (phone_part_punct _ w1 (chr_punct 0x28 eq_refl eq_refl)) in D1.
  apply (phone_part_punct _ w3 (chr_punct 0x29 eq_refl eq_refl)) in D3.
  apply (phone_part_punct _ w4 separator_punct) in D4.
  apply (phone_part_punct _ w6 separator_punct) in D6.
  apply derives_rep_cls_inv in D2, D5, D7.
  destruct D2 as [L2 F2], D5 as [L5 F5], D7 as [L7 F7].
  apply phone_part_digits in F2, F5, F7. rewrite L2 in F2. rewrite L5 in F5. rewrite L7 in F7.
  apply (phone_part_weaken (0 + (0 + (3 + (0 + (0 + (3 + (0 + 4)))))))
                           (3 + (0 + (3 + (0 + (0 + (3 + (0 + 4)))))))); [lia|lia|].
  repeat (apply phone_part_app; [assumption|]). exact F7.
Qed.

(** X12.  The phone field is null exactly when the phone
    pattern finds nothing in the text.  A number that is reported holds
    10 to 13 digits, only digits, the plus sign, brackets, hyphens, dots
    and blanks (every run of white space has become one blank), and is
    trimmed. *)
Theorem extractBasicInfo_phone :
  forall (text : jsstring) (info : BasicInfo.t),
    extractBasicInfo (VStr text) = Normal info ->
    (BasicInfo.phone info = None <-> test false phoneRegex text = false) /\
    forall p,
      BasicInfo.phone info = Some p ->
      (10 <= count_digits p <= 13)%nat /\ forallb phone_char p = true /\ trim p = p.
Proof.
  intros text info H. unfold extractBasicInfo, info_body in H. cbn [try_catch] in H.
  injection H as <-. cbn [BasicInfo.phone]. split.
  - rewrite <- first_match_none. destruct (first_match phoneRegex text); cbn [option_map];
      split; intros H; (reflexivity || discriminate H).
  - intros p H. destruct (first_match phoneRegex text) as [m|] eqn:F; [|discriminate H].
    cbn [option_map] in H. injection H as <-.
    apply first_match_some in F. destruct F as [D _]. apply phone_shape in D.
    destruct D as [Cn Ch].
    assert (Q : forall c, isSpace c = true -> isDigit c = false).
    { intros c S. destruct (isDigit c) eqn:E; [|reflexivity].
      apply digit_not_space in E. congruence. }
    destruct (spaces_normalized isDigit m Q) as [Fl In_].
    split; [|split; [|apply trim_idem]].
    + unfold count_digits in *. unfold ws.
      rewrite (trim_filter isDigit _ Q), Fl. exact Cn.
    + apply forallb_forall. intros c Hc. apply trim_In in Hc.
      unfold ws in Hc.
      destruct (In_ c Hc) as [->|[I S]]; [reflexivity|].
      apply (proj1 (forallb_forall _ _) Ch) in I. unfold raw_phone_char in I.
      rewrite S, orb_false_r in I. unfold phone_char.
      apply orb_true_iff in I. destruct I as [I|I]; [rewrite I; reflexivity|].
      apply one_of_In in I. cbn in I.
      destruct I as [<-|[<-|[<-|[<-|[<-|[]]]]]]; reflexivity.
Qed.

Lemma extractBasicInfo_phone_witness :
  let info := BasicInfo.mk (Some (lit "Mary-Jane O'Neil Jr."))
                (Some (lit "mj.oneil@mail.example.org"))
                (Some (lit "+1 555.123 4567")) (Some (lit "Paris , France")) in
  extractBasicInfo (VStr sample_resume) = Normal info /\
  (10 <= count_digits (lit "+1 555.123 4567") <= 13)%nat.
Proof.
  intros info.
  assert (E : extractBasicInfo (VStr sample_resume) = Normal info)
    by (vm_compute; reflexivity).
  split; [exact E|].
  destruct (proj2 (extractBasicInfo_phone sample_resume info E)
              (lit "+1 555.123 4567") eq_refl) as [C _].
  exact C.
Defined.

(** ** extractText *)

Lemma sanitizeText_total (v : value) : exists y, sanitizeText v = Normal y.
Proof.
  destruct v; try (exists []; reflexivity).
  unfold sanitizeText. destruct (truthy (VStr s)); eexists; reflexivity.
Qed.

Lemma blank_test (raw : jsstring) :
  negb (truthy (VStr raw)) || (List.length (trim raw) =? 0)%nat = true <-> trim raw = [].
Proof.
  split.
  - intros H. apply orb_true_iff in H. destruct H as [H|H].
    + destruct raw; [reflexivity|discriminate H].
    + apply Nat.eqb_eq in H. destruct (trim raw); [reflexivity|discriminate H].
  - intros H. rewrite H. apply orb_true_r.
Qed.

Lemma split_length ml r s :
  (1 <= List.length (split ml r s))%nat.
Proof.
  unfold split. destruct (scan_all ml r s) as [ms tl].
  rewrite length_app. cbn. lia.
Qed.

Section ExtractTextFacts.

Variable pdf : buffer -> completion pdfData.

Lemma extract_body_cases (b : buffer) :
  (exists m, pdf b = Throw m /\ extract_body pdf b = Throw m) \/
  (exists data, pdf b = Normal data /\ trim (pdf_text data) = [] /\
                extract_body pdf b = Throw "No text content found in PDF"%string) \/
  (exists data cleanText,
      pdf b = Normal data /\ trim (pdf_text data) <> [] /\
      sanitizeText (VStr (pdf_text data)) = Normal cleanText /\
      extract_body pdf b
      = Normal {| text := cleanText;
                  rawText := pdf_text data;
                  meta := {| pages := pdf_numpages data;
                             info := or_else (pdf_info data) (VObj []);
                             version := pdf_version data;
                             wordCount :=
                               List.length (split false (Plus ws) cleanText);
                             charCount := List.length cleanText |} |}).
Proof.
  unfold extract_body. destruct (pdf b) as [data|m] eqn:P; cbn [bind].
  - right.
    destruct (negb (truthy (VStr (pdf_text data)))
              || (List.length (trim (pdf_text data)) =? 0)%nat) eqn:B.
    + left. exists data. apply blank_test in B. auto.
    + right. destruct (sanitizeText_total (VStr (pdf_text data))) as [y Y].
      exists data, y. split; [reflexivity|]. split.
      * intros T. apply blank_test in T. congruence.
      * split; [exact Y|]. rewrite Y. reflexivity.
  - left. exists m. auto.
Qed.

(** X13.  extractText raises one of four messages only: the
    three fixed ones, or the message of the PDF library behind the prefix
    Failed to extract text from PDF.  A document whose text is empty or
    white space only is refused as having no readable text content, and a
    failure of the library whose message mentions Invalid PDF is reported
    as an invalid file format. *)
Theorem extractText_errors :
  forall (b : buffer) (filename : jsstring),
    (forall msg,
        extractText pdf b filename = Throw msg ->
        msg = "Invalid PDF file format"%string \/
        msg = "PDF is password protected or encrypted"%string \/
        msg = "PDF contains no readable text content"%string \/
        exists m, pdf b = Throw m /\ msg = ("Failed to extract text from PDF: " ++ m)%string) /\
    (forall data,
        pdf b = Normal data -> trim (pdf_text data) = [] ->
        extractText pdf b filename = Throw "PDF contains no readable text content"%string) /\
    (forall m,
        pdf b = Throw m -> includes "Invalid PDF" m = true ->
        extractText pdf b filename = Throw "Invalid PDF file format"%string).
Proof.
  intros b filename. unfold extractText.
  destruct (extract_body_cases b) as [[m [P E]]|[[data [P [T E]]]|[data [y [P [T [_ E]]]]]]];
    rewrite E; cbn [try_catch].
  - split; [|split].
    + intros msg H. injection H as <-. unfold extraction_error.
      destruct (includes "Invalid PDF" m); [auto|].
      destruct (includes "encrypted" m); [auto|].
      destruct (includes "No text content" m); [auto|].
      right. right. right. exists m. auto.
    + intros data P'. congruence.
    + intros m' P' I. rewrite P in P'. injection P' as <-.
      unfold extraction_error. rewrite I. reflexivity.
  - split; [|split].
    + intros msg H. injection H as <-. right. right. left. reflexivity.
    + intros _ _ _. reflexivity.
    + intros m' P'. congruence.
  - split; [|split].
    + intros msg H. discriminate H.
    + intros data' P' T'. rewrite P in P'. injection P' as <-. contradiction.
    + intros m' P'. congruence.
Qed.

(** X14.  extractText succeeds exactly when the library
    succeeds with a text that is not white space only.  The result then
    carries the raw text unchanged and its sanitized form, which is
    trimmed; charCount is the length of the sanitized text; wordCount is
    at least 1, and is 1 even when the sanitized text is empty; pages and
    version are those of the library. *)
Theorem extractText_success :
  forall (b : buffer) (filename : jsstring),
    (forall d,
        extractText pdf b filename = Normal d ->
        exists data,
          pdf b = Normal data /\ trim (pdf_text data) <> [] /\
          rawText d = pdf_text data /\
          sanitizeText (VStr (rawText d)) = Normal (text d) /\
          trim (text d) = text d /\
          charCount (meta d) = List.length (text d) /\
          (1 <= wordCount (meta d))%nat /\
          (text d = [] -> wordCount (meta d) = 1%nat) /\
          pages (meta d) = pdf_numpages data /\ version (meta d) = pdf_version data) /\
    (forall data,
        pdf b = Normal data -> trim (pdf_text data) <> [] ->
        exists d, extractText pdf b filename = Normal d).
Proof.
  intros b filename. unfold extractText.
  destruct (extract_body_cases b) as [[m [P E]]|[[data [P [T E]]]|[data [y [P [T [Y E]]]]]]];
    rewrite E; cbn [try_catch].
  - split; [intros d H; discriminate H|]. intros data P'. congruence.
  - split; [intros d H; discriminate H|].
    intros data' P' T'. rewrite P in P'. injection P' as <-. contradiction.
  - split; [|intros _ _ _; eexists; reflexivity].
    intros d H. injection H as <-. exists data. cbn.
    split; [exact P|]. split; [exact T|]. split; [reflexivity|]. split; [exact Y|].
    split.
    + destruct (sanitizeText_cases (VStr (pdf_text data))) as [Z|[z Z]];
        rewrite Y in Z; injection Z as ->; [reflexivity|].
      apply edges_ok_fixed. apply finish_edges.
    + split; [reflexivity|]. split; [apply split_length|].
      split; [intros ->; reflexivity|]. split; reflexivity.
Qed.

End ExtractTextFacts.

Lemma extractText_errors_witness :
  let data := {| pdf_text := lit "  "; pdf_numpages := VNum (num_of_Z 1);
                 pdf_info := VNull; pdf_version := VUndefined |} in
  extractText (fun _ => Normal data) pdf_magic (lit "cv.pdf")
  = Throw "PDF contains no readable text content"%string /\
  extractText (fun _ => Throw "Invalid PDF structure, file is encrypted"%string)
              pdf_magic (lit "cv.pdf")
  = Throw "Invalid PDF file format"%string.
Proof.
  intros data. split.
  - apply (proj1 (proj2 (extractText_errors (fun _ => Normal data) pdf_magic (lit "cv.pdf")))
             data); reflexivity.
  - apply (proj2 (proj2 (extractText_errors
                           (fun _ => Throw "Invalid PDF structure, file is encrypted"%string)
                           pdf_magic (lit "cv.pdf")))
             "Invalid PDF structure, file is encrypted"%string); reflexivity.
Defined.

Lemma extractText_success_witness :
  let data := {| pdf_text := lit "Page 1 of 2"; pdf_numpages := VNum (num_of_Z 1);
                 pdf_info := VNull; pdf_version := VUndefined |} in
  exists d,
    extractText (fun _ => Normal data) pdf_magic (lit "cv.pdf") = Normal d /\
    text d = [] /\ charCount (meta d) = 0%nat /\ wordCount (meta d) = 1%nat.
Proof.
  intros data.
  destruct (proj2 (extractText_success (fun _ => Normal data) pdf_magic (lit "cv.pdf"))
              data eq_refl) as [d E]; [discriminate|].
  exists d. split; [exact E|].
  destruct (proj1 (extractText_success (fun _ => Normal data) pdf_magic (lit "cv.pdf"))
              d E) as [data' [P [_ [R [S [_ [C [_ [W _]]]]]]]]].
  injection P as <-. rewrite R in S.
  assert (Z : sanitizeText (VStr (pdf_text data)) = Normal []) by (vm_compute; reflexivity).
  rewrite Z in S. injection S as T. symmetry in T.
  split; [exact T|]. split; [rewrite C, T; reflexivity|apply W; exact T].
Defined.

(** ** extractKeywords *)

Section KeywordFacts.

Variable unicodeLowerCase : jsstring -> jsstring.
Variable unicodeUpperUnit : N -> N.

Local Abbreviation lower := (toLowerCase unicodeLowerCase).
Local Abbreviation extractKeywords_ := (extractKeywords unicodeLowerCase unicodeUpperUnit).
Local Abbreviation keywords_loop_ := (keywords_loop unicodeLowerCase unicodeUpperUnit).

Local Abbreviation occurs_ := (occurs unicodeLowerCase unicodeUpperUnit).

Lemma keywords_loop_strings (textLower : jsstring) :
  forall (kl found : list jsstring),
    keywords_loop_ (List.map VStr kl) textLower found
    = Normal (found ++ List.filter
                (fun k => test false (keywordRegex unicodeUpperUnit (lower k)) textLower) kl).
Proof.
  induction kl as [|k kl IH]; intros found; cbn [map keywords_loop filter].
  - rewrite app_nil_r. reflexivity.
  - rewrite IH.
    destruct (test false (keywordRegex unicodeUpperUnit (lower k)) textLower);
      [rewrite <- app_assoc|]; reflexivity.
Qed.

Lemma keywords_loop_throws (textLower : jsstring) :
  forall (ks : list value) (found : list jsstring),
    (exists msg, keywords_loop_ ks textLower found = Throw msg) <->
    exists v, In v ks /\ forall s, v <> VStr s.
Proof.
  induction ks as [|v ks IH]; intros found; cbn [keywords_loop].
  - split; [intros [msg H]; discriminate H|intros [v [[] _]]].
  - destruct v as [| |b|n|k|l|kv];
      try (split; [intros _; eexists; split; [left; reflexivity|intros s H; discriminate H]
                  |intros _; eexists; reflexivity]).
    rewrite IH. split.
    + intros [v [I N]]. exists v. split; [right; exact I|exact N].
    + intros [v [[<-|I] N]]; [exfalso; apply (N k); reflexivity|].
      exists v. split; [exact I|exact N].
Qed.

(** X15.  When the text and all keywords are strings,
    extractKeywords returns, in the order of the list that is checked
    (the given keywords, or the built-in ones when none is given), the
    keywords that occur in the text, each once: no keyword is listed
    twice, and a keyword is listed exactly when the text is not empty, the
    keyword is in the checked list and it occurs. *)
Theorem extractKeywords_entries :
  forall (text : jsstring) (commonKeywords : list jsstring),
    let checked := match commonKeywords with [] => defaultKeywords | _ => commonKeywords end in
    exists l,
      extractKeywords_ (VStr text) (List.map VStr commonKeywords) = Normal l /\
      l = (match text with
           | [] => []
           | _ => uniq [] (List.filter (occurs_ text) checked)
           end) /\
      NoDup l /\
      (forall k, In k l <-> text <> [] /\ In k checked /\ occurs_ text k = true).
Proof.
  intros text commonKeywords checked.
  assert (K : keywordsToCheck (List.map VStr commonKeywords) = List.map VStr checked).
  { subst checked. unfold keywordsToCheck. destruct commonKeywords; reflexivity. }
  destruct text as [|c text].
  - exists []. split; [reflexivity|]. split; [reflexivity|]. split; [constructor|].
    intros k. split; [intros []|intros [H _]; contradiction].
  - unfold extractKeywords. cbn [truthy]. rewrite K, keywords_loop_strings.
    cbn [bind app]. eexists. split; [reflexivity|]. split; [reflexivity|].
    split; [apply uniq_NoDup|].
    intros k. rewrite uniq_In, filter_In. unfold occurs. cbn [In].
    split; [intros [[H1 H2] _]; split; [discriminate|auto]|intros [_ [H1 H2]]; auto].
Qed.

(** X16.  extractKeywords raises exactly when the text is a
    non-empty string and one of the keywords given is not a string; the
    input type of the text is tested, that of the keywords is not. *)
Theorem extractKeywords_raises :
  forall (text : value) (commonKeywords : list value),
    (exists msg, extractKeywords_ text commonKeywords = Throw msg) <->
    (exists s, text = VStr s /\ s <> []) /\
    exists v, In v commonKeywords /\ forall s, v <> VStr s.
Proof.
  intros text ks.
  destruct text as [| |b|n|s|l|kv];
    try (split; [intros [msg H]; discriminate H|intros [[s [H _]] _]; discriminate H]).
  destruct s as [|c s].
  - split; [intros [msg H]; discriminate H|].
    intros [[s [H N]] _]. injection H as <-. contradiction.
  - unfold extractKeywords. cbn [truthy].
    assert (B : forall textLower,
               (exists msg,
                   (found <- keywords_loop_ (keywordsToCheck ks) textLower [] ;;
                    Normal (uniq [] found)) = Throw msg) <->
               exists v, In v (keywordsToCheck ks) /\ forall s, v <> VStr s).
    { intros tl. rewrite <- (keywords_loop_throws tl (keywordsToCheck ks) []).
      destruct (keywords_loop_ (keywordsToCheck ks) tl []) as [f|m]; cbn [bind];
        split; intros [msg H]; (discriminate H || (eexists; reflexivity)). }
    rewrite B. unfold keywordsToCheck. destruct ks as [|k ks]; cbn [List.length Nat.ltb Nat.leb].
    + split.
      * intros [v [I N]]. apply in_map_iff in I. destruct I as [x [<- _]].
        exfalso. apply (N x). reflexivity.
      * intros [_ [v [[] _]]].
    + split.
      * intros H. split; [exists (c :: s); split; [reflexivity|discriminate]|exact H].
      * intros [_ H]. exact H.
Qed.

End KeywordFacts.

Lemma extractKeywords_entries_witness :
  extractKeywords (fun s => s) (fun c => c) (VStr (lit "We use React, not Vue.js"))
                  (List.map VStr [lit "REACT"; lit "react"; lit "angular"; lit "vue.js"; lit "REACT"])
  = Normal [lit "REACT"; lit "react"; lit "vue.js"].
Proof.
  destruct (extractKeywords_entries (fun s => s) (fun c => c) (lit "We use React, not Vue.js")
              [lit "REACT"; lit "react"; lit "angular"; lit "vue.js"; lit "REACT"])
    as [l [E [L _]]].
  rewrite E, L. reflexivity.
Defined.

Lemma extractKeywords_raises_witness :
  exists msg,
    extractKeywords (fun s => s) (fun c => c) (VStr (lit "We use React"))
                    [VStr (lit "react"); VNum (num_of_Z 7)] = Throw msg.
Proof.
  apply (proj2 (extractKeywords_raises (fun s => s) (fun c => c) (VStr (lit "We use React"))
                  [VStr (lit "react"); VNum (num_of_Z 7)])).
  split.
  - exists (lit "We use React"). split; [reflexivity|discriminate].
  - exists (VNum (num_of_Z 7)). split; [right; left; reflexivity|intros s H; discriminate H].
Defined.

(** ** extractSections: the entries of the result *)

Lemma set_prop_keys k v : forall o,
  forall k', In k' (List.map fst (set_prop k v o)) <-> k' = k \/ In k' (List.map fst o).
Proof.
  induction o as [|[k0 v0] o IH]; intros k'; cbn [set_prop map fst In].
  - split; [intros [H|[]]; left; auto|intros [H|[]]; left; auto].
  - destruct (str_eqb k k0) eqn:E; cbn [map fst In].
    + apply str_eqb_eq in E. subst k0. split; [intros [H|H]; auto|].
      intros [H|[H|H]]; auto.
    + rewrite IH. split; [intros [H|[H|H]]; auto|intros [H|[H|H]]; auto].
Qed.

Lemma set_prop_NoDup k v : forall o,
  NoDup (List.map fst o) -> NoDup (List.map fst (set_prop k v o)).
Proof.
  induction o as [|[k0 v0] o IH]; intros H; cbn [set_prop].
  - cbn. constructor; [intros []|constructor].
  - cbn [map fst] in H. apply NoDup_cons_iff in H. destruct H as [N0 N1].
    destruct (str_eqb k k0) eqn:E; cbn [map fst].
    + apply str_eqb_eq in E. subst k0. constructor; assumption.
    + constructor; [|apply IH; exact N1].
      rewrite set_prop_keys. intros [->|I]; [|contradiction].
      assert (X : str_eqb k k = true) by (apply str_eqb_eq; reflexivity). congruence.
Qed.

Lemma set_prop_values k v (Q : jsstring -> Prop) : forall o,
  Q v -> (forall e, In e o -> Q (snd e)) -> forall e, In e (set_prop k v o) -> Q (snd e).
Proof.
  induction o as [|[k0 v0] o IH]; intros Hv Ho e He; cbn [set_prop] in He.
  - destruct He as [<-|[]]. exact Hv.
  - destruct (str_eqb k k0).
    + destruct He as [<-|He]; [exact Hv|]. apply Ho. right. exact He.
    + destruct He as [<-|He]; [apply (Ho (k0, v0)); left; reflexivity|].
      apply IH; [exact Hv| |exact He]. intros e' He'. apply Ho. right. exact He'.
Qed.

Lemma save_ok o cur content :
  sections_ok o -> In cur section_names -> sections_ok (save o cur content).
Proof.
  intros [N V] C. unfold save. destruct (0 <? List.length content)%nat; [|split; assumption].
  split; [apply set_prop_NoDup; exact N|]. intros e He. split.
  - assert (K : In (fst e) (List.map fst (set_prop cur (trim (join [LF] content)) o)))
      by (apply in_map; exact He).
    apply set_prop_keys in K. destruct K as [->|K]; [exact C|].
    apply in_map_iff in K. destruct K as [e' [<- He']]. apply V. exact He'.
  - apply (set_prop_values cur (trim (join [LF] content))
             (fun x => trim x = x) o (trim_idem _)); [|exact He].
    intros e' He'. apply V. exact He'.
Qed.

Lemma foundSection_name t name : foundSection t = Some name -> In name section_names.
Proof.
  unfold foundSection. destruct (find _ sectionPatterns) as [e|] eqn:F; [|discriminate].
  intros H. injection H as <-. apply find_some in F. destruct F as [I _].
  right. apply in_map. exact I.
Qed.

Lemma sections_loop_ok : forall lines o cur content,
  sections_ok o -> In cur section_names -> sections_ok (sections_loop lines o cur content).
Proof.
  induction lines as [|line rest IH]; intros o cur content O C; cbn [sections_loop].
  - apply save_ok; assumption.
  - cbv zeta. destruct (List.length (trim line) =? 0)%nat; [apply IH; assumption|].
    destruct (foundSection (trim line)) as [name|] eqn:F; [|apply IH; assumption].
    apply IH; [apply save_ok; assumption|]. apply (foundSection_name _ _ F).
Qed.

(** X17.  On every input extractSections returns an object
    with at most eight keys, each one of header, experience, education,
    skills, projects, certifications, summary and contact, and every value
    is trimmed. *)
Theorem extractSections_entries :
  forall v : value,
    NoDup (List.map fst (extractSections v)) /\
    (List.length (extractSections v) <= 8)%nat /\
    forall k x, In (k, x) (extractSections v) -> In k section_names /\ trim x = x.
Proof.
  intros v.
  assert (O : sections_ok (extractSections v)).
  { assert (E : sections_ok []) by (split; [constructor|intros e []]).
    destruct v; try exact E. unfold extractSections. destruct (truthy (VStr s)); [|exact E].
    apply sections_loop_ok; [exact E|left; reflexivity]. }
  destruct O as [N V]. split; [exact N|]. split.
  - rewrite <- (length_map fst).
    apply (NoDup_incl_length N (l' := section_names)).
    intros k Hk. apply in_map_iff in Hk. destruct Hk as [e [<- He]]. apply V. exact He.
  - intros k x H. apply (V (k, x) H).
Qed.

(** ** extractSections: texts without a header *)

Lemma join_split_at : forall s, join [LF] (split_at LF s) = s.
Proof.
  induction s as [|c s IH]; [reflexivity|].
  cbn [split_at]. destruct (N.eqb c LF) eqn:E.
  - apply N.eqb_eq in E. subst c. cbn [join].
    destruct (split_at LF s) as [|h r] eqn:S.
    + destruct (split_at_head LF s) as [h [r [b [S' _]]]]. congruence.
    + cbn [app]. rewrite IH. reflexivity.
  - destruct (split_at_head LF s) as [h [r [b [S _]]]]. rewrite S in IH |- *.
    destruct r as [|h' r]; cbn [join] in IH |- *; rewrite <- IH; reflexivity.
Qed.

Lemma join_app sep : forall a b,
  a <> [] -> b <> [] -> join sep (a ++ b) = join sep a ++ sep ++ join sep b.
Proof.
  induction a as [|x a IH]; intros b Na Nb; [contradiction|].
  destruct a as [|y a].
  - cbn [app join]. destruct b; [contradiction|reflexivity].
  - change ((x :: y :: a) ++ b) with (x :: (y :: a) ++ b).
    cbn [join]. destruct ((y :: a) ++ b) eqn:E; [discriminate E|]. rewrite <- E.
    rewrite IH by (discriminate || exact Nb). rewrite <- !app_assoc. reflexivity.
Qed.

(** With no header among the lines, and blank lines that are empty, the
    loop only collects the lines. *)
Lemma sections_loop_plain : forall lines cur content,
  (forall line, In line lines -> foundSection (trim line) = None) ->
  (forall line, In line lines -> trim line = [] -> line = []) ->
  sections_loop lines [] cur content = save [] cur (content ++ lines).
Proof.
  induction lines as [|line rest IH]; intros cur content H B; cbn [sections_loop].
  - rewrite app_nil_r. reflexivity.
  - cbv zeta.
    assert (R : sections_loop rest [] cur (content ++ [line])
                = save [] cur (content ++ line :: rest)).
    { rewrite IH; [rewrite <- app_assoc; reflexivity| |];
        intros l Hl; [apply H|apply B]; right; exact Hl. }
    destruct (List.length (trim line) =? 0)%nat eqn:E.
    + apply Nat.eqb_eq in E. apply length_zero_iff_nil in E.
      rewrite <- (B line (or_introl eq_refl) E) at 1. exact R.
    + rewrite (H line (or_introl eq_refl)). exact R.
Qed.

(** X18.  A text none of whose lines starts like a
    section header, and whose blank lines are empty, comes back as the
    single section header holding the trimmed text.  A text of one line
    that starts like a section header comes back as the empty object: the
    header line itself is dropped and nothing follows it. *)
Theorem extractSections_without_headers :
  forall s : jsstring,
    s <> [] ->
    ((forall line, In line (split_at LF s) -> foundSection (trim line) = None) ->
     (forall line, In line (split_at LF s) -> trim line = [] -> line = []) ->
     extractSections (VStr s) = [(lit "header", trim s)]) /\
    (~ In LF s -> foundSection (trim s) <> None ->
     extractSections (VStr s) = []).
Proof.
  intros s NE. unfold extractSections.
  assert (T : truthy (VStr s) = true) by (destruct s; [contradiction|reflexivity]).
  rewrite T. split.
  - intros H B. rewrite (sections_loop_plain _ _ _ H B). cbn [app]. unfold save.
    destruct (split_at_head LF s) as [h [r [b [S _]]]].
    assert (L : (0 <? List.length (split_at LF s))%nat = true)
      by (rewrite S; reflexivity).
    rewrite L. cbn [set_prop]. rewrite join_split_at. reflexivity.
  - intros NL F.
    assert (S : split_at LF s = [s]).
    { clear -NL. induction s as [|c s IH]; [reflexivity|]. cbn [split_at].
      destruct (N.eqb c LF) eqn:E.
      - apply N.eqb_eq in E. exfalso. apply NL. left. exact E.
      - rewrite IH; [reflexivity|]. intros I. apply NL. right. exact I. }
    rewrite S. cbn [sections_loop]. cbv zeta.
    destruct (List.length (trim s) =? 0)%nat eqn:E.
    + apply Nat.eqb_eq in E. apply length_zero_iff_nil in E.
      exfalso. apply F. rewrite E. reflexivity.
    + destruct (foundSection (trim s)); [reflexivity|contradiction].
Qed.

Lemma extractSections_without_headers_witness :
  extractSections (VStr (lit "  Jane Doe, engineer" ++ [10; 10]%N ++ lit "Austin "))
  = [(lit "header", lit "Jane Doe, engineer" ++ [10; 10]%N ++ lit "Austin")] /\
  extractSections (VStr (lit "Skills: Java, SQL")) = [].
Proof.
  split.
  - apply (proj1 (extractSections_without_headers
                    (lit "  Jane Doe, engineer" ++ [10; 10]%N ++ lit "Austin ")
                    ltac:(discriminate))).
    + intros line H. cbn in H.
      repeat (destruct H as [<-|H]; [reflexivity|]). contradiction.
    + intros line H. cbn in H.
      repeat (destruct H as [<-|H]; [intros X; (reflexivity || discriminate X)|]).
      contradiction.
  - apply (proj2 (extractSections_without_headers (lit "Skills: Java, SQL")
                    ltac:(discriminate))).
    + intros H. cbn in H. repeat (destruct H as [H|H]; [discriminate H|]). exact H.
    + discriminate.
Defined.

(** ** normalizeCompanyNames: the full stop of a suffix is a wild card *)

Lemma wordChar_ascii c : isWordChar c = true -> (c < 128)%N.
Proof.
  unfold isWordChar. intros H. apply orb_true_iff in H. destruct H as [H|H].
  - apply orb_true_iff in H. destruct H as [H|H];
      [apply alpha_ascii in H|apply digit_ascii in H]; lia.
  - apply N.eqb_eq in H. lia.
Qed.

Lemma normalized_to_spec (stem : string) (c : N) (by_ : string) :
  normalized_to stem c by_ = true ->
  normalizeCompanyNames (VStr (lit stem ++ [c])) = VStr (lit by_).
Proof.
  unfold normalized_to. destruct (normalizeCompanyNames (VStr (lit stem ++ [c]))) as [| | | |r| |];
    try discriminate. intros H. apply str_eqb_eq in H. rewrite H. reflexivity.
Qed.

(** X19.  The dot of the suffixes is not escaped when
    the pattern is built, so it stands for any code unit: co, inc, corp
    and ltd followed by any one letter, digit or underscore are rewritten
    as if the dot had been there. *)
Theorem normalizeCompanyNames_dot_is_wild_card :
  forall c : N,
    isWordChar c = true ->
    normalizeCompanyNames (VStr (lit "co" ++ [c])) = VStr (lit "Co.") /\
    normalizeCompanyNames (VStr (lit "inc" ++ [c])) = VStr (lit "Inc") /\
    normalizeCompanyNames (VStr (lit "corp" ++ [c])) = VStr (lit "Corp") /\
    normalizeCompanyNames (VStr (lit "ltd" ++ [c])) = VStr (lit "Ltd").
Proof.
  intros c W. pose proof (wordChar_ascii c W) as A.
  assert (B : forall stem by_,
             forallb (fun x => implb (isWordChar x) (normalized_to stem x by_))
                     (List.map N.of_nat (seq 0 128)) = true ->
             normalizeCompanyNames (VStr (lit stem ++ [c])) = VStr (lit by_)).
  { intros stem by_ H. apply normalized_to_spec.
    pose proof (bounded_forall _ 128 H c A) as X. cbv beta in X. rewrite W in X. exact X. }
  repeat split; apply B; vm_compute; reflexivity.
Qed.

Lemma normalizeCompanyNames_dot_is_wild_card_witness :
  normalizeCompanyNames (VStr (lit "com")) = VStr (lit "Co.") /\
  normalizeCompanyNames (VStr (lit "inch")) = VStr (lit "Inc").
Proof.
  destruct (normalizeCompanyNames_dot_is_wild_card 109%N eq_refl) as [A _].
  destruct (normalizeCompanyNames_dot_is_wild_card 104%N eq_refl) as [_ [B _]].
  split; [exact A|exact B].
Defined.

(** ** validateTextQuality *)

Lemma uniq_length : forall l seen, (List.length (uniq seen l) <= List.length l)%nat.
Proof.
  induction l as [|x l IH]; intros seen; cbn [uniq List.length]; [lia|].
  destruct (str_mem x seen); [specialize (IH seen)|specialize (IH (x :: seen))];
    cbn [List.length]; lia.
Qed.

Lemma filter_length_le (A : Type) (f : A -> bool) (l : list A) :
  (List.length (List.filter f l) <= List.length l)%nat.
Proof.
  induction l as [|x l IH]; cbn [filter List.length]; [lia|].
  destruct (f x); cbn [List.length]; lia.
Qed.

(** The matches of a pattern that takes at least one code unit are no
    more than the code units of the text. *)
Lemma match_all_count ml r s :
  (forall w, derives r w -> w <> []) ->
  (List.length (match_all ml r s) <= List.length s)%nat.
Proof.
  intros NE. unfold match_all, scan_all.
  destruct (scan ml (S (List.length s)) r None s) as [ms tl] eqn:E.
  apply scan_sound in E. destruct E as [E F]. cbn [fst]. rewrite E, length_map.
  unfold pieces. rewrite length_app. clear E.
  induction F as [|[sk mt] ms D F IH]; cbn [List.length map List.concat fst snd]; [lia|].
  rewrite !length_app. cbn [snd] in D. apply NE in D.
  destruct mt; [contradiction|]. cbn [List.length]. lia.
Qed.

Lemma ratio_unit (a b : nat) :
  (a <= b)%nat -> (1 <= b)%nat -> in_range 0 1 (ratio a b).
Proof.
  intros L P. destruct b as [|b]; [lia|]. unfold ratio, in_range.
  eexists. split; [reflexivity|]. unfold Qle. cbn [Qnum Qden inject_Z].
  rewrite Z.mul_1_r, Z.mul_1_l.
  assert (E : Z.pos (Pos.of_nat (S b)) = Z.of_nat (S b)).
  { rewrite <- positive_nat_Z. rewrite Nat2Pos.id by discriminate. reflexivity. }
  split; [lia|]. rewrite E. lia.
Qed.

(** X20.  validateTextQuality declares a text valid exactly
    when it is a string of at least 100 code units, which is also exactly
    when it lists no issue.  In every full report the length is that of
    the text, the word count is at least 1, the number of distinct long
    words is at most the word count, both ratios lie between 0 and 1, and
    at most three warnings are given. *)
Theorem validateTextQuality_report :
  forall (unicodeLowerCase : jsstring -> jsstring) (text : value),
    let q := validateTextQuality unicodeLowerCase text in
    (isValid q = true <-> exists s, text = VStr s /\ (100 <= List.length s)%nat) /\
    (isValid q = true <-> issues q = []) /\
    forall ok iss warnings st,
      q = Report ok iss warnings st ->
      (exists s, text = VStr s /\ Stats.length st = List.length s) /\
      (1 <= Stats.wordCount st)%nat /\
      (Stats.uniqueWords st <= Stats.wordCount st)%nat /\
      in_range 0 1 (Stats.vocabularyRatio st) /\
      in_range 0 1 (Stats.specialCharRatio st) /\
      (List.length warnings <= 3)%nat.
Proof.
  intros u text q. subst q.
  destruct text as [| |b|n|s|l|kv];
    try (split; [split; [discriminate|intros [s [H _]]; discriminate H]|];
         split; [split; discriminate|]; intros ok iss warnings st H; discriminate H).
  destruct s as [|c s].
  - split; [split; [discriminate|intros [s [H L]]; injection H as <-; cbn in L; lia]|].
    split; [split; discriminate|]. intros ok iss warnings st H; discriminate H.
  - unfold validateTextQuality. cbn [truthy]. cbv zeta.
    set (words := split false (Plus ws) (toLowerCase u (c :: s))).
    set (keys := uniq [] (List.filter
                            (fun word => (3 <? List.length word)%nat && becomes_key word)
                            words)).
    assert (W : (1 <= List.length words)%nat) by apply split_length.
    assert (K : (List.length keys <= List.length words)%nat).
    { subst keys. etransitivity; [apply uniq_length|apply filter_length_le]. }
    split; [|split].
    + cbn [isValid]. destruct (List.length (c :: s) <? 100)%nat eqn:L.
      * apply Nat.ltb_lt in L. split; [discriminate|].
        intros [s' [H L']]. injection H as <-. lia.
      * apply Nat.ltb_ge in L. split; [intros _; exists (c :: s); auto|reflexivity].
    + cbn [isValid issues]. destruct (List.length (c :: s) <? 100)%nat;
        split; (reflexivity || discriminate).
    + intros ok iss warnings st H. injection H as _ _ <- <-.
      cbn [Stats.length Stats.wordCount Stats.uniqueWords Stats.vocabularyRatio
           Stats.specialCharRatio].
      split; [exists (c :: s); split; reflexivity|].
      split; [exact W|]. split; [exact K|].
      split; [apply ratio_unit; [exact K|exact W]|].
      split.
      * change (in_range 0 1 (ratio (List.length (match_all false (Cls special) (c :: s)))
                                    (List.length (c :: s)))).
        apply ratio_unit; [|cbn; lia]. apply match_all_count.
        intros w D. apply derives_cls_inv in D. destruct D as [x [-> _]]. discriminate.
      * rewrite !length_app.
        repeat match goal with
               | |- context [if ?b then _ else _] => destruct b
               end; cbn; lia.
Qed.

(** ** sanitizeText: the runs of the result *)

(** A footer match runs to the end of the text. *)
Lemma marker_match_to_end u prev t rest :
  match_here true (Seq (seq_of chr u) (Seq (Star (Cls any)) Eol)) prev t = Some rest ->
  rest = [].
Proof.
  unfold match_here. cbn [m]. intros H.
  apply m_steps in H. destruct H as [p' [s' [_ K]]].
  change (m true (Star (Cls any)) p' s'
            (fun p'' s'' => m true Eol p'' s'' (fun _ z => Some z)) = Some rest) in K.
  rewrite star_cls_eq in K. apply star_cls_greedy in K.
  destruct K as [u0 [v [E [_ [K G]]]]].
  destruct (Nat.lt_ge_cases (List.length u0) (List.length s')) as [L|L].
  - exfalso.
    assert (A : forallb any s' = true) by (apply forallb_forall; intros x _; reflexivity).
    specialize (G s' [] (eq_sym (app_nil_r s')) A L). cbn in G. discriminate G.
  - assert (V : v = []).
    { assert (X : List.length s' = (List.length u0 + List.length v)%nat)
        by (rewrite E, length_app; reflexivity).
      destruct v; [reflexivity|]. cbn [List.length] in X. lia. }
    subst v. cbn in K. injection K as <-. reflexivity.
Qed.

Lemma marker_never_empty u prev s :
  u <> [] ->
  match_here true (Seq (seq_of chr u) (Seq (Star (Cls any)) Eol)) prev s <> Some s.
Proof.
  intros NE. apply never_empty_of_steps. clear prev s. intros prev s p' S.
  apply steps_seq_inv in S. destruct S as [p1 [s1 [S1 S2]]].
  apply steps_str_inv in S1; [|exact NE]. destruct S1 as [E _].
  apply steps_length in S2.
  assert (L : List.length s = (List.length u + List.length s1)%nat)
    by (rewrite E at 1; apply length_app).
  destruct u; [contradiction|]. cbn [List.length] in L. lia.
Qed.

Lemma scanned_nil ml r prev ms tl : scanned ml r prev [] ms tl -> ms = [] /\ tl = [].
Proof.
  intros H. remember (@nil N) as s eqn:E.
  destruct H as [prev s _|prev sk w rest ms tl NW _ _].
  - subst s. split; reflexivity.
  - exfalso. destruct sk; [destruct w; [contradiction|discriminate E]|discriminate E].
Qed.

(** Removing a footer leaves the text, or a prefix of it. *)
Lemma footer_cut (mk : string) (s : jsstring) :
  lit mk <> [] ->
  exists b, s = replace true (cat [str mk; Star (Cls any); Eol]) [] s ++ b.
Proof.
  intros NE.
  change (cat [str mk; Star (Cls any); Eol])
    with (Seq (seq_of chr (lit mk)) (Seq (Star (Cls any)) Eol)).
  destruct (replace_scanned true _ (fun prev t => marker_never_empty (lit mk) prev t NE) [] s)
    as [ms [tl [Sc E]]].
  rewrite E. clear E.
  destruct Sc as [prev s _|prev sk w rest ms tl NW Se Sc].
  - exists []. rewrite out_nil, app_nil_r. reflexivity.
  - apply search_some_spec in Se. destruct Se as [_ [M _]].
    apply marker_match_to_end in M. subst rest.
    apply scanned_nil in Sc. destruct Sc as [-> ->].
    rewrite out_cons, out_nil. exists w. rewrite !app_nil_r. reflexivity.
Qed.

Lemma footer_cut_keeps_run (mk : string) k p s :
  lit mk <> [] ->
  free (run_at k p) None s = true ->
  free (run_at k p) None (replace true (cat [str mk; Star (Cls any); Eol]) [] s) = true.
Proof.
  intros NE H. destruct (footer_cut mk s NE) as [b E]. rewrite E in H.
  apply (free_drop_suffix (run_at k p) b); [|exact H].
  intros prev t R. apply run_ext. exact R.
Qed.

Lemma finish_keeps_run k p z :
  (1 <= k)%nat -> (forall c, isLineTerminator c = true -> p c = false) ->
  free (run_at k p) None z = true -> free (run_at k p) None (finish z) = true.
Proof.
  intros K NL H. apply finish_keeps; [apply run_local; assumption| |exact H].
  intros s. apply trim_free_run.
Qed.

Lemma clean_keeps_run k p x :
  (1 <= k)%nat -> (forall c, isLineTerminator c = true -> p c = false) ->
  free (run_at k p) None (before_footers x) = true ->
  free (run_at k p) None (clean x) = true.
Proof.
  intros K NL H. rewrite clean_before_footers. apply finish_keeps_run; [exact K|exact NL|].
  apply (footer_cut_keeps_run "This email and any attachments"); [discriminate|].
  apply (footer_cut_keeps_run "Confidential and Proprietary"); [discriminate|].
  exact H.
Qed.

Lemma dots_always x : free (run_at 4 (N.eqb DOT)) None (before_footers x) = true.
Proof.
  rewrite (before_footers_split 13).
  apply (keeps_run_edits (fun s => free (run_at 4 (N.eqb DOT)) None s = true)).
  - each_edit; intros s H; keep_run dots_local.
  - rewrite (run_edits_next edits 12 (replace false re_dots [DOT; DOT; DOT])) by reflexivity.
    apply (run_collapse false 4 (N.eqb DOT) [DOT; DOT; DOT]); simpl; lia.
Qed.

Lemma hyphens_always x : free (run_at 3 (N.eqb HYPHEN)) None (before_footers x) = true.
Proof.
  rewrite (before_footers_split 14).
  apply (keeps_run_edits (fun s => free (run_at 3 (N.eqb HYPHEN)) None s = true)).
  - each_edit; intros s H; keep_run hyphens_local.
  - rewrite (run_edits_next edits 13 (replace false re_hyphens [HYPHEN; HYPHEN]))
      by reflexivity.
    apply (run_collapse false 3 (N.eqb HYPHEN) [HYPHEN; HYPHEN]); simpl; lia.
Qed.

Lemma underscores_always x :
  free (run_at 3 (N.eqb UNDERSCORE)) None (before_footers x) = true.
Proof.
  rewrite (before_footers_split 15).
  apply (keeps_run_edits (fun s => free (run_at 3 (N.eqb UNDERSCORE)) None s = true)).
  - each_edit; intros s H; keep_run underscores_local.
  - rewrite (run_edits_next edits 14 (replace false re_underscores [UNDERSCORE; UNDERSCORE]))
      by reflexivity.
    apply (run_collapse false 3 (N.eqb UNDERSCORE) [UNDERSCORE; UNDERSCORE]); simpl; lia.
Qed.

(** Where no run of [k] starts, a run is shorter than [k]. *)
Lemma free_run_short k p y :
  free (run_at k p) None y = true ->
  forall a w b, y = a ++ w ++ b -> forallb p w = true -> (List.length w < k)%nat.
Proof.
  intros F a w b E W. rewrite E in F. rewrite free_app in F.
  apply andb_true_iff in F. destruct F as [_ F]. apply free_head in F.
  unfold run_at in F. apply Nat.leb_gt in F. rewrite takeWhile_app, W in F.
  rewrite length_app in F. lia.
Qed.

(** X21.  In the text sanitizeText returns a run of dots is
    shorter than 4, a run of hyphens shorter than 3 and a run of
    underscores shorter than 3; when the input holds no form feed and no
    non-breaking space, no two blanks or tabs are adjacent either. *)
Theorem sanitizeText_collapses_runs :
  forall x : jsstring,
    exists y,
      sanitizeText (VStr x) = Normal y /\
      (forall a w b, y = a ++ w ++ b -> forallb (N.eqb DOT) w = true ->
                     (List.length w < 4)%nat) /\
      (forall a w b, y = a ++ w ++ b -> forallb (N.eqb HYPHEN) w = true ->
                     (List.length w < 3)%nat) /\
      (forall a w b, y = a ++ w ++ b -> forallb (N.eqb UNDERSCORE) w = true ->
                     (List.length w < 3)%nat) /\
      (~ In FF x -> ~ In NBSP x ->
       forall a w b, y = a ++ w ++ b -> forallb blank w = true -> (List.length w < 2)%nat).
Proof.
  intros x. destruct x as [|c x].
  - exists []. split; [reflexivity|].
    assert (Z : forall k a (w : jsstring) b, [] = a ++ w ++ b -> (List.length w < S k)%nat).
    { intros k a w b E. symmetry in E. apply app_eq_nil in E. destruct E as [_ E].
      apply app_eq_nil in E. destruct E as [-> _]. cbn. lia. }
    repeat split; intros; eapply Z; eassumption.
  - exists (clean (c :: x)). split; [reflexivity|].
    split; [|split; [|split]].
    + apply free_run_short. apply clean_keeps_run; [lia|apply chr_not_LT; reflexivity|].
      apply dots_always.
    + apply free_run_short. apply clean_keeps_run; [lia|apply chr_not_LT; reflexivity|].
      apply hyphens_always.
    + apply free_run_short. apply clean_keeps_run; [lia|apply chr_not_LT; reflexivity|].
      apply underscores_always.
    + intros Hff Hnb. apply free_run_short. apply clean_keeps_run; [lia|exact blank_not_LT|].
      apply (blanks_before_footers (c :: x) (lacks_notin _ _ Hff) (lacks_notin _ _ Hnb)).
Qed.

Lemma sanitizeText_collapses_runs_witness :
  exists y,
    sanitizeText (VStr sample_text) = Normal y /\
    forall a w b, y = a ++ w ++ b -> forallb blank w = true -> (List.length w < 2)%nat.
Proof.
  destruct (sanitizeText_collapses_runs sample_text) as [y [E [_ [_ [_ B]]]]].
  exists y. split; [exact E|]. apply B.
  - intros H. vm_compute in H. repeat (destruct H as [H|H]; [discriminate H|]). exact H.
  - intros H. vm_compute in H. repeat (destruct H as [H|H]; [discriminate H|]). exact H.
Defined.

(** ** sanitizeText: page markers and standalone numbers *)

(** X22.  When neither footer pattern finds a match at the
    time its assignment is reached, the text sanitizeText returns holds no
    line that is a page marker (Page n of m) and no line that is a number
    alone. *)
Theorem sanitizeText_removes_page_lines :
  forall x : jsstring,
    test true re_confidential (before_footers x) = false ->
    test true re_email_footer (before_footers x) = false ->
    exists y,
      sanitizeText (VStr x) = Normal y /\
      test true re_page y = false /\ test true re_number_line y = false.
Proof.
  intros x Kc Ke. destruct x as [|c x]; [exists []; repeat split; reflexivity|].
  exists (clean (c :: x)). split; [reflexivity|].
  apply test_false in Kc, Ke. rewrite clean_before_footers.
  rewrite (replace_no_match true re_confidential [] _ Kc).
  rewrite (replace_no_match true re_email_footer [] _ Ke).
  split; apply test_false.
  - apply (line_search_none re_page page_core page_core_shape page_steps).
    apply (finish_keeps _ (line_at_local page_core page_core_shape));
      [apply trim_free_line|apply page_before_footers].
  - apply (line_search_none re_number_line digits_core digits_core_shape number_line_steps).
    apply (finish_keeps _ (line_at_local digits_core digits_core_shape));
      [apply trim_free_line|apply number_before_footers].
Qed.

Lemma sanitizeText_removes_page_lines_witness :
  exists y,
    sanitizeText (VStr sample_text) = Normal y /\
    test true re_page y = false /\ test true re_number_line y = false.
Proof.
  apply (sanitizeText_removes_page_lines sample_text); vm_compute; reflexivity.
Defined.

(** ** Instances *)

Lemma sanitizeText_strips_witness :
  exists y, sanitizeText (VStr sample_text) = Normal y /\ ~ In CR y /\ ~ In EM_DASH y.
Proof.
  destruct (sanitizeText_strips (VStr sample_text)) as [y [E H]].
  exists y. split; [exact E|]. split; apply H; cbn; auto 10.
Defined.

Lemma sanitizeText_trimmed_witness :
  exists y, sanitizeText (VStr sample_text) = Normal y /\ trim y = y /\
            isSpace (hd 0%N y) = false.
Proof.
  destruct (sanitizeText_trimmed (VStr sample_text)) as [y [E [T H]]].
  exists y. split; [exact E|]. split; [exact T|].
  assert (Y : exists c t, y = c :: t).
  { vm_compute in E. injection E as <-. eexists. eexists. reflexivity. }
  destruct Y as [c [t Y]]. destruct (H c t Y) as [Hc _]. rewrite Y. exact Hc.
Defined.

Lemma sanitizeText_no_blank_lines_in_a_row_witness :
  exists y, sanitizeText (VStr sample_text) = Normal y /\
            forall a b, y <> a ++ [LF; 32%N; LF; LF] ++ b.
Proof.
  destruct (sanitizeText_no_blank_lines_in_a_row (VStr sample_text)) as [y [E [_ H]]].
  exists y. split; [exact E|]. intros a b.
  apply (H a [32%N] [] b); reflexivity.
Defined.

Lemma validatePDF_verdict_witness :
  let b := pdf_magic ++ List.repeat Byte.x20 1020 in
  exists v calls,
    validatePDF (fun _ _ => Normal tt) b = (Normal v, calls) /\
    PDFParser.isValid v = true /\ calls = [Parse b 1%N].
Proof.
  intros b.
  destruct (validatePDF_verdict (fun _ _ => Normal tt) b) as [v [calls [E [V [_ [_ [C _]]]]]]].
  exists v, calls. split; [exact E|].
  assert (L : (1024 <= List.length b)%nat)
    by (subst b; rewrite length_app, repeat_length; cbn; lia).
  split.
  - apply V. split; [reflexivity|]. split; [exact L|reflexivity].
  - apply C. split; [reflexivity|exact L].
Defined.

Lemma extractExperience_companies_witness :
  exists info,
    extractExperience (VStr (lit "Worked at Acme Technologies; then Beta Corp, 3 years"))
    = Normal info /\
    forall c, In c (companies info) -> (3 < List.length c < 100)%nat /\ trim c = c.
Proof.
  destruct (extractExperience_companies
              (VStr (lit "Worked at Acme Technologies; then Beta Corp, 3 years")))
    as [info [E [_ [_ [_ [H _]]]]]].
  exists info. split; [exact E|]. intros c I. destruct (H c I) as [L [T _]]. auto.
Defined.

Lemma scoreResume_outcomes_witness :
  let no_usage :=
    VObj [(lit "choices",
           VArr [VObj [(lit "message", VObj [(lit "content", VStr (lit "{}"))])]])] in
  fst (scoreResume (fun t (_ : option unit) _ => t) (fun _ _ => Resolved no_usage)
                   (fun _ => Normal (VObj []))
                   (lit "text") None jane {| calls := 0; paused := 0 |})
  = Throw "AI scoring failed: TypeError"%string.
Proof.
  intros no_usage.
  destruct (scoreResume_outcomes unit
              (fun t _ _ => t) (fun _ _ => Resolved no_usage) (fun _ => Normal (VObj []))
              (lit "text") None jane {| calls := 0; paused := 0 |}) as [_ [_ [_ H]]].
  exact (H _ (VStr (lit "{}")) (VObj []) eq_refl eq_refl eq_refl eq_refl).
Defined.

Lemma extractSections_entries_witness :
  let text := lit "Jane Doe" ++ [10%N] ++ lit "Skills" ++ [10%N] ++ lit " Java " in
  extractSections (VStr text) = [(lit "header", lit "Jane Doe"); (lit "skills", lit "Java")] /\
  In (lit "skills") section_names /\ trim (lit "Java") = lit "Java".
Proof.
  intros text. split; [reflexivity|].
  destruct (extractSections_entries (VStr text)) as [_ [_ H]].
  apply (H (lit "skills") (lit "Java")). simpl. right. left. reflexivity.
Defined.

Lemma validateTextQuality_report_witness :
  exists ok iss warnings st,
    validateTextQuality (fun s => s) (VStr (lit "Java, SQL and __proto__ __proto__ ..."))
    = Report ok iss warnings st /\
    ok = false /\ Stats.wordCount st = 6%nat /\ Stats.uniqueWords st = 1%nat /\
    in_range 0 1 (Stats.vocabularyRatio st).
Proof.
  eexists. eexists. eexists. eexists. split; [vm_compute; reflexivity|].
  split; [reflexivity|]. split; [reflexivity|]. split; [reflexivity|].
  destruct (validateTextQuality_report (fun s => s)
              (VStr (lit "Java, SQL and __proto__ __proto__ ..."))) as [_ [_ H]].
  destruct (H _ _ _ _ ltac:(vm_compute; reflexivity)) as [_ [_ [_ [V _]]]].
  exact V.
Defined.

(* ===================================================================== *)
(** * Part X. Proofs: the fixed points of sanitizeText, the years of      *)
(**   extractExperience                                                   *)
(* ===================================================================== *)

(** ** sanitizeText: the texts it leaves alone *)

(** Where a predicate that reads a prefix holds nowhere in the skipped
    text, it holds nowhere in that text taken alone. *)
Lemma skipped_free (P : at_pos) (z : jsstring) :
  (forall prev t, P prev t = true -> P prev (t ++ z) = true) ->
  forall a prev, skipped P prev a z = true -> P (last_of prev a) [] = false ->
                 free P prev a = true.
Proof.
  intros Ext. induction a as [|c a IH]; intros prev S E.
  - cbn [free]. rewrite last_of_nil in E. rewrite E. reflexivity.
  - cbn [skipped] in S. apply andb_true_iff in S. destruct S as [S1 S2].
    cbn [free]. apply andb_true_iff. split.
    + apply negb_true_iff. apply negb_true_iff in S1.
      destruct (P prev (c :: a)) eqn:X; [|reflexivity].
      apply Ext in X. congruence.
    + apply IH; [exact S2|]. rewrite last_of_cons in E. exact E.
Qed.

Lemma starts_nil u : u <> [] -> starts u [] = false.
Proof. destruct u; [congruence|reflexivity]. Qed.

(** After a footer is cut, its marker is nowhere in the text. *)
Lemma footer_removed (mk : string) (s : jsstring) :
  lit mk <> [] ->
  free (starts_at (lit mk)) None
       (replace true (cat [str mk; Star (Cls any); Eol]) [] s) = true.
Proof.
  intros NE.
  destruct (search true (cat [str mk; Star (Cls any); Eol]) None s)
    as [[[sk w] rest]|] eqn:Se.
  - change (cat [str mk; Star (Cls any); Eol])
      with (Seq (seq_of chr (lit mk)) (Seq (Star (Cls any)) Eol)) in *.
    destruct (replace_scanned true _ (fun prev t => marker_never_empty (lit mk) prev t NE) [] s)
      as [ms [tl [Sc E]]].
    rewrite E. clear E.
    inversion Sc as [prev s0 Se0|prev sk0 w0 rest0 ms0 tl0 NW Se0 Sc0]; subst.
    + congruence.
    + rewrite Se0 in Se. injection Se as -> -> ->.
      apply search_some_spec in Se0. destruct Se0 as [_ [M Sk]].
      apply marker_match_to_end in M. subst rest.
      apply scanned_nil in Sc0. destruct Sc0 as [-> ->].
      rewrite out_cons, out_nil, !app_nil_r.
      apply (skipped_free (starts_at (lit mk)) (w ++ [])).
      * intros prev t H. apply starts_ext. exact H.
      * revert Sk. apply skipped_mono. intros prev t H.
        rewrite (matchable_marker (lit mk) prev t NE). exact H.
      * apply starts_nil. exact NE.
  - rewrite (replace_no_match true _ [] s Se).
    apply (marker_search_none mk s NE). exact Se.
Qed.

Lemma confidential_nonempty : lit "Confidential and Proprietary" <> [].
Proof. discriminate. Qed.

Lemma email_footer_nonempty : lit "This email and any attachments" <> [].
Proof. discriminate. Qed.

(** Neither marker is left in a result. *)
Lemma clean_no_confidential x : free (starts_at confidential) None (clean x) = true.
Proof.
  rewrite clean_before_footers.
  apply (finish_keeps _ confidential_local); [apply trim_free_starts|].
  destruct (footer_cut "This email and any attachments"
              (replace true re_confidential [] (before_footers x)) email_footer_nonempty)
    as [b E].
  apply (free_drop_suffix (starts_at confidential) b);
    [intros prev t H; apply starts_ext; exact H|].
  fold re_email_footer in E. rewrite <- E.
  apply (footer_removed "Confidential and Proprietary" _ confidential_nonempty).
Qed.

Lemma clean_no_email_footer x : free (starts_at email_footer) None (clean x) = true.
Proof.
  rewrite clean_before_footers.
  apply (finish_keeps _ email_footer_local); [apply trim_free_starts|].
  apply (footer_removed "This email and any attachments" _ email_footer_nonempty).
Qed.

(** What holds of every result, and the three things that are left to
    ask of it. *)
Lemma tidy_of_three x :
  free (run_at 2 blank) None (clean x) = true ->
  free (line_at page_core) None (clean x) = true ->
  free (line_at digits_core) None (clean x) = true ->
  tidy (clean x).
Proof.
  intros Hb Hp Hn. constructor.
  - apply lacks_clean; [reflexivity|].
    apply (cleared_before_footers 1 CR [LF]); (reflexivity || discriminate).
  - apply lacks_clean; [reflexivity|]. apply form_feed_before_footers.
  - apply lacks_clean; [reflexivity|].
    apply (cleared_before_footers 5 NBSP [SP]); (reflexivity || discriminate).
  - apply lacks_clean; [reflexivity|].
    apply (cleared_before_footers 7 EN_DASH [HYPHEN]); (reflexivity || discriminate).
  - apply lacks_clean; [reflexivity|].
    apply (cleared_before_footers 8 EM_DASH [HYPHEN; HYPHEN]); (reflexivity || discriminate).
  - apply lacks_clean; [reflexivity|].
    apply (cleared_before_footers 11 ELLIPSIS [DOT; DOT; DOT]); (reflexivity || discriminate).
  - exact Hb.
  - apply clean_keeps_run; [lia|apply chr_not_LT; reflexivity|apply dots_always].
  - apply clean_keeps_run; [lia|apply chr_not_LT; reflexivity|apply hyphens_always].
  - apply clean_keeps_run; [lia|apply chr_not_LT; reflexivity|apply underscores_always].
  - exact Hp.
  - exact Hn.
  - apply clean_no_confidential.
  - apply clean_no_email_footer.
  - rewrite clean_before_footers. apply finish_edges.
  - rewrite clean_before_footers. apply finish_blank_lines.
Qed.

(** On a text with nothing to normalize, the first seventeen assignments
    come down to the removal of the page markers and of the standalone
    numbers. *)
Lemma before_footers_lines y :
  lacks CR y = true -> lacks FF y = true -> lacks NBSP y = true ->
  lacks EN_DASH y = true -> lacks EM_DASH y = true -> lacks ELLIPSIS y = true ->
  free blank_at None y = true ->
  free (run_at 2 blank) None y = true ->
  free (run_at 4 (N.eqb DOT)) None y = true ->
  free (run_at 3 (N.eqb HYPHEN)) None y = true ->
  free (run_at 3 (N.eqb UNDERSCORE)) None y = true ->
  before_footers y = replace true re_number_line [] (replace true re_page [] y).
Proof.
  intros Hcr Hff Hnb Hen Hem Hel Hbl Hb Hd Hh Hu.
  unfold before_footers, run_edits, edits. cbn [fold_left].
  rewrite (replace_no_match false re_crlf [LF] y (crlf_search_none y Hcr)).
  rewrite (replace_no_match false re_cr [LF] y (lacks_search_none CR false y Hcr)).
  rewrite (replace_no_match false re_newlines [LF; LF] y (newline_runs_free y Hbl)).
  rewrite (replace_no_match false re_blanks [SP] y (run_search_none false 2 blank y Hb)).
  rewrite (replace_no_match false (chr FF) [] y (lacks_search_none FF false y Hff)).
  rewrite (replace_no_match false (chr NBSP) [SP] y (lacks_search_none NBSP false y Hnb)).
  rewrite (replace_chr_same false BULLET y).
  rewrite (replace_no_match false (chr EN_DASH) [HYPHEN] y
             (lacks_search_none EN_DASH false y Hen)).
  rewrite (replace_no_match false (chr EM_DASH) [HYPHEN; HYPHEN] y
             (lacks_search_none EM_DASH false y Hem)).
  rewrite (replace_chr_same false DQUOTE y).
  rewrite (replace_chr_same false SQUOTE y).
  rewrite (replace_no_match false (chr ELLIPSIS) [DOT; DOT; DOT] y
             (lacks_search_none ELLIPSIS false y Hel)).
  rewrite (replace_no_match false re_dots [DOT; DOT; DOT] y
             (run_search_none false 4 (N.eqb DOT) y Hd)).
  rewrite (replace_no_match false re_hyphens [HYPHEN; HYPHEN] y
             (run_search_none false 3 (N.eqb HYPHEN) y Hh)).
  rewrite (replace_no_match false re_underscores [UNDERSCORE; UNDERSCORE] y
             (run_search_none false 3 (N.eqb UNDERSCORE) y Hu)).
  reflexivity.
Qed.

(** A result that a second call gives back is one on which no step has
    anything to do. *)
Lemma fixed_tidy x : clean (clean x) = clean x -> tidy (clean x).
Proof.
  intros Fix.
  assert (Hff : lacks FF (clean x) = true)
    by (apply lacks_clean; [reflexivity|apply form_feed_before_footers]).
  assert (Hnb : lacks NBSP (clean x) = true).
  { apply lacks_clean; [reflexivity|].
    apply (cleared_before_footers 5 NBSP [SP]); (reflexivity || discriminate). }
  assert (Hb : free (run_at 2 blank) None (clean x) = true).
  { rewrite <- Fix.
    apply clean_keeps_run; [lia|apply blank_not_LT|].
    apply (blanks_before_footers (clean x) Hff Hnb). }
  rewrite <- Fix. apply clean_tidy; [exact Hff|exact Hnb| |].
  - apply test_false. apply confidential_none.
    rewrite before_footers_lines.
    + apply (line_removal_keeps re_number_line digits_core digits_core_shape
               number_line_steps _ confidential_local).
      apply (line_removal_keeps re_page page_core page_core_shape page_steps
               _ confidential_local).
      apply clean_no_confidential.
    + apply lacks_clean; [reflexivity|].
      apply (cleared_before_footers 1 CR [LF]); (reflexivity || discriminate).
    + exact Hff.
    + exact Hnb.
    + apply lacks_clean; [reflexivity|].
      apply (cleared_before_footers 7 EN_DASH [HYPHEN]); (reflexivity || discriminate).
    + apply lacks_clean; [reflexivity|].
      apply (cleared_before_footers 8 EM_DASH [HYPHEN; HYPHEN]);
        (reflexivity || discriminate).
    + apply lacks_clean; [reflexivity|].
      apply (cleared_before_footers 11 ELLIPSIS [DOT; DOT; DOT]);
        (reflexivity || discriminate).
    + rewrite clean_before_footers. apply finish_blank_lines.
    + exact Hb.
    + apply clean_keeps_run; [lia|apply chr_not_LT; reflexivity|apply dots_always].
    + apply clean_keeps_run; [lia|apply chr_not_LT; reflexivity|apply hyphens_always].
    + apply clean_keeps_run; [lia|apply chr_not_LT; reflexivity|apply underscores_always].
  - apply test_false. apply email_footer_none.
    rewrite before_footers_lines.
    + apply (line_removal_keeps re_number_line digits_core digits_core_shape
               number_line_steps _ email_footer_local).
      apply (line_removal_keeps re_page page_core page_core_shape page_steps
               _ email_footer_local).
      apply clean_no_email_footer.
    + apply lacks_clean; [reflexivity|].
      apply (cleared_before_footers 1 CR [LF]); (reflexivity || discriminate).
    + exact Hff.
    + exact Hnb.
    + apply lacks_clean; [reflexivity|].
      apply (cleared_before_footers 7 EN_DASH [HYPHEN]); (reflexivity || discriminate).
    + apply lacks_clean; [reflexivity|].
      apply (cleared_before_footers 8 EM_DASH [HYPHEN; HYPHEN]);
        (reflexivity || discriminate).
    + apply lacks_clean; [reflexivity|].
      apply (cleared_before_footers 11 ELLIPSIS [DOT; DOT; DOT]);
        (reflexivity || discriminate).
    + rewrite clean_before_footers. apply finish_blank_lines.
    + exact Hb.
    + apply clean_keeps_run; [lia|apply chr_not_LT; reflexivity|apply dots_always].
    + apply clean_keeps_run; [lia|apply chr_not_LT; reflexivity|apply hyphens_always].
    + apply clean_keeps_run; [lia|apply chr_not_LT; reflexivity|apply underscores_always].
Qed.

(** The three patterns that can still find something in a result, read
    as position predicates. *)
Lemma blanks_test y :
  test false re_blanks y = false <-> free (run_at 2 blank) None y = true.
Proof.
  rewrite test_false. unfold re_blanks. fold blank. rewrite search_none_free. split.
  - apply free_mono. intros prev t H. rewrite matchable_run. exact H.
  - apply free_mono. intros prev t H. rewrite matchable_run in H. exact H.
Qed.

Lemma page_test y :
  test true re_page y = false <-> free (line_at page_core) None y = true.
Proof.
  rewrite test_false. split.
  - intros H. apply search_none_free in H. revert H. apply free_mono.
    apply (line_at_matchable re_page page_core page_complete).
  - apply (line_search_none re_page page_core page_core_shape page_steps).
Qed.

Lemma number_line_test y :
  test true re_number_line y = false <-> free (line_at digits_core) None y = true.
Proof.
  rewrite test_false. split.
  - intros H. apply search_none_free in H. revert H. apply free_mono.
    apply (line_at_matchable re_number_line digits_core number_line_complete).
  - apply (line_search_none re_number_line digits_core digits_core_shape
             number_line_steps).
Qed.

Lemma sanitize_fixed y : sanitizeText (VStr y) = Normal y <-> clean y = y.
Proof.
  destruct y as [|c y]; cbn [sanitizeText truthy].
  - split; reflexivity.
  - split; [intros H; injection H as H; exact H|intros H; rewrite H; reflexivity].
Qed.

(** A result is given back by a second call exactly when none of the
    three patterns finds anything in it. *)
Lemma clean_fixed_iff x :
  clean (clean x) = clean x <->
  test false re_blanks (clean x) = false /\
  test true re_page (clean x) = false /\ test true re_number_line (clean x) = false.
Proof.
  rewrite blanks_test, page_test, number_line_test. split.
  - intros Fix. pose proof (fixed_tidy x Fix) as T.
    split; [exact (t_blanks T)|]. split; [exact (t_page T)|exact (t_number T)].
  - intros [Hb [Hp Hn]]. apply tidy_fixed. apply tidy_of_three; assumption.
Qed.

(** When nothing is cut at the footers, a result holds no page marker and
    no standalone number. *)
Lemma clean_lines x :
  test true re_confidential (before_footers x) = false ->
  test true re_email_footer (before_footers x) = false ->
  free (line_at page_core) None (clean x) = true /\
  free (line_at digits_core) None (clean x) = true.
Proof.
  intros Kc Ke. apply test_false in Kc, Ke.
  rewrite clean_before_footers.
  rewrite (replace_no_match true re_confidential [] _ Kc).
  rewrite (replace_no_match true re_email_footer [] _ Ke).
  split.
  - apply (finish_keeps _ (line_at_local page_core page_core_shape));
      [apply trim_free_line|apply page_before_footers].
  - apply (finish_keeps _ (line_at_local digits_core digits_core_shape));
      [apply trim_free_line|apply number_before_footers].
Qed.

(** C4, amended.  On an input that is no string, and on the empty
    string, sanitizeText returns the empty string and does not raise.
    On every string it returns a string and does not raise, and a second
    call gives that result back exactly when none of three patterns
    finds a match in it: two blanks or tabs in a row, a page marker on a
    line of its own, a number on a line of its own.  That is so whenever
    the text holds no two blanks or tabs in a row and neither footer
    pattern finds a match at the time the footers are reached, and the
    first of these holds of every text without form feed and
    non-breaking space (the empty string and the control characters other
    than the form feed included). *)
Theorem sanitizeText_idempotent_when_nothing_is_left :
  (forall v, (forall s, v <> VStr s) \/ v = VStr [] -> sanitizeText v = Normal []) /\
  (forall x : jsstring,
      exists y,
        sanitizeText (VStr x) = Normal y /\
        (sanitizeText (VStr y) = Normal y <->
         test false re_blanks y = false /\
         test true re_page y = false /\ test true re_number_line y = false) /\
        (test false re_blanks (before_footers x) = false ->
         test true re_confidential (before_footers x) = false ->
         test true re_email_footer (before_footers x) = false ->
         sanitizeText (VStr y) = Normal y) /\
        (~ In FF x -> ~ In NBSP x ->
         test false re_blanks (before_footers x) = false)).
Proof.
  split.
  - intros v [H| ->]; [|reflexivity].
    destruct v; try reflexivity. exfalso. apply (H s). reflexivity.
  - intros x.
    assert (B : ~ In FF x -> ~ In NBSP x ->
                test false re_blanks (before_footers x) = false).
    { intros Hff Hnb. apply blanks_test.
      destruct (blanks_before_footers x (lacks_notin FF x Hff) (lacks_notin NBSP x Hnb))
        as [_ [_ H]]. exact H. }
    destruct x as [|c x].
    + exists []. split; [reflexivity|]. split; [|split].
      * split; [intros _; repeat split|reflexivity].
      * reflexivity.
      * exact B.
    + exists (clean (c :: x)). split; [reflexivity|].
      generalize dependent (c :: x). clear c x. intros x B.
      split; [|split].
      * rewrite sanitize_fixed. apply clean_fixed_iff.
      * intros Hb Kc Ke. apply sanitize_fixed. apply clean_fixed_iff.
        destruct (clean_lines x Kc Ke) as [Hp Hn].
        split; [|split].
        -- apply blanks_test. apply clean_keeps_run; [lia|apply blank_not_LT|].
           apply blanks_test. exact Hb.
        -- apply page_test. exact Hp.
        -- apply number_line_test. exact Hn.
      * exact B.
Qed.

Lemma sanitizeText_idempotent_when_nothing_is_left_witness :
  (exists y, sanitizeText (VStr sample_text) = Normal y /\
             sanitizeText (VStr y) = Normal y) /\
  (exists y, sanitizeText (VStr with_nbsp) = Normal y /\
             test false re_blanks y = true /\ sanitizeText (VStr y) <> Normal y) /\
  (exists y, sanitizeText (VStr [97; 160; 98]%N) = Normal y /\
             sanitizeText (VStr y) = Normal y).
Proof.
  split; [|split].
  - destruct (proj2 sanitizeText_idempotent_when_nothing_is_left sample_text)
      as [y [E [_ [H B]]]].
    exists y. split; [exact E|]. apply H.
    + apply B; intros I; vm_compute in I;
        repeat (destruct I as [I|I]; [discriminate I|]); exact I.
    + vm_compute; reflexivity.
    + vm_compute; reflexivity.
  - destruct (proj2 sanitizeText_idempotent_when_nothing_is_left with_nbsp)
      as [y [E [H _]]].
    exists y. split; [exact E|].
    assert (Y : y = lit "a  b") by (vm_compute in E; injection E as E; symmetry; exact E).
    split; [rewrite Y; vm_compute; reflexivity|].
    intros F. apply H in F. destruct F as [F _]. rewrite Y in F. vm_compute in F.
    discriminate F.
  - destruct (proj2 sanitizeText_idempotent_when_nothing_is_left [97; 160; 98]%N)
      as [y [E [H _]]].
    exists y. split; [exact E|]. apply H.
    assert (Y : y = lit "a b") by (vm_compute in E; injection E as E; symmetry; exact E).
    rewrite Y. vm_compute. auto.
Defined.

(** ** The Numbers parseInt yields *)

Lemma nearest53_bounds (a : Z) :
  (2 ^ 53 <= a)%Z ->
  let k := (Z.log2 a - 52)%Z in
  (1 <= k)%Z /\ (2 ^ 52 * 2 ^ k <= nearest53 a <= 2 ^ 53 * 2 ^ k)%Z /\
  (2 ^ 52 <= a / 2 ^ k < 2 ^ 53)%Z.
Proof.
  intros Ha k.
  assert (Pa : (0 < a)%Z) by (assert (0 < 2 ^ 53)%Z by reflexivity; lia).
  destruct (Z.log2_spec a Pa) as [L1 L2].
  assert (L53 : (53 <= Z.log2 a)%Z).
  { change 53%Z with (Z.log2 (2 ^ 53)). apply Z.log2_le_mono. exact Ha. }
  assert (K1 : (1 <= k)%Z) by (unfold k; lia).
  assert (Pk : (0 < 2 ^ k)%Z) by (apply Z.pow_pos_nonneg; lia).
  assert (E1 : (2 ^ Z.log2 a = 2 ^ 52 * 2 ^ k)%Z).
  { rewrite <- Z.pow_add_r by lia. f_equal. unfold k. lia. }
  assert (E2 : (2 ^ Z.succ (Z.log2 a) = 2 ^ 53 * 2 ^ k)%Z).
  { rewrite <- Z.pow_add_r by lia. f_equal. unfold k. lia. }
  rewrite E1 in L1. rewrite E2 in L2.
  assert (N1 : (2 ^ 52 <= a / 2 ^ k)%Z).
  { apply Z.div_le_lower_bound; [exact Pk|]. lia. }
  assert (N2 : (a / 2 ^ k < 2 ^ 53)%Z).
  { apply Z.div_lt_upper_bound; [exact Pk|]. lia. }
  split; [exact K1|]. split; [|split; assumption].
  unfold nearest53. fold k.
  destruct ((2 ^ k <? 2 * (a mod 2 ^ k))%Z
            || ((2 * (a mod 2 ^ k) =? 2 ^ k)%Z && Z.odd (a / 2 ^ k))); nia.
Qed.

Lemma nearest53_mono (a b : Z) :
  (2 ^ 53 <= a)%Z -> (a <= b)%Z -> (nearest53 a <= nearest53 b)%Z.
Proof.
  intros Ha Hab.
  assert (Hb : (2 ^ 53 <= b)%Z) by lia.
  destruct (nearest53_bounds a Ha) as [Ka [Ra Na]].
  destruct (nearest53_bounds b Hb) as [Kb [Rb Nb]].
  assert (Pa : (0 < a)%Z) by (assert (0 < 2 ^ 53)%Z by reflexivity; lia).
  assert (L : (Z.log2 a <= Z.log2 b)%Z) by (apply Z.log2_le_mono; exact Hab).
  destruct (Z.eq_dec (Z.log2 a) (Z.log2 b)) as [E|NE].
  - unfold nearest53 in *. rewrite <- E in *.
    set (k := (Z.log2 a - 52)%Z) in *.
    assert (Pk : (0 < 2 ^ k)%Z) by (apply Z.pow_pos_nonneg; lia).
    assert (D : (a / 2 ^ k <= b / 2 ^ k)%Z) by (apply Z.div_le_mono; lia).
    pose proof (Z.div_mod a (2 ^ k) ltac:(lia)) as Da.
    pose proof (Z.div_mod b (2 ^ k) ltac:(lia)) as Db.
    pose proof (Z.mod_pos_bound a (2 ^ k) Pk) as Ma.
    pose proof (Z.mod_pos_bound b (2 ^ k) Pk) as Mb.
    destruct (Z.eq_dec (a / 2 ^ k) (b / 2 ^ k)) as [En|Nn].
    + rewrite <- En in *.
      assert (Mab : (a mod 2 ^ k <= b mod 2 ^ k)%Z) by lia.
      destruct ((2 ^ k <? 2 * (a mod 2 ^ k))%Z) eqn:Ua; cbn [orb].
      * apply Z.ltb_lt in Ua.
        assert (Ub : (2 ^ k <? 2 * (b mod 2 ^ k))%Z = true) by (apply Z.ltb_lt; lia).
        rewrite Ub. cbn [orb]. lia.
      * destruct ((2 * (a mod 2 ^ k) =? 2 ^ k)%Z && Z.odd (a / 2 ^ k)) eqn:Ta.
        -- apply andb_true_iff in Ta. destruct Ta as [Ta1 Ta2].
           apply Z.eqb_eq in Ta1.
           destruct ((2 ^ k <? 2 * (b mod 2 ^ k))%Z) eqn:Ub; cbn [orb]; [lia|].
           apply Z.ltb_ge in Ub.
           assert (Tb : (2 * (b mod 2 ^ k) =? 2 ^ k)%Z = true) by (apply Z.eqb_eq; lia).
           rewrite Tb, Ta2. cbn [andb]. lia.
        -- destruct ((2 ^ k <? 2 * (b mod 2 ^ k))%Z
                     || ((2 * (b mod 2 ^ k) =? 2 ^ k)%Z && Z.odd (a / 2 ^ k))); nia.
    + assert (D' : (a / 2 ^ k + 1 <= b / 2 ^ k)%Z) by lia.
      destruct ((2 ^ k <? 2 * (a mod 2 ^ k))%Z
                || ((2 * (a mod 2 ^ k) =? 2 ^ k)%Z && Z.odd (a / 2 ^ k)));
        destruct ((2 ^ k <? 2 * (b mod 2 ^ k))%Z
                  || ((2 * (b mod 2 ^ k) =? 2 ^ k)%Z && Z.odd (b / 2 ^ k))); nia.
  - assert (S : (Z.log2 a - 52 + 1 <= Z.log2 b - 52)%Z) by lia.
    assert (P : (2 ^ 53 * 2 ^ (Z.log2 a - 52) <= 2 ^ 52 * 2 ^ (Z.log2 b - 52))%Z).
    { change (2 ^ 53)%Z with (2 ^ 52 * 2 ^ 1)%Z. rewrite <- Z.mul_assoc.
      apply Z.mul_le_mono_nonneg_l; [lia|].
      rewrite <- Z.pow_add_r by lia.
      apply Z.pow_le_mono_r; lia. }
    cbv zeta in Ra, Rb. lia.
Qed.

(** The Number for a natural number is an infinity or a natural number. *)
Lemma double_of_Z_cases (n : Z) :
  (0 <= n)%Z ->
  double_of_Z n = PosInf \/ exists m, (0 <= m)%Z /\ double_of_Z n = num_of_Z m.
Proof.
  intros Hn. unfold double_of_Z. rewrite (Z.abs_eq n Hn).
  destruct (n <? 2 ^ 53)%Z eqn:S; [right; exists n; auto|].
  apply Z.ltb_ge in S.
  destruct (nearest53_bounds n S) as [K [R _]]. cbv zeta in R.
  assert (Pk : (0 < 2 ^ (Z.log2 n - 52))%Z) by (apply Z.pow_pos_nonneg; lia).
  destruct (2 ^ 1024 <=? nearest53 n)%Z.
  - replace (n <? 0)%Z with false by (symmetry; apply Z.ltb_ge; exact Hn). left. reflexivity.
  - right. exists (Z.sgn n * nearest53 n)%Z. split; [|reflexivity].
    assert (0 < n)%Z by (assert (0 < 2 ^ 53)%Z by reflexivity; lia).
    rewrite Z.sgn_pos by assumption. nia.
Qed.

Lemma double_of_Z_small (n : Z) :
  (0 <= n < 2 ^ 53)%Z -> double_of_Z n = num_of_Z n.
Proof.
  intros [H0 H1]. unfold double_of_Z. rewrite (Z.abs_eq n H0).
  replace (n <? 2 ^ 53)%Z with true by (symmetry; apply Z.ltb_lt; exact H1).
  reflexivity.
Qed.

(** A greater integer never reads as a smaller Number. *)
Lemma double_of_Z_mono (a b : Z) :
  (0 <= a <= b)%Z -> gt (double_of_Z a) (double_of_Z b) = false.
Proof.
  intros [H0 Hab]. unfold double_of_Z.
  rewrite (Z.abs_eq a H0), (Z.abs_eq b) by lia.
  replace (a <? 0)%Z with false by (symmetry; apply Z.ltb_ge; lia).
  replace (b <? 0)%Z with false by (symmetry; apply Z.ltb_ge; lia).
  assert (P53 : (0 < 2 ^ 53)%Z) by reflexivity.
  destruct (a <? 2 ^ 53)%Z eqn:Sa; destruct (b <? 2 ^ 53)%Z eqn:Sb.
  - rewrite gt_of_Z. apply Z.ltb_ge. exact Hab.
  - apply Z.ltb_lt in Sa. apply Z.ltb_ge in Sb.
    destruct (nearest53_bounds b Sb) as [K [R _]]. cbv zeta in R.
    assert (Pk : (2 <= 2 ^ (Z.log2 b - 52))%Z).
    { change 2%Z with (2 ^ 1)%Z at 1. apply Z.pow_le_mono_r; lia. }
    destruct (2 ^ 1024 <=? nearest53 b)%Z; [reflexivity|].
    rewrite Z.sgn_pos by lia. rewrite Z.mul_1_l, gt_of_Z. apply Z.ltb_ge.
    revert R Pk. generalize (2 ^ (Z.log2 b - 52))%Z. intros pk R Pk.
    change (2 ^ 52)%Z with 4503599627370496%Z in R.
    change (2 ^ 53)%Z with 9007199254740992%Z in Sa. lia.
  - apply Z.ltb_ge in Sa. apply Z.ltb_lt in Sb. lia.
  - apply Z.ltb_ge in Sa, Sb.
    pose proof (nearest53_mono a b Sa Hab) as M.
    rewrite !Z.sgn_pos by lia. rewrite !Z.mul_1_l.
    destruct (2 ^ 1024 <=? nearest53 a)%Z eqn:Ia;
      destruct (2 ^ 1024 <=? nearest53 b)%Z eqn:Ib; try reflexivity.
    + apply Z.leb_le in Ia. apply Z.leb_gt in Ib. lia.
    + rewrite gt_of_Z. apply Z.ltb_ge. exact M.
Qed.

(** ** The order the loop compares in *)

Lemma gt_irrefl (a : number) : gt a a = false.
Proof.
  destruct a as [|q| |]; try reflexivity. cbn [gt].
  apply negb_false_iff. apply Qle_bool_iff. apply Qle_refl.
Qed.

Lemma gt_asym (a b : number) : gt a b = true -> gt b a = false.
Proof.
  destruct a as [|p| |], b as [|q| |]; cbn [gt]; try reflexivity; try discriminate.
  intros H. apply negb_true_iff in H. apply negb_false_iff. apply Qle_bool_iff.
  destruct (Qlt_le_dec q p) as [L|L]; [apply Qlt_le_weak; exact L|].
  apply Qle_bool_iff in L. congruence.
Qed.

Lemma gt_trans (a b c : number) :
  b <> NaN -> gt a b = false -> gt b c = false -> gt a c = false.
Proof.
  intros Hb.
  destruct a as [|p| |], b as [|q| |], c as [|r| |]; cbn [gt];
    try reflexivity; try discriminate; try congruence.
  intros H1 H2. apply negb_false_iff in H1, H2. apply negb_false_iff.
  apply Qle_bool_iff in H1, H2. apply Qle_bool_iff. eapply Qle_trans; eassumption.
Qed.

Lemma keep_max_not_nan (acc y : number) :
  acc <> NaN -> y <> NaN -> keep_max acc y <> NaN.
Proof. intros Ha Hy. unfold keep_max. destruct (gt y acc); assumption. Qed.

(** What the loop is left with: the accumulator or a number of the
    list, and no number of the list is greater. *)
Lemma fold_keep_max :
  forall (l : list number) (acc : number),
    acc <> NaN -> Forall (fun y => y <> NaN) l ->
    List.fold_left keep_max l acc <> NaN /\
    (List.fold_left keep_max l acc = acc \/ In (List.fold_left keep_max l acc) l) /\
    gt acc (List.fold_left keep_max l acc) = false /\
    (forall y, In y l -> gt y (List.fold_left keep_max l acc) = false).
Proof.
  induction l as [|y l IH]; intros acc Ha Hl; cbn [List.fold_left].
  - split; [exact Ha|]. split; [left; reflexivity|]. split; [apply gt_irrefl|].
    intros y [].
  - inversion Hl as [|y' l' Hy Hl']; subst.
    pose proof (keep_max_not_nan acc y Ha Hy) as Hk.
    destruct (IH (keep_max acc y) Hk Hl') as [N [A [U1 U2]]].
    assert (G1 : gt acc (keep_max acc y) = false).
    { unfold keep_max. destruct (gt y acc) eqn:G; [apply gt_asym; exact G|apply gt_irrefl]. }
    assert (G2 : gt y (keep_max acc y) = false).
    { unfold keep_max. destruct (gt y acc) eqn:G; [apply gt_irrefl|exact G]. }
    split; [exact N|]. split; [|split].
    + destruct A as [A|A]; [|right; right; exact A].
      rewrite A. unfold keep_max. destruct (gt y acc); [right; left|left]; reflexivity.
    + apply (gt_trans _ (keep_max acc y)); assumption.
    + intros z [<-|Hz]; [|apply U2; exact Hz].
      apply (gt_trans _ (keep_max acc y)); assumption.
Qed.

Lemma years_of_not_nan (mt : jsstring) : years_of mt <> NaN.
Proof.
  unfold years_of.
  destruct (double_of_Z_cases (leading_number mt) (leading_number_nonneg mt))
    as [E|[m [_ E]]]; rewrite E; discriminate.
Qed.

Lemma years_of_mono (u w : jsstring) :
  (leading_number u <= leading_number w)%Z -> gt (years_of u) (years_of w) = false.
Proof.
  intros H. apply double_of_Z_mono. split; [apply leading_number_nonneg|exact H].
Qed.

(** ** Short runs of digits *)

Lemma digitsValue_bound :
  forall ds acc v,
    forallb isDigit ds = true -> (0 <= acc)%Z ->
    digitsValue 10 acc ds = Some v ->
    (acc * 10 ^ Z.of_nat (List.length ds) <= v
     < (acc + 1) * 10 ^ Z.of_nat (List.length ds))%Z.
Proof.
  induction ds as [|c ds IH]; intros acc v H A E.
  - cbn in E. injection E as <-. cbn. lia.
  - cbn [forallb] in H. apply andb_true_iff in H. destruct H as [Hc Hd].
    cbn [digitsValue] in E.
    destruct (digitValue_digit c Hc) as [d [Ed Bd]]. rewrite Ed in E.
    apply IH in E; [|exact Hd|lia].
    cbn [List.length]. rewrite Nat2Z.inj_succ, Z.pow_succ_r by lia.
    assert (P : (0 < 10 ^ Z.of_nat (List.length ds))%Z) by (apply Z.pow_pos_nonneg; lia).
    nia.
Qed.

Lemma takeWhile_forallb (p : N -> bool) (s : jsstring) :
  forallb p (takeWhile p s) = true.
Proof.
  induction s as [|c s IH]; [reflexivity|]. cbn [takeWhile].
  destruct (p c) eqn:E; [cbn [forallb]; rewrite E; exact IH|reflexivity].
Qed.

Lemma takeWhile_prefix (p : N -> bool) (s : jsstring) :
  exists z, s = takeWhile p s ++ z.
Proof.
  induction s as [|c s [z IH]]; [exists []; reflexivity|]. cbn [takeWhile].
  destruct (p c); [exists z; cbn; rewrite <- IH; reflexivity|exists (c :: s); reflexivity].
Qed.

Lemma dropWhile_suffix (p : N -> bool) (s : jsstring) :
  exists a, s = a ++ dropWhile p s.
Proof.
  induction s as [|c s [a IH]]; [exists []; reflexivity|]. cbn [dropWhile].
  destruct (p c); [exists (c :: a); cbn; rewrite <- IH; reflexivity|exists []; reflexivity].
Qed.

(** In a text without sixteen digits in a row every number read is an
    integer a double holds. *)
Lemma leading_number_small (text a w b : jsstring) :
  free (run_at 16 isDigit) None text = true ->
  text = a ++ w ++ b ->
  (0 <= leading_number w < 2 ^ 53)%Z.
Proof.
  intros F E. split; [apply leading_number_nonneg|].
  unfold leading_number.
  destruct (digitsValue 10 0 (takeWhile isDigit (dropWhile notDigit w))) as [v|] eqn:V;
    [|reflexivity].
  destruct (dropWhile_suffix notDigit w) as [a1 E1].
  destruct (takeWhile_prefix isDigit (dropWhile notDigit w)) as [z E2].
  assert (L : (List.length (takeWhile isDigit (dropWhile notDigit w)) < 16)%nat).
  { apply (free_run_short 16 isDigit text F (a ++ a1) _ (z ++ b));
      [|apply takeWhile_forallb].
    rewrite E, E1 at 1. rewrite E2 at 1. rewrite <- !app_assoc. reflexivity. }
  apply digitsValue_bound in V; [|apply takeWhile_forallb|lia].
  assert (P : (10 ^ Z.of_nat (List.length (takeWhile isDigit (dropWhile notDigit w)))
               <= 10 ^ 15)%Z) by (apply Z.pow_le_mono_r; lia).
  assert (C : (10 ^ 15 < 2 ^ 53)%Z) by reflexivity.
  lia.
Qed.

(** ** Every occurrence at the start of a run is found by the scan *)

(** What a plain pattern derives, the matcher can match anywhere. *)
Lemma derives_steps ml r w :
  derives r w -> plain r = true ->
  forall prev z, steps ml r prev (w ++ z) (last_of prev w) z.
Proof.
  induction 1 as [|p c Hc|a b u v Du IHu Dv IHv|a b u Du IH|a b u Du IH
                  |a|a u v Du IHu Dv IHv| | |]; intros Pl prev z; cbn [plain] in Pl.
  - apply st_eps.
  - apply st_cls. exact Hc.
  - apply andb_true_iff in Pl. destruct Pl as [Pa Pb].
    rewrite <- app_assoc, last_of_app.
    eapply st_seq; [apply IHu; exact Pa|apply IHv; exact Pb].
  - apply andb_true_iff in Pl. destruct Pl as [Pa Pb]. apply st_alt_l. apply IH. exact Pa.
  - apply andb_true_iff in Pl. destruct Pl as [Pa Pb]. apply st_alt_r. apply IH. exact Pb.
  - apply st_star_nil.
  - destruct a; try discriminate Pl.
    inversion Du as [|p0 c Hc| | | | | | | |]; subst.
    rewrite <- app_assoc, last_of_app.
    eapply st_star_cons; [apply st_cls; exact Hc| |apply IHv; reflexivity].
    cbn [app List.length]. lia.
  - discriminate Pl.
  - discriminate Pl.
  - discriminate Pl.
Qed.

Lemma derives_matchable ml r w prev z :
  plain r = true -> derives r w -> matchable ml r prev (w ++ z) = true.
Proof.
  intros Pl D. unfold matchable.
  destruct (steps_match_here ml r prev (w ++ z) _ _ (derives_steps ml r w D Pl prev z))
    as [rest E].
  rewrite E. reflexivity.
Qed.

Lemma skipped_at (P : at_pos) :
  forall a prev c t z,
    skipped P prev (a ++ c :: t) z = true -> P (last_of prev a) (c :: t ++ z) = false.
Proof.
  induction a as [|x a IH]; intros prev c t z H.
  - cbn [app skipped] in H. apply andb_true_iff in H. destruct H as [H _].
    apply negb_true_iff in H. exact H.
  - cbn [app skipped] in H. apply andb_true_iff in H. destruct H as [_ H].
    rewrite last_of_cons. apply IH. exact H.
Qed.

(** When no match holds a start of its own inside it, the scan finds a
    match at every start. *)
Lemma cutting_covers ml r (P : at_pos) :
  (forall prev x y rest,
      x <> [] -> y <> [] ->
      match_here ml r prev (x ++ y ++ rest) = Some rest ->
      P (last_of prev x) (y ++ rest) = false) ->
  forall prev s ms tl,
    cutting ml r P prev s ms tl ->
    forall a t,
      s = a ++ t -> P (last_of prev a) t = true ->
      exists w rest,
        In w (List.map snd ms) /\ t = w ++ rest /\
        match_here ml r (last_of prev a) t = Some rest.
Proof.
  intros Apart prev s ms tl C.
  induction C as [prev s F|prev sk w rest ms tl NW M S C IH]; intros a t E H.
  - exfalso. rewrite E, free_app in F. apply andb_true_iff in F. destruct F as [_ F].
    apply free_head in F. congruence.
  - assert (Later : forall a',
               rest = a' ++ t ->
               P (last_of (last_of (last_of prev sk) w) a') t = true ->
               exists w' rest',
                 In w' (List.map snd ((sk, w) :: ms)) /\ t = w' ++ rest' /\
                 match_here ml r (last_of (last_of (last_of prev sk) w) a') t = Some rest').
    { intros a' Ea Ha. destruct (IH a' t Ea Ha) as [w' [rest' [I [Et Mt]]]].
      exists w', rest'. split; [right; exact I|]. split; [exact Et|exact Mt]. }
    apply app_eq_app in E. destruct E as [l [[E1 E2]|[E1 E2]]].
    + destruct l as [|c l].
      * rewrite app_nil_r in E1. subst sk. cbn [app] in E2. subst t.
        exists w, rest. split; [left; reflexivity|]. split; [reflexivity|exact M].
      * exfalso. subst sk t. apply skipped_at in S. cbn [app] in H. congruence.
    + apply app_eq_app in E2. destruct E2 as [l2 [[E3 E4]|[E3 E4]]].
      * destruct l as [|c l].
        -- rewrite app_nil_r in E1. subst a. cbn [app] in E3. subst l2 t.
           exists w, rest. split; [left; reflexivity|]. split; [reflexivity|exact M].
        -- destruct l2 as [|d l2].
           ++ rewrite app_nil_r in E3. cbn [app] in E4. subst w t a.
              rewrite last_of_app in H |- *.
              apply (Later []); [reflexivity|exact H].
           ++ exfalso. subst w t a. rewrite <- app_assoc in M.
              apply Apart in M; [|discriminate|discriminate].
              rewrite last_of_app in H. congruence.
      * subst l rest a. rewrite !last_of_app in H |- *.
        apply (Later l2); [reflexivity|exact H].
Qed.

(** ** The shape of a match of an experience pattern *)

Lemma derives_within (q : N -> bool) r w :
  derives r w -> within q r -> forallb q w = true.
Proof.
  induction 1 as [|p c Hc|a b u v Du IHu Dv IHv|a b u Du IH|a b u Du IH
                  |a|a u v Du IHu Dv IHv| | |]; intros W; cbn [within] in W;
    try reflexivity.
  - cbn [forallb]. rewrite (W c Hc). reflexivity.
  - destruct W as [Wa Wb]. rewrite forallb_app, (IHu Wa), (IHv Wb). reflexivity.
  - destruct W as [Wa Wb]. apply IH. exact Wa.
  - destruct W as [Wa Wb]. apply IH. exact Wb.
  - rewrite forallb_app, (IHu W), (IHv W). reflexivity.
Qed.

Lemma derives_min_len r w : derives r w -> (min_len r <= List.length w)%nat.
Proof.
  induction 1 as [|p c Hc|a b u v Du IHu Dv IHv|a b u Du IH|a b u Du IH
                  |a|a u v Du IHu Dv IHv| | |]; cbn [min_len List.length]; try lia.
  rewrite length_app. lia.
Qed.

Lemma canon_88 (c : N) : canon c = 0x58%N -> c = 0x58%N \/ c = 0x78%N.
Proof.
  unfold canon, isLower. destruct ((0x61 <=? c) && (c <=? 0x7A))%N eqn:L.
  - apply andb_true_iff in L. destruct L as [L1 L2]. apply N.leb_le in L1, L2. lia.
  - intros ->. left. reflexivity.
Qed.

Lemma notX_other (c : N) : c <> 0x58%N -> c <> 0x78%N -> notX c = true.
Proof.
  intros H1 H2. unfold notX. apply negb_true_iff. apply N.eqb_neq.
  intros E. apply canon_88 in E. tauto.
Qed.

Lemma canon_alpha (c k : N) :
  isAlpha k = true -> N.eqb (canon c) (canon k) = true -> isAlpha c = true.
Proof.
  intros Hk E. apply N.eqb_eq in E. revert Hk E.
  unfold canon, isAlpha, isUpper, isLower.
  destruct ((0x61 <=? c) && (c <=? 0x7A))%N eqn:Lc; [intros; apply orb_true_r|].
  rewrite orb_false_r.
  destruct ((0x61 <=? k) && (k <=? 0x7A))%N eqn:Lk.
  - intros _ E. apply andb_true_iff in Lk. destruct Lk as [L1 L2].
    apply N.leb_le in L1, L2. apply andb_true_iff. split; apply N.leb_le; lia.
  - rewrite orb_false_r. intros Hk E. rewrite E. exact Hk.
Qed.

Lemma alpha_notDigit (c : N) : isAlpha c = true -> notDigit c = true.
Proof.
  unfold isAlpha, isUpper, isLower, notDigit, isDigit. intros H.
  apply negb_true_iff. apply andb_false_iff.
  apply orb_true_iff in H. destruct H as [H|H]; apply andb_true_iff in H;
    destruct H as [H1 H2]; apply N.leb_le in H1, H2; right; apply N.leb_gt; lia.
Qed.

Lemma space_notDigit (c : N) : isSpace c = true -> notDigit c = true.
Proof.
  intros H. unfold notDigit. destruct (isDigit c) eqn:D; [|reflexivity].
  apply digit_not_space in D. congruence.
Qed.

Lemma space_notX (c : N) : isSpace c = true -> notX c = true.
Proof. intros H. apply notX_other; intros ->; discriminate H. Qed.

Lemma digit_notX (c : N) : isDigit c = true -> notX c = true.
Proof. intros H. apply notX_other; intros ->; discriminate H. Qed.

Lemma within_seq_of (q : N -> bool) (f : N -> regex) :
  forall u, (forall k, In k u -> within q (f k)) -> within q (seq_of f u).
Proof.
  induction u as [|k u IH]; intros H; [exact I|].
  destruct u as [|k' u]; cbn [seq_of]; [apply H; left; reflexivity|].
  cbn [within]. split; [apply H; left; reflexivity|].
  apply IH. intros x Hx. apply H. right. exact Hx.
Qed.

Lemma within_notDigit_str_i (s : string) :
  forallb isAlpha (lit s) = true -> within notDigit (str_i s).
Proof.
  intros H. apply within_seq_of. intros k Hk c Hc.
  apply alpha_notDigit. apply (canon_alpha c k); [|exact Hc].
  apply (proj1 (forallb_forall _ _) H k Hk).
Qed.

Lemma within_notX_str_i (s : string) :
  forallb notX (lit s) = true -> within notX (str_i s).
Proof.
  intros H. apply within_seq_of. intros k Hk c Hc.
  apply N.eqb_eq in Hc. unfold notX. rewrite Hc.
  apply (proj1 (forallb_forall _ _) H k Hk).
Qed.

Lemma within_notDigit_chr_i (k : N) : isAlpha k = true -> within notDigit (chr_i k).
Proof.
  intros H c Hc. apply alpha_notDigit. apply (canon_alpha c k); assumption.
Qed.

Lemma within_notX_chr_i (k : N) : notX k = true -> within notX (chr_i k).
Proof.
  intros H c Hc. apply N.eqb_eq in Hc. unfold notX. rewrite Hc. exact H.
Qed.

Lemma colon_or_space (q : N -> bool) :
  q 0x3A%N = true -> (forall c, isSpace c = true -> q c = true) ->
  forall c, union (one_of ":") isSpace c = true -> q c = true.
Proof.
  intros Hq Hs c H. unfold union, one_of in H. cbn [lit List.map list_ascii_of_string existsb] in H.
  apply orb_true_iff in H. destruct H as [H|H]; [|apply Hs; exact H].
  rewrite orb_false_r in H. apply N.eqb_eq in H. subst c. exact Hq.
Qed.

Ltac one_class :=
  first
    [ exact space_notDigit | exact space_notX | exact digit_notX
    | apply within_notDigit_str_i; reflexivity
    | apply within_notX_str_i; reflexivity
    | apply within_notDigit_chr_i; reflexivity
    | apply within_notX_chr_i; reflexivity
    | apply colon_or_space; [reflexivity|first [exact space_notDigit|exact space_notX]]
    | let c := fresh "c" in let H := fresh "H" in
      intros c H; apply N.eqb_eq in H; subst c; reflexivity
    | exact I ].

Ltac all_within :=
  cbn [within Opt Plus PDFParser.cat cat plus_sign chr PDFParser.ws PDFParser.digit ws digit];
  repeat split; one_class.

(** A match of the first or of the third pattern: digits, then a text
    without any. *)
Lemma digits_first_shape p w :
  p = nth 0 experiencePatterns Eps \/ p = nth 2 experiencePatterns Eps ->
  derives p w ->
  exists ds tail,
    w = ds ++ tail /\ ds <> [] /\ forallb isDigit ds = true /\
    tail <> [] /\ forallb notDigit tail = true.
Proof.
  intros [->| ->] D; cbn [nth experiencePatterns PDFParser.cat] in D;
    apply derives_seq_inv in D; destruct D as [u [v [-> [Du Dv]]]];
    apply derives_plus_cls_inv in Du; destruct Du as [Nu Fu];
    exists u, v; (split; [reflexivity|]); (split; [exact Nu|]); (split; [exact Fu|]);
    (split; [intros ->; apply derives_min_len in Dv; cbn in Dv; lia|]);
    apply (derives_within notDigit _ _ Dv); all_within.
Qed.

Lemma year_end tail :
  derives (Seq (Opt plus_sign)
             (Seq (Star PDFParser.ws) (Seq (str_i "year") (Opt (str_i "s"))))) tail ->
  tail <> [] /\ canon (last tail 0%N) <> 0x45%N.
Proof.
  intros D.
  apply derives_seq_inv in D. destruct D as [t1 [r1 [-> [_ D]]]].
  apply derives_seq_inv in D. destruct D as [t2 [r2 [-> [_ D]]]].
  apply derives_seq_inv in D. destruct D as [Y [S [-> [DY DS]]]].
  change (str_i "year")
    with (Seq (chr_i 0x79) (Seq (chr_i 0x65) (Seq (chr_i 0x61) (chr_i 0x72)))) in DY.
  apply derives_seq_inv in DY. destruct DY as [y1 [Y2 [-> [_ DY]]]].
  apply derives_seq_inv in DY. destruct DY as [y2 [Y3 [-> [_ DY]]]].
  apply derives_seq_inv in DY. destruct DY as [y3 [y4 [-> [_ D4]]]].
  apply derives_cls_inv in D4. destruct D4 as [c4 [-> H4]]. apply N.eqb_eq in H4.
  apply derives_opt_inv in DS. destruct DS as [->|DS].
  - rewrite app_nil_r. split.
    + intros E. apply (f_equal (@List.length N)) in E. rewrite !length_app in E.
      cbn [List.length] in E. lia.
    + rewrite !app_assoc. rewrite last_app_r by discriminate. cbn [last].
      rewrite H4. discriminate.
  - change (str_i "s") with (chr_i 0x73) in DS.
    apply derives_cls_inv in DS. destruct DS as [s1 [-> Hs]]. apply N.eqb_eq in Hs.
    split.
    + intros E. apply (f_equal (@List.length N)) in E. rewrite !length_app in E.
      cbn [List.length] in E. lia.
    + rewrite !app_assoc. rewrite last_app_r by discriminate. cbn [last].
      rewrite Hs. discriminate.
Qed.

(** A match of the second pattern: an e, an x, then neither digit nor x
    up to the digits, and neither after them; it does not end in an e. *)
Lemma experience_first_shape w :
  derives (nth 1 experiencePatterns Eps) w ->
  exists c1 c2 mid ds tail,
    w = c1 :: c2 :: mid ++ ds ++ tail /\ canon c1 = 0x45%N /\ canon c2 = 0x58%N /\
    forallb notDigit (c1 :: c2 :: mid) = true /\ forallb notX mid = true /\
    ds <> [] /\ forallb isDigit ds = true /\
    tail <> [] /\ forallb notDigit tail = true /\ forallb notX tail = true /\
    canon (last tail 0%N) <> 0x45%N.
Proof.
  intros D. cbn [nth experiencePatterns PDFParser.cat] in D.
  change (str_i "experience")
    with (Seq (chr_i 0x65) (Seq (chr_i 0x78) (str_i "perience"))) in D.
  apply derives_seq_inv in D. destruct D as [E [r1 [-> [DE D]]]].
  apply derives_seq_inv in DE. destruct DE as [e1 [E2 [-> [D1 DE]]]].
  apply derives_seq_inv in DE. destruct DE as [e2 [E3 [-> [D2 D3]]]].
  pose proof (derives_within notDigit _ _ D1 ltac:(all_within)) as N1.
  pose proof (derives_within notDigit _ _ D2 ltac:(all_within)) as N2.
  apply derives_cls_inv in D1, D2. destruct D1 as [c1 [-> H1]], D2 as [c2 [-> H2]].
  apply N.eqb_eq in H1, H2.
  apply derives_seq_inv in D. destruct D as [sep [r2 [-> [Dsep D]]]].
  apply derives_seq_inv in D. destruct D as [ds [tail [-> [Dds Dtail]]]].
  apply derives_plus_cls_inv in Dds. destruct Dds as [Nds Fds].
  destruct (year_end tail Dtail) as [Nt Lt].
  exists c1, c2, (E3 ++ sep), ds, tail.
  split; [cbn [app]; rewrite <- !app_assoc; reflexivity|].
  split; [exact H1|]. split; [exact H2|].
  split.
  { cbn [forallb]. cbn [forallb] in N1, N2. rewrite andb_true_r in N1, N2.
    rewrite N1, N2. cbn [andb]. rewrite forallb_app.
    rewrite (derives_within notDigit _ _ D3 ltac:(all_within)).
    rewrite (derives_within notDigit _ _ Dsep ltac:(all_within)). reflexivity. }
  split.
  { rewrite forallb_app.
    rewrite (derives_within notX _ _ D3 ltac:(all_within)).
    rewrite (derives_within notX _ _ Dsep ltac:(all_within)). reflexivity. }
  split; [exact Nds|]. split; [exact Fds|]. split; [exact Nt|].
  split; [apply (derives_within notDigit _ _ Dtail); all_within|].
  split; [apply (derives_within notX _ _ Dtail); all_within|exact Lt].
Qed.

(** In a match of any of the three patterns the first run of digits is
    followed by a code unit that is no digit. *)
Lemma experience_shape p w :
  In p experiencePatterns -> derives p w ->
  exists n ds c r,
    w = n ++ ds ++ c :: r /\ forallb notDigit n = true /\
    ds <> [] /\ forallb isDigit ds = true /\ isDigit c = false.
Proof.
  intros I D.
  assert (C : p = nth 0 experiencePatterns Eps \/ p = nth 2 experiencePatterns Eps \/
              p = nth 1 experiencePatterns Eps).
  { cbn [In experiencePatterns] in I. cbn [nth experiencePatterns].
    destruct I as [<-|[<-|[<-|[]]]]; auto. }
  destruct C as [C|[C|C]].
  1,2: destruct (digits_first_shape p w ltac:(auto) D) as [ds [tail [-> [N [F [Nt Ft]]]]]];
       destruct tail as [|c r]; [congruence|];
       exists [], ds, c, r; cbn [forallb] in Ft; apply andb_true_iff in Ft;
       destruct Ft as [Fc _]; apply negb_true_iff in Fc; auto 10.
  subst p.
  destruct (experience_first_shape w D)
    as [c1 [c2 [mid [ds [tail [-> [_ [_ [Fn [_ [N [F [Nt [Ft _]]]]]]]]]]]]]].
  destruct tail as [|c r]; [congruence|].
  exists (c1 :: c2 :: mid), ds, c, r. cbn [forallb] in Ft. apply andb_true_iff in Ft.
  destruct Ft as [Fc _]. apply negb_true_iff in Fc. auto 10.
Qed.

(** ** The number an occurrence carries *)

Lemma dropWhile_stops_at (p : N -> bool) :
  forall n c z, forallb p n = true -> p c = false -> dropWhile p (n ++ c :: z) = c :: z.
Proof.
  induction n as [|x n IH]; intros c z F Hc; cbn [app dropWhile].
  - rewrite Hc. reflexivity.
  - cbn [forallb] in F. apply andb_true_iff in F. destruct F as [Fx Fn].
    rewrite Fx. apply IH; assumption.
Qed.

Lemma takeWhile_app_all (p : N -> bool) :
  forall ds c z, forallb p ds = true -> p c = false -> takeWhile p (ds ++ c :: z) = ds.
Proof.
  induction ds as [|x ds IH]; intros c z F Hc; cbn [app takeWhile].
  - rewrite Hc. reflexivity.
  - cbn [forallb] in F. apply andb_true_iff in F. destruct F as [Fx Fd].
    rewrite Fx. f_equal. apply IH; assumption.
Qed.

Lemma first_run n ds c r :
  forallb notDigit n = true -> ds <> [] -> forallb isDigit ds = true ->
  isDigit c = false ->
  takeWhile isDigit (dropWhile notDigit (n ++ ds ++ c :: r)) = ds.
Proof.
  intros Fn Nd Fd Hc. destruct ds as [|d ds]; [congruence|].
  cbn [forallb] in Fd. apply andb_true_iff in Fd. destruct Fd as [Hd Fd].
  cbn [app]. rewrite dropWhile_stops_at; [|exact Fn|unfold notDigit; rewrite Hd; reflexivity].
  change (d :: ds ++ c :: r) with ((d :: ds) ++ c :: r).
  apply takeWhile_app_all; [cbn [forallb]; rewrite Hd; exact Fd|exact Hc].
Qed.

(** The number does not depend on what follows the occurrence. *)
Lemma leading_number_ext p w z :
  In p experiencePatterns -> derives p w -> leading_number (w ++ z) = leading_number w.
Proof.
  intros I D.
  destruct (experience_shape p w I D) as [n [ds [c [r [-> [Fn [Nd [Fd Hc]]]]]]]].
  unfold leading_number. rewrite <- !app_assoc. cbn [app].
  rewrite (first_run n ds c (r ++ z) Fn Nd Fd Hc), (first_run n ds c r Fn Nd Fd Hc).
  reflexivity.
Qed.

Lemma same_start p w m b rest :
  In p experiencePatterns -> derives p w -> derives p m -> w ++ b = m ++ rest ->
  leading_number w = leading_number m.
Proof.
  intros I Dw Dm E.
  rewrite <- (leading_number_ext p w b I Dw), <- (leading_number_ext p m rest I Dm).
  rewrite E. reflexivity.
Qed.

Lemma experience_plain p : In p experiencePatterns -> plain p = true.
Proof.
  cbn [In experiencePatterns]. intros [<-|[<-|[<-|[]]]]; reflexivity.
Qed.

Lemma experience_never_empty p :
  In p experiencePatterns -> forall prev s, match_here false p prev s <> Some s.
Proof.
  intros I prev s H. apply match_here_sound in H. destruct H as [w [E D]].
  destruct (experience_shape p w I D) as [n [ds [c [r [-> _]]]]].
  apply (f_equal (@List.length N)) in E. rewrite !length_app in E.
  cbn [List.length] in E. lia.
Qed.

(** The scan of a text, seen through a predicate on its starts. *)
Lemma match_all_cutting p (P : at_pos) text :
  In p experiencePatterns ->
  (forall prev t, P prev t = true -> matchable false p prev t = true) ->
  exists ms tl,
    match_all false p text = List.map snd ms /\ cutting false p P None text ms tl.
Proof.
  intros I HP.
  exists (fst (scan_all false p text)), (snd (scan_all false p text)).
  split; [reflexivity|].
  apply (cutting_of_scan false p P HP). unfold scan_all.
  apply (scan_scanned false p (experience_never_empty p I)). lia.
Qed.

(** ** No match of an experience pattern holds the start of another *)

Lemma forallb_last_in (q : N -> bool) (x : jsstring) :
  x <> [] -> forallb q x = true -> q (last x 0%N) = true.
Proof. intros N F. apply forallb_last; assumption. Qed.

Lemma after_digit_last prev (x : jsstring) :
  x <> [] -> after_digit (last_of prev x) = isDigit (last x 0%N).
Proof.
  intros N. destruct x as [|c x]; [congruence|]. rewrite last_of_last. reflexivity.
Qed.

Lemma digits_first_apart p :
  p = nth 0 experiencePatterns Eps \/ p = nth 2 experiencePatterns Eps ->
  forall prev x y rest,
    x <> [] -> y <> [] ->
    match_here false p prev (x ++ y ++ rest) = Some rest ->
    run_start p (last_of prev x) (y ++ rest) = false.
Proof.
  intros Hp prev x y rest Nx Ny M.
  unfold run_start. rewrite (after_digit_last prev x Nx).
  destruct (isDigit (last x 0%N)) eqn:Lx; [reflexivity|]. cbn [negb andb].
  unfold matchable.
  destruct (match_here false p (last_of prev x) (y ++ rest)) as [rest1|] eqn:M1;
    [exfalso|reflexivity].
  apply match_here_sound in M. destruct M as [w0 [E0 D0]].
  rewrite app_assoc in E0. apply app_inv_tail in E0.
  apply match_here_sound in M1. destruct M1 as [w1 [E1 D1]].
  destruct (digits_first_shape p w0 Hp D0) as [ds [tail [-> [_ [Fd [_ Ft]]]]]].
  destruct (digits_first_shape p w1 Hp D1) as [ds1 [tail1 [-> [N1 [F1 _]]]]].
  destruct ds1 as [|d ds1]; [congruence|].
  cbn [forallb] in F1. apply andb_true_iff in F1. destruct F1 as [Hd _].
  destruct y as [|y0 y]; [congruence|].
  cbn [app] in E1. injection E1 as -> E1.
  apply app_eq_app in E0. destruct E0 as [l [[E2 E3]|[E2 E3]]].
  - (* the digits end inside x: the digit d stands in the tail *)
    subst tail. rewrite forallb_app in Ft. apply andb_true_iff in Ft.
    destruct Ft as [_ Ft]. cbn [forallb] in Ft. apply andb_true_iff in Ft.
    destruct Ft as [Ft _]. unfold notDigit in Ft. rewrite Hd in Ft. discriminate Ft.
  - (* x lies inside the digits *)
    subst ds. rewrite forallb_app in Fd. apply andb_true_iff in Fd.
    destruct Fd as [Fx _]. rewrite (forallb_last_in isDigit x Nx Fx) in Lx.
    discriminate Lx.
Qed.

Lemma experience_first_apart :
  forall prev x y rest,
    x <> [] -> y <> [] ->
    match_here false (nth 1 experiencePatterns Eps) prev (x ++ y ++ rest) = Some rest ->
    matchable false (nth 1 experiencePatterns Eps) (last_of prev x) (y ++ rest) = false.
Proof.
  intros prev x y rest Nx Ny M. unfold matchable.
  destruct (match_here false (nth 1 experiencePatterns Eps) (last_of prev x) (y ++ rest))
    as [rest1|] eqn:M1; [exfalso|reflexivity].
  apply match_here_sound in M. destruct M as [w0 [E0 D0]].
  rewrite app_assoc in E0. apply app_inv_tail in E0.
  apply match_here_sound in M1. destruct M1 as [w1 [E1 D1]].
  destruct (experience_first_shape w0 D0)
    as [a1 [a2 [mid [ds [tail [-> [_ [_ [_ [Xm [_ [Fd [Nt [_ [Xt Lt]]]]]]]]]]]]]]].
  destruct (experience_first_shape w1 D1)
    as [e1 [e2 [mid1 [ds1 [tail1 [-> [He1 [He2 _]]]]]]]].
  assert (Xb : forallb notX (mid ++ ds ++ tail) = true).
  { rewrite !forallb_app, Xm, Xt. rewrite andb_true_r. cbn [andb].
    apply forallb_forall. intros c Hc. apply digit_notX.
    apply (proj1 (forallb_forall _ _) Fd c Hc). }
  destruct x as [|x0 x]; [congruence|]. cbn [app] in E0. injection E0 as -> E0.
  destruct y as [|y0 y]; [congruence|].
  cbn [app] in E1. injection E1 as -> E1.
  destruct y as [|y1 y].
  - (* y is the last code unit of the match, and an e *)
    assert (T : x ++ [e1] = a2 :: mid ++ ds ++ tail) by exact E0.
    apply (f_equal (fun l => last l 0%N)) in T.
    rewrite last_last in T.
    change (a2 :: mid ++ ds ++ tail) with ((a2 :: mid) ++ ds ++ tail) in T.
    rewrite app_assoc in T. rewrite last_app_r in T by exact Nt.
    rewrite <- T in Lt. congruence.
  - (* an x stands at the third place of the match or later *)
    cbn [app] in E1. injection E1 as -> E1.
    assert (I : In e2 (mid ++ ds ++ tail)).
    { destruct x as [|x1 x]; cbn [app] in E0; injection E0 as _ E0; rewrite <- E0.
      - left. reflexivity.
      - apply in_or_app. right. right. left. reflexivity. }
    apply (proj1 (forallb_forall _ _) Xb) in I. unfold notX in I. rewrite He2 in I.
    discriminate I.
Qed.

(** ** From an occurrence to the one at the start of its run of digits *)

Lemma digitsValue_mono :
  forall ds acc acc' v v',
    (acc <= acc')%Z ->
    digitsValue 10 acc ds = Some v -> digitsValue 10 acc' ds = Some v' -> (v <= v')%Z.
Proof.
  induction ds as [|c ds IH]; intros acc acc' v v' L E E'; cbn [digitsValue] in E, E'.
  - injection E as <-. injection E' as <-. exact L.
  - destruct (digitValue 10 c) as [d|]; [|discriminate E].
    apply (IH (acc * 10 + d)%Z (acc' * 10 + d)%Z); [lia|exact E|exact E'].
Qed.

Lemma prepend_digit p c w :
  p = nth 0 experiencePatterns Eps \/ p = nth 2 experiencePatterns Eps ->
  isDigit c = true -> derives p w ->
  derives p (c :: w) /\ (leading_number w <= leading_number (c :: w))%Z.
Proof.
  intros Hp Hc D. split.
  - destruct Hp as [->| ->]; cbn [nth experiencePatterns PDFParser.cat] in D |- *;
      apply derives_seq_inv in D; destruct D as [u [v [-> [Du Dv]]]];
      apply derives_seq_inv in Du; destruct Du as [u1 [u2 [-> [D1 D2]]]];
      change (c :: (u1 ++ u2) ++ v) with (([c] ++ (u1 ++ u2)) ++ v);
      (apply d_seq; [|exact Dv]);
      (apply d_seq; [apply d_cls; exact Hc|]);
      apply d_star_cons; assumption.
  - destruct (digits_first_shape p w Hp D) as [ds [tail [-> [Nd [Fd [Nt Ft]]]]]].
    destruct tail as [|t0 r]; [congruence|].
    cbn [forallb] in Ft. apply andb_true_iff in Ft. destruct Ft as [Ht _].
    apply negb_true_iff in Ht.
    unfold leading_number.
    pose proof (first_run [] ds t0 r eq_refl Nd Fd Ht) as R1.
    pose proof (first_run [] (c :: ds) t0 r eq_refl ltac:(discriminate)
                  ltac:(cbn [forallb]; rewrite Hc; exact Fd) Ht) as R2.
    cbn [app] in R1, R2. rewrite R1, R2.
    destruct (digitsValue_digits ds 0%Z Fd (Z.le_refl 0)) as [v [E _]].
    destruct (digitValue_digit c Hc) as [d [Ed Bd]].
    destruct (digitsValue_digits ds (0 * 10 + d)%Z Fd ltac:(lia)) as [v' [E' _]].
    cbn [digitsValue]. rewrite Ed, E, E'.
    apply (digitsValue_mono ds 0%Z (0 * 10 + d)%Z); [lia|exact E|exact E'].
Qed.

Lemma to_run_start p :
  p = nth 0 experiencePatterns Eps \/ p = nth 2 experiencePatterns Eps ->
  forall a w,
    derives p w ->
    exists a' w',
      a ++ w = a' ++ w' /\ derives p w' /\ after_digit (last_of None a') = false /\
      (leading_number w <= leading_number w')%Z.
Proof.
  intros Hp a. induction a as [|c a IH] using rev_ind; intros w D.
  - exists [], w. split; [reflexivity|]. split; [exact D|]. split; [reflexivity|lia].
  - destruct (isDigit c) eqn:Hc.
    + destruct (prepend_digit p c w Hp Hc D) as [D1 L1].
      destruct (IH (c :: w) D1) as [a' [w' [E [D' [A L]]]]].
      exists a', w'. split; [rewrite <- app_assoc; exact E|].
      split; [exact D'|]. split; [exact A|lia].
    + exists (a ++ [c]), w. split; [reflexivity|]. split; [exact D|].
      split; [|lia]. unfold last_of. rewrite rev_app_distr. cbn. exact Hc.
Qed.

(** ** Every occurrence is counted *)

Lemma covered p text a w b :
  In p experiencePatterns -> occurrence p text a w b ->
  exists m,
    In m (match_all false p text) /\ (leading_number w <= leading_number m)%Z.
Proof.
  intros I [E D].
  assert (C : (p = nth 0 experiencePatterns Eps \/ p = nth 2 experiencePatterns Eps) \/
              p = nth 1 experiencePatterns Eps).
  { cbn [In experiencePatterns] in I. cbn [nth experiencePatterns].
    destruct I as [<-|[<-|[<-|[]]]]; auto. }
  destruct C as [Hp|Hp].
  - destruct (to_run_start p Hp a w D) as [a' [w' [E' [D' [A L]]]]].
    destruct (match_all_cutting p (run_start p) text I) as [ms [tl [Em C]]].
    { intros prev t H. unfold run_start in H. apply andb_true_iff in H. tauto. }
    destruct (cutting_covers false p (run_start p) (digits_first_apart p Hp)
                None text ms tl C a' (w' ++ b)) as [m [rest [Im [Et Mt]]]].
    + rewrite E, !app_assoc, E'. reflexivity.
    + unfold run_start. rewrite A. cbn [negb andb].
      apply derives_matchable; [apply experience_plain; exact I|exact D'].
    + exists m. rewrite Em. split; [exact Im|].
      assert (Dm : derives p m).
      { apply (match_all_sound false p text m). rewrite Em. exact Im. }
      rewrite <- (same_start p w' m b rest I D' Dm Et). exact L.
  - destruct (match_all_cutting p (matchable false p) text I) as [ms [tl [Em C]]];
      [auto|].
    assert (Ap : forall prev x y rest,
               x <> [] -> y <> [] ->
               match_here false p prev (x ++ y ++ rest) = Some rest ->
               matchable false p (last_of prev x) (y ++ rest) = false).
    { rewrite Hp. apply experience_first_apart. }
    destruct (cutting_covers false p (matchable false p) Ap
                None text ms tl C a (w ++ b)) as [m [rest [Im [Et Mt]]]].
    + exact E.
    + apply derives_matchable; [apply experience_plain; exact I|exact D].
    + exists m. rewrite Em. split; [exact Im|].
      assert (Dm : derives p m).
      { apply (match_all_sound false p text m). rewrite Em. exact Im. }
      rewrite <- (same_start p w m b rest I D Dm Et). lia.
Qed.

Lemma counted (text m : jsstring) :
  In m (experience_matches text) ->
  exists p a b, In p experiencePatterns /\ occurrence p text a m b.
Proof.
  intros H. unfold experience_matches in H. apply in_flat_map in H.
  destruct H as [p [Ip Im]]. apply match_all_sound in Im. destruct Im as [D [a [b E]]].
  exists p, a, b. split; [exact Ip|]. split; assumption.
Qed.

(** ** extractExperience: the years *)

Lemma whole_text_occurrence p text :
  In text (match_all false p text) -> occurrence p text [] text [].
Proof.
  intros H. apply match_all_sound in H. destruct H as [D _].
  split; [rewrite app_nil_r; reflexivity|exact D].
Qed.

(** C7, as stated, fails.  In the text [9007199254740993 years of
    experience] the first pattern matches the whole text and the integer
    matched is 9007199254740993, but totalYears is 9007199254740992:
    parseInt returns a Number, and no double holds 2^53 + 1. *)
Lemma totalYears_rounds_long_numerals :
  occurrence (nth 0 experiencePatterns Eps) long_numeral [] long_numeral [] /\
  leading_number long_numeral = 9007199254740993%Z /\
  option_map totalYears (normal (extractExperience (VStr long_numeral)))
  = Some (num_of_Z 9007199254740992) /\
  num_of_Z 9007199254740992 <> num_of_Z 9007199254740993.
Proof.
  split; [apply whole_text_occurrence; vm_compute; left; reflexivity|].
  split; [vm_compute; reflexivity|]. split; [vm_compute; reflexivity|].
  intros H. discriminate H.
Qed.

(** C7, amended.  For every text, extractExperience returns, and
    totalYears is the greatest of the Numbers that parseInt reads from the
    occurrences of the three experience-years patterns in the text (from
    the first run of digits of each), 0 when there is no occurrence: no
    occurrence carries a greater Number, and totalYears is 0 or the Number
    of an occurrence.  When every integer matched is below 2^53, as in
    every text without sixteen digits in a row, each such Number is the
    matched integer itself, and totalYears is the greatest integer
    matched.  On the text 5+ years of experience in backend systems, 3
    years in DevOps, totalYears is 5. *)
Theorem extractExperience_totalYears_is_greatest :
  (forall text : jsstring,
     exists info,
       extractExperience (VStr text) = Normal info /\
       (forall p a w b,
           In p experiencePatterns -> occurrence p text a w b ->
           gt (years_of w) (totalYears info) = false) /\
       (totalYears info = num_of_Z 0 \/
        exists p a w b,
          In p experiencePatterns /\ occurrence p text a w b /\
          totalYears info = years_of w) /\
       ((forall p a w b, In p experiencePatterns -> ~ occurrence p text a w b) ->
        totalYears info = num_of_Z 0) /\
       (free (run_at 16 isDigit) None text = true ->
        forall a w b, text = a ++ w ++ b -> (leading_number w < 2 ^ 53)%Z) /\
       ((forall p a w b,
            In p experiencePatterns -> occurrence p text a w b ->
            (leading_number w < 2 ^ 53)%Z) ->
        exists n : Z,
          totalYears info = num_of_Z n /\
          (forall p a w b,
              In p experiencePatterns -> occurrence p text a w b ->
              (leading_number w <= n)%Z) /\
          (n = 0%Z \/
           exists p a w b,
             In p experiencePatterns /\ occurrence p text a w b /\
             leading_number w = n))) /\
  option_map totalYears (normal (extractExperience (VStr years_example)))
  = Some (num_of_Z 5).
Proof.
  split; [|vm_compute; reflexivity].
  intros text. unfold extractExperience, experience_body.
  rewrite (patterns_loop_max text experiencePatterns (num_of_Z 0)) by auto.
  change (List.flat_map (fun p => match_all false p text) experiencePatterns)
    with (experience_matches text).
  cbn [bind try_catch]. eexists. split; [reflexivity|]. cbn [totalYears].
  destruct (fold_keep_max (List.map years_of (experience_matches text)) (num_of_Z 0))
    as [Nn [At [_ Up]]].
  { discriminate. }
  { apply Forall_forall. intros y Hy. apply in_map_iff in Hy.
    destruct Hy as [m [<- _]]. apply years_of_not_nan. }
  set (R := List.fold_left keep_max (List.map years_of (experience_matches text))
                           (num_of_Z 0)) in *.
  assert (Upper : forall p a w b,
             In p experiencePatterns -> occurrence p text a w b ->
             gt (years_of w) R = false).
  { intros p a w b Ip O. destruct (covered p text a w b Ip O) as [m [Im L]].
    apply (gt_trans _ (years_of m)); [apply years_of_not_nan|apply years_of_mono; exact L|].
    apply Up. apply in_map. unfold experience_matches. apply in_flat_map.
    exists p. split; assumption. }
  assert (Attained : R = num_of_Z 0 \/
                     exists p a w b,
                       In p experiencePatterns /\ occurrence p text a w b /\
                       R = years_of w).
  { destruct At as [At|At]; [left; exact At|right].
    apply in_map_iff in At. destruct At as [m [Em Im]].
    destruct (counted text m Im) as [p [a [b [Ip O]]]].
    exists p, a, m, b. split; [exact Ip|]. split; [exact O|symmetry; exact Em]. }
  split; [exact Upper|]. split; [exact Attained|]. split.
  - intros None_. destruct Attained as [A|[p [a [w [b [Ip [O _]]]]]]]; [exact A|].
    exfalso. apply (None_ p a w b Ip O).
  - split.
    { intros Short a w b E. apply (leading_number_small text a w b Short E). }
    intros Below.
    assert (Small : forall p a w b,
               In p experiencePatterns -> occurrence p text a w b ->
               years_of w = num_of_Z (leading_number w)).
    { intros p a w b Ip O. unfold years_of. apply double_of_Z_small.
      split; [apply leading_number_nonneg|apply (Below p a w b Ip O)]. }
    destruct Attained as [A|[p [a [w [b [Ip [O A]]]]]]].
    + exists 0%Z. split; [exact A|]. split; [|left; reflexivity].
      intros p a w b Ip O. pose proof (Upper p a w b Ip O) as U.
      rewrite (Small p a w b Ip O), A, gt_of_Z in U. apply Z.ltb_ge in U. exact U.
    + exists (leading_number w). split; [rewrite A; apply (Small p a w b Ip O)|].
      split; [|right; exists p, a, w, b; auto].
      intros p' a' w' b' Ip' O'. pose proof (Upper p' a' w' b' Ip' O') as U.
      rewrite (Small p' a' w' b' Ip' O'), A, (Small p a w b Ip O), gt_of_Z in U.
      apply Z.ltb_ge in U. exact U.
Qed.

Lemma extractExperience_totalYears_is_greatest_witness :
  exists info n,
    extractExperience (VStr years_example) = Normal info /\
    totalYears info = num_of_Z n /\ (3 <= n)%Z.
Proof.
  destruct (proj1 extractExperience_totalYears_is_greatest years_example)
    as [info [E [_ [_ [_ [S X]]]]]].
  assert (Short : free (run_at 16 isDigit) None years_example = true)
    by (vm_compute; reflexivity).
  destruct (X (fun p a w b _ O => S Short a w b (proj1 O))) as [n [T [B _]]].
  exists info, n. split; [exact E|]. split; [exact T|].
  apply (B (nth 2 experiencePatterns Eps)
           (lit "5+ years of experience in backend systems, ")
           (lit "3 years in") (lit " DevOps")).
  - right. right. left. reflexivity.
  - split; [reflexivity|].
    apply (match_all_sound false _ (lit "3 years in")). vm_compute. left. reflexivity.
Defined.
